(** * github-okr-fetcher: hierarchy resolution, status aggregation and the
    resilient fetch layer

  A shallow embedding of the Go sources

    - [internal/domain/entity/issue.go]     (module [entity])
    - [internal/adapters/github/*.go]       (module [github])
    - [internal/domain/service/okr.go]      (module [service])

  together with the parts of the Go standard library they call
  ([strings], [strconv], [regexp], [sort]), followed by the properties of
  the design document that were checked against them.

  Go strings are byte sequences: they are modelled by [string], whose
  characters are the bytes.  Go [int] values are modelled by [Z]. *)

From Stdlib Require Import ZArith String Ascii List Bool Lia.
From Stdlib Require Import Numbers.DecimalString.
From Stdlib Require Import Permutation.
From stdpp Require Import base gmap list strings.

Local Open Scope Z_scope.
Set Warnings "-register-all".

(** ** The Go [strings] package *)

Module GoStrings.

(** ['A'..'Z'] are mapped to ['a'..'z'].  [strings.ToLower] does this on
    the ASCII range; bytes from 0x80 upwards are left as they are, which
    is what Go does for every rune that has no lower-case mapping (all
    the emoji used by the classifiers below). *)
Definition lower_byte (c : ascii) : ascii :=
  let n := nat_of_ascii c in
  if ((65 <=? n)%nat && (n <=? 90)%nat)%bool then ascii_of_nat (n + 32) else c.

Fixpoint ToLower (s : string) : string :=
  match s with
  | EmptyString => EmptyString
  | String c s' => String (lower_byte c) (ToLower s')
  end.

Fixpoint HasPrefix (s prefix : string) : bool :=
  match prefix, s with
  | EmptyString, _ => true
  | String _ _, EmptyString => false
  | String p prefix', String c s' => (Ascii.eqb p c && HasPrefix s' prefix')%bool
  end.

(** [strings.Contains s substr]: [substr] occurs in [s] at some byte
    offset. *)
Fixpoint Contains (s substr : string) : bool :=
  (HasPrefix s substr ||
   match s with
   | EmptyString => false
   | String _ s' => Contains s' substr
   end)%bool.

(** The comparison operators of Go on strings are byte-wise
    lexicographic. *)
Fixpoint lt (a b : string) : bool :=
  match a, b with
  | _, EmptyString => false
  | EmptyString, String _ _ => true
  | String x a', String y b' =>
      let nx := nat_of_ascii x in
      let ny := nat_of_ascii y in
      if (nx <? ny)%nat then true
      else if (ny <? nx)%nat then false
      else lt a' b'
  end.

Definition gt (a b : string) : bool := lt b a.

End GoStrings.

(** ** [internal/domain/entity/issue.go] *)

Module entity.

(** [IssueType] is a string type with two named constants; a freshly
    fetched issue carries the zero value until resolution assigns one. *)
Inductive IssueType :=
| IssueTypeObjective
| IssueTypeKeyResult
| IssueTypeUnset.

#[global] Instance IssueType_eq_dec : EqDecision IssueType.
Proof. solve_decision. Defined.

Record Issue := mkIssue {
  Number : Z;
  Title : string;
  URL : string;
  Type_ : IssueType;
  Body : string;
  State : string;
  Labels : list string
}.

Inductive WeeklyUpdateStatus :=
| StatusOnTrack
| StatusCaution
| StatusDelayed
| StatusAtRisk
| StatusBlocked
| StatusCompleted
| StatusUnknown.

#[global] Instance WeeklyUpdateStatus_eq_dec : EqDecision WeeklyUpdateStatus.
Proof. solve_decision. Defined.

Record WeeklyUpdate := mkWeeklyUpdate {
  Date : string;
  Content : string;
  Author : string;
  Status : WeeklyUpdateStatus
}.

(** [LatestUpdate] is a pointer in the source: [None] is [nil]. *)
Inductive IssueWithUpdates := mkIssueWithUpdates {
  Issue_ : Issue;
  LatestUpdate : option WeeklyUpdate;
  AllUpdates : list WeeklyUpdate;
  ChildIssues : list IssueWithUpdates
}.

Definition with_Type (t : IssueType) (i : Issue) : Issue :=
  {| Number := Number i; Title := Title i; URL := URL i; Type_ := t;
     Body := Body i; State := State i; Labels := Labels i |}.

Definition IsObjective (i : Issue) : bool :=
  bool_decide (Type_ i = IssueTypeObjective).

Definition IsKeyResult (i : Issue) : bool :=
  bool_decide (Type_ i = IssueTypeKeyResult).

Definition HasLabel (i : Issue) (label : string) : bool :=
  existsb (fun l => String.eqb l label) (Labels i).

(** The source collects the required labels it meets in a
    [map[string]bool] and then looks every required label up (a missing
    key reads as [false]). *)
Definition HasAllLabels (i : Issue) (requiredLabels : list string) : bool :=
  match requiredLabels with
  | [] => true
  | _ =>
      let foundLabels : gmap string bool :=
        foldl (fun m label =>
                 foldl (fun m required =>
                          if String.eqb label required
                          then <[required := true]> m else m)
                       m requiredLabels)
              ∅ (Labels i) in
      forallb (fun required => default false (foundLabels !! required))
              requiredLabels
  end.

Definition GetLatestUpdateStatus (i : IssueWithUpdates) : WeeklyUpdateStatus :=
  match LatestUpdate i with
  | Some u => Status u
  | None => StatusUnknown
  end.

Definition GetActualStatus (i : IssueWithUpdates) : WeeklyUpdateStatus :=
  let updateStatus := GetLatestUpdateStatus i in
  if String.eqb (State (Issue_ i)) "closed" then StatusCompleted
  else if (bool_decide (updateStatus = StatusCompleted)
           && String.eqb (State (Issue_ i)) "open")%bool
  then StatusOnTrack
  else updateStatus.

(** The [for _, update := range i.AllUpdates] loop of [GetKRStatus]:
    [Some s] when the loop returns [s], [None] when it runs to the end. *)
Fixpoint scanAllUpdates (state : string) (updates : list WeeklyUpdate)
  : option WeeklyUpdateStatus :=
  match updates with
  | [] => None
  | update :: rest =>
      if bool_decide (Status update ≠ StatusUnknown) then
        if (bool_decide (Status update = StatusCompleted)
            && String.eqb state "open")%bool
        then Some StatusOnTrack
        else Some (Status update)
      else scanAllUpdates state rest
  end.

Definition GetKRStatus (i : IssueWithUpdates) : WeeklyUpdateStatus :=
  if negb (IsKeyResult (Issue_ i)) then GetActualStatus i
  else if String.eqb (State (Issue_ i)) "closed" then StatusCompleted
  else
    match scanAllUpdates (State (Issue_ i)) (AllUpdates i) with
    | Some s => s
    | None =>
        let latestStatus := GetLatestUpdateStatus i in
        if bool_decide (latestStatus ≠ StatusUnknown) then
          if (bool_decide (latestStatus = StatusCompleted)
              && String.eqb (State (Issue_ i)) "open")%bool
          then StatusOnTrack
          else latestStatus
        else StatusUnknown
    end.

(** The seven counters declared by [GetObjectiveStatus]. *)
Record krCounters := mkCounters {
  completed : Z;
  blocked : Z;
  delayed : Z;
  atRisk : Z;
  caution : Z;
  onTrack : Z;
  unknown : Z
}.

Definition zeroCounters : krCounters := mkCounters 0 0 0 0 0 0 0.

(** One iteration of the counting loop: the [switch] on the status. *)
Definition countStatus (c : krCounters) (s : WeeklyUpdateStatus) : krCounters :=
  match s with
  | StatusCompleted =>
      mkCounters (completed c + 1) (blocked c) (delayed c) (atRisk c)
                 (caution c) (onTrack c) (unknown c)
  | StatusBlocked =>
      mkCounters (completed c) (blocked c + 1) (delayed c) (atRisk c)
                 (caution c) (onTrack c) (unknown c)
  | StatusDelayed =>
      mkCounters (completed c) (blocked c) (delayed c + 1) (atRisk c)
                 (caution c) (onTrack c) (unknown c)
  | StatusAtRisk =>
      mkCounters (completed c) (blocked c) (delayed c) (atRisk c + 1)
                 (caution c) (onTrack c) (unknown c)
  | StatusCaution =>
      mkCounters (completed c) (blocked c) (delayed c) (atRisk c)
                 (caution c + 1) (onTrack c) (unknown c)
  | StatusOnTrack =>
      mkCounters (completed c) (blocked c) (delayed c) (atRisk c)
                 (caution c) (onTrack c + 1) (unknown c)
  | StatusUnknown =>
      mkCounters (completed c) (blocked c) (delayed c) (atRisk c)
                 (caution c) (onTrack c) (unknown c + 1)
  end.

Definition countKRs (children : list IssueWithUpdates) : krCounters :=
  foldl (fun c kr => countStatus c (GetKRStatus kr)) zeroCounters children.

Definition GetObjectiveStatus (i : IssueWithUpdates) : WeeklyUpdateStatus :=
  if (negb (IsObjective (Issue_ i))
      || (Z.of_nat (length (ChildIssues i)) =? 0))%bool
  then GetActualStatus i
  else
    let c := countKRs (ChildIssues i) in
    let totalKRs := Z.of_nat (length (ChildIssues i)) in
    if blocked c >? 0 then StatusBlocked
    else if delayed c >? 0 then StatusDelayed
    else if atRisk c >? 0 then StatusAtRisk
    else if caution c >? 0 then StatusCaution
    else if completed c =? totalKRs then StatusCompleted
    else if completed c >=? Z.quot totalKRs 2 then StatusOnTrack
    else if onTrack c >? 0 then StatusOnTrack
    else StatusUnknown.

End entity.

(** ** Status classification of comment bodies *)

(** The glyph literals of the two classifiers, as the UTF-8 byte strings
    the Go string literals denote. *)
Module Glyph.

Definition red_circle : string := "🔴".        (* U+1F534 *)
Definition no_entry : string := "🚫".          (* U+1F6AB *)
Definition yellow_circle : string := "🟡".     (* U+1F7E1 *)
Definition warning : string := "⚠️".           (* U+26A0 U+FE0F *)
Definition green_circle : string := "🟢".      (* U+1F7E2 *)
Definition check_mark_button : string := "✅". (* U+2705 *)
Definition check_mark : string := "✓".         (* U+2713 *)
Definition cross_mark : string := "❌".        (* U+274C *)

End Glyph.

(** [internal/adapters/github/repository.go], [detectStatusFromContent]. *)
Module github_status.
Import GoStrings entity.

Definition detectStatusFromContent (content : string) : WeeklyUpdateStatus :=
  let contentLower := ToLower content in
  (* completion indicators first (highest priority) *)
  if Contains contentLower "completed" || Contains contentLower "done"
     || Contains contentLower "finished"
  then StatusCompleted
  (* blocked indicators (red colour / emoji) *)
  else if Contains content Glyph.red_circle || Contains content Glyph.no_entry
          || Contains contentLower "red" || Contains contentLower "blocked"
          || Contains contentLower "stuck" || Contains contentLower "cannot"
  then StatusBlocked
  (* delayed indicators *)
  else if Contains content Glyph.red_circle
            && (Contains contentLower "delay" || Contains contentLower "behind")
          || Contains contentLower "delayed"
  then StatusDelayed
  (* caution indicators (yellow colour / emoji) *)
  else if Contains content Glyph.yellow_circle || Contains content Glyph.warning
          || Contains contentLower "yellow" || Contains contentLower "caution"
          || Contains contentLower "warning"
  then StatusCaution
  (* at-risk indicators *)
  else if Contains contentLower "at risk" || Contains contentLower "at-risk"
          || Contains contentLower "risk"
  then StatusAtRisk
  (* on-track indicators (green colour / emoji) *)
  else if Contains content Glyph.green_circle
          || Contains content Glyph.check_mark_button
          || Contains contentLower "green" || Contains contentLower "on track"
          || Contains contentLower "on-track" || Contains contentLower "progress"
  then StatusOnTrack
  else StatusUnknown.

End github_status.

(** [internal/domain/service/okr.go], [DetectStatusFromContent]. *)
Module service_status.
Import GoStrings entity.

Definition DetectStatusFromContent (content : string) : WeeklyUpdateStatus :=
  let contentLower := ToLower content in
  (* completion indicators *)
  if Contains contentLower "completed" || Contains contentLower "done"
     || Contains contentLower "finished"
     || Contains contentLower Glyph.check_mark_button
     || Contains contentLower Glyph.check_mark
  then StatusCompleted
  (* blocked indicators *)
  else if Contains contentLower "blocked" || Contains contentLower "stuck"
          || Contains contentLower "issue" || Contains contentLower "problem"
          || Contains contentLower Glyph.no_entry
          || Contains contentLower Glyph.cross_mark
  then StatusBlocked
  (* at-risk indicators *)
  else if Contains contentLower "behind" || Contains contentLower "delayed"
          || Contains contentLower "risk" || Contains contentLower "concern"
          || Contains contentLower Glyph.warning
          || Contains contentLower Glyph.yellow_circle
  then StatusAtRisk
  (* on-track indicators *)
  else if Contains contentLower "on track" || Contains contentLower "progress"
          || Contains contentLower "good"
          || Contains contentLower Glyph.green_circle
          || Contains contentLower Glyph.check_mark_button
  then StatusOnTrack
  (* default to on-track if no specific indicators found *)
  else StatusOnTrack.

End service_status.

(** ** The Go [strconv] and [regexp] packages *)

Module strconv.

Definition maxInt : Z := 9223372036854775807.

Definition isDigit (c : ascii) : bool :=
  let n := nat_of_ascii c in ((48 <=? n)%nat && (n <=? 57)%nat)%bool.

Fixpoint digitsValue (acc : Z) (s : string) : option Z :=
  match s with
  | EmptyString => Some acc
  | String c s' =>
      if isDigit c
      then digitsValue (10 * acc + (Z.of_nat (nat_of_ascii c) - 48)) s'
      else None
  end.

Definition unsignedValue (s : string) : option Z :=
  match s with
  | EmptyString => None
  | _ => digitsValue 0 s
  end.

(** [strconv.Atoi]: an optional sign followed by decimal digits; [None]
    stands for the syntax and range errors. *)
Definition Atoi (s : string) : option Z :=
  match s with
  | String "-" s' =>
      match unsignedValue s' with
      | Some v => if v <=? maxInt + 1 then Some (- v) else None
      | None => None
      end
  | String "+" s' =>
      match unsignedValue s' with
      | Some v => if v <=? maxInt then Some v else None
      | None => None
      end
  | _ =>
      match unsignedValue s with
      | Some v => if v <=? maxInt then Some v else None
      | None => None
      end
  end.

(** The [%d] verb of [fmt]. *)
Definition Itoa (n : Z) : string := NilEmpty.string_of_int (Z.to_int n).

End strconv.

Module regexp.
Import GoStrings.

(** The fragment of the RE2 syntax that the patterns of the repository
    use.  Repetition is only ever applied to single-byte classes. *)
Inductive re :=
| Eps
| Byte (p : ascii -> bool)   (* one byte of a class: a literal, \s, \d, [^/] *)
| Fold (c : ascii)           (* the literal [c] under the (?i) flag *)
| Cat (r1 r2 : re)
| Opt (r : re)               (* r?  (greedy) *)
| Star (p : ascii -> bool)   (* p*  (greedy) *)
| Cap (r : re)               (* a capturing group *)
| BeginLine.                 (* ^ under the (?m) flag *)

Definition isNewline (c : ascii) : bool := Ascii.eqb c "010".

(** [\s] is [[\t\n\f\r ]] and [\d] is [[0-9]]. *)
Definition space (c : ascii) : bool :=
  let n := nat_of_ascii c in
  ((n =? 9)%nat || (n =? 10)%nat || (n =? 12)%nat || (n =? 13)%nat
   || (n =? 32)%nat)%bool.

Definition digit (c : ascii) : bool := strconv.isDigit c.

Definition notSlash (c : ascii) : bool := negb (Ascii.eqb c "/").

Fixpoint dropBytes (n : nat) (s : string) : string :=
  match n, s with
  | O, _ => s
  | S n', String _ s' => dropBytes n' s'
  | S _, EmptyString => EmptyString
  end.

Fixpoint takeBytes (n : nat) (s : string) : string :=
  match n, s with
  | O, _ => EmptyString
  | S n', String c s' => String c (takeBytes n' s')
  | S _, EmptyString => EmptyString
  end.

(** The text consumed between the input [s] and its suffix [rest]. *)
Definition consumed (s rest : string) : string :=
  takeBytes (String.length s - String.length rest) s.

(** Under (?i) a letter also matches the other members of its Unicode
    simple-folding orbit: U+212A (Kelvin sign) folds to [k] and U+017F
    (long s) folds to [s]. *)
Definition foldExtra (c : ascii) : option string :=
  if Ascii.eqb c "k" then Some "K"%string
  else if Ascii.eqb c "s" then Some "ſ"%string
  else None.

Section Matcher.
Context {X : Type}.

(** A continuation receives: whether the position is at the beginning of a
    line, the remaining input, and the groups captured so far. *)
Definition cont := bool -> string -> list string -> option X.

Fixpoint matchStar (p : ascii -> bool) (bol : bool) (s : string)
  (caps : list string) (k : cont) : option X :=
  match s with
  | String c s' =>
      if p c then
        match matchStar p (isNewline c) s' caps k with
        | Some x => Some x
        | None => k bol s caps
        end
      else k bol s caps
  | EmptyString => k bol s caps
  end.

Fixpoint matchRe (r : re) (bol : bool) (s : string) (caps : list string)
  (k : cont) : option X :=
  match r with
  | Eps => k bol s caps
  | Byte p =>
      match s with
      | String c s' => if p c then k (isNewline c) s' caps else None
      | EmptyString => None
      end
  | Fold c =>
      match s with
      | String b s' =>
          if Ascii.eqb (lower_byte b) c then k (isNewline b) s' caps
          else
            match foldExtra c with
            | Some alt =>
                if HasPrefix s alt
                then k false (dropBytes (String.length alt) s) caps
                else None
            | None => None
            end
      | EmptyString => None
      end
  | Cat r1 r2 =>
      matchRe r1 bol s caps (fun bol' s' caps' => matchRe r2 bol' s' caps' k)
  | Opt r' =>
      match matchRe r' bol s caps k with
      | Some x => Some x
      | None => k bol s caps
      end
  | Star p => matchStar p bol s caps k
  | Cap r' =>
      matchRe r' bol s caps
        (fun bol' s' caps' => k bol' s' (caps' ++ [consumed s s']))
  | BeginLine => if bol then k bol s caps else None
  end.

End Matcher.

(** Leftmost match: the start offsets are tried from left to right, and at
    each offset the alternatives in the order of a backtracking matcher
    (the leftmost-first rule of RE2). *)
Fixpoint findFrom (r : re) (bol : bool) (s : string) : option (list string) :=
  match matchRe r bol s [] (fun _ s' caps => Some (consumed s s' :: caps)) with
  | Some m => Some m
  | None =>
      match s with
      | String c s' => findFrom r (isNewline c) s'
      | EmptyString => None
      end
  end.

(** [FindStringSubmatch]: [Some (whole :: groups)], or [None] for [nil]. *)
Definition FindStringSubmatch (r : re) (s : string) : option (list string) :=
  findFrom r true s.

Definition MatchString (r : re) (s : string) : bool :=
  bool_decide (is_Some (FindStringSubmatch r s)).

(** Pattern builders. *)
Fixpoint lit (s : string) : re :=
  match s with
  | EmptyString => Eps
  | String c s' => Cat (Byte (Ascii.eqb c)) (lit s')
  end.

Fixpoint ilit (s : string) : re :=
  match s with
  | EmptyString => Eps
  | String c s' => Cat (Fold c) (ilit s')
  end.

Definition Plus (p : ascii -> bool) : re := Cat (Byte p) (Star p).

Fixpoint Rep (n : nat) (p : ascii -> bool) : re :=
  match n with
  | O => Eps
  | S n' => Cat (Byte p) (Rep n' p)
  end.

Fixpoint seq_re (rs : list re) : re :=
  match rs with
  | [] => Eps
  | r :: rs' => Cat r (seq_re rs')
  end.

End regexp.

(** ** The Go [sort] package: [sort.Slice]

    [sort.Slice(x, less)] runs the pattern-defeating quicksort
    [pdqsort_func] of [sort/zsortfunc.go] (Go 1.19 and later; the module
    declares go 1.23) on the slice, through [Less(i, j)] and
    [Swap(i, j)] on indices.  The slice is a [list A]; indices are [Z] as
    they are [int] in the source. *)

Module GoSort.

Section Sort.
Context {A : Type} (less : A -> A -> bool).

Definition at_ (data : list A) (i : Z) : option A :=
  if i <? 0 then None else data !! Z.to_nat i.

Definition Less (data : list A) (i j : Z) : bool :=
  match at_ data i, at_ data j with
  | Some x, Some y => less x y
  | _, _ => false
  end.

Definition Swap (data : list A) (i j : Z) : list A :=
  match at_ data i, at_ data j with
  | Some x, Some y => <[Z.to_nat i := y]> (<[Z.to_nat j := x]> data)
  | _, _ => data
  end.

(** [for j := i; j > a && data.Less(j, j-1); j-- { data.Swap(j, j-1) }] *)
Fixpoint insertionInner (fuel : nat) (data : list A) (a j : Z) : list A :=
  match fuel with
  | O => data
  | S fuel' =>
      if (j >? a) && Less data j (j - 1)
      then insertionInner fuel' (Swap data j (j - 1)) a (j - 1)
      else data
  end.

Definition insertionSort_func (data : list A) (a b : Z) : list A :=
  foldl (fun data i => insertionInner (Z.to_nat (i - a)) data a i)
        data (seqZ (a + 1) (b - (a + 1))).

(** [siftDown_func]: [root] strictly increases, so [hi] steps suffice. *)
Fixpoint siftDownLoop (fuel : nat) (data : list A) (root hi first : Z) : list A :=
  match fuel with
  | O => data
  | S fuel' =>
      let child := 2 * root + 1 in
      if child >=? hi then data
      else
        let child :=
          if (child + 1 <? hi) && Less data (first + child) (first + child + 1)
          then child + 1 else child in
        if negb (Less data (first + root) (first + child)) then data
        else siftDownLoop fuel' (Swap data (first + root) (first + child))
                          child hi first
  end.

Definition siftDown_func (data : list A) (lo hi first : Z) : list A :=
  siftDownLoop (Z.to_nat hi) data lo hi first.

Definition heapSort_func (data : list A) (a b : Z) : list A :=
  let first := a in
  let lo := 0 in
  let hi := b - a in
  (* build heap with greatest element at top *)
  let data :=
    foldl (fun data i => siftDown_func data i hi first) data
          (reverse (seqZ 0 (Z.quot (hi - 1) 2 + 1))) in
  (* pop elements, largest first, into end of data *)
  foldl (fun data i => siftDown_func (Swap data first (first + i)) lo i first)
        data (reverse (seqZ 0 hi)).

(** [for i <= j && cond(i) { i++ }] and [for i <= j && cond(j) { j-- }]. *)
Fixpoint scanUp (fuel : nat) (cond : Z -> bool) (i j : Z) : Z :=
  match fuel with
  | O => i
  | S fuel' => if (i <=? j) && cond i then scanUp fuel' cond (i + 1) j else i
  end.

Fixpoint scanDown (fuel : nat) (cond : Z -> bool) (i j : Z) : Z :=
  match fuel with
  | O => j
  | S fuel' => if (i <=? j) && cond j then scanDown fuel' cond i (j - 1) else j
  end.

Definition span (i j : Z) : nat := Z.to_nat (j - i + 1).

(** The second, unconditional [for] loop of [partition_func]. *)
Fixpoint partitionLoop (fuel : nat) (data : list A) (a i j : Z) : list A * Z :=
  match fuel with
  | O => (data, j)
  | S fuel' =>
      let i := scanUp (span i j) (fun i => Less data i a) i j in
      let j := scanDown (span i j) (fun j => negb (Less data j a)) i j in
      if i >? j then (data, j)
      else partitionLoop fuel' (Swap data i j) a (i + 1) (j - 1)
  end.

Definition partition_func (data : list A) (a b pivot : Z) : list A * Z * bool :=
  let data := Swap data a pivot in
  let i := a + 1 in
  let j := b - 1 in
  let i := scanUp (span i j) (fun i => Less data i a) i j in
  let j := scanDown (span i j) (fun j => negb (Less data j a)) i j in
  if i >? j then (Swap data j a, j, true)
  else
    let data := Swap data i j in
    let '(data, j) := partitionLoop (span (i + 1) (j - 1)) data a (i + 1) (j - 1) in
    (Swap data j a, j, false).

Fixpoint partitionEqualLoop (fuel : nat) (data : list A) (a i j : Z) : list A * Z :=
  match fuel with
  | O => (data, i)
  | S fuel' =>
      let i := scanUp (span i j) (fun i => negb (Less data a i)) i j in
      let j := scanDown (span i j) (fun j => Less data a j) i j in
      if i >? j then (data, i)
      else partitionEqualLoop fuel' (Swap data i j) a (i + 1) (j - 1)
  end.

Definition partitionEqual_func (data : list A) (a b pivot : Z) : list A * Z :=
  let data := Swap data a pivot in
  partitionEqualLoop (S (span (a + 1) (b - 1))) data a (a + 1) (b - 1).

(** The two shifting loops of [partialInsertionSort_func]. *)
Fixpoint shiftLeft (fuel : nat) (data : list A) (j : Z) : list A :=
  match fuel with
  | O => data
  | S fuel' =>
      if j >=? 1 then
        if negb (Less data j (j - 1)) then data
        else shiftLeft fuel' (Swap data j (j - 1)) (j - 1)
      else data
  end.

Fixpoint shiftRight (fuel : nat) (data : list A) (j b : Z) : list A :=
  match fuel with
  | O => data
  | S fuel' =>
      if j <? b then
        if negb (Less data j (j - 1)) then data
        else shiftRight fuel' (Swap data j (j - 1)) (j + 1) b
      else data
  end.

Definition maxSteps : nat := 5.
Definition shortestShifting : Z := 50.

Fixpoint partialInsertionLoop (steps : nat) (data : list A) (a b i : Z)
  : list A * bool :=
  match steps with
  | O => (data, false)
  | S steps' =>
      let i := scanUp (span i (b - 1)) (fun i => negb (Less data i (i - 1)))
                      i (b - 1) in
      if i =? b then (data, true)
      else if b - a <? shortestShifting then (data, false)
      else
        let data := Swap data i (i - 1) in
        (* shift the smaller one to the left *)
        let data :=
          if i - a >=? 2 then shiftLeft (Z.to_nat i) data (i - 1) else data in
        (* shift the greater one to the right *)
        let data :=
          if b - i >=? 2 then shiftRight (Z.to_nat (b - i)) data (i + 1) b
          else data in
        partialInsertionLoop steps' data a b i
  end.

Definition partialInsertionSort_func (data : list A) (a b : Z) : list A * bool :=
  partialInsertionLoop maxSteps data a b (a + 1).

(** [xorshift.Next] on [uint64]. *)
Definition xorshiftNext (r : Z) : Z :=
  let m := 2 ^ 64 in
  let r := Z.lxor r (Z.shiftl r 13 mod m) in
  let r := Z.lxor r (Z.shiftr r 7) in
  let r := Z.lxor r (Z.shiftl r 17 mod m) in
  r.

(** [bits.Len]: the number of bits needed to represent [n]. *)
Definition bitsLen (n : Z) : Z := if n <=? 0 then 0 else Z.log2 n + 1.

Definition nextPowerOfTwo (length : Z) : Z := Z.shiftl 1 (bitsLen length).

Definition breakPatterns_func (data : list A) (a b : Z) : list A :=
  let length := b - a in
  if length >=? 8 then
    let modulus := nextPowerOfTwo length in
    let idx := a + Z.quot length 4 * 2 - 1 in
    fst (foldl (fun '(data, random) i =>
                  let random := xorshiftNext random in
                  let other := Z.land random (modulus - 1) in
                  let other := if other >=? length then other - length else other in
                  (Swap data (idx - 1 + i) (a + other), random))
               (data, length) (seqZ 0 3))
  else data.

Inductive sortedHint := unknownHint | increasingHint | decreasingHint.

(** [order2_func], [median_func] and [medianAdjacent_func] only read the
    slice and count the swaps of indices they make. *)
Definition order2_func (data : list A) (a b : Z) (swaps : Z) : Z * Z * Z :=
  if Less data b a then (b, a, swaps + 1) else (a, b, swaps).

Definition median_func (data : list A) (a b c : Z) (swaps : Z) : Z * Z :=
  let '(a, b, swaps) := order2_func data a b swaps in
  let '(b, c, swaps) := order2_func data b c swaps in
  let '(a, b, swaps) := order2_func data a b swaps in
  (b, swaps).

Definition medianAdjacent_func (data : list A) (a : Z) (swaps : Z) : Z * Z :=
  median_func data (a - 1) a (a + 1) swaps.

Definition shortestNinther : Z := 50.
Definition maxSwaps : Z := 4 * 3.

Definition choosePivot_func (data : list A) (a b : Z) : Z * sortedHint :=
  let l := b - a in
  let swaps := 0 in
  let i := a + Z.quot l 4 * 1 in
  let j := a + Z.quot l 4 * 2 in
  let k := a + Z.quot l 4 * 3 in
  let '(j, swaps) :=
    if l >=? 8 then
      let '(i, j, k, swaps) :=
        if l >=? shortestNinther then
          let '(i, swaps) := medianAdjacent_func data i swaps in
          let '(j, swaps) := medianAdjacent_func data j swaps in
          let '(k, swaps) := medianAdjacent_func data k swaps in
          (i, j, k, swaps)
        else (i, j, k, swaps) in
      median_func data i j k swaps
    else (j, swaps) in
  if swaps =? 0 then (j, increasingHint)
  else if swaps =? maxSwaps then (j, decreasingHint)
  else (j, unknownHint).

Fixpoint reverseLoop (fuel : nat) (data : list A) (i j : Z) : list A :=
  match fuel with
  | O => data
  | S fuel' =>
      if i <? j then reverseLoop fuel' (Swap data i j) (i + 1) (j - 1) else data
  end.

Definition reverseRange_func (data : list A) (a b : Z) : list A :=
  reverseLoop (Z.to_nat (b - a)) data a (b - 1).

Definition maxInsertion : Z := 12.

(** [pdqsort_func data a b limit].  Every turn of its loop either returns
    or continues on a strictly shorter range, and the recursive call is on
    a strictly shorter range too: [fuel] larger than [b - a] is never
    used up. *)
Fixpoint pdqsortLoop (fuel : nat) (data : list A) (a b limit : Z)
  (wasBalanced wasPartitioned : bool) : list A :=
  match fuel with
  | O => data
  | S fuel' =>
      let length := b - a in
      if length <=? maxInsertion then insertionSort_func data a b
      else if limit =? 0 then heapSort_func data a b
      else
        let '(data, limit) :=
          if negb wasBalanced then (breakPatterns_func data a b, limit - 1)
          else (data, limit) in
        let '(pivot, hint) := choosePivot_func data a b in
        let '(data, pivot, hint) :=
          match hint with
          | decreasingHint =>
              (reverseRange_func data a b, (b - 1) - (pivot - a), increasingHint)
          | _ => (data, pivot, hint)
          end in
        let '(data, done) :=
          match hint with
          | increasingHint =>
              if wasBalanced && wasPartitioned
              then partialInsertionSort_func data a b
              else (data, false)
          | _ => (data, false)
          end in
        if done then data
        else if (a >? 0) && negb (Less data (a - 1) pivot) then
          let '(data, mid) := partitionEqual_func data a b pivot in
          pdqsortLoop fuel' data mid b limit wasBalanced wasPartitioned
        else
          let '(data, mid, alreadyPartitioned) := partition_func data a b pivot in
          let wasPartitioned := alreadyPartitioned in
          let leftLen := mid - a in
          let rightLen := b - mid in
          let balanceThreshold := Z.quot length 8 in
          if leftLen <? rightLen then
            let wasBalanced := leftLen >=? balanceThreshold in
            let data := pdqsortLoop fuel' data a mid limit true true in
            pdqsortLoop fuel' data (mid + 1) b limit wasBalanced wasPartitioned
          else
            let wasBalanced := rightLen >=? balanceThreshold in
            let data := pdqsortLoop fuel' data (mid + 1) b limit true true in
            pdqsortLoop fuel' data a mid limit wasBalanced wasPartitioned
  end.

Definition pdqsort_func (data : list A) (a b limit : Z) : list A :=
  pdqsortLoop (S (Z.to_nat (b - a))) data a b limit true true.

Definition Slice (x : list A) : list A :=
  let length := Z.of_nat (List.length x) in
  let limit := bitsLen length in
  pdqsort_func x 0 length limit.

End Sort.
End GoSort.

(** ** The go-github client library: the data the adapter reads

    Pointer-typed fields are [option]s, [None] being the [nil] pointer. *)

Module gogithub.

Module Label.
Record t := mk { Name : option string }.
End Label.

Module Issue.
Record t := mk {
  Number : option Z;
  Title : option string;
  HTMLURL : option string;
  Body : option string;
  State : option string;
  Labels : list Label.t
}.
End Issue.

Module User.
Record t := mk { Login : option string }.
End User.

(** [CreatedAt] is kept as its rendering by [Format("2006-01-02")], the
    only view the adapter takes of it. *)
Module IssueComment.
Record t := mk {
  Body : option string;
  User : option User.t;
  CreatedAt : option string
}.
End IssueComment.

(** [github.Response]: the pagination cursor and what
    [updateRateLimitStats] reads of the embedded [http.Response]. *)
Module Response.
Record t := mk {
  NextPage : Z;
  StatusCode : Z;
  XRateLimitRemaining : string;
  XRateLimitReset : string
}.
End Response.

End gogithub.

(** ** [internal/domain/entity/config.go]: the fields the fetch layer reads *)

Module config.

Record Config := mkConfig {
  MaxRetries : Z;       (* GitHub.MaxRetries *)
  PageSize : Z;         (* GitHub.PageSize *)
  MaxIssuesLimit : Z;   (* GitHub.MaxIssuesLimit *)
  IssuesTTLMin : Z      (* Cache.IssuesTTLMin *)
}.

End config.

(** A Go call either returns or does not terminate; loops whose exit
    depends on the remote side are run with fuel. *)
Inductive outcome (A : Type) :=
| Returns (a : A)
| Diverges.
Arguments Returns {A} a.
Arguments Diverges {A}.

(** Stateful code is written in the state monad over [outcome]. *)
Definition M (S A : Type) : Type := S -> outcome (A * S).

#[global] Instance M_ret {S} : MRet (M S) :=
  fun A a s => Returns (a, s).

#[global] Instance M_bind {S} : MBind (M S) :=
  fun A B f m s =>
    match m s with
    | Returns (a, s') => f a s'
    | Diverges => Diverges
    end.

Definition get {S} : M S S := fun s => Returns (s, s).
Definition modify {S} (f : S -> S) : M S unit := fun s => Returns (tt, f s).

(** ** [internal/adapters/github]: statistics, cache and the bridge client *)

Module github.
Import GoStrings.

Record ClientStats := mkStats {
  APICallsCount : Z;
  CacheHitsCount : Z;
  ErrorsCount : Z;
  RetryCount : Z;
  RateLimitHits : Z;
  LastAPICall : option Z;
  RemainingQuota : Z;
  QuotaResetTime : option Z
}.

Definition newStats : ClientStats := mkStats 0 0 0 0 0 None 0 None.

(** What the cache stores behind [interface{}]. *)
Inductive CacheData :=
| CachedIssues (issues : list gogithub.Issue.t)
| CachedComments (comments : list gogithub.IssueComment.t)
| CachedOther.

Record CacheEntry := mkEntry { Data : CacheData; ExpiresAt : Z }.

(** Everything outside the process: the clock, the token bucket and the
    GitHub API.  Times are in seconds. *)
Class Remote (R : Type) := {
  Now : R -> Z;
  Sleep : Z -> R -> R;
  Wait : R -> option string * R;
  SearchIssues : string -> Z -> Z -> R ->
                 (string + list gogithub.Issue.t * gogithub.Response.t) * R;
  ListComments : string -> string -> Z -> Z -> Z -> R ->
                 (string + list gogithub.IssueComment.t * gogithub.Response.t) * R
}.

Record BridgeClient (R : Type) := mkClient {
  stats : ClientStats;
  cache : option (gmap string CacheEntry);
  config : option config.Config;
  remote : R
}.
Arguments mkClient {R}.
Arguments stats {R}.
Arguments cache {R}.
Arguments config {R}.
Arguments remote {R}.

Section Client.
Context {R : Type} `{Remote R}.

Definition with_stats (s : ClientStats) (b : BridgeClient R) : BridgeClient R :=
  mkClient s (cache b) (config b) (remote b).

Definition with_cache (c : option (gmap string CacheEntry)) (b : BridgeClient R)
  : BridgeClient R :=
  mkClient (stats b) c (config b) (remote b).

Definition with_remote (r : R) (b : BridgeClient R) : BridgeClient R :=
  mkClient (stats b) (cache b) (config b) r.

Definition IncrementAPICall (b : BridgeClient R) : BridgeClient R :=
  let s := stats b in
  with_stats (mkStats (APICallsCount s + 1) (CacheHitsCount s) (ErrorsCount s)
                      (RetryCount s) (RateLimitHits s) (Some (Now (remote b)))
                      (RemainingQuota s) (QuotaResetTime s)) b.

Definition IncrementError (b : BridgeClient R) : BridgeClient R :=
  let s := stats b in
  with_stats (mkStats (APICallsCount s) (CacheHitsCount s) (ErrorsCount s + 1)
                      (RetryCount s) (RateLimitHits s) (LastAPICall s)
                      (RemainingQuota s) (QuotaResetTime s)) b.

Definition IncrementRetry (b : BridgeClient R) : BridgeClient R :=
  let s := stats b in
  with_stats (mkStats (APICallsCount s) (CacheHitsCount s) (ErrorsCount s)
                      (RetryCount s + 1) (RateLimitHits s) (LastAPICall s)
                      (RemainingQuota s) (QuotaResetTime s)) b.

Definition IncrementCacheHit (b : BridgeClient R) : BridgeClient R :=
  let s := stats b in
  with_stats (mkStats (APICallsCount s) (CacheHitsCount s + 1) (ErrorsCount s)
                      (RetryCount s) (RateLimitHits s) (LastAPICall s)
                      (RemainingQuota s) (QuotaResetTime s)) b.

Definition IncrementRateLimitHit (b : BridgeClient R) : BridgeClient R :=
  let s := stats b in
  with_stats (mkStats (APICallsCount s) (CacheHitsCount s) (ErrorsCount s)
                      (RetryCount s) (RateLimitHits s + 1) (LastAPICall s)
                      (RemainingQuota s) (QuotaResetTime s)) b.

Definition UpdateQuota (remaining : Z) (resetTime : option Z)
  (b : BridgeClient R) : BridgeClient R :=
  let s := stats b in
  with_stats (mkStats (APICallsCount s) (CacheHitsCount s) (ErrorsCount s)
                      (RetryCount s) (RateLimitHits s) (LastAPICall s)
                      remaining resetTime) b.

(** [GetFromCache]: an expired entry is deleted on lookup. *)
Definition GetFromCache (key : string) (b : BridgeClient R)
  : option CacheData * BridgeClient R :=
  match cache b with
  | None => (None, b)
  | Some data =>
      match data !! key with
      | None => (None, b)
      | Some entry =>
          if Now (remote b) >? ExpiresAt entry
          then (None, with_cache (Some (delete key data)) b)
          else (Some (Data entry), b)
      end
  end.

Definition SetCache (key : string) (d : CacheData) (ttl : Z) (b : BridgeClient R)
  : BridgeClient R :=
  match cache b with
  | None => b
  | Some data =>
      with_cache (Some (<[key := mkEntry d (Now (remote b) + ttl)]> data)) b
  end.

Definition waitForRateLimit (b : BridgeClient R) : option string * BridgeClient R :=
  let '(err, r) := Wait (remote b) in (err, with_remote r b).

Definition retryableErrors : list string :=
  ["timeout"; "connection reset"; "connection refused"; "temporary failure";
   "rate limit"; "server error"; "503"; "502"; "500"]%string.

(** [isRetryableError]; the argument is [err], [None] being [nil], and
    [Some s] an error whose [Error()] text is [s]. *)
Definition isRetryableError (err : option string) : bool :=
  match err with
  | None => false
  | Some text =>
      let errorStr := ToLower text in
      existsb (fun retryable => Contains errorStr retryable) retryableErrors
  end.

(** An operation closure: [A] is the type of the local variables it
    captures and updates; the result is the [error] it returns. *)
Definition operation (A : Type) : Type := M (A * BridgeClient R) (option string).

Definition onClient {A} (f : BridgeClient R -> BridgeClient R)
  (s : A * BridgeClient R) : A * BridgeClient R :=
  (fst s, f (snd s)).

(** The head of the loop body of [retryWithBackoff], before attempt [i]
    (counted from 0): [if i > 0 { IncrementRetry(); time.Sleep(i*i s) }]. *)
Definition beforeAttempt (i : Z) (b : BridgeClient R) : BridgeClient R :=
  if i >? 0 then
    let b := IncrementRetry b in
    let delay := i * i in
    with_remote (Sleep delay (remote b)) b
  else b.

(** The [for i := 0; i < maxRetries; i++] loop of [retryWithBackoff], with
    [n] iterations left. *)
Fixpoint retryLoop {A} (n : nat) (i maxRetries : Z) (op : operation A)
  : M (A * BridgeClient R) (option string) :=
  match n with
  | O =>
      mret (Some ("operation failed after " ++ strconv.Itoa maxRetries
                  ++ " retries")%string)
  | S n' =>
      modify (onClient (beforeAttempt i)) ≫= fun _ =>
      err ← op;
      match err with
      | Some e =>
          if (i =? maxRetries - 1) || negb (isRetryableError err)
          then modify (onClient IncrementError) ≫= fun _ => mret err
          else retryLoop n' (i + 1) maxRetries op
      | None => mret None
      end
  end.

Definition retryWithBackoff {A} (maxRetries : Z) (op : operation A)
  : M (A * BridgeClient R) (option string) :=
  retryLoop (Z.to_nat maxRetries) 0 maxRetries op.

Definition updateRateLimitStats (resp : gogithub.Response.t)
  (b : BridgeClient R) : BridgeClient R :=
  let b :=
    let remaining := gogithub.Response.XRateLimitRemaining resp in
    if negb (String.eqb remaining "") then
      match strconv.Atoi remaining with
      | Some val =>
          let reset := gogithub.Response.XRateLimitReset resp in
          let resetTime :=
            if negb (String.eqb reset "") then strconv.Atoi reset else None in
          UpdateQuota val resetTime b
      | None => b
      end
    else b in
  if gogithub.Response.StatusCode resp =? 429 then IncrementRateLimitHit b
  else b.

Definition maxIssuesOf (b : BridgeClient R) : Z :=
  match config b with
  | Some c => if config.MaxIssuesLimit c >? 0 then config.MaxIssuesLimit c
              else 10000
  | None => 10000
  end.

Definition maxRetriesOf (b : BridgeClient R) : Z :=
  match config b with
  | Some c => if config.MaxRetries c >? 0 then config.MaxRetries c else 3
  | None => 3
  end.

(** The pagination loop of the search operation; it captures
    [allIssues].  [page] is [opt.Page]. *)
Fixpoint searchPages (fuel : nat) (query : string) (pageSize page : Z)
  : operation (list gogithub.Issue.t) :=
  fun '(allIssues, b) =>
  match fuel with
  | O => Diverges
  | S fuel' =>
      let '(werr, b) := waitForRateLimit b in
      match werr with
      | Some err => Returns (Some ("rate limit error: " ++ err)%string, (allIssues, b))
      | None =>
          let b := IncrementAPICall b in
          let '(res, r) := SearchIssues query page pageSize (remote b) in
          let b := with_remote r b in
          match res with
          | inl err =>
              Returns (Some ("error searching issues: " ++ err)%string, (allIssues, b))
          | inr (issues, resp) =>
              let b := updateRateLimitStats resp b in
              let allIssues := (allIssues ++ issues)%list in
              if gogithub.Response.NextPage resp =? 0
              then Returns (None, (allIssues, b))
              else
                let page := gogithub.Response.NextPage resp in
                (* prevent unlimited memory growth *)
                let maxIssues := maxIssuesOf b in
                if Z.of_nat (length allIssues) >? maxIssues
                then Returns (None, (allIssues, b))
                else searchPages fuel' query pageSize page (allIssues, b)
          end
      end
  end.

Definition searchOperation (fuel : nat) (owner repo searchQuery : string)
  : operation (list gogithub.Issue.t) :=
  fun '(allIssues, b) =>
    let pageSize :=
      match config b with
      | Some c => if config.PageSize c >? 0 then config.PageSize c else 100
      | None => 100
      end in
    searchPages fuel ("repo:" ++ owner ++ "/" ++ repo ++ " " ++ searchQuery)%string
                pageSize 0 (allIssues, b).

(** [fetchIssuesBySearchQuery]; [fuel] bounds the page requests of one
    attempt.  The result is the pair [(issues, err)] of the source. *)
Definition fetchIssuesBySearchQuery (fuel : nat) (owner repo searchQuery : string)
  : M (BridgeClient R) (list gogithub.Issue.t * option string) :=
  fun b =>
  if String.eqb searchQuery "" then
    Returns (([], Some "no search query specified"%string), b)
  else
    let cacheKey := ("search:" ++ owner ++ "/" ++ repo ++ ":" ++ searchQuery)%string in
    let '(cached, b) := GetFromCache cacheKey b in
    match cached with
    | Some (CachedIssues issues) => Returns ((issues, None), IncrementCacheHit b)
    | _ =>
        let maxRetries := maxRetriesOf b in
        match retryWithBackoff maxRetries
                (searchOperation fuel owner repo searchQuery) ([], b) with
        | Diverges => Diverges
        | Returns (Some err, (_, b)) => Returns (([], Some err), b)
        | Returns (None, (allIssues, b)) =>
            let cacheTTL :=
              match config b with
              | Some c => if config.IssuesTTLMin c >? 0
                          then config.IssuesTTLMin c * 60 else 10 * 60
              | None => 10 * 60
              end in
            let b := SetCache cacheKey (CachedIssues allIssues) cacheTTL b in
            Returns ((allIssues, None), b)
        end
    end.

Fixpoint commentPages (fuel : nat) (owner repo : string) (issueNumber page : Z)
  : operation (list gogithub.IssueComment.t) :=
  fun '(allComments, b) =>
  match fuel with
  | O => Diverges
  | S fuel' =>
      let '(werr, b) := waitForRateLimit b in
      match werr with
      | Some err => Returns (Some ("rate limit error: " ++ err)%string, (allComments, b))
      | None =>
          let b := IncrementAPICall b in
          let '(res, r) := ListComments owner repo issueNumber page 100 (remote b) in
          let b := with_remote r b in
          match res with
          | inl err =>
              Returns (Some ("error fetching comments: " ++ err)%string, (allComments, b))
          | inr (comments, resp) =>
              let b := updateRateLimitStats resp b in
              let allComments := (allComments ++ comments)%list in
              if gogithub.Response.NextPage resp =? 0
              then Returns (None, (allComments, b))
              else commentPages fuel' owner repo issueNumber
                                (gogithub.Response.NextPage resp) (allComments, b)
          end
      end
  end.

Definition fetchIssueComments (fuel : nat) (owner repo : string) (issueNumber : Z)
  : M (BridgeClient R) (list gogithub.IssueComment.t * option string) :=
  fun b =>
  let cacheKey :=
    ("comments:" ++ owner ++ "/" ++ repo ++ ":" ++ strconv.Itoa issueNumber)%string in
  let '(cached, b) := GetFromCache cacheKey b in
  match cached with
  | Some (CachedComments comments) => Returns ((comments, None), IncrementCacheHit b)
  | _ =>
      match retryWithBackoff 3 (commentPages fuel owner repo issueNumber 0) ([], b) with
      | Diverges => Diverges
      | Returns (Some err, (_, b)) => Returns (([], Some err), b)
      | Returns (None, (allComments, b)) =>
          let b := SetCache cacheKey (CachedComments allComments) (5 * 60) b in
          Returns ((allComments, None), b)
      end
  end.

(** [findParentIssueFromRelationships]: not implemented by the source,
    which returns [0, nil]. *)
Definition findParentIssueFromRelationships (owner repo : string) (issueNumber : Z)
  : M (BridgeClient R) (Z * option string) :=
  mret (0, None).

End Client.
End github.

(** ** [internal/ports/github.go]: the repository port, as far as the
    service calls it *)

Module ports.

Class GitHubRepository (W : Type) := {
  FetchIssueComments :
    string -> string -> Z -> M W (list entity.WeeklyUpdate * option string);
  FindParentIssue : string -> string -> Z -> M W (Z * option string);
  ExtractOwnerRepoFromIssue : entity.Issue -> string * string
}.

End ports.

(** ** [internal/adapters/github/repository.go] *)

Module repository.
Import GoStrings entity regexp.

Definition newline : string := String "010" EmptyString.

(** [https://github\.com/([^/]+)/([^/]+)/issues/\d+] *)
Definition issueURLPattern : re :=
  seq_re [lit "https://github.com/"; Cap (Plus notSlash); lit "/";
          Cap (Plus notSlash); lit "/issues/"; Plus digit].

Definition ExtractOwnerRepoFromIssue (issue : Issue) : string * string :=
  if String.eqb (URL issue) "" then (""%string, ""%string)
  else
    match FindStringSubmatch issueURLPattern (URL issue) with
    | Some [_; owner; repo] => (owner, repo)
    | _ => (""%string, ""%string)
    end.

Definition labelNames (labels : list gogithub.Label.t) : list string :=
  omap gogithub.Label.Name labels.

Definition convertGitHubIssuesToDomain (githubIssues : list gogithub.Issue.t)
  : list Issue :=
  omap (fun ghIssue =>
          match gogithub.Issue.Number ghIssue, gogithub.Issue.Title ghIssue,
                gogithub.Issue.HTMLURL ghIssue with
          | Some number, Some title, Some url =>
              Some {| Number := number;
                      Title := title;
                      URL := url;
                      Type_ := IssueTypeUnset;
                      Body := default ""%string (gogithub.Issue.Body ghIssue);
                      State := default ""%string (gogithub.Issue.State ghIssue);
                      Labels := labelNames (gogithub.Issue.Labels ghIssue) |}
          | _, _, _ => None
          end)
       githubIssues.

(** [(?i)weekly\s+update\s+(\d{4}-\d{2}-\d{2})] *)
Definition datePattern : re :=
  seq_re [Rep 4 digit; ilit "-"; Rep 2 digit; ilit "-"; Rep 2 digit].

Definition weeklyUpdatePattern : re :=
  seq_re [ilit "weekly"; Plus space; ilit "update"; Plus space; Cap datePattern].

(** One turn of the loop of [convertGitHubCommentsToWeeklyUpdates]:
    [None] for the comments it skips. *)
Definition commentToWeeklyUpdate (comment : gogithub.IssueComment.t)
  : option WeeklyUpdate :=
  match gogithub.IssueComment.Body comment, gogithub.IssueComment.User comment,
        gogithub.IssueComment.CreatedAt comment with
  | Some body, Some user, Some createdAt =>
      match gogithub.User.Login user with
      | Some login =>
          match FindStringSubmatch weeklyUpdatePattern body with
          | None => None
          | Some matches =>
              let date :=
                match matches with
                | _ :: d :: _ => d
                | _ => createdAt
                end in
              let status := github_status.detectStatusFromContent body in
              Some {| Date := date; Content := body; Author := login;
                      Status := status |}
          end
      | None => None
      end
  | _, _, _ => None
  end.

(** The comparison handed to [sort.Slice]:
    [updates[i].Date > updates[j].Date]. *)
Definition newerFirst (x y : WeeklyUpdate) : bool := gt (Date x) (Date y).

Definition convertGitHubCommentsToWeeklyUpdates
  (comments : list gogithub.IssueComment.t) : list WeeklyUpdate :=
  let updates := omap commentToWeeklyUpdate comments in
  GoSort.Slice newerFirst updates.

Section Adapter.
Context {R : Type} `{github.Remote R}.

Definition FetchIssuesBySearch (fuel : nat) (owner repo query : string)
  : M (github.BridgeClient R) (list Issue * option string) :=
  '(githubIssues, err) ← github.fetchIssuesBySearchQuery fuel owner repo query;
  match err with
  | Some e => mret ([], Some e)
  | None => mret (convertGitHubIssuesToDomain githubIssues, None)
  end.

Definition FetchIssueComments (fuel : nat) (owner repo : string) (issueNumber : Z)
  : M (github.BridgeClient R) (list WeeklyUpdate * option string) :=
  '(comments, err) ← github.fetchIssueComments fuel owner repo issueNumber;
  match err with
  | Some e => mret ([], Some e)
  | None => mret (convertGitHubCommentsToWeeklyUpdates comments, None)
  end.

Definition FindParentIssue (owner repo : string) (issueNumber : Z)
  : M (github.BridgeClient R) (Z * option string) :=
  github.findParentIssueFromRelationships owner repo issueNumber.

(** [Repository] implements the port; [fuel] bounds the page requests of
    each fetch attempt. *)
Definition Repository (fuel : nat) : ports.GitHubRepository (github.BridgeClient R) :=
  {| ports.FetchIssueComments := FetchIssueComments fuel;
     ports.FindParentIssue := FindParentIssue;
     ports.ExtractOwnerRepoFromIssue := ExtractOwnerRepoFromIssue |}.

End Adapter.
End repository.

(** ** [internal/domain/service/okr.go] *)

Module service.
Import GoStrings entity regexp.

(** The issues are handled through pointers ([[]*entity.Issue]) and their
    [Type] field is assigned in place: the pointed-to issues live in a
    heap, a pointer is an index into it. *)
Abbreviation ptr := nat (only parsing).

#[global] Instance Issue_inhabited : Inhabited Issue :=
  populate (mkIssue 0 "" "" IssueTypeUnset "" "" []).

Definition refTail : re := seq_re [lit "#"; Cap (Plus digit)].

(** The ordered pattern list of [extractParentIssueNumber]. *)
Definition bodyPatterns : list re :=
  [ (* (?i)parent\s*(?:issue)?\s*:?\s*#(\d+) *)
    seq_re [ilit "parent"; Star space; Opt (ilit "issue"); Star space;
            Opt (ilit ":"); Star space; refTail];
    (* (?i)parent\s*(?:issue)?\s*:?\s*https://github\.com/[^/]+/[^/]+/issues/(\d+) *)
    seq_re [ilit "parent"; Star space; Opt (ilit "issue"); Star space;
            Opt (ilit ":"); Star space; ilit "https://github.com/";
            Plus notSlash; ilit "/"; Plus notSlash; ilit "/issues/";
            Cap (Plus digit)];
    (* (?i)part\s*of\s*#(\d+) *)
    seq_re [ilit "part"; Star space; ilit "of"; Star space; refTail];
    (* (?i)child\s*of\s*#(\d+) *)
    seq_re [ilit "child"; Star space; ilit "of"; Star space; refTail];
    (* (?i)subtask\s*of\s*#(\d+) *)
    seq_re [ilit "subtask"; Star space; ilit "of"; Star space; refTail];
    (* (?i)depends\s*on\s*#(\d+) *)
    seq_re [ilit "depends"; Star space; ilit "on"; Star space; refTail];
    (* (?i)relates\s*to\s*#(\d+) *)
    seq_re [ilit "relates"; Star space; ilit "to"; Star space; refTail];
    (* (?i)blocking\s*#(\d+) *)
    seq_re [ilit "blocking"; Star space; refTail];
    (* (?i)blocked\s*by\s*#(\d+) *)
    seq_re [ilit "blocked"; Star space; ilit "by"; Star space; refTail] ].

(** The loop over the patterns: a pattern whose match does not convert
    ([strconv.Atoi] fails) is passed over. *)
Fixpoint firstParentReference (patterns : list re) (textToSearch : string) : Z :=
  match patterns with
  | [] => 0
  | pattern :: rest =>
      match FindStringSubmatch pattern textToSearch with
      | Some (_ :: digits :: _) =>
          match strconv.Atoi digits with
          | Some parentNum => parentNum
          | None => firstParentReference rest textToSearch
          end
      | _ => firstParentReference rest textToSearch
      end
  end.

Definition extractParentIssueNumber (issue : Issue) : Z :=
  let textToSearch := (Title issue ++ repository.newline ++ Body issue)%string in
  firstParentReference bodyPatterns textToSearch.

Definition hasParentIssue (issue : Issue) (parentChildMap : gmap Z (list ptr)) : bool :=
  let parentNum := extractParentIssueNumber issue in
  parentNum >? 0.

Definition filterIssuesByLabels (heap : list Issue) (issues : list ptr)
  (requiredLabels : list string) : list ptr :=
  match requiredLabels with
  | [] => issues
  | _ => List.filter (fun issue => HasAllLabels (heap !!! issue) requiredLabels)
                     issues
  end.

(** [(?mi)^#\s*weekly\s+update\s+(\d{4}-\d{2}-\d{2})] *)
Definition weeklyUpdateRegex : re :=
  seq_re [BeginLine; lit "#"; Star space; ilit "weekly"; Plus space;
          ilit "update"; Plus space; Cap repository.datePattern].

Definition ExtractWeeklyUpdates (comments : list string) : list WeeklyUpdate :=
  let updates :=
    omap (fun comment =>
            match FindStringSubmatch weeklyUpdateRegex comment with
            | Some (_ :: date :: _) =>
                Some {| Date := date; Content := comment;
                        Author := "unknown";
                        Status := service_status.DetectStatusFromContent comment |}
            | _ => None
            end)
         comments in
  GoSort.Slice repository.newerFirst updates.

(** Loops that call the port. *)
Fixpoint foldM {S A B} (f : B -> A -> M S B) (acc : B) (l : list A) : M S B :=
  match l with
  | [] => mret acc
  | x :: l' => acc' ← f acc x; foldM f acc' l'
  end.

Section OKRService.
Context {W : Type} `{ports.GitHubRepository W}.

Record State := mkState { heap : list Issue; world : W }.

(** Calls of the port act on the world only. *)
Definition liftW {A} (m : M W A) : M State A :=
  fun st =>
    match m (world st) with
    | Returns (a, w) => Returns (a, mkState (heap st) w)
    | Diverges => Diverges
    end.

Definition deref (p : ptr) : M State Issue :=
  fun st => Returns (heap st !!! p, st).

Definition setType (p : ptr) (t : IssueType) : M State unit :=
  modify (fun st => mkState (alter (with_Type t) p (heap st)) (world st)).

Definition children_of (parentChildMap : gmap Z (list ptr)) (n : Z) : list ptr :=
  default [] (parentChildMap !! n).

(** The loop body of [BuildParentChildRelationships]. *)
Definition recordParent (parentChildMap : gmap Z (list ptr)) (p : ptr)
  : M State (gmap Z (list ptr)) :=
  issue ← deref p;
  let parentNum := extractParentIssueNumber issue in
  parentNum ←
    (if parentNum =? 0 then
       let '(owner, repo) := ports.ExtractOwnerRepoFromIssue issue in
       if negb (String.eqb owner "") && negb (String.eqb repo "") then
         '(apiParentNum, err) ←
            liftW (ports.FindParentIssue owner repo (Number issue));
         if bool_decide (err = None) && (apiParentNum >? 0)
         then mret apiParentNum
         else mret parentNum
       else mret parentNum
     else mret parentNum);
  if parentNum >? 0
  then mret (<[parentNum := (children_of parentChildMap parentNum ++ [p])%list]>
               parentChildMap)
  else mret parentChildMap.

Definition BuildParentChildRelationships (issues : list ptr)
  : M State (gmap Z (list ptr)) :=
  foldM recordParent ∅ issues.

(** The loop body of [IdentifyObjectivesAndKeyResults]. *)
Definition classify (parentChildMap : gmap Z (list ptr)) (parentIssues : list ptr)
  (p : ptr) : M State (list ptr) :=
  issue ← deref p;
  let hasChildren :=
    Z.of_nat (length (children_of parentChildMap (Number issue))) >? 0 in
  let hasParent := hasParentIssue issue parentChildMap in
  if hasChildren && negb hasParent then
    setType p IssueTypeObjective ≫= fun _ => mret (parentIssues ++ [p])%list
  else if hasParent then
    setType p IssueTypeKeyResult ≫= fun _ => mret parentIssues
  else mret parentIssues.

Definition IdentifyObjectivesAndKeyResults (issues : list ptr)
  (parentChildMap : gmap Z (list ptr)) : M State (list ptr) :=
  foldM (classify parentChildMap) [] issues.

(** The loop over the children in [processObjectiveWithChildren]. *)
Definition processChild (childIssues : list IssueWithUpdates) (child : ptr)
  : M State (list IssueWithUpdates) :=
  setType child IssueTypeKeyResult ≫= fun _ =>
  issue ← deref child;
  let '(childOwner, childRepo) := ports.ExtractOwnerRepoFromIssue issue in
  if String.eqb childOwner "" || String.eqb childRepo "" then mret childIssues
  else
    '(childUpdates, err) ←
       liftW (ports.FetchIssueComments childOwner childRepo (Number issue));
    let childWithUpdates :=
      {| Issue_ := issue;
         LatestUpdate := head childUpdates;
         AllUpdates := childUpdates;
         ChildIssues := [] |} in
    mret (childIssues ++ [childWithUpdates])%list.

(** [None] is the error return. *)
Definition processObjectiveWithChildren (objective : ptr) (children : list ptr)
  : M State (option IssueWithUpdates) :=
  issue ← deref objective;
  let '(owner, repo) := ports.ExtractOwnerRepoFromIssue issue in
  if String.eqb owner "" || String.eqb repo "" then mret None
  else
    '(updates, err) ← liftW (ports.FetchIssueComments owner repo (Number issue));
    issue ← deref objective;
    childIssues ← foldM processChild [] children;
    mret (Some {| Issue_ := issue;
                  LatestUpdate := head updates;
                  AllUpdates := updates;
                  ChildIssues := childIssues |}).

(** The body of the fallback loop: every filtered issue becomes an
    objective. *)
Definition forceObjective (parentIssues : list ptr) (p : ptr) : M State (list ptr) :=
  setType p IssueTypeObjective ≫= fun _ => mret (parentIssues ++ [p])%list.

(** The body of the loop over the objectives; an objective whose
    processing fails is skipped. *)
Definition collectObjective (parentChildMap : gmap Z (list ptr))
  (objectives : list IssueWithUpdates) (objective : ptr)
  : M State (list IssueWithUpdates) :=
  issue ← deref objective;
  let children := children_of parentChildMap (Number issue) in
  r ← processObjectiveWithChildren objective children;
  match r with
  | Some objectiveWithUpdates => mret (objectives ++ [objectiveWithUpdates])%list
  | None => mret objectives
  end.

Definition ProcessOKRIssues (issues : list ptr) (requiredLabels : list string)
  : M State (list IssueWithUpdates) :=
  st ← get;
  let filteredIssues := filterIssuesByLabels (heap st) issues requiredLabels in
  if Z.of_nat (length filteredIssues) =? 0 then mret []
  else
    parentChildMap ← BuildParentChildRelationships filteredIssues;
    parentIssues ← IdentifyObjectivesAndKeyResults filteredIssues parentChildMap;
    (* fallback: no parent issues found, treat all issues as objectives *)
    parentIssues ←
      (if Z.of_nat (length parentIssues) =? 0
       then foldM forceObjective parentIssues filteredIssues
       else mret parentIssues);
    foldM (collectObjective parentChildMap) [] parentIssues.

(** Whether [ExtractOwnerRepoFromIssue] finds an owner and a repository. *)
Definition usable (issue : Issue) : bool :=
  let '(owner, repo) := ports.ExtractOwnerRepoFromIssue issue in
  negb (String.eqb owner "" || String.eqb repo "").

End OKRService.
Arguments State : clear implicits.

(** The issues of two heaps differ in their [Type] at most. *)
Definition sameButType (h h' : list Issue) : Prop :=
  map (with_Type IssueTypeUnset) h' = map (with_Type IssueTypeUnset) h.

End service.

(** ** The formulas of the design document

    Written from the words of the document, to be compared with the
    functions of the source. *)

Module design.
Import entity.

Definition is_status (s t : WeeklyUpdateStatus) : bool := bool_decide (s = t).

Definition count_status (s : WeeklyUpdateStatus) (l : list WeeklyUpdateStatus) : Z :=
  Z.of_nat (length (List.filter (is_status s) l)).

(** [ceil(total/2)] *)
Definition half_up (total : Z) : Z := (total + 1) / 2.

(** "any Blocked -> Blocked; any Delayed -> Delayed; any AtRisk -> AtRisk;
    any Caution -> Caution; all Completed -> Completed; Completed-count >=
    ceil(total/2) -> OnTrack; any OnTrack present -> OnTrack; else ->
    Unknown", first match wins. *)
Definition resolveByPriority (l : list WeeklyUpdateStatus) : WeeklyUpdateStatus :=
  let total := Z.of_nat (length l) in
  if existsb (is_status StatusBlocked) l then StatusBlocked
  else if existsb (is_status StatusDelayed) l then StatusDelayed
  else if existsb (is_status StatusAtRisk) l then StatusAtRisk
  else if existsb (is_status StatusCaution) l then StatusCaution
  else if forallb (is_status StatusCompleted) l then StatusCompleted
  else if half_up total <=? count_status StatusCompleted l then StatusOnTrack
  else if existsb (is_status StatusOnTrack) l then StatusOnTrack
  else StatusUnknown.

(** The same resolution with the threshold of the "at least half"
    rule left open. *)
Definition resolveWithThreshold (threshold : Z) (l : list WeeklyUpdateStatus)
  : WeeklyUpdateStatus :=
  let total := Z.of_nat (length l) in
  if existsb (is_status StatusBlocked) l then StatusBlocked
  else if existsb (is_status StatusDelayed) l then StatusDelayed
  else if existsb (is_status StatusAtRisk) l then StatusAtRisk
  else if existsb (is_status StatusCaution) l then StatusCaution
  else if forallb (is_status StatusCompleted) l then StatusCompleted
  else if threshold <=? count_status StatusCompleted l then StatusOnTrack
  else if existsb (is_status StatusOnTrack) l then StatusOnTrack
  else StatusUnknown.

(** "an open issue cannot legitimately be completed" *)
Definition reconcile (state : string) (s : WeeklyUpdateStatus) : WeeklyUpdateStatus :=
  if bool_decide (s = StatusCompleted) && String.eqb state "open"
  then StatusOnTrack else s.

(** [getKeyResultStatus]: Completed when closed; otherwise the first
    status different from Unknown in the newest-first update list,
    reconciled with the state; Unknown when there is none. *)
Definition keyResultStatus (i : IssueWithUpdates) : WeeklyUpdateStatus :=
  if String.eqb (State (Issue_ i)) "closed" then StatusCompleted
  else
    match List.find (fun u => negb (is_status (Status u) StatusUnknown))
                    (AllUpdates i) with
    | Some u => reconcile (State (Issue_ i)) (Status u)
    | None => StatusUnknown
    end.

(** What the document calls the status of the single most recent
    update. *)
Definition latestStatus (i : IssueWithUpdates) : WeeklyUpdateStatus :=
  if String.eqb (State (Issue_ i)) "closed" then StatusCompleted
  else
    match head (AllUpdates i) with
    | Some u => reconcile (State (Issue_ i)) (Status u)
    | None => StatusUnknown
    end.

End design.

(** ** Indicator tables

    The indicator groups that the two classifiers test, group by group in
    the order of the source, for stating which group decides. *)

Module indicators.
Import GoStrings.

(** One of [words] occurs in [text]. *)
Definition mentions (words : list string) (text : string) : bool :=
  existsb (fun w => Contains text w) words.

Definition completionWords : list string := ["completed"; "done"; "finished"]%string.

(** [detectStatusFromContent] of the adapter: the glyphs are looked up
    in the content, the words in its lower-case form. *)
Definition blockedGlyphs : list string := [Glyph.red_circle; Glyph.no_entry].
Definition blockedWords : list string := ["red"; "blocked"; "stuck"; "cannot"]%string.
Definition delayedWords : list string := ["delayed"]%string.
Definition cautionGlyphs : list string := [Glyph.yellow_circle; Glyph.warning].
Definition cautionWords : list string := ["yellow"; "caution"; "warning"]%string.
Definition atRiskWords : list string := ["at risk"; "at-risk"; "risk"]%string.

(** [DetectStatusFromContent] of the service: everything is looked up in
    the lower-case form. *)
Definition serviceCompletion : list string :=
  ["completed"; "done"; "finished"; Glyph.check_mark_button; Glyph.check_mark]%string.
Definition serviceBlocked : list string :=
  ["blocked"; "stuck"; "issue"; "problem"; Glyph.no_entry; Glyph.cross_mark]%string.
Definition serviceAtRisk : list string :=
  ["behind"; "delayed"; "risk"; "concern"; Glyph.warning; Glyph.yellow_circle]%string.

End indicators.

(** ** Orderings of slices

    What it means for a slice to be in order for a [less] function, and
    the list-level insertion sort that the short-slice path of
    [sort.Slice] is compared with. *)

Module sortspec.

Section Spec.
Context {A : Type} (less : A -> A -> bool).

(** No element is [less] than an element before it. *)
Definition ordered (l : list A) : Prop :=
  forall i j x y, (i < j)%nat -> l !! i = Some x -> l !! j = Some y ->
                  less y x = false.

(** [x] is put in front of the longest suffix it is [less] than. *)
Fixpoint insertR (x : A) (l : list A) : list A :=
  match l with
  | [] => [x]
  | y :: l' => if forallb (less x) l then x :: l else y :: insertR x l'
  end.

Definition isort (l : list A) : list A :=
  foldl (fun acc x => insertR x acc) [] l.

End Spec.

(** *** Ranges of a slice

    The sorting functions work on the indices [a .. b-1] of a slice and
    leave the rest alone. *)
Section Ranges.
Context {A : Type} (less : A -> A -> bool).
Implicit Types (d : list A) (i j k a b : Z).
Import GoSort.

(** [d'] comes from [d] by rearranging the indices [a .. b-1]. *)
Definition inplace (a b : Z) (d d' : list A) : Prop :=
  length d' = length d /\
  (forall k, k < a \/ b <= k -> at_ d' k = at_ d k) /\
  d' ≡ₚ d.

(** The elements at the indices [a .. b-1]. *)
Definition slice (a b : Z) (d : list A) : list A :=
  take (Z.to_nat (b - a)) (drop (Z.to_nat a) d).

(** No element of the range is [less] than an element before it. *)
Definition ordered_range d a b : Prop :=
  forall i j x y, a <= i -> i < j -> j < b ->
                  at_ d i = Some x -> at_ d j = Some y -> less y x = false.

(** Every element of the range satisfies [P]. *)
Definition all_range (P : A -> Prop) d a b : Prop :=
  forall k x, a <= k < b -> at_ d k = Some x -> P x.

(** The state of a partitioning loop for a test [L]: the indices between
    [a] and [i] hold elements that pass it, those after [j] elements that
    fail it. *)
Definition split_by (L : A -> bool) d a b i j : Prop :=
  all_range (fun x => L x = true) d (a + 1) i /\
  all_range (fun x => L x = false) d (j + 1) b.

(** The pivot [p] sits at [a]; the test is "less than [p]". *)
Definition partitioned d a b i j (p : A) : Prop :=
  at_ d a = Some p /\ split_by (fun x => less x p) d a b i j.

(** [partitionEqual_func]: the test is "not greater than [p]". *)
Definition eq_partitioned d a b i j (p : A) : Prop :=
  at_ d a = Some p /\ split_by (fun x => negb (less p x)) d a b i j.

(** Node [k] of the heap stored from index [first] on is not less than
    its children (among the first [hi] nodes). *)
Definition heap_at d first hi k : Prop :=
  forall c x y, c = 2 * k + 1 \/ c = 2 * k + 2 -> c < hi ->
                at_ d (first + k) = Some x -> at_ d (first + c) = Some y ->
                less x y = false.

(** The parent of [root] is not less than the children of [root]. *)
Definition above_children d first hi lo root : Prop :=
  forall k c x y, lo <= k -> root = 2 * k + 1 \/ root = 2 * k + 2 ->
                  c = 2 * root + 1 \/ c = 2 * root + 2 -> c < hi ->
                  at_ d (first + k) = Some x -> at_ d (first + c) = Some y ->
                  less x y = false.

(** The element just before the range, if there is one, is not greater
    than any element of the range. *)
Definition lower_bound d a b : Prop :=
  forall p k x, at_ d (a - 1) = Some p -> a <= k < b -> at_ d k = Some x ->
                less x p = false.

(** Each element of the range is not less than the one just before it. *)
Definition adjacent d a b : Prop :=
  forall k x y, a < k < b -> at_ d (k - 1) = Some x -> at_ d k = Some y ->
                less y x = false.

(** The state [partition_func] leaves: the pivot at [mid], smaller
    elements before it, the others after it. *)
Definition pivoted d a mid b : Prop :=
  exists p, at_ d mid = Some p /\
            all_range (fun x => less x p = true) d a mid /\
            all_range (fun x => less x p = false) d (mid + 1) b.

(** The state [partitionEqual_func] leaves: elements equal to the pivot
    [p] in front, greater ones after them. *)
Definition equal_prefix d a mid b (p : A) : Prop :=
  all_range (fun x => less p x = false /\ less x p = false) d a mid /\
  all_range (fun x => less p x = true) d mid b.

End Ranges.

(** The updates of an output that carry a given date, in output order. *)
Definition dated (date : string) (updates : list entity.WeeklyUpdate)
  : list entity.WeeklyUpdate :=
  List.filter (fun u => String.eqb (entity.Date u) date) updates.

(** Newest first: no update is followed by one with a later date. *)
Definition descending (updates : list entity.WeeklyUpdate) : Prop :=
  forall i j x y, (i < j)%nat -> updates !! i = Some x -> updates !! j = Some y ->
                  GoStrings.lt (entity.Date x) (entity.Date y) = false.

End sortspec.

(** ** Sample data *)

Module sample.
Import entity.

Definition issue (number : Z) (title body state : string) (t : IssueType) : Issue :=
  {| Number := number; Title := title;
     URL := ("https://github.com/acme/okr/issues/" ++ strconv.Itoa number)%string;
     Type_ := t; Body := body; State := state; Labels := [] |}.

Definition update (date : string) (s : WeeklyUpdateStatus) : WeeklyUpdate :=
  {| Date := date; Content := ("Weekly update " ++ date)%string;
     Author := "alice"; Status := s |}.

Definition withUpdates (i : Issue) (updates : list WeeklyUpdate)
  (children : list IssueWithUpdates) : IssueWithUpdates :=
  {| Issue_ := i; LatestUpdate := head updates; AllUpdates := updates;
     ChildIssues := children |}.

(** An open key result nobody has commented on yet. *)
Definition silentKR : IssueWithUpdates :=
  withUpdates (issue 11 "KR: cut p99 latency" "Parent Issue: #10" "open"
                     IssueTypeKeyResult) [] [].

(** An objective whose only key result is [silentKR]. *)
Definition objectiveWithSilentKR : IssueWithUpdates :=
  withUpdates (issue 10 "Objective: fast checkout" "" "open" IssueTypeObjective)
              [] [silentKR].

(** An open objective without children: the newest update carries no
    recognised status, the one before says blocked. *)
Definition quietObjective : IssueWithUpdates :=
  withUpdates (issue 20 "Objective: migrate billing" "" "open" IssueTypeObjective)
              [update "2025-07-09" StatusUnknown; update "2025-07-01" StatusBlocked]
              [].

(** The same history on a key result. *)
Definition quietKR : IssueWithUpdates :=
  withUpdates (issue 21 "KR: migrate invoices" "Parent Issue: #20" "open"
                     IssueTypeKeyResult)
              [update "2025-07-09" StatusUnknown; update "2025-07-01" StatusBlocked]
              [].

(** Hierarchy samples.  An issue that names itself as its parent. *)
Definition selfReferring : Issue :=
  issue 5 "KR: cut p99 latency" "Parent Issue: #5" "open" IssueTypeUnset.

(** #5 belongs to an objective outside the filtered set; #6 belongs to
    #5. *)
Definition danglingChain : list Issue :=
  [issue 5 "Epic: checkout speed" "Part of #99" "open" IssueTypeUnset;
   issue 6 "KR: cut p99 latency" "Part of #5" "open" IssueTypeUnset].

(** A pull request that the search returned along with the issues: its
    URL is not an issue URL. *)
Definition pullRequest : Issue :=
  {| Number := 12; Title := "Speed up checkout";
     URL := "https://github.com/acme/okr/pull/12"; Type_ := IssueTypeUnset;
     Body := ""; State := "open"; Labels := [] |}.

(** Two issues without any parent reference. *)
Definition unrelated : list Issue :=
  [issue 7 "Faster checkout" "" "open" IssueTypeUnset;
   issue 8 "Fewer incidents" "" "closed" IssueTypeUnset].

End sample.

(** ** A stand-in for the GitHub API *)

Module testserver.

(** The clock, the errors that the next API calls answer with (one per
    call), the pages of the search result, and the comments of each issue
    number (served on one page). *)
Record Server := mkServer {
  clock : Z;
  failures : list string;
  searchResult : list (list gogithub.Issue.t);
  commentTable : list (Z * list gogithub.IssueComment.t)
}.

Definition okResponse (next : Z) : gogithub.Response.t :=
  gogithub.Response.mk next 200 "" "".

Definition advance (d : Z) (s : Server) : Server :=
  mkServer (clock s + d) (failures s) (searchResult s) (commentTable s).

Definition popFailure (s : Server) : option (string * Server) :=
  match failures s with
  | e :: rest => Some (e, mkServer (clock s) rest (searchResult s) (commentTable s))
  | [] => None
  end.

Definition serveSearch (page : Z) (s : Server)
  : (string + list gogithub.Issue.t * gogithub.Response.t) * Server :=
  match popFailure s with
  | Some (e, s') => (inl e, s')
  | None =>
      let p := if page <=? 0 then 1 else page in
      match searchResult s !! Z.to_nat (p - 1) with
      | Some issues =>
          let next := if p <? Z.of_nat (length (searchResult s)) then p + 1 else 0 in
          (inr (issues, okResponse next), s)
      | None => (inr ([], okResponse 0), s)
      end
  end.

Definition serveComments (issueNumber : Z) (s : Server)
  : (string + list gogithub.IssueComment.t * gogithub.Response.t) * Server :=
  match popFailure s with
  | Some (e, s') => (inl e, s')
  | None =>
      let comments :=
        match List.find (fun e => fst e =? issueNumber) (commentTable s) with
        | Some e => snd e
        | None => []
        end in
      (inr (comments, okResponse 0), s)
  end.

#[global] Instance Server_Remote : github.Remote Server := {|
  github.Now := clock;
  github.Sleep := advance;
  github.Wait := fun s => (None, s);
  github.SearchIssues := fun _ page _ s => serveSearch page s;
  github.ListComments := fun _ _ issueNumber _ _ s => serveComments issueNumber s
|}.

(** A client as [NewBridgeClient] makes it, without cache. *)
Definition newClient (cfg : option config.Config) (s : Server)
  : github.BridgeClient Server :=
  github.mkClient github.newStats None cfg s.

(** An operation that answers from a script, one entry per call: the
    errors and successes a fetch operation can meet, with nothing else
    around them. *)
Definition scripted {R : Type} : M (list (option string) * github.BridgeClient R)
                                   (option string) :=
  fun '(script, b) =>
    match script with
    | r :: rest => Returns (r, (rest, b))
    | [] => Returns (None, ([], b))
    end.

Definition ghIssue (number : Z) (title : string) : gogithub.Issue.t :=
  gogithub.Issue.mk (Some number) (Some title)
    (Some ("https://github.com/acme/okr/issues/" ++ strconv.Itoa number)%string)
    (Some ""%string) (Some "open"%string) [].

Definition comment (login body : string) : gogithub.IssueComment.t :=
  gogithub.IssueComment.mk (Some body) (Some (gogithub.User.mk (Some login)))
                           (Some "2025-07-10"%string).

(** A search result of six issues served two per page, and a
    configuration that limits the result to two issues. *)
Definition sixIssues : list (list gogithub.Issue.t) :=
  [ [ghIssue 1 "Objective A"; ghIssue 2 "KR A1"];
    [ghIssue 3 "KR A2"; ghIssue 4 "Objective B"];
    [ghIssue 5 "KR B1"; ghIssue 6 "KR B2"] ].

Definition limitTwo : config.Config :=
  {| config.MaxRetries := 0; config.PageSize := 2;
     config.MaxIssuesLimit := 2; config.IssuesTTLMin := 0 |}.

Definition weekly (login date : string) : gogithub.IssueComment.t :=
  comment login ("Weekly update " ++ date ++ ": on track")%string.

(** The sorting scenario of the design. *)
Definition threeUpdates : list gogithub.IssueComment.t :=
  [weekly "alice" "2025-07-01"; weekly "alice" "2025-07-09";
   weekly "alice" "2025-06-15"].

(** Thirteen weekly updates in the order the API lists them (oldest
    first); the last two, by different authors, are for the same week. *)
Definition thirteenUpdates : list gogithub.IssueComment.t :=
  [weekly "alice" "2025-04-07"; weekly "alice" "2025-04-14";
   weekly "alice" "2025-04-21"; weekly "alice" "2025-04-28";
   weekly "alice" "2025-05-05"; weekly "alice" "2025-05-12";
   weekly "alice" "2025-05-19"; weekly "alice" "2025-05-26";
   weekly "alice" "2025-06-02"; weekly "alice" "2025-06-09";
   weekly "alice" "2025-06-16"; weekly "alice" "2025-06-23";
   weekly "bob" "2025-06-23"].

End testserver.

(** ** What a pattern matches

    The words of a pattern, for stating what [FindStringSubmatch] can
    return. *)

Module regexp_spec.
Import GoStrings regexp.

(** Every byte of [s] is in the class [p]. *)
Fixpoint allBytes (p : ascii -> bool) (s : string) : bool :=
  match s with
  | EmptyString => true
  | String c s' => p c && allBytes p s'
  end.

(** The beginning-of-line flag after the bytes of [s]. *)
Fixpoint bolAfter (bol : bool) (s : string) : bool :=
  match s with
  | EmptyString => bol
  | String c s' => bolAfter (isNewline c) s'
  end.

(** [matched r bol w bol' caps]: at a position whose beginning-of-line
    flag is [bol] the pattern [r] matches the word [w], the flag after it
    is [bol'], and the groups of [r] capture [caps]. *)
Inductive matched : re -> bool -> string -> bool -> list string -> Prop :=
| matched_Eps bol : matched Eps bol "" bol []
| matched_Byte p c bol :
    p c = true -> matched (Byte p) bol (String c "") (isNewline c) []
| matched_Fold c b bol :
    lower_byte b = c -> matched (Fold c) bol (String b "") (isNewline b) []
| matched_Fold_extra c alt bol :
    foldExtra c = Some alt -> matched (Fold c) bol alt false []
| matched_Cat r1 r2 bol w1 bol1 caps1 w2 bol2 caps2 :
    matched r1 bol w1 bol1 caps1 -> matched r2 bol1 w2 bol2 caps2 ->
    matched (Cat r1 r2) bol (w1 ++ w2) bol2 (caps1 ++ caps2)
| matched_Opt_some r bol w bol' caps :
    matched r bol w bol' caps -> matched (Opt r) bol w bol' caps
| matched_Opt_none r bol : matched (Opt r) bol "" bol []
| matched_Star_nil p bol : matched (Star p) bol "" bol []
| matched_Star_cons p c w bol bol' :
    p c = true -> matched (Star p) (isNewline c) w bol' [] ->
    matched (Star p) bol (String c w) bol' []
| matched_Cap r bol w bol' caps :
    matched r bol w bol' caps -> matched (Cap r) bol w bol' (caps ++ [w])
| matched_BeginLine : matched BeginLine true "" true [].

(** A pattern without groups. *)
Fixpoint capfree (r : re) : bool :=
  match r with
  | Cat r1 r2 => capfree r1 && capfree r2
  | Opt r' => capfree r'
  | Cap _ => false
  | _ => true
  end.

End regexp_spec.

(** ** Calendar dates

    The dates of the weekly updates as numbers, for stating that the
    byte-wise order of the date strings is the order of the calendar. *)

Module calendar.

(** [dddd-dd-dd] *)
Definition isoShaped (s : string) : bool :=
  match s with
  | String y1 (String y2 (String y3 (String y4 (String h1 (String m1 (String m2
      (String h2 (String d1 (String d2 EmptyString))))))))) =>
      strconv.isDigit y1 && strconv.isDigit y2 && strconv.isDigit y3
      && strconv.isDigit y4 && Ascii.eqb h1 "-"
      && strconv.isDigit m1 && strconv.isDigit m2 && Ascii.eqb h2 "-"
      && strconv.isDigit d1 && strconv.isDigit d2
  | _ => false
  end.

(** The decimal number written by [len] bytes of [s] from offset [from]. *)
Definition field (from len : nat) (s : string) : Z :=
  default 0 (strconv.digitsValue 0 (substring from len s)).

Definition year (s : string) : Z := field 0 4 s.
Definition month (s : string) : Z := field 5 2 s.
Definition day (s : string) : Z := field 8 2 s.

(** Orders the dates as the triples (year, month, day) are ordered. *)
Definition dayNumber (s : string) : Z := year s * 10000 + month s * 100 + day s.

End calendar.

(** ** Project URLs: [entity.ProjectInfo] and [parseProjectURL] *)

Module project.
Import regexp.

Inductive ProjectType := ProjectTypeOrganization | ProjectTypeRepository.

#[global] Instance ProjectType_eq_dec : EqDecision ProjectType.
Proof. solve_decision. Defined.

Record ProjectInfo := mkProjectInfo {
  Owner : string;
  Repo : string;
  ProjectID : Z;
  ViewID : Z;
  Type_ : ProjectType;
  URL : string
}.

Definition IsOrganizationProject (p : ProjectInfo) : bool :=
  bool_decide (Type_ p = ProjectTypeOrganization).

Definition IsRepositoryProject (p : ProjectInfo) : bool :=
  bool_decide (Type_ p = ProjectTypeRepository).

Definition HasView (p : ProjectInfo) : bool := ViewID p >? 0.

(** The three error returns of [parseProjectURL]. *)
Inductive parseError := InvalidProjectID | InvalidViewID | InvalidFormat.

(** A call returns a project, returns an error, or panics on an index out
    of range. *)
Inductive parsed :=
| Project (info : ProjectInfo)
| Failed (err : parseError)
| IndexOutOfRange.

(** [https://github\.com/orgs/([^/]+)/projects/(\d+)/views/(\d+)] *)
Definition orgViewPattern : re :=
  seq_re [lit "https://github.com/orgs/"; Cap (Plus notSlash); lit "/projects/";
          Cap (Plus digit); lit "/views/"; Cap (Plus digit)].

(** [https://github\.com/orgs/([^/]+)/projects/(\d+)] *)
Definition orgPattern : re :=
  seq_re [lit "https://github.com/orgs/"; Cap (Plus notSlash); lit "/projects/";
          Cap (Plus digit)].

(** [https://github\.com/([^/]+)/([^/]+)/projects/(\d+)/views/(\d+)] *)
Definition repoViewPattern : re :=
  seq_re [lit "https://github.com/"; Cap (Plus notSlash); lit "/";
          Cap (Plus notSlash); lit "/projects/"; Cap (Plus digit); lit "/views/";
          Cap (Plus digit)].

(** [https://github\.com/([^/]+)/([^/]+)/projects/(\d+)] *)
Definition repoPattern : re :=
  seq_re [lit "https://github.com/"; Cap (Plus notSlash); lit "/";
          Cap (Plus notSlash); lit "/projects/"; Cap (Plus digit)].

(** The pattern table: the pattern and its [isOrg] flag. *)
Definition patterns : list (re * bool) :=
  [(orgViewPattern, true); (orgPattern, true);
   (repoViewPattern, false); (repoPattern, false)].

(** [matches[i]] *)
Definition index (matches : list string) (i : nat) (k : string -> parsed) : parsed :=
  match matches !! i with
  | Some s => k s
  | None => IndexOutOfRange
  end.

(** The loop over the pattern table. *)
Fixpoint parseWith (table : list (re * bool)) (url : string) : parsed :=
  match table with
  | [] => Failed InvalidFormat
  | (regex, isOrg) :: rest =>
      let matches :=
        match FindStringSubmatch regex url with
        | Some matches => matches
        | None => []
        end in
      if (3 <=? length matches)%nat then
        if isOrg then
          index matches 2 (fun s =>
          match strconv.Atoi s with
          | None => Failed InvalidProjectID
          | Some projectID =>
              let info := mkProjectInfo (nth 1 matches "") "" projectID 0
                                        ProjectTypeOrganization url in
              if (4 <=? length matches)%nat then
                index matches 3 (fun s =>
                match strconv.Atoi s with
                | None => Failed InvalidViewID
                | Some viewID =>
                    Project (mkProjectInfo (Owner info) (Repo info) (ProjectID info)
                                           viewID (Type_ info) (URL info))
                end)
              else Project info
          end)
        else
          index matches 3 (fun s =>
          match strconv.Atoi s with
          | None => Failed InvalidProjectID
          | Some projectID =>
              let info := mkProjectInfo (nth 1 matches "") (nth 2 matches "")
                                        projectID 0 ProjectTypeRepository url in
              if (5 <=? length matches)%nat then
                index matches 4 (fun s =>
                match strconv.Atoi s with
                | None => Failed InvalidViewID
                | Some viewID =>
                    Project (mkProjectInfo (Owner info) (Repo info) (ProjectID info)
                                           viewID (Type_ info) (URL info))
                end)
              else Project info
          end)
      else parseWith rest url
  end.

Definition parseProjectURL (url : string) : parsed := parseWith patterns url.

End project.

(** ** [internal/adapters/github/infrastructure.go]: [ClearExpired], and
    the bookkeeping of the fetch functions *)

Module bookkeeping.
Import github.

Section Bookkeeping.
Context {R : Type} `{Remote R}.

(** [ClearExpired]: every entry that has expired by now is deleted. *)
Definition ClearExpired (b : BridgeClient R) : BridgeClient R :=
  match cache b with
  | None => b
  | Some data =>
      let now := Now (remote b) in
      with_cache (Some (filter (fun kv => now <= ExpiresAt (snd kv)) data)) b
  end.

(** What a page request leaves alone: the cache, the configuration and
    the counters of errors, retries and cache hits; the counter of API
    calls does not go down. *)
Definition onlyCalls (b b' : BridgeClient R) : Prop :=
  cache b' = cache b /\ config b' = config b /\
  ErrorsCount (stats b') = ErrorsCount (stats b) /\
  RetryCount (stats b') = RetryCount (stats b) /\
  CacheHitsCount (stats b') = CacheHitsCount (stats b) /\
  APICallsCount (stats b) <= APICallsCount (stats b').

End Bookkeeping.
End bookkeeping.

(** ** A server that fails in the middle of a listing *)

Module flaky.

(** The clock, the number of API calls answered so far, the calls
    (counted from 0) that are answered with a timeout, and the pages of
    the comment listing. *)
Record Server := mkServer {
  clock : Z;
  served : nat;
  failing : list nat;
  commentPages : list (list gogithub.IssueComment.t)
}.

Definition advance (d : Z) (s : Server) : Server :=
  mkServer (clock s + d) (served s) (failing s) (commentPages s).

Definition answered (s : Server) : Server :=
  mkServer (clock s) (S (served s)) (failing s) (commentPages s).

Definition serveComments (page : Z) (s : Server)
  : (string + list gogithub.IssueComment.t * gogithub.Response.t) * Server :=
  if existsb (Nat.eqb (served s)) (failing s) then (inl "timeout"%string, answered s)
  else
    let p := if page <=? 0 then 1 else page in
    match commentPages s !! Z.to_nat (p - 1) with
    | Some comments =>
        let next := if p <? Z.of_nat (length (commentPages s)) then p + 1 else 0 in
        (inr (comments, testserver.okResponse next), answered s)
    | None => (inr ([], testserver.okResponse 0), answered s)
    end.

#[global] Instance Server_Remote : github.Remote Server := {|
  github.Now := clock;
  github.Sleep := advance;
  github.Wait := fun s => (None, s);
  github.SearchIssues := fun _ _ _ s => (inr ([], testserver.okResponse 0), answered s);
  github.ListComments := fun _ _ _ page _ s => serveComments page s
|}.

End flaky.

(** * Properties *)

Import GoStrings entity.

(** ** Status aggregation *)

Section Counting.

Lemma countStatus_foldl (l : list WeeklyUpdateStatus) (c : krCounters) :
  let c' := foldl countStatus c l in
  completed c' = completed c + design.count_status StatusCompleted l /\
  blocked c' = blocked c + design.count_status StatusBlocked l /\
  delayed c' = delayed c + design.count_status StatusDelayed l /\
  atRisk c' = atRisk c + design.count_status StatusAtRisk l /\
  caution c' = caution c + design.count_status StatusCaution l /\
  onTrack c' = onTrack c + design.count_status StatusOnTrack l.
Proof.
  revert c. induction l as [|s l IH]; intros c; cbn zeta.
  - unfold design.count_status; simpl. lia.
  - simpl foldl. specialize (IH (countStatus c s)). cbn zeta in IH.
    destruct IH as (H1 & H2 & H3 & H4 & H5 & H6).
    rewrite H1, H2, H3, H4, H5, H6.
    unfold design.count_status.
    destruct s; simpl; lia.
Qed.

Lemma countKRs_map (children : list IssueWithUpdates) :
  countKRs children = foldl countStatus zeroCounters (map GetKRStatus children).
Proof.
  unfold countKRs. generalize zeroCounters.
  induction children as [|k l IH]; intros c; simpl; [reflexivity|apply IH].
Qed.

Lemma count_pos_existsb (s : WeeklyUpdateStatus) (l : list WeeklyUpdateStatus) :
  (design.count_status s l >? 0) = existsb (design.is_status s) l.
Proof.
  unfold design.count_status.
  induction l as [|x l IH]; simpl; [reflexivity|].
  destruct (design.is_status s x); simpl.
  - apply Z.gtb_lt. lia.
  - exact IH.
Qed.

Lemma count_all_forallb (s : WeeklyUpdateStatus) (l : list WeeklyUpdateStatus) :
  (design.count_status s l =? Z.of_nat (length l)) = forallb (design.is_status s) l.
Proof.
  unfold design.count_status.
  assert (Hle : forall l', (length (List.filter (design.is_status s) l') <= length l')%nat).
  { induction l' as [|y l' IH']; simpl; [lia|].
    destruct (design.is_status s y); simpl; lia. }
  induction l as [|x l IH]; [reflexivity|].
  cbn [List.filter forallb]. specialize (Hle l).
  destruct (design.is_status s x); cbn [length andb].
  - rewrite <- IH.
    destruct (Z.eqb_spec (Z.of_nat (length (List.filter (design.is_status s) l)))
                         (Z.of_nat (length l))) as [E|E].
    + apply Z.eqb_eq. lia.
    + apply Z.eqb_neq. lia.
  - apply Z.eqb_neq. lia.
Qed.

End Counting.

(** What the source computes for an objective with children: the
    resolution by priority with threshold [total/2] in integer
    division. *)
Lemma GetObjectiveStatus_resolution (i : IssueWithUpdates) :
  IsObjective (Issue_ i) = true ->
  ChildIssues i <> [] ->
  GetObjectiveStatus i =
  design.resolveWithThreshold (Z.quot (Z.of_nat (length (ChildIssues i))) 2)
                              (map GetKRStatus (ChildIssues i)).
Proof.
  intros Hobj Hne. unfold GetObjectiveStatus. rewrite Hobj. simpl negb.
  destruct (Z.eqb_spec (Z.of_nat (length (ChildIssues i))) 0) as [E|_].
  { destruct (ChildIssues i); [congruence|simpl in E; lia]. }
  cbn [orb]. cbv zeta.
  rewrite countKRs_map.
  pose proof (countStatus_foldl (map GetKRStatus (ChildIssues i)) zeroCounters) as Hc.
  cbn zeta in Hc. destruct Hc as (H1 & H2 & H3 & H4 & H5 & H6).
  rewrite H1, H2, H3, H4, H5, H6. simpl (_ zeroCounters).
  rewrite !Z.add_0_l.
  unfold design.resolveWithThreshold.
  rewrite !count_pos_existsb.
  pose proof (count_all_forallb StatusCompleted (map GetKRStatus (ChildIssues i))) as Hall.
  rewrite length_map in Hall. rewrite Hall.
  rewrite Z.geb_leb. reflexivity.
Qed.

(** C1.  An objective whose single key result is open and has no weekly
    update: the source answers OnTrack ([0 >= 1/2] in integer division),
    where the resolution by priority of the design (threshold
    [ceil(total/2)], "default to unknown if all KRs are unknown") gives
    Unknown. *)
Theorem objective_with_one_silent_key_result :
  IsObjective (Issue_ sample.objectiveWithSilentKR) = true /\
  map GetKRStatus (ChildIssues sample.objectiveWithSilentKR) = [StatusUnknown] /\
  GetObjectiveStatus sample.objectiveWithSilentKR = StatusOnTrack /\
  design.resolveByPriority
    (map GetKRStatus (ChildIssues sample.objectiveWithSilentKR)) = StatusUnknown.
Proof. repeat split; reflexivity. Qed.

(** ** Key-result status *)

Lemma scanAllUpdates_find (state : string) (updates : list WeeklyUpdate) :
  scanAllUpdates state updates =
  option_map (fun u => design.reconcile state (Status u))
             (List.find (fun u => negb (design.is_status (Status u) StatusUnknown))
                        updates).
Proof.
  induction updates as [|u l IH]; [reflexivity|].
  cbn [scanAllUpdates List.find]. unfold design.is_status at 1.
  destruct (decide (Status u = StatusUnknown)) as [E|E].
  - rewrite bool_decide_eq_false_2 by tauto.
    rewrite (bool_decide_eq_true_2 _ E). cbn [negb]. exact IH.
  - rewrite bool_decide_eq_true_2 by exact E.
    rewrite (bool_decide_eq_false_2 _ E). cbn [negb option_map].
    unfold design.reconcile.
    destruct (bool_decide (Status u = StatusCompleted) && String.eqb state "open");
      reflexivity.
Qed.

Lemma find_none_head (updates : list WeeklyUpdate) :
  List.find (fun u => negb (design.is_status (Status u) StatusUnknown)) updates = None ->
  match head updates with
  | Some u => Status u = StatusUnknown
  | None => True
  end.
Proof.
  destruct updates as [|u l]; [intros _; exact I|]. cbn [List.find head].
  unfold design.is_status.
  destruct (decide (Status u = StatusUnknown)) as [E|E]; [intros _; exact E|].
  rewrite (bool_decide_eq_false_2 _ E). discriminate.
Qed.

(** C2, counterexample.  An open objective without children whose newest
    update carries no recognised status and whose previous update says
    blocked: [GetKRStatus] looks at the newest update only and answers
    Unknown; the scan of the claim answers Blocked. *)
Lemma GetKRStatus_quiet_objective :
  GetKRStatus sample.quietObjective = StatusUnknown /\
  design.keyResultStatus sample.quietObjective = StatusBlocked /\
  GetKRStatus sample.quietObjective <> design.keyResultStatus sample.quietObjective.
Proof. repeat split; try reflexivity. discriminate. Qed.

(** C2, amended.  With the latest update being the head of the update
    list: on an issue of type key result [GetKRStatus] is the status of the
    design (Completed when closed; otherwise the first status different
    from Unknown of the newest-first list, turned into OnTrack when it is
    Completed and the issue is open; Unknown when there is none); on an
    issue of any other type it is Completed when closed and otherwise the
    status of the newest update alone, reconciled the same way, Unknown
    without updates. *)
Theorem GetKRStatus_by_type (i : IssueWithUpdates) :
  LatestUpdate i = head (AllUpdates i) ->
  GetKRStatus i =
  if IsKeyResult (Issue_ i) then design.keyResultStatus i else design.latestStatus i.
Proof.
  intros Hlatest. unfold GetKRStatus.
  destruct (IsKeyResult (Issue_ i)); cbn [negb].
  - unfold design.keyResultStatus.
    destruct (String.eqb (State (Issue_ i)) "closed"); [reflexivity|].
    rewrite scanAllUpdates_find.
    destruct (List.find _ (AllUpdates i)) as [u|] eqn:Hfind; [reflexivity|].
    cbn [option_map]. apply find_none_head in Hfind.
    unfold GetLatestUpdateStatus. rewrite Hlatest.
    destruct (head (AllUpdates i)) as [u|]; [|reflexivity].
    rewrite Hfind. reflexivity.
  - unfold GetActualStatus, design.latestStatus, GetLatestUpdateStatus.
    rewrite Hlatest.
    destruct (String.eqb (State (Issue_ i)) "closed"); [reflexivity|].
    destruct (head (AllUpdates i)) as [u|]; unfold design.reconcile; reflexivity.
Qed.

Lemma GetKRStatus_by_type_witness :
  LatestUpdate sample.quietKR = head (AllUpdates sample.quietKR) /\
  GetKRStatus sample.quietKR = StatusBlocked.
Proof.
  split; [reflexivity|].
  rewrite (GetKRStatus_by_type sample.quietKR); reflexivity.
Defined.

(** C3.  On an objective without children [GetObjectiveStatus] and
    [GetKRStatus] return the same status, whatever the state and the
    update history. *)
Theorem childless_objective_status (i : IssueWithUpdates) :
  IsObjective (Issue_ i) = true ->
  ChildIssues i = [] ->
  GetObjectiveStatus i = GetKRStatus i.
Proof.
  intros Hobj Hnil. unfold GetObjectiveStatus, GetKRStatus.
  rewrite Hnil. cbn [length Z.of_nat Z.eqb]. rewrite orb_true_r.
  unfold IsObjective in Hobj. apply bool_decide_eq_true_1 in Hobj.
  unfold IsKeyResult. rewrite Hobj.
  rewrite bool_decide_eq_false_2 by discriminate. reflexivity.
Qed.

Lemma childless_objective_status_witness :
  GetObjectiveStatus sample.quietObjective = GetKRStatus sample.quietObjective.
Proof.
  apply (childless_objective_status sample.quietObjective); reflexivity.
Defined.

(** ** Classification of comment bodies *)

Import indicators.

(** Decides the next [strings.Contains] test of the goal. *)
Ltac next_test :=
  match goal with
  | |- context [Contains ?text ?word] =>
      let E := fresh "E" in
      destruct (Contains text word) eqn:E
  end.

(** C4, counterexample.  A weekly update that shows the check-mark glyph
    and none of the words "completed", "done", "finished": the adapter
    classifies it as OnTrack, not as Completed. *)
Lemma check_mark_is_on_track :
  let content := "Weekly update 2025-07-09 ✅ rollout reached 40% of stores"%string in
  Contains content Glyph.check_mark_button = true /\
  github_status.detectStatusFromContent content = StatusOnTrack /\
  github_status.detectStatusFromContent content <> StatusCompleted.
Proof. cbv zeta. repeat split; try reflexivity. vm_compute. discriminate. Qed.

(** C4, amended.  [detectStatusFromContent] returns Completed exactly when
    the lower-case content contains "completed", "done" or "finished"; the
    check-mark glyph is not part of the completion rule but of the
    on-track rule, the one of lowest priority: a content that shows the
    glyph is never Unknown, and it is OnTrack when no completion, blocked,
    delayed, caution or at-risk indicator is present. *)
Theorem detectStatus_completion_rule (content : string) :
  (github_status.detectStatusFromContent content = StatusCompleted <->
   mentions completionWords (ToLower content) = true) /\
  (Contains content Glyph.check_mark_button = true ->
   github_status.detectStatusFromContent content <> StatusUnknown) /\
  (Contains content Glyph.check_mark_button = true ->
   mentions completionWords (ToLower content) = false ->
   mentions blockedGlyphs content = false ->
   mentions blockedWords (ToLower content) = false ->
   mentions delayedWords (ToLower content) = false ->
   mentions cautionGlyphs content = false ->
   mentions cautionWords (ToLower content) = false ->
   mentions atRiskWords (ToLower content) = false ->
   github_status.detectStatusFromContent content = StatusOnTrack).
Proof.
  unfold github_status.detectStatusFromContent, mentions, completionWords,
    blockedGlyphs, blockedWords, delayedWords, cautionGlyphs, cautionWords,
    atRiskWords.
  cbn [existsb]. cbv zeta.
  repeat (next_test; cbn [orb andb];
          try (repeat split; intros; first [reflexivity | discriminate | congruence])).
Qed.

Lemma detectStatus_completion_rule_witness :
  github_status.detectStatusFromContent Glyph.check_mark_button = StatusOnTrack.
Proof.
  apply (detectStatus_completion_rule Glyph.check_mark_button); reflexivity.
Defined.

(** C10.  [DetectStatusFromContent] of the domain service never returns
    Unknown: its result is Completed, Blocked, AtRisk or OnTrack, and it is
    OnTrack whenever no completion, blocked or at-risk indicator occurs in
    the lower-case content (whether or not an on-track indicator does). *)
Theorem DetectStatusFromContent_never_unknown (content : string) :
  service_status.DetectStatusFromContent content <> StatusUnknown /\
  (mentions serviceCompletion (ToLower content) = false ->
   mentions serviceBlocked (ToLower content) = false ->
   mentions serviceAtRisk (ToLower content) = false ->
   service_status.DetectStatusFromContent content = StatusOnTrack).
Proof.
  unfold service_status.DetectStatusFromContent, mentions, serviceCompletion,
    serviceBlocked, serviceAtRisk.
  cbn [existsb]. cbv zeta.
  repeat (next_test; cbn [orb andb];
          try (repeat split; intros; first [reflexivity | discriminate | congruence])).
Qed.

Lemma DetectStatusFromContent_never_unknown_witness :
  service_status.DetectStatusFromContent
    "Weekly update 2025-07-09: nothing to report"%string = StatusOnTrack.
Proof.
  apply (DetectStatusFromContent_never_unknown
           "Weekly update 2025-07-09: nothing to report"%string); reflexivity.
Defined.

(** ** Retry with backoff *)

Section Retry.
Context {R : Type} `{github.Remote R}.
Import github testserver.

Lemma retryLoop_success (n : nat) (i maxRetries : Z) (rest : list (option string))
  (b : BridgeClient R) :
  retryLoop (S n) i maxRetries scripted (None :: rest, b) =
  Returns (None, (rest, beforeAttempt i b)).
Proof. reflexivity. Qed.

Lemma retryLoop_final (n : nat) (i maxRetries : Z) (e : string)
  (rest : list (option string)) (b : BridgeClient R) :
  (i =? maxRetries - 1) || negb (isRetryableError (Some e)) = true ->
  retryLoop (S n) i maxRetries scripted (Some e :: rest, b) =
  Returns (Some e, (rest, IncrementError (beforeAttempt i b))).
Proof.
  intros Hfin. cbn [retryLoop].
  unfold mbind, M_bind, mret, M_ret, modify, onClient.
  cbn [scripted fst snd]. rewrite Hfin. reflexivity.
Qed.

Lemma retryLoop_again (n : nat) (i maxRetries : Z) (e : string)
  (rest : list (option string)) (b : BridgeClient R) :
  i <> maxRetries - 1 ->
  isRetryableError (Some e) = true ->
  retryLoop (S n) i maxRetries scripted (Some e :: rest, b) =
  retryLoop n (i + 1) maxRetries scripted (rest, beforeAttempt i b).
Proof.
  intros Hi He. cbn [retryLoop].
  unfold mbind, M_bind, mret, M_ret, modify, onClient.
  apply Z.eqb_neq in Hi.
  cbn [scripted fst snd]. rewrite Hi, He. reflexivity.
Qed.

Lemma RetryCount_beforeAttempt (i : Z) (b : BridgeClient R) :
  RetryCount (stats (beforeAttempt i b)) =
  RetryCount (stats b) + (if i >? 0 then 1 else 0).
Proof. unfold beforeAttempt. destruct (i >? 0); simpl; lia. Qed.

Lemma ErrorsCount_beforeAttempt (i : Z) (b : BridgeClient R) :
  ErrorsCount (stats (beforeAttempt i b)) = ErrorsCount (stats b).
Proof. unfold beforeAttempt. destruct (i >? 0); reflexivity. Qed.

(** After [length es] transient failures from attempt [i] on, the loop is
    at attempt [i + length es] with the rest of the script. *)
Lemma retryLoop_transient (es : list string) :
  forall (n : nat) (i maxRetries : Z) (tail : list (option string))
         (b : BridgeClient R),
  Forall (fun e => isRetryableError (Some e) = true) es ->
  0 <= i ->
  i + Z.of_nat (length es) < maxRetries ->
  exists b',
    retryLoop (length es + n) i maxRetries scripted (map Some es ++ tail, b) =
    retryLoop n (i + Z.of_nat (length es)) maxRetries scripted (tail, b') /\
    RetryCount (stats (beforeAttempt (i + Z.of_nat (length es)) b')) =
      RetryCount (stats b) + Z.of_nat (length es) + (if i >? 0 then 1 else 0) /\
    ErrorsCount (stats b') = ErrorsCount (stats b).
Proof.
  induction es as [|e es IH]; intros n i maxRetries tail b Hes Hi Hlt.
  - exists b. cbn [length map app Nat.add]. rewrite Z.add_0_r.
    split; [reflexivity|]. split; [|reflexivity].
    rewrite RetryCount_beforeAttempt. lia.
  - inversion Hes as [|? ? He Hes']; subst.
    cbn [length] in Hlt.
    destruct (IH n (i + 1) maxRetries tail (beforeAttempt i b) Hes')
      as (b' & Hrun & Hretry & Herr); [lia|lia|].
    exists b'. cbn [length map app Nat.add].
    rewrite retryLoop_again by (try assumption; lia).
    rewrite Hrun.
    replace (i + 1 + Z.of_nat (length es))
      with (i + Z.of_nat (S (length es))) in * by lia.
    split; [reflexivity|]. split.
    + rewrite Hretry, RetryCount_beforeAttempt.
      destruct (Z.gtb_spec (i + 1) 0); [|lia]. lia.
    + rewrite Herr. apply ErrorsCount_beforeAttempt.
Qed.

Lemma isRetryableError_iff (text : string) :
  isRetryableError (Some text) = true <->
  exists word, In word retryableErrors /\ Contains (ToLower text) word = true.
Proof. unfold isRetryableError. apply existsb_exists. Qed.

(** C9.  For an operation that meets [length es] transient errors in a row,
    fewer than [maxRetries]:
    - if the next attempt succeeds, [retryWithBackoff] returns [nil], the
      retry counter has grown by [length es] (one per retry) and the error
      counter is unchanged;
    - if the next attempt fails with an error that is not transient, or is
      attempt number [maxRetries], that error is returned at once: the
      operation is not called again, the retry counter has grown by the
      [length es] earlier retries only (by nothing when the error comes
      first), the error counter by one.
    An error is transient exactly when its lower-case text contains one of
    "timeout", "connection reset", "connection refused", "temporary
    failure", "rate limit", "server error", "503", "502", "500"; the number
    of attempts is 3 unless the configuration sets a positive one. *)
Theorem retryWithBackoff_policy (maxRetries : Z) (es : list string)
  (rest : list (option string)) (b : BridgeClient R) :
  Forall (fun e => isRetryableError (Some e) = true) es ->
  Z.of_nat (length es) < maxRetries ->
  (exists b',
     retryWithBackoff maxRetries scripted (map Some es ++ None :: rest, b) =
       Returns (None, (rest, b')) /\
     RetryCount (stats b') = RetryCount (stats b) + Z.of_nat (length es) /\
     ErrorsCount (stats b') = ErrorsCount (stats b)) /\
  (forall e,
     isRetryableError (Some e) = false \/ Z.of_nat (length es) = maxRetries - 1 ->
     exists b',
       retryWithBackoff maxRetries scripted (map Some es ++ Some e :: rest, b) =
         Returns (Some e, (rest, b')) /\
       RetryCount (stats b') = RetryCount (stats b) + Z.of_nat (length es) /\
       ErrorsCount (stats b') = ErrorsCount (stats b) + 1) /\
  (forall text,
     isRetryableError (Some text) = true <->
     exists word, In word retryableErrors /\ Contains (ToLower text) word = true) /\
  isRetryableError None = false /\
  (config b = None -> maxRetriesOf b = 3) /\
  (forall c, config b = Some c ->
             maxRetriesOf b = if config.MaxRetries c >? 0 then config.MaxRetries c else 3).
Proof.
  intros Hes Hlt.
  assert (Hn : Z.to_nat maxRetries
               = (length es + S (Z.to_nat maxRetries - length es - 1))%nat) by lia.
  unfold retryWithBackoff. rewrite Hn.
  set (n := (Z.to_nat maxRetries - length es - 1)%nat).
  repeat split.
  - destruct (retryLoop_transient es (S n) 0 maxRetries (None :: rest) b Hes)
      as (b' & Hrun & Hretry & Herr); [lia|lia|].
    exists (beforeAttempt (0 + Z.of_nat (length es)) b').
    rewrite Hrun, retryLoop_success.
    split; [reflexivity|]. split.
    + rewrite Hretry. simpl. lia.
    + rewrite ErrorsCount_beforeAttempt. exact Herr.
  - intros e He.
    destruct (retryLoop_transient es (S n) 0 maxRetries (Some e :: rest) b Hes)
      as (b' & Hrun & Hretry & Herr); [lia|lia|].
    exists (IncrementError (beforeAttempt (0 + Z.of_nat (length es)) b')).
    rewrite Hrun, retryLoop_final.
    + split; [reflexivity|]. split.
      * change (RetryCount (stats (IncrementError ?x))) with (RetryCount (stats x)).
        rewrite Hretry. simpl. lia.
      * change (ErrorsCount (stats (IncrementError ?x)))
          with (ErrorsCount (stats x) + 1).
        rewrite ErrorsCount_beforeAttempt, Herr. reflexivity.
    + destruct He as [He|He].
      * rewrite He. apply orb_true_r.
      * apply orb_true_iff. left. apply Z.eqb_eq. lia.
  - apply isRetryableError_iff.
  - apply isRetryableError_iff.
  - intros Hcfg. unfold maxRetriesOf. rewrite Hcfg. reflexivity.
  - intros c Hcfg. unfold maxRetriesOf. rewrite Hcfg. reflexivity.
Qed.

End Retry.

(** The retry scenario of the design: two "connection reset" failures,
    success on attempt 3, retry counter incremented by 2. *)
Lemma retryWithBackoff_policy_witness :
  let reset := "error fetching comments: read tcp: connection reset by peer"%string in
  let b := testserver.newClient None (testserver.mkServer 0 [] [] []) in
  exists b',
    github.retryWithBackoff 3 testserver.scripted ([Some reset; Some reset; None], b)
      = Returns (None, ([], b')) /\
    github.RetryCount (github.stats b') = 2 /\
    github.ErrorsCount (github.stats b') = 0.
Proof.
  cbv zeta.
  set (reset := "error fetching comments: read tcp: connection reset by peer"%string).
  set (b := testserver.newClient None (testserver.mkServer 0 [] [] [])).
  assert (Hes : Forall (fun e => github.isRetryableError (Some e) = true)
                       [reset; reset]) by (repeat constructor).
  assert (Hlt : Z.of_nat (length [reset; reset]) < 3) by (simpl; lia).
  destruct (retryWithBackoff_policy 3 [reset; reset] [] b Hes Hlt)
    as [(b' & Hrun & Hretry & Herr) _].
  exists b'. split; [exact Hrun|]. split; [exact Hretry|exact Herr].
Defined.

(** A 404 is not transient, and is returned by the first attempt. *)
Example not_found_is_not_retried :
  let notFound :=
    "error fetching comments: GET https://api.github.com/repos/acme/okr/issues/7/comments: 404 Not Found []"%string in
  let b := testserver.newClient None (testserver.mkServer 0 [] [] []) in
  github.isRetryableError (Some notFound) = false /\
  github.retryWithBackoff 3 testserver.scripted ([Some notFound; None], b)
    = Returns (Some notFound, ([None], github.IncrementError b)).
Proof. split; reflexivity. Qed.

(** ** Paginated search *)

(** C8.  With [max_issues_limit] set to 2 and a search result of six
    issues served two per page, [fetchIssuesBySearchQuery] requests a
    second page although the first one already reaches the limit (the test
    is [len(allIssues) > maxIssues], made after the page is appended), and
    returns four issues. *)
Theorem fetchIssues_exceeds_limit :
  let b := testserver.newClient (Some testserver.limitTwo)
             (testserver.mkServer 0 [] testserver.sixIssues []) in
  github.maxIssuesOf b = 2 /\
  exists b',
    github.fetchIssuesBySearchQuery 10 "acme" "okr" "label:kind/okr" b =
      Returns ((concat (take 2 testserver.sixIssues), None), b') /\
    Z.of_nat (length (concat (take 2 testserver.sixIssues))) = 4 /\
    github.APICallsCount (github.stats b') = 2.
Proof.
  cbv zeta. split; [reflexivity|].
  eexists. split; [vm_compute; reflexivity|]. split; reflexivity.
Qed.

(** The same search without a limit in the way: pagination stops when no
    further page remains. *)
Example fetchIssues_all_pages :
  let b := testserver.newClient None
             (testserver.mkServer 0 [] testserver.sixIssues []) in
  exists b',
    github.fetchIssuesBySearchQuery 10 "acme" "okr" "label:kind/okr" b =
      Returns ((concat testserver.sixIssues, None), b') /\
    github.APICallsCount (github.stats b') = 3.
Proof. cbv zeta. eexists. split; [vm_compute; reflexivity|reflexivity]. Qed.

Import service.

(** ** Hierarchy resolution *)

Lemma foldM_app {S A B} (f : B -> A -> M S B) (l1 l2 : list A) (acc : B) (s : S) :
  foldM f acc (l1 ++ l2) s =
  match foldM f acc l1 s with
  | Returns (acc', s') => foldM f acc' l2 s'
  | Diverges => Diverges
  end.
Proof.
  revert acc s. induction l1 as [|x l1 IH]; intros acc s; [reflexivity|].
  cbn [foldM app]. unfold mbind, M_bind.
  destruct (f acc x s) as [[acc' s']|]; [apply IH|reflexivity].
Qed.

Lemma sameButType_refl h : sameButType h h.
Proof. reflexivity. Qed.

Lemma sameButType_trans h1 h2 h3 :
  sameButType h1 h2 -> sameButType h2 h3 -> sameButType h1 h3.
Proof. unfold sameButType. congruence. Qed.

Lemma sameButType_alter h t p : sameButType h (alter (with_Type t) p h).
Proof.
  unfold sameButType. revert p. induction h as [|i h IH]; intros p; [reflexivity|].
  destruct p as [|p]; cbn [alter list_alter map]; [reflexivity|].
  f_equal. apply IH.
Qed.

Lemma sameButType_length h h' : sameButType h h' -> length h' = length h.
Proof. intros E. apply (f_equal length) in E. rewrite !length_map in E. exact E. Qed.

Lemma sameButType_lookup h h' p :
  sameButType h h' ->
  with_Type IssueTypeUnset (h' !!! p) = with_Type IssueTypeUnset (h !!! p).
Proof.
  intros E. pose proof (sameButType_length _ _ E) as Hlen.
  rewrite !list_lookup_total_alt.
  assert (Hp : (with_Type IssueTypeUnset <$> h') !! p = (with_Type IssueTypeUnset <$> h) !! p)
    by (unfold sameButType in E; unfold fmap, list_fmap; fold (map (with_Type IssueTypeUnset) h'); fold (map (with_Type IssueTypeUnset) h); congruence).
  rewrite !list_lookup_fmap in Hp.
  destruct (h' !! p) as [i'|], (h !! p) as [i|]; cbn in Hp |- *; congruence.
Qed.

Lemma extractParent_with_Type t i :
  extractParentIssueNumber (with_Type t i) = extractParentIssueNumber i.
Proof. reflexivity. Qed.

Lemma sameButType_extractParent h h' p :
  sameButType h h' ->
  extractParentIssueNumber (h' !!! p) = extractParentIssueNumber (h !!! p).
Proof.
  intros E. rewrite <- (extractParent_with_Type IssueTypeUnset (h' !!! p)).
  rewrite (sameButType_lookup _ _ _ E). reflexivity.
Qed.

Lemma sameButType_Number h h' p :
  sameButType h h' -> Number (h' !!! p) = Number (h !!! p).
Proof.
  intros E. change (Number (with_Type IssueTypeUnset (h' !!! p)) = Number (h !!! p)).
  rewrite (sameButType_lookup _ _ _ E). reflexivity.
Qed.

Section Hierarchy.
Context {W : Type} `{ports.GitHubRepository W}.

Hypothesis FindParentIssue_returns :
  forall owner repo n w, exists x w', ports.FindParentIssue owner repo n w = Returns (x, w').

Lemma children_of_insert (m : gmap Z (list ptr)) (k n : Z) (v : list ptr) :
  children_of (<[k := v]> m) n = if decide (k = n) then v else children_of m n.
Proof.
  unfold children_of. rewrite lookup_insert. destruct (decide (k = n)); reflexivity.
Qed.

Lemma recordParent_returns (m : gmap Z (list ptr)) (p : ptr) (st : State W) :
  exists m' w',
    recordParent m p st = Returns (m', mkState (heap st) w') /\
    (forall q n, q ∈ children_of m n -> q ∈ children_of m' n) /\
    (extractParentIssueNumber (heap st !!! p) > 0 ->
     p ∈ children_of m' (extractParentIssueNumber (heap st !!! p))).
Proof.
  unfold recordParent, deref. unfold mbind at 1, M_bind at 1.
  set (issue := heap st !!! p).
  set (n := extractParentIssueNumber issue).
  assert (Hkeep : forall k q n', q ∈ children_of m n' ->
            q ∈ children_of (<[k := (children_of m k ++ [p])%list]> m) n').
  { intros k q n' Hq. rewrite children_of_insert.
    destruct (decide (k = n')) as [->|]; [|exact Hq].
    apply elem_of_app. left. exact Hq. }
  destruct (Z.eqb_spec n 0) as [E0|E0].
  - (* no textual reference *)
    destruct (ports.ExtractOwnerRepoFromIssue issue) as [owner repo].
    destruct (negb (String.eqb owner "") && negb (String.eqb repo "")).
    + unfold mbind, M_bind, liftW.
      destruct (FindParentIssue_returns owner repo (Number issue) (world st))
        as ([apiParentNum err] & w' & Hcall).
      rewrite Hcall.
      destruct (bool_decide (err = None) && (apiParentNum >? 0));
        unfold mret, M_ret.
      * destruct (apiParentNum >? 0); eexists _, w'; (split; [reflexivity|]);
          (split; [auto|lia]).
      * destruct (n >? 0); eexists _, w'; (split; [reflexivity|]);
          (split; [auto|lia]).
    + unfold mbind, M_bind, mret, M_ret.
      destruct (n >? 0); eexists _, (world st); (split; [destruct st; reflexivity|]);
        (split; [auto|lia]).
  - unfold mbind, M_bind, mret, M_ret.
    destruct (Z.gtb_spec n 0) as [Hpos|Hneg].
    + eexists _, (world st). split; [destruct st; reflexivity|].
      split; [auto|]. intros _. rewrite children_of_insert.
      rewrite decide_True by reflexivity. apply elem_of_app. right.
      apply list_elem_of_singleton. reflexivity.
    + eexists _, (world st). split; [destruct st; reflexivity|].
      split; [auto|lia].
Qed.

Lemma Build_returns (l : list ptr) :
  forall (m : gmap Z (list ptr)) (st : State W),
  exists m' w',
    foldM recordParent m l st = Returns (m', mkState (heap st) w') /\
    (forall q n, q ∈ children_of m n -> q ∈ children_of m' n) /\
    (forall p, p ∈ l -> extractParentIssueNumber (heap st !!! p) > 0 ->
               p ∈ children_of m' (extractParentIssueNumber (heap st !!! p))).
Proof.
  induction l as [|x l IH]; intros m st.
  - exists m, (world st). split; [destruct st; reflexivity|].
    split; [auto|]. intros p Hp. inversion Hp.
  - destruct (recordParent_returns m x st) as (m1 & w1 & Hstep & Hmono1 & Hrec1).
    destruct (IH m1 (mkState (heap st) w1)) as (m2 & w2 & Hrest & Hmono2 & Hrec2).
    exists m2, w2. cbn [foldM]. unfold mbind, M_bind. rewrite Hstep.
    split; [exact Hrest|]. split; [auto|].
    intros p Hp Hpos. apply elem_of_cons in Hp as [->|Hp].
    + apply Hmono2, Hrec1, Hpos.
    + apply Hrec2; assumption.
Qed.

Lemma classify_returns (m : gmap Z (list ptr)) (parents : list ptr) (p : ptr)
  (st : State W) :
  exists parents' h',
    classify m parents p st = Returns (parents', mkState h' (world st)) /\
    sameButType (heap st) h' /\
    (forall q, q <> p -> h' !!! q = heap st !!! q) /\
    (forall q, q ∈ parents' ->
               q ∈ parents \/ (q = p /\ extractParentIssueNumber (heap st !!! p) <= 0)) /\
    (extractParentIssueNumber (heap st !!! p) > 0 ->
     h' = alter (with_Type IssueTypeKeyResult) p (heap st)).
Proof.
  unfold classify, deref, hasParentIssue, setType, modify.
  unfold mbind, M_bind, mret, M_ret.
  set (issue := heap st !!! p).
  destruct (Z.gtb_spec (extractParentIssueNumber issue) 0) as [Hpar|Hpar].
  - rewrite andb_false_r.
    eexists _, _. split; [reflexivity|].
    split; [apply sameButType_alter|].
    split; [intros q Hq; apply list_lookup_total_alter_ne; congruence|].
    split; [auto|]. intros _. reflexivity.
  - rewrite andb_true_r.
    destruct (Z.of_nat (length (children_of m (Number issue))) >? 0).
    + eexists _, _. split; [reflexivity|].
      split; [apply sameButType_alter|].
      split; [intros q Hq; apply list_lookup_total_alter_ne; congruence|].
      split; [|lia].
      intros q Hq. apply elem_of_app in Hq as [Hq|Hq]; [left; exact Hq|].
      apply list_elem_of_singleton in Hq. right. split; [exact Hq|lia].
    + exists parents, (heap st). split; [destruct st; reflexivity|].
      split; [apply sameButType_refl|].
      split; [reflexivity|]. split; [auto|lia].
Qed.

Lemma Identify_returns (m : gmap Z (list ptr)) (h0 : list Issue) (p0 : ptr)
  (l : list ptr) :
  (p0 < length h0)%nat ->
  extractParentIssueNumber (h0 !!! p0) > 0 ->
  forall (parents : list ptr) (st : State W),
  sameButType h0 (heap st) ->
  p0 ∉ parents ->
  p0 ∈ l \/ Type_ (heap st !!! p0) = IssueTypeKeyResult ->
  exists parents' st',
    foldM (classify m) parents l st = Returns (parents', st') /\
    sameButType h0 (heap st') /\
    Type_ (heap st' !!! p0) = IssueTypeKeyResult /\
    p0 ∉ parents'.
Proof.
  intros Hvalid Hpar.
  induction l as [|q l IH]; intros parents st Hsame Hnot Hcase.
  - exists parents, st. split; [reflexivity|]. split; [exact Hsame|].
    split; [|exact Hnot].
    destruct Hcase as [Hin|Hty]; [inversion Hin|exact Hty].
  - destruct (classify_returns m parents q st)
      as (parents1 & h1 & Hstep & Hsame1 & Hother & Hparents & Hkr).
    assert (Hsame01 : sameButType h0 h1) by (eapply sameButType_trans; eassumption).
    destruct (IH parents1 (mkState h1 (world st))) as (parents2 & st2 & Hrest & Hfinal).
    + exact Hsame01.
    + intros Hin. apply Hparents in Hin as [Hin|[Heq Hle]]; [exact (Hnot Hin)|].
      rewrite <- Heq in Hle.
      rewrite (sameButType_extractParent _ _ _ Hsame) in Hle. lia.
    + destruct (decide (q = p0)) as [->|Hne].
      * right. cbn [heap]. rewrite Hkr.
        -- rewrite list_lookup_total_alter_eq; [reflexivity|].
           rewrite (sameButType_length _ _ Hsame). exact Hvalid.
        -- rewrite (sameButType_extractParent _ _ _ Hsame). exact Hpar.
      * destruct Hcase as [Hin|Hty].
        -- left. apply elem_of_cons in Hin as [Heq|Hin]; [congruence|exact Hin].
        -- right. cbn [heap]. rewrite Hother by congruence. exact Hty.
    + exists parents2, st2. cbn [foldM]. unfold mbind, M_bind. rewrite Hstep.
      split; [exact Hrest|exact Hfinal].
Qed.

(** C6, amended.  A parent reference that names the issue's own number is
    recorded like any other: when the first parent reference found in the
    title and body of an issue is its own (positive) number, the issue is
    listed in [parentToChildren] under its own number, it is classified as
    a key result, and it is not among the objectives that the
    classification returns. *)
Theorem self_reference_is_recorded (issues : list ptr) (st : State W) (p : ptr) :
  p ∈ issues ->
  (p < length (heap st))%nat ->
  extractParentIssueNumber (heap st !!! p) = Number (heap st !!! p) ->
  0 < Number (heap st !!! p) ->
  exists m st1,
    BuildParentChildRelationships issues st = Returns (m, st1) /\
    p ∈ children_of m (Number (heap st !!! p)) /\
    exists parents st2,
      IdentifyObjectivesAndKeyResults issues m st1 = Returns (parents, st2) /\
      Type_ (heap st2 !!! p) = IssueTypeKeyResult /\
      p ∉ parents.
Proof.
  intros Hin Hvalid Hself Hpos.
  destruct (Build_returns issues ∅ st) as (m & w1 & Hbuild & _ & Hrec).
  exists m, (mkState (heap st) w1). split; [exact Hbuild|].
  split.
  - rewrite <- Hself. apply Hrec; [exact Hin|lia].
  - destruct (Identify_returns m (heap st) p issues Hvalid ltac:(lia) []
                (mkState (heap st) w1))
      as (parents & st2 & Hid & _ & Hty & Hnot).
    + apply sameButType_refl.
    + intros Hbad. inversion Hbad.
    + left. exact Hin.
    + exists parents, st2. split; [exact Hid|]. split; assumption.
Qed.
End Hierarchy.

(** C6, counterexample.  Issue #5 whose body says "Parent Issue: #5": the
    extracted parent is 5, the issue is its own child in
    [parentToChildren], and it is classified as a key result. *)
Lemma self_reference_is_not_ignored :
  let port := repository.Repository (R := testserver.Server) 10 in
  let st := mkState [sample.selfReferring]
              (testserver.newClient None (testserver.mkServer 0 [] [] [])) in
  extractParentIssueNumber sample.selfReferring = 5 /\
  Number sample.selfReferring = 5 /\
  exists m st1,
    BuildParentChildRelationships [0%nat] st = Returns (m, st1) /\
    children_of m 5 = [0%nat] /\
    exists parents st2,
      IdentifyObjectivesAndKeyResults [0%nat] m st1 = Returns (parents, st2) /\
      Type_ (heap st2 !!! 0%nat) = IssueTypeKeyResult.
Proof.
  cbv zeta. split; [reflexivity|]. split; [reflexivity|].
  eexists _, _. split; [vm_compute; reflexivity|]. split; [reflexivity|].
  eexists _, _. split; [vm_compute; reflexivity|]. reflexivity.
Qed.

Lemma self_reference_is_recorded_witness :
  let port := repository.Repository (R := testserver.Server) 10 in
  let st := mkState [sample.selfReferring]
              (testserver.newClient None (testserver.mkServer 0 [] [] [])) in
  exists m st1,
    BuildParentChildRelationships [0%nat] st = Returns (m, st1) /\
    0%nat ∈ children_of m 5.
Proof.
  cbv zeta.
  set (port := repository.Repository (R := testserver.Server) 10).
  set (st := mkState [sample.selfReferring]
               (testserver.newClient None (testserver.mkServer 0 [] [] []))).
  assert (Hreturns : forall owner repo n w, exists x w',
            ports.FindParentIssue owner repo n w = Returns (x, w')).
  { intros owner repo n w. eexists _, _. reflexivity. }
  destruct (self_reference_is_recorded (H := port) Hreturns [0%nat] st 0%nat)
    as (m & st1 & Hbuild & Hchild & _).
  - apply list_elem_of_singleton. reflexivity.
  - simpl. lia.
  - reflexivity.
  - reflexivity.
  - exists m, st1. split; [exact Hbuild|exact Hchild].
Defined.

(** ** The fallback rule *)

Section Fallback.
Context {W : Type} `{ports.GitHubRepository W}.

Hypothesis FindParentIssue_returns :
  forall owner repo n w, exists x w', ports.FindParentIssue owner repo n w = Returns (x, w').

Hypothesis FetchIssueComments_returns :
  forall owner repo n w, exists x w', ports.FetchIssueComments owner repo n w = Returns (x, w').

(** The owner and repository are read from the URL, not from the type. *)
Hypothesis ExtractOwnerRepo_with_Type :
  forall t i, ports.ExtractOwnerRepoFromIssue (with_Type t i) = ports.ExtractOwnerRepoFromIssue i.

Lemma sameButType_usable h h' p :
  sameButType h h' -> usable (h' !!! p) = usable (h !!! p).
Proof.
  intros E. unfold usable.
  rewrite <- (ExtractOwnerRepo_with_Type IssueTypeUnset (h' !!! p)).
  rewrite (sameButType_lookup _ _ _ E).
  rewrite ExtractOwnerRepo_with_Type. reflexivity.
Qed.

Lemma processChild_returns (acc : list IssueWithUpdates) (c : ptr) (st : State W) :
  exists acc' st',
    processChild acc c st = Returns (acc', st') /\
    sameButType (heap st) (heap st').
Proof.
  unfold processChild, setType, modify, deref, liftW.
  unfold mbind, M_bind, mret, M_ret. cbn [heap world].
  set (h1 := alter (with_Type IssueTypeKeyResult) c (heap st)).
  destruct (ports.ExtractOwnerRepoFromIssue (h1 !!! c)) as [owner repo].
  destruct (String.eqb owner "" || String.eqb repo "").
  - eexists _, _. split; [reflexivity|]. apply sameButType_alter.
  - destruct (FetchIssueComments_returns owner repo (Number (h1 !!! c)) (world st))
      as ([updates err] & w' & Hcall).
    cbn [heap world]. rewrite Hcall. eexists _, _. split; [reflexivity|]. apply sameButType_alter.
Qed.

Lemma children_loop_returns (l : list ptr) :
  forall (acc : list IssueWithUpdates) (st : State W),
  exists acc' st',
    foldM processChild acc l st = Returns (acc', st') /\
    sameButType (heap st) (heap st') /\
    (l = [] -> acc' = acc /\ st' = st).
Proof.
  induction l as [|c l IH]; intros acc st.
  - exists acc, st. split; [reflexivity|]. split; [apply sameButType_refl|auto].
  - destruct (processChild_returns acc c st) as (acc1 & st1 & Hstep & Hsame1).
    destruct (IH acc1 st1) as (acc2 & st2 & Hrest & Hsame2 & _).
    exists acc2, st2. cbn [foldM]. unfold mbind, M_bind. rewrite Hstep.
    split; [exact Hrest|]. split; [eapply sameButType_trans; eassumption|].
    discriminate.
Qed.

Lemma processObjective_returns (p : ptr) (children : list ptr) (st : State W) :
  exists r st',
    processObjectiveWithChildren p children st = Returns (r, st') /\
    sameButType (heap st) (heap st') /\
    (usable (heap st !!! p) = false -> r = None /\ st' = st) /\
    (usable (heap st !!! p) = true ->
     exists o, r = Some o /\ Issue_ o = heap st !!! p /\
               (children = [] -> ChildIssues o = [] /\ heap st' = heap st)).
Proof.
  unfold processObjectiveWithChildren, usable, deref, liftW.
  unfold mbind at 1, M_bind at 1.
  destruct (ports.ExtractOwnerRepoFromIssue (heap st !!! p)) as [owner repo].
  destruct (String.eqb owner "" || String.eqb repo "").
  - exists None, st. split; [reflexivity|]. split; [apply sameButType_refl|].
    split; [auto|discriminate].
  - unfold mbind at 1, M_bind at 1.
    destruct (FetchIssueComments_returns owner repo (Number (heap st !!! p)) (world st))
      as ([updates err] & w' & Hcall).
    rewrite Hcall. unfold mbind at 1, M_bind at 1. cbn [heap].
    unfold mbind, M_bind.
    destruct (children_loop_returns children [] (mkState (heap st) w'))
      as (kids & st2 & Hkids & Hsame & Hnil).
    rewrite Hkids. eexists _, st2. split; [reflexivity|].
    split; [exact Hsame|]. split; [discriminate|].
    intros _. eexists. split; [reflexivity|]. split; [reflexivity|].
    intros Hchildren. destruct (Hnil Hchildren) as [-> ->]. split; reflexivity.
Qed.

Lemma collectObjective_returns (m : gmap Z (list ptr)) (acc : list IssueWithUpdates)
  (p : ptr) (st : State W) :
  exists out st',
    collectObjective m acc p st = Returns ((acc ++ out)%list, st') /\
    sameButType (heap st) (heap st') /\
    map (fun o => Number (Issue_ o)) out =
      (if usable (heap st !!! p) then [Number (heap st !!! p)] else []) /\
    (forall o, o ∈ out -> Issue_ o = heap st !!! p) /\
    (forall o, o ∈ out -> children_of m (Number (Issue_ o)) = [] ->
               ChildIssues o = [] /\ heap st' = heap st) /\
    (out = [] -> st' = st).
Proof.
  unfold collectObjective, deref. unfold mbind, M_bind.
  destruct (processObjective_returns p (children_of m (Number (heap st !!! p))) st)
    as (r & st1 & Hrun & Hsame & Hno & Hyes).
  rewrite Hrun. destruct (usable (heap st !!! p)).
  - destruct (Hyes eq_refl) as (o & -> & Hissue & Hkids).
    exists [o], st1. split; [reflexivity|]. split; [exact Hsame|].
    split; [cbn; rewrite Hissue; reflexivity|].
    split; [intros o' Ho'; apply list_elem_of_singleton in Ho'; subst; exact Hissue|].
    split; [|discriminate].
    intros o' Ho' Hnone. apply list_elem_of_singleton in Ho'. subst o'.
    rewrite Hissue in Hnone. apply Hkids, Hnone.
  - destruct (Hno eq_refl) as [-> ->].
    exists [], st. rewrite app_nil_r. split; [reflexivity|].
    split; [apply sameButType_refl|]. split; [reflexivity|].
    split; [intros o Ho; inversion Ho|]. split; [intros o Ho; inversion Ho|auto].
Qed.

(** The loop over the objectives, started on [l] in a heap that differs
    from [h0] in types only. *)
Lemma objectives_loop_returns (m : gmap Z (list ptr)) (h0 : list Issue) (l : list ptr) :
  forall (acc : list IssueWithUpdates) (st : State W),
  sameButType h0 (heap st) ->
  exists out st',
    foldM (collectObjective m) acc l st = Returns ((acc ++ out)%list, st') /\
    sameButType h0 (heap st') /\
    map (fun o => Number (Issue_ o)) out =
      map Number (List.filter usable (map (fun p => h0 !!! p) l)) /\
    (forall o, o ∈ out -> children_of m (Number (Issue_ o)) = [] -> ChildIssues o = []) /\
    (m = ∅ -> heap st' = heap st /\
              forall o, o ∈ out -> (exists p, p ∈ l /\ Issue_ o = heap st !!! p) /\
                                   ChildIssues o = []).
Proof.
  induction l as [|p l IH]; intros acc st Hsame.
  - exists [], st. rewrite app_nil_r. split; [reflexivity|].
    split; [exact Hsame|]. split; [reflexivity|].
    split; [intros o Ho; inversion Ho|]. intros _. split; [reflexivity|].
    intros o Ho; inversion Ho.
  - destruct (collectObjective_returns m acc p st)
      as (out1 & st1 & Hstep & Hsame1 & Hnum1 & Hissue1 & Hkids1 & Hnil1).
    assert (Hsame01 : sameButType h0 (heap st1))
      by (eapply sameButType_trans; eassumption).
    destruct (IH (acc ++ out1)%list st1 Hsame01)
      as (out2 & st2 & Hrest & Hsame2 & Hnum2 & Hkids2 & Hempty2).
    exists (out1 ++ out2)%list, st2. cbn [foldM]. unfold mbind, M_bind.
    rewrite Hstep, Hrest, app_assoc.
    split; [reflexivity|]. split; [exact Hsame2|]. split.
    { rewrite map_app, Hnum1, Hnum2. cbn [map List.filter].
      rewrite <- (sameButType_usable _ _ p Hsame).
      destruct (usable (heap st !!! p)); cbn [map app]; [|reflexivity].
      rewrite (sameButType_Number _ _ p Hsame). reflexivity. }
    split.
    { intros o Ho Hnone. apply elem_of_app in Ho as [Ho|Ho].
      - apply (Hkids1 o Ho Hnone).
      - apply (Hkids2 o Ho Hnone). }
    intros Hm. destruct (Hempty2 Hm) as [Hheap2 Hout2].
    assert (Hheap1 : heap st1 = heap st).
    { destruct out1 as [|o1 out1'].
      - rewrite (Hnil1 eq_refl). reflexivity.
      - apply (Hkids1 o1); [apply elem_of_cons; left; reflexivity|].
        subst m. reflexivity. }
    split; [congruence|].
    intros o Ho. apply elem_of_app in Ho as [Ho|Ho].
    + split.
      * exists p. split; [apply elem_of_cons; left; reflexivity|apply Hissue1, Ho].
      * apply (Hkids1 o Ho). subst m. reflexivity.
    + destruct (Hout2 o Ho) as [(q & Hq & Hoq) Hnokids]. split; [|exact Hnokids].
      exists q. split; [apply elem_of_cons; right; exact Hq|]. congruence.
Qed.

Lemma forceObjective_loop (l : list ptr) :
  forall (acc : list ptr) (st : State W),
  exists h',
    foldM forceObjective acc l st = Returns ((acc ++ l)%list, mkState h' (world st)) /\
    sameButType (heap st) h' /\
    (forall p, p ∈ l \/ Type_ (heap st !!! p) = IssueTypeObjective ->
               (p < length (heap st))%nat ->
               Type_ (h' !!! p) = IssueTypeObjective).
Proof.
  induction l as [|q l IH]; intros acc st.
  - exists (heap st). rewrite app_nil_r. split; [destruct st; reflexivity|].
    split; [apply sameButType_refl|].
    intros p [Hin|Hty] _; [inversion Hin|exact Hty].
  - set (h1 := alter (with_Type IssueTypeObjective) q (heap st)).
    destruct (IH (acc ++ [q])%list (mkState h1 (world st))) as (h' & Hrest & Hsame & Hty).
    assert (Hstep : forceObjective acc q st
                    = Returns ((acc ++ [q])%list, mkState h1 (world st)))
      by reflexivity.
    exists h'. cbn [foldM]. unfold mbind, M_bind.
    rewrite Hstep, Hrest, <- app_assoc. split; [reflexivity|].
    split; [eapply sameButType_trans; [apply sameButType_alter|exact Hsame]|].
    intros p Hcase Hvalid. apply Hty; cbn [heap].
    + destruct (decide (p = q)) as [->|Hne].
      * right. unfold h1. rewrite list_lookup_total_alter_eq by exact Hvalid.
        reflexivity.
      * destruct Hcase as [Hin|Hobj].
        -- left. apply elem_of_cons in Hin as [Heq|Hin]; [congruence|exact Hin].
        -- right. unfold h1. rewrite list_lookup_total_alter_ne by congruence.
           exact Hobj.
    + unfold h1. rewrite length_alter. exact Hvalid.
Qed.

Lemma Identify_same (m : gmap Z (list ptr)) (l : list ptr) :
  forall (parents : list ptr) (st : State W),
  exists parents' h',
    foldM (classify m) parents l st = Returns (parents', mkState h' (world st)) /\
    sameButType (heap st) h'.
Proof.
  induction l as [|q l IH]; intros parents st.
  - exists parents, (heap st). split; [destruct st; reflexivity|apply sameButType_refl].
  - destruct (classify_returns m parents q st)
      as (parents1 & h1 & Hstep & Hsame1 & _).
    destruct (IH parents1 (mkState h1 (world st))) as (parents2 & h2 & Hrest & Hsame2).
    exists parents2, h2. cbn [foldM]. unfold mbind, M_bind. rewrite Hstep.
    split; [exact Hrest|]. eapply sameButType_trans; eassumption.
Qed.

Lemma filterIssuesByLabels_subset (h : list Issue) (issues : list ptr)
  (labels : list string) (p : ptr) :
  p ∈ filterIssuesByLabels h issues labels -> p ∈ issues.
Proof.
  unfold filterIssuesByLabels. destruct labels; [auto|].
  rewrite !list_elem_of_In. intros Hin. apply filter_In in Hin. tauto.
Qed.

(** C7, amended.  Whenever the classification of a non-empty filtered issue
    set yields zero objectives, every filtered issue whose URL yields an
    owner and a repository becomes a top-level entry of the objectives
    list, in the order of the input (an issue whose URL does not is
    skipped); an entry has no children when no issue is recorded under its
    number in [parentToChildren]; when [parentToChildren] is empty (no
    parent reference at all) every entry has type Objective and no
    children; and the list is not empty as soon as one filtered issue has
    such a URL. *)
Theorem fallback_objectives (issues : list ptr) (requiredLabels : list string)
  (st st1 st2 : State W) (m : gmap Z (list ptr)) :
  let filteredIssues := filterIssuesByLabels (heap st) issues requiredLabels in
  filteredIssues <> [] ->
  (forall p, p ∈ issues -> (p < length (heap st))%nat) ->
  BuildParentChildRelationships filteredIssues st = Returns (m, st1) ->
  IdentifyObjectivesAndKeyResults filteredIssues m st1 = Returns ([], st2) ->
  exists objectives st',
    ProcessOKRIssues issues requiredLabels st = Returns (objectives, st') /\
    map (fun o => Number (Issue_ o)) objectives =
      map Number (List.filter usable (map (fun p => heap st !!! p) filteredIssues)) /\
    (forall o, o ∈ objectives -> children_of m (Number (Issue_ o)) = [] ->
               ChildIssues o = []) /\
    (m = ∅ -> forall o, o ∈ objectives ->
              Type_ (Issue_ o) = IssueTypeObjective /\ ChildIssues o = []) /\
    ((exists p, p ∈ filteredIssues /\ usable (heap st !!! p) = true) ->
     objectives <> []).
Proof.
  intros filteredIssues Hne Hvalid Hbuild Hidentify.
  (* the two classification passes leave the issues as they are, types apart *)
  destruct (Build_returns FindParentIssue_returns filteredIssues ∅ st)
    as (m' & w1 & Hbuild' & _).
  unfold BuildParentChildRelationships in Hbuild. rewrite Hbuild' in Hbuild.
  injection Hbuild as -> <-.
  destruct (Identify_same m filteredIssues [] (mkState (heap st) w1))
    as (parents & h2 & Hid' & Hsame2).
  unfold IdentifyObjectivesAndKeyResults in Hidentify. rewrite Hid' in Hidentify.
  injection Hidentify as -> <-. cbn [heap world] in Hsame2.
  (* the fallback loop *)
  destruct (forceObjective_loop filteredIssues [] (mkState h2 w1))
    as (h3 & Hforce & Hsame3 & Hobjective).
  cbn [heap world app] in Hforce, Hsame3, Hobjective.
  assert (Hsame03 : sameButType (heap st) h3)
    by (eapply sameButType_trans; eassumption).
  (* the loop over the objectives *)
  destruct (objectives_loop_returns m (heap st) filteredIssues [] (mkState h3 w1) Hsame03)
    as (out & st' & Hloop & _ & Hnumbers & Hkids & Hempty).
  cbn [app] in Hloop.
  exists out, st'. split.
  { unfold ProcessOKRIssues, get. unfold mbind at 1, M_bind at 1.
    fold filteredIssues.
    destruct (Z.eqb_spec (Z.of_nat (length filteredIssues)) 0) as [E|_].
    { destruct filteredIssues; [congruence|simpl in E; lia]. }
    unfold mbind at 1, M_bind at 1.
    unfold BuildParentChildRelationships. rewrite Hbuild'.
    unfold mbind at 1, M_bind at 1.
    unfold IdentifyObjectivesAndKeyResults. rewrite Hid'.
    unfold mbind at 1, M_bind at 1.
    cbn [length heap world]. change (Z.of_nat 0 =? 0) with true. cbv iota.
    rewrite Hforce. exact Hloop. }
  split; [exact Hnumbers|]. split; [exact Hkids|]. split.
  - intros Hm o Ho. destruct (Hempty Hm) as [_ Hout].
    destruct (Hout o Ho) as [(p & Hp & Hissue) Hnokids]. split; [|exact Hnokids].
    rewrite Hissue. cbn [heap]. apply Hobjective; [left; exact Hp|].
    rewrite (sameButType_length _ _ Hsame2).
    apply Hvalid. eapply filterIssuesByLabels_subset. exact Hp.
  - intros (p & Hp & Husable) Hnil. subst out. cbn [map] in Hnumbers.
    symmetry in Hnumbers. apply map_eq_nil in Hnumbers.
    assert (Hin : In (heap st !!! p)
                     (List.filter usable (map (fun p => heap st !!! p) filteredIssues))).
    { apply filter_In. split; [|exact Husable].
      apply in_map_iff. exists p. split; [reflexivity|].
      apply list_elem_of_In. exact Hp. }
    rewrite Hnumbers in Hin. inversion Hin.
Qed.
End Fallback.

(** ** The adapter over the stand-in server *)

Lemma retryLoop_returns {R : Type} `{github.Remote R} {A : Type}
  (op : github.operation A) (maxRetries : Z) :
  (forall s, exists r s', op s = Returns (r, s')) ->
  forall (n : nat) (i : Z) (s : A * github.BridgeClient R),
  exists r s', github.retryLoop n i maxRetries op s = Returns (r, s').
Proof.
  intros Hop. induction n as [|n IH]; intros i s.
  - eexists _, _. reflexivity.
  - cbn [github.retryLoop]. unfold mbind, M_bind, mret, M_ret, modify.
    destruct (Hop (github.onClient (github.beforeAttempt i) s)) as (r & s1 & Hcall).
    rewrite Hcall. destruct r as [e|]; [|eexists _, _; reflexivity].
    destruct ((i =? maxRetries - 1) || negb (github.isRetryableError (Some e))).
    + eexists _, _. reflexivity.
    + apply IH.
Qed.

Lemma commentPages_returns (fuel : nat) (owner repo : string) (n page : Z)
  (s : list gogithub.IssueComment.t * github.BridgeClient testserver.Server) :
  exists r s', github.commentPages (S fuel) owner repo n page s = Returns (r, s').
Proof.
  destruct s as [allComments b]. cbn [github.commentPages].
  unfold github.waitForRateLimit. cbn [github.Wait testserver.Server_Remote].
  cbn [github.ListComments testserver.Server_Remote github.remote
       github.IncrementAPICall github.with_stats github.with_remote].
  unfold testserver.serveComments.
  destruct (testserver.popFailure (github.remote b)) as [[e s']|];
    eexists _, _; reflexivity.
Qed.

Lemma FetchIssueComments_returns (fuel : nat) (owner repo : string) (n : Z)
  (b : github.BridgeClient testserver.Server) :
  exists x b', repository.FetchIssueComments (S fuel) owner repo n b = Returns (x, b').
Proof.
  unfold repository.FetchIssueComments, github.fetchIssueComments.
  unfold mbind, M_bind, mret, M_ret.
  destruct (github.GetFromCache _ b) as [cached b1].
  assert (Hretry : exists r s',
            github.retryWithBackoff 3 (github.commentPages (S fuel) owner repo n 0)
              ([], b1) = Returns (r, s')).
  { apply retryLoop_returns. intros s. apply commentPages_returns. }
  destruct Hretry as (r & [all b2] & Hretry).
  destruct cached as [[issues|comments|]|]; try rewrite Hretry;
    try (destruct r; eexists _, _; reflexivity).
Qed.

(** C7, counterexample.  (1) #5 says "Part of #99" and #6 says "Part of
    #5"; #99 is not in the filtered set.  Both issues have a parent, so the
    classification yields zero objectives; the fallback makes both of them
    objectives, and #5 has #6 as its child.  (2) A pull request that passed
    the label filter: its URL is not an issue URL, it is skipped, and the
    objectives list is empty although one issue survived filtering. *)
Lemma fallback_keeps_children :
  let port := repository.Repository (R := testserver.Server) 10 in
  let client := testserver.newClient None (testserver.mkServer 0 [] [] []) in
  (let st := mkState sample.danglingChain client in
   filterIssuesByLabels (heap st) [0; 1]%nat [] = [0; 1]%nat /\
   exists m st1 st2 objectives st',
     BuildParentChildRelationships [0; 1]%nat st = Returns (m, st1) /\
     IdentifyObjectivesAndKeyResults [0; 1]%nat m st1 = Returns ([], st2) /\
     ProcessOKRIssues [0; 1]%nat [] st = Returns (objectives, st') /\
     map (fun o => (Number (Issue_ o), map (fun c => Number (Issue_ c)) (ChildIssues o)))
         objectives = [(5, [6]); (6, [])]) /\
  (let st := mkState [sample.pullRequest] client in
   filterIssuesByLabels (heap st) [0%nat] [] = [0%nat] /\
   exists st', ProcessOKRIssues [0%nat] [] st = Returns ([], st')).
Proof.
  cbv zeta. split.
  - split; [reflexivity|].
    eexists _, _, _, _, _.
    split; [vm_compute; reflexivity|].
    split; [vm_compute; reflexivity|].
    split; [vm_compute; reflexivity|reflexivity].
  - split; [reflexivity|]. eexists. vm_compute. reflexivity.
Qed.

(** The fallback scenario of the design: a filtered set without any parent
    reference. *)
Lemma fallback_objectives_witness :
  let port := repository.Repository (R := testserver.Server) 10 in
  let st := mkState sample.unrelated
              (testserver.newClient None (testserver.mkServer 0 [] [] [])) in
  exists objectives st',
    ProcessOKRIssues [0; 1]%nat [] st = Returns (objectives, st') /\
    map (fun o => Number (Issue_ o)) objectives = [7; 8] /\
    (forall o, o ∈ objectives ->
               Type_ (Issue_ o) = IssueTypeObjective /\ ChildIssues o = []).
Proof.
  cbv zeta.
  set (port := repository.Repository (R := testserver.Server) 10).
  set (client := testserver.newClient None (testserver.mkServer 0 [] [] [])).
  set (st := mkState sample.unrelated client).
  assert (Hfind : forall owner repo n w, exists x w',
            ports.FindParentIssue owner repo n w = Returns (x, w')).
  { intros owner repo n w. eexists _, _. reflexivity. }
  assert (Hfetch : forall owner repo n w, exists x w',
            ports.FetchIssueComments owner repo n w = Returns (x, w')).
  { intros owner repo n w. apply (FetchIssueComments_returns 9). }
  assert (Htype : forall t i, ports.ExtractOwnerRepoFromIssue (with_Type t i)
                              = ports.ExtractOwnerRepoFromIssue i).
  { intros t i. reflexivity. }
  destruct (fallback_objectives (H := port) Hfind Hfetch Htype [0; 1]%nat [] st
              (mkState sample.unrelated client) (mkState sample.unrelated client) ∅)
    as (objectives & st' & Hrun & Hnumbers & _ & Hempty & _).
  - discriminate.
  - intros p Hp. apply elem_of_cons in Hp as [->|Hp]; [simpl; lia|].
    apply list_elem_of_singleton in Hp as ->. simpl. lia.
  - vm_compute. reflexivity.
  - vm_compute. reflexivity.
  - exists objectives, st'. split; [exact Hrun|]. split; [exact Hnumbers|].
    apply Hempty. reflexivity.
Defined.

(** ** Sorting of the weekly updates *)

Section InsertionSort.
Context {A : Type} (less : A -> A -> bool).
Import GoSort sortspec.

Lemma insertR_snoc_less (x y : A) (l : list A) :
  less x y = true -> insertR less x (l ++ [y]) = insertR less x l ++ [y].
Proof.
  intros Hxy. induction l as [|z l IH].
  - cbn. rewrite Hxy. reflexivity.
  - cbn [app insertR]. rewrite IH. cbn [forallb].
    rewrite forallb_app. cbn [forallb]. rewrite Hxy, !andb_true_r.
    destruct (less x z && forallb (less x) l); reflexivity.
Qed.

Lemma insertR_snoc_stop (x y : A) (l : list A) :
  less x y = false -> insertR less x (l ++ [y]) = l ++ [y; x].
Proof.
  intros Hxy. induction l as [|z l IH].
  - cbn. rewrite Hxy. reflexivity.
  - cbn [app insertR]. rewrite IH. cbn [forallb].
    rewrite forallb_app. cbn [forallb]. rewrite Hxy, andb_false_r, andb_false_r.
    reflexivity.
Qed.

Lemma at_app_middle (pre l : list A) (k : nat) :
  at_ (pre ++ l) (Z.of_nat (length pre + k)) = l !! k.
Proof.
  unfold at_. destruct (Z.ltb_spec (Z.of_nat (length pre + k)) 0) as [Hneg|_]; [lia|].
  rewrite Nat2Z.id. rewrite lookup_app_r by lia.
  f_equal. lia.
Qed.

Lemma at_app_here (pre l : list A) :
  at_ (pre ++ l) (Z.of_nat (length pre)) = l !! 0%nat.
Proof.
  rewrite <- (at_app_middle pre l 0). rewrite Nat.add_0_r. reflexivity.
Qed.

Lemma at_app_next (pre l : list A) :
  at_ (pre ++ l) (Z.of_nat (length pre) + 1) = l !! 1%nat.
Proof.
  rewrite <- (at_app_middle pre l 1). f_equal. lia.
Qed.

(** Swapping two neighbours. *)
Lemma Swap_adjacent (pre post : list A) (y x : A) :
  Swap (pre ++ y :: x :: post) (Z.of_nat (length pre) + 1) (Z.of_nat (length pre))
  = pre ++ x :: y :: post.
Proof.
  unfold Swap. rewrite at_app_next, at_app_here. cbn [lookup list_lookup].
  replace (Z.to_nat (Z.of_nat (length pre) + 1)) with (length pre + 1)%nat by lia.
  rewrite Nat2Z.id.
  rewrite insert_app_r_alt by lia. rewrite insert_app_r_alt by lia.
  replace (length pre - length pre)%nat with 0%nat by lia.
  replace (length pre + 1 - length pre)%nat with 1%nat by lia.
  reflexivity.
Qed.

Lemma Less_adjacent (pre post : list A) (y x : A) :
  Less less (pre ++ y :: x :: post) (Z.of_nat (length pre) + 1) (Z.of_nat (length pre))
  = less x y.
Proof. unfold Less. rewrite at_app_next, at_app_here. reflexivity. Qed.

(** The inner loop moves [x] at index [a + length l] to its place in
    [l], which lies at the indices [a .. a + length l - 1]. *)
Lemma insertionInner_insertR (l : list A) :
  forall (pre post : list A) (x : A) (fuel : nat),
  (length l <= fuel)%nat ->
  insertionInner less fuel (pre ++ l ++ x :: post) (Z.of_nat (length pre))
                 (Z.of_nat (length pre + length l))
  = pre ++ insertR less x l ++ post.
Proof.
  induction l as [|y l IH] using rev_ind; intros pre post x fuel Hfuel.
  - cbn [app length insertR]. rewrite Nat.add_0_r.
    destruct fuel as [|fuel]; [reflexivity|]. cbn [insertionInner].
    destruct (Z.gtb_spec (Z.of_nat (length pre)) (Z.of_nat (length pre))); [lia|].
    reflexivity.
  - rewrite length_app in Hfuel. cbn [length] in Hfuel.
    destruct fuel as [|fuel]; [lia|]. cbn [insertionInner].
    rewrite length_app. cbn [length].
    destruct (Z.gtb_spec (Z.of_nat (length pre + (length l + 1))) (Z.of_nat (length pre)));
      [|lia].
    cbn [andb].
    replace (pre ++ (l ++ [y]) ++ x :: post) with ((pre ++ l) ++ y :: x :: post)
      by (rewrite <- !app_assoc; reflexivity).
    replace (Z.of_nat (length pre + (length l + 1)))
      with (Z.of_nat (length (pre ++ l)) + 1) by (rewrite length_app; lia).
    replace (Z.of_nat (length (pre ++ l)) + 1 - 1) with (Z.of_nat (length (pre ++ l)))
      by lia.
    rewrite Less_adjacent.
    destruct (less x y) eqn:Hxy.
    + rewrite Swap_adjacent. rewrite <- app_assoc.
      replace (Z.of_nat (length (pre ++ l))) with (Z.of_nat (length pre + length l))
        by (rewrite length_app; reflexivity).
      rewrite (IH pre (y :: post) x fuel) by lia.
      rewrite insertR_snoc_less by exact Hxy.
      rewrite <- !app_assoc. reflexivity.
    + rewrite insertR_snoc_stop by exact Hxy.
      rewrite <- !app_assoc. reflexivity.
Qed.

(** [insertionSort_func] on the range that holds [l]. *)
Lemma insertionSort_isort_gen (rest : list A) :
  forall (pre done : list A) (post : list A),
  foldl (fun data i => insertionInner less (Z.to_nat (i - Z.of_nat (length pre))) data
                         (Z.of_nat (length pre)) i)
        (pre ++ done ++ rest ++ post)
        (seqZ (Z.of_nat (length pre + length done)) (Z.of_nat (length rest)))
  = pre ++ foldl (fun acc x => insertR less x acc) done rest ++ post.
Proof.
  induction rest as [|x rest IH]; intros pre done post.
  - reflexivity.
  - cbn [length]. rewrite Nat2Z.inj_succ, seqZ_cons by lia.
    cbn [foldl].
    replace (Z.to_nat (Z.of_nat (length pre + length done) - Z.of_nat (length pre)))
      with (length done) by lia.
    cbn [app].
    rewrite (insertionInner_insertR done pre (rest ++ post) x (length done)) by lia.
    replace (Z.succ (Z.of_nat (length pre + length done)))
      with (Z.of_nat (length pre + length (insertR less x done))).
    2:{ assert (Hlen : length (insertR less x done) = S (length done)).
        { clear. induction done as [|y l IH]; [reflexivity|].
          cbn [insertR]. destruct (forallb (less x) (y :: l)); cbn [length]; [reflexivity|].
          rewrite IH. reflexivity. }
        rewrite Hlen. lia. }
    replace (Z.pred (Z.succ (Z.of_nat (length rest)))) with (Z.of_nat (length rest)) by lia.
    apply IH.
Qed.

Lemma insertionSort_func_isort (pre l post : list A) :
  insertionSort_func less (pre ++ l ++ post) (Z.of_nat (length pre))
                     (Z.of_nat (length pre + length l))
  = pre ++ isort less l ++ post.
Proof.
  unfold insertionSort_func, isort. destruct l as [|x rest].
  - rewrite Nat.add_0_r. rewrite seqZ_nil by lia. reflexivity.
  - cbn [length foldl insertR].
    pose proof (insertionSort_isort_gen rest pre [x] post) as Hgen.
    cbn [length app] in Hgen.
    replace (Z.of_nat (length pre) + 1) with (Z.of_nat (length pre + 1)) by lia.
    replace (Z.of_nat (length pre + S (length rest)) - Z.of_nat (length pre + 1))
      with (Z.of_nat (length rest)) by lia.
    exact Hgen.
Qed.

(** Slices of at most 12 elements are sorted by insertion. *)
Lemma Slice_short (x : list A) :
  (length x <= 12)%nat -> Slice less x = isort less x.
Proof.
  intros Hlen. unfold Slice, pdqsort_func. cbn [pdqsortLoop].
  unfold maxInsertion.
  destruct (Z.leb_spec (Z.of_nat (length x) - 0) 12) as [_|Hgt]; [|lia].
  pose proof (insertionSort_func_isort [] x []) as Hsort.
  cbn [app length Nat.add] in Hsort. rewrite !app_nil_r in Hsort.
  exact Hsort.
Qed.

(** [less] is a strict weak order. *)
Hypothesis less_irrefl : forall x, less x x = false.
Hypothesis less_trans :
  forall x y z, less x y = true -> less y z = true -> less x z = true.
Hypothesis less_negtrans :
  forall x y z, less x y = false -> less y z = false -> less x z = false.

Lemma less_asym (x y : A) : less x y = true -> less y x = false.
Proof.
  intros Hxy. destruct (less y x) eqn:Hyx; [|reflexivity].
  rewrite <- (less_irrefl x). symmetry. eapply less_trans; eassumption.
Qed.

Lemma ordered_nil : ordered less [].
Proof. intros i j x y _ Hi. inversion Hi. Qed.

Lemma ordered_cons (y : A) (l : list A) :
  ordered less (y :: l) <-> Forall (fun z => less z y = false) l /\ ordered less l.
Proof.
  split.
  - intros Hord. split.
    + apply Forall_lookup. intros k z Hz.
      apply (Hord 0%nat (S k) y z); [lia|reflexivity|exact Hz].
    + intros i j a b Hij Ha Hb. apply (Hord (S i) (S j) a b); [lia|exact Ha|exact Hb].
  - intros [Hall Hord] i j a b Hij Ha Hb.
    destruct j as [|j]; [lia|]. cbn in Hb.
    destruct i as [|i].
    + cbn in Ha. injection Ha as <-.
      rewrite Forall_lookup in Hall. exact (Hall j b Hb).
    + cbn in Ha. apply (Hord i j a b); [lia|exact Ha|exact Hb].
Qed.

Lemma insertR_Permutation (x : A) (l : list A) :
  Permutation (insertR less x l) (x :: l).
Proof.
  induction l as [|y l IH]; [reflexivity|].
  cbn [insertR]. destruct (forallb (less x) (y :: l)); [reflexivity|].
  rewrite IH. apply perm_swap.
Qed.

Lemma insertR_ordered (x : A) (l : list A) :
  ordered less l -> ordered less (insertR less x l).
Proof.
  induction l as [|y l IH]; intros Hord.
  - cbn. apply ordered_cons. split; [constructor|apply ordered_nil].
  - cbn [insertR]. destruct (forallb (less x) (y :: l)) eqn:Hall.
    + apply ordered_cons. split; [|exact Hord].
      apply Forall_forall. intros z Hz.
      rewrite forallb_forall in Hall. apply less_asym, Hall.
      apply list_elem_of_In. exact Hz.
    + apply ordered_cons in Hord as [Hy Hord]. apply ordered_cons.
      split; [|apply IH, Hord].
      apply Forall_forall. intros z Hz.
      rewrite list_elem_of_In in Hz.
      apply (Permutation_in _ (insertR_Permutation x l)) in Hz.
      destruct Hz as [<-|Hz].
      * (* some element of [y :: l] is not above [x] *)
        assert (Hex : exists w, In w (y :: l) /\ less x w = false).
        { clear -Hall. induction (y :: l) as [|w l' IH']; [discriminate|].
          cbn [forallb] in Hall. destruct (less x w) eqn:Hw.
          - destruct (IH' Hall) as (w' & Hin & Hw'). exists w'. split; [right; exact Hin|exact Hw'].
          - exists w. split; [left; reflexivity|exact Hw]. }
        destruct Hex as (w & [<-|Hw] & Hxw); [exact Hxw|].
        apply (less_negtrans x w y); [exact Hxw|].
        rewrite Forall_forall in Hy. apply Hy, list_elem_of_In, Hw.
      * rewrite Forall_forall in Hy. apply Hy, list_elem_of_In, Hz.
Qed.

Lemma insertR_filter (P : A -> bool) (x : A) (l : list A) :
  (forall y, less x y = true -> P x = true -> P y = true -> False) ->
  List.filter P (insertR less x l) = List.filter P (l ++ [x]).
Proof.
  intros Hsep. induction l as [|y l IH]; [reflexivity|].
  cbn [insertR]. destruct (forallb (less x) (y :: l)) eqn:Hall.
  - rewrite List.filter_app.
    change (List.filter P (x :: y :: l))
      with (if P x then x :: List.filter P (y :: l) else List.filter P (y :: l)).
    change (List.filter P [x]) with (if P x then [x] else []).
    destruct (P x) eqn:Hx.
    + assert (Hnone : List.filter P (y :: l) = []).
      { rewrite forallb_forall in Hall.
        clear -Hall Hsep Hx. induction (y :: l) as [|w l' IH']; [reflexivity|].
        cbn [List.filter]. destruct (P w) eqn:Hw.
        - exfalso. apply (Hsep w); [apply Hall; left; reflexivity|reflexivity|exact Hw].
        - apply IH'. intros z Hz. apply Hall. right. exact Hz. }
      rewrite Hnone. reflexivity.
    + rewrite app_nil_r. reflexivity.
  - cbn [List.filter app]. rewrite IH. destruct (P y); reflexivity.
Qed.

Lemma isort_snoc (l : list A) (x : A) :
  isort less (l ++ [x]) = insertR less x (isort less l).
Proof. unfold isort. rewrite foldl_app. reflexivity. Qed.

Lemma isort_Permutation (l : list A) : Permutation (isort less l) l.
Proof.
  induction l as [|x l IH] using rev_ind; [reflexivity|].
  rewrite isort_snoc, insertR_Permutation, IH.
  apply Permutation_cons_append.
Qed.

Lemma isort_ordered (l : list A) : ordered less (isort less l).
Proof.
  induction l as [|x l IH] using rev_ind; [apply ordered_nil|].
  rewrite isort_snoc. apply insertR_ordered, IH.
Qed.

(** Insertion never moves an element across one it is not [less] than:
    the elements of a class that [less] does not separate keep their
    order. *)
Lemma isort_filter (P : A -> bool) (l : list A) :
  (forall x y, less x y = true -> P x = true -> P y = true -> False) ->
  List.filter P (isort less l) = List.filter P l.
Proof.
  intros Hsep. induction l as [|x l IH] using rev_ind; [reflexivity|].
  rewrite isort_snoc, insertR_filter by (apply Hsep).
  rewrite !List.filter_app, IH. reflexivity.
Qed.

End InsertionSort.

(** *** The slice as an array *)

Section Arrays.
Context {A : Type}.
Import GoSort sortspec.
Implicit Types (d : list A) (i j k a b : Z).

Lemma at_Some d k x : at_ d k = Some x -> 0 <= k < Z.of_nat (length d).
Proof.
  unfold at_. destruct (Z.ltb_spec k 0); [discriminate|].
  intros Hk. apply lookup_lt_Some in Hk. lia.
Qed.

Lemma at_valid d k : 0 <= k < Z.of_nat (length d) -> exists x, at_ d k = Some x.
Proof.
  intros Hk. unfold at_. destruct (Z.ltb_spec k 0); [lia|].
  apply lookup_lt_is_Some. lia.
Qed.

Lemma at_None d k : ~ (0 <= k < Z.of_nat (length d)) -> at_ d k = None.
Proof.
  intros Hk. destruct (at_ d k) as [x|] eqn:E; [|reflexivity].
  apply at_Some in E. contradiction.
Qed.

Lemma length_Swap d i j : length (Swap d i j) = length d.
Proof.
  unfold Swap. destruct (at_ d i), (at_ d j); try reflexivity.
  rewrite !length_insert. reflexivity.
Qed.

Lemma at_Swap d i j k :
  0 <= i < Z.of_nat (length d) -> 0 <= j < Z.of_nat (length d) ->
  at_ (Swap d i j) k =
  if k =? i then at_ d j else if k =? j then at_ d i else at_ d k.
Proof.
  intros Hi Hj.
  destruct (at_valid d i Hi) as [x Hx], (at_valid d j Hj) as [y Hy].
  unfold Swap. rewrite Hx, Hy.
  destruct (Z.eqb_spec k i) as [->|Hki].
  - unfold at_. destruct (Z.ltb_spec i 0); [lia|].
    rewrite list_lookup_insert_eq; [reflexivity|]. rewrite length_insert. lia.
  - destruct (Z.eqb_spec k j) as [->|Hkj].
    + rewrite <- Hx. unfold at_ at 1. destruct (Z.ltb_spec j 0); [lia|].
      rewrite list_lookup_insert_ne by lia.
      rewrite list_lookup_insert_eq by lia. symmetry. exact Hx.
    + unfold at_. destruct (Z.ltb_spec k 0); [reflexivity|].
      rewrite !list_lookup_insert_ne by lia. reflexivity.
Qed.

Lemma insert_swap_Permutation (l : list A) :
  forall (n : nat) (x y : A), l !! n = Some y -> (y :: <[n := x]> l) ≡ₚ (x :: l).
Proof.
  induction l as [|h t IH]; intros [|n] x y Hn; try discriminate.
  - cbn in Hn. injection Hn as ->. cbn. apply perm_swap.
  - cbn in Hn. cbn [insert list_insert].
    change (list_insert n x t) with (<[n := x]> t).
    rewrite (perm_swap h y), (IH n x y Hn). apply perm_swap.
Qed.

Lemma Swap_Permutation d i j : Swap d i j ≡ₚ d.
Proof.
  unfold Swap. destruct (at_ d i) as [x|] eqn:Hx; [|reflexivity].
  destruct (at_ d j) as [y|] eqn:Hy; [|reflexivity].
  pose proof (at_Some _ _ _ Hx) as Hi. pose proof (at_Some _ _ _ Hy) as Hj.
  unfold at_ in Hx, Hy.
  destruct (Z.ltb_spec i 0); [lia|]. destruct (Z.ltb_spec j 0); [lia|].
  set (m := Z.to_nat i) in *. set (n := Z.to_nat j) in *.
  destruct (decide (m = n)) as [->|Hne].
  - rewrite list_insert_insert_eq. rewrite Hx in Hy. injection Hy as ->.
    rewrite list_insert_id by exact Hx. reflexivity.
  - apply (Permutation_cons_inv (a := x)).
    rewrite (insert_swap_Permutation (<[n:=x]> d) m y x).
    2:{ rewrite list_lookup_insert_ne by congruence. exact Hx. }
    exact (insert_swap_Permutation d n x y Hy).
Qed.

Lemma inplace_refl a b d : inplace a b d d.
Proof. repeat split; reflexivity. Qed.

Lemma inplace_trans a b d1 d2 d3 :
  inplace a b d1 d2 -> inplace a b d2 d3 -> inplace a b d1 d3.
Proof.
  intros (L1 & O1 & P1) (L2 & O2 & P2). split; [congruence|]. split.
  - intros k Hk. rewrite O2, O1 by exact Hk. reflexivity.
  - rewrite P2. exact P1.
Qed.

Lemma inplace_weaken a b a' b' d d' :
  a' <= a -> b <= b' -> inplace a b d d' -> inplace a' b' d d'.
Proof.
  intros Ha Hb (L & O & P). split; [exact L|]. split; [|exact P].
  intros k Hk. apply O. lia.
Qed.

Lemma inplace_Swap a b d i j :
  a <= i < b -> a <= j < b -> inplace a b d (Swap d i j).
Proof.
  intros Hi Hj. split; [apply length_Swap|]. split; [|apply Swap_Permutation].
  intros k Hk. unfold Swap.
  destruct (at_ d i) as [x|] eqn:Hx; [|reflexivity].
  destruct (at_ d j) as [y|] eqn:Hy; [|reflexivity].
  pose proof (at_Some _ _ _ Hx). pose proof (at_Some _ _ _ Hy).
  pose proof (at_Swap d i j k ltac:(lia) ltac:(lia)) as Hs.
  unfold Swap in Hs. rewrite Hx, Hy in Hs. rewrite Hs.
  destruct (Z.eqb_spec k i); [lia|]. destruct (Z.eqb_spec k j); [lia|]. reflexivity.
Qed.

Lemma slice_split a b d :
  0 <= a <= b -> b <= Z.of_nat (length d) ->
  d = take (Z.to_nat a) d ++ slice a b d ++ drop (Z.to_nat b) d.
Proof.
  intros Hab Hb. unfold slice.
  rewrite <- (take_drop (Z.to_nat a) d) at 1. f_equal.
  rewrite <- (take_drop (Z.to_nat (b - a)) (drop (Z.to_nat a) d)) at 1. f_equal.
  rewrite drop_drop. f_equal. lia.
Qed.

Lemma at_lookup d k : 0 <= k -> at_ d k = d !! Z.to_nat k.
Proof. intros Hk. unfold at_. destruct (Z.ltb_spec k 0); [lia|reflexivity]. Qed.

Lemma elem_of_slice a b d x :
  0 <= a ->
  x ∈ slice a b d <-> exists k, a <= k < b /\ at_ d k = Some x.
Proof.
  intros Ha. unfold slice. rewrite list_elem_of_lookup. split.
  - intros (n & Hn). apply lookup_take_Some in Hn as [Hn Hlt].
    rewrite lookup_drop in Hn. exists (a + Z.of_nat n). split; [lia|].
    rewrite at_lookup by lia. rewrite <- Hn. f_equal. lia.
  - intros (k & Hk & Hx). exists (Z.to_nat (k - a)).
    rewrite lookup_take_lt by lia. rewrite lookup_drop.
    rewrite at_lookup in Hx by lia. rewrite <- Hx. f_equal. lia.
Qed.

Lemma inplace_slice a b d d' :
  0 <= a <= b -> b <= Z.of_nat (length d) ->
  inplace a b d d' -> slice a b d' ≡ₚ slice a b d.
Proof.
  intros Hab Hb (L & O & P).
  assert (Hpre : take (Z.to_nat a) d' = take (Z.to_nat a) d).
  { apply list_eq. intros n. destruct (decide (n < Z.to_nat a)%nat) as [Hn|Hn].
    - rewrite !lookup_take_lt by exact Hn.
      specialize (O (Z.of_nat n) ltac:(lia)).
      rewrite !at_lookup, !Nat2Z.id in O by lia. exact O.
    - rewrite !lookup_take_ge by lia. reflexivity. }
  assert (Hpost : drop (Z.to_nat b) d' = drop (Z.to_nat b) d).
  { apply list_eq. intros n. rewrite !lookup_drop.
    specialize (O (Z.of_nat (Z.to_nat b + n)) ltac:(lia)).
    rewrite !at_lookup, !Nat2Z.id in O by lia. exact O. }
  assert (P2 : take (Z.to_nat a) d ++ slice a b d' ++ drop (Z.to_nat b) d
               ≡ₚ take (Z.to_nat a) d ++ slice a b d ++ drop (Z.to_nat b) d).
  { rewrite <- (slice_split a b d Hab Hb). rewrite <- Hpre, <- Hpost.
    rewrite <- (slice_split a b d' Hab ltac:(lia)). exact P. }
  apply Permutation_app_inv_l in P2. apply Permutation_app_inv_r in P2. exact P2.
Qed.

(** A property of all elements of a range survives a rearrangement of
    the range. *)
Lemma inplace_Forall a b d d' (P : A -> Prop) :
  0 <= a <= b -> b <= Z.of_nat (length d) ->
  inplace a b d d' ->
  (forall k x, a <= k < b -> at_ d k = Some x -> P x) ->
  (forall k x, a <= k < b -> at_ d' k = Some x -> P x).
Proof.
  intros Hab Hb Hin HP k x Hk Hx.
  assert (Hel : x ∈ slice a b d').
  { apply elem_of_slice; [lia|]. exists k. split; assumption. }
  rewrite (inplace_slice a b d d' Hab Hb Hin) in Hel.
  apply elem_of_slice in Hel as (k' & Hk' & Hx'); [|lia].
  exact (HP k' x Hk' Hx').
Qed.

End Arrays.

(** *** Insertion sort on a range *)

Section Ordering.
Context {A : Type} (less : A -> A -> bool).
Import GoSort sortspec.
Implicit Types (d : list A) (i j k a b : Z).

Hypothesis less_irrefl : forall x, less x x = false.
Hypothesis less_trans :
  forall x y z, less x y = true -> less y z = true -> less x z = true.
Hypothesis less_negtrans :
  forall x y z, less x y = false -> less y z = false -> less x z = false.

Lemma Less_at d i j x y :
  at_ d i = Some x -> at_ d j = Some y -> Less less d i j = less x y.
Proof. intros Hx Hy. unfold Less. rewrite Hx, Hy. reflexivity. Qed.

Lemma at_app3 (pre l post : list A) k :
  Z.of_nat (length pre) <= k < Z.of_nat (length pre + length l) ->
  at_ (pre ++ l ++ post) k = l !! Z.to_nat (k - Z.of_nat (length pre)).
Proof.
  intros Hk. rewrite at_lookup by lia.
  rewrite lookup_app_r by lia. rewrite lookup_app_l by lia. f_equal. lia.
Qed.

Lemma at_app3_outside (pre l l' post : list A) k :
  length l' = length l ->
  k < Z.of_nat (length pre) \/ Z.of_nat (length pre + length l) <= k ->
  at_ (pre ++ l' ++ post) k = at_ (pre ++ l ++ post) k.
Proof.
  intros Hlen Hk. unfold at_. destruct (Z.ltb_spec k 0); [reflexivity|].
  destruct (decide (Z.to_nat k < length pre)%nat) as [Hlt|Hge].
  - rewrite !lookup_app_l by exact Hlt. reflexivity.
  - rewrite !(lookup_app_r pre) by lia.
    rewrite !lookup_app_r by lia. rewrite Hlen. reflexivity.
Qed.

Lemma insertionSort_segments (pre l post : list A) :
  let d := pre ++ l ++ post in
  let a := Z.of_nat (length pre) in
  let b := Z.of_nat (length pre + length l) in
  inplace a b d (insertionSort_func less d a b) /\
  ordered_range less (insertionSort_func less d a b) a b.
Proof.
  cbv zeta. rewrite (insertionSort_func_isort less pre l post).
  pose proof (isort_Permutation less l) as Hperm.
  assert (Hlen : length (isort less l) = length l)
    by (apply Permutation_length, Hperm).
  split.
  - split; [|split].
    + rewrite !length_app, Hlen. reflexivity.
    + intros k Hk. apply at_app3_outside; [exact Hlen|lia].
    + rewrite Hperm. reflexivity.
  - intros i j x y Hai Hij Hjb Hx Hy.
    rewrite at_app3 in Hx by lia. rewrite at_app3 in Hy by lia.
    eapply (isort_ordered less less_irrefl less_trans less_negtrans l);
      [|exact Hx|exact Hy]. lia.
Qed.

Lemma insertionSort_range d a b :
  0 <= a <= b -> b <= Z.of_nat (length d) ->
  inplace a b d (insertionSort_func less d a b) /\
  ordered_range less (insertionSort_func less d a b) a b.
Proof.
  intros Hab Hb.
  pose proof (slice_split a b d Hab Hb) as Hd.
  assert (Hpre : Z.of_nat (length (take (Z.to_nat a) d)) = a).
  { rewrite length_take. lia. }
  assert (Hl : Z.of_nat (length (take (Z.to_nat a) d) + length (slice a b d)) = b).
  { unfold slice. rewrite Nat2Z.inj_add, Hpre, length_take, length_drop. lia. }
  revert Hd Hpre Hl.
  generalize (take (Z.to_nat a) d) (slice a b d) (drop (Z.to_nat b) d).
  intros pre l post -> <- <-.
  apply insertionSort_segments.
Qed.

(** *** The scanning loops *)

Lemma scanUp_spec (cond : Z -> bool) (fuel : nat) i j :
  (Z.to_nat (j - i + 1) <= fuel)%nat ->
  let i' := scanUp fuel cond i j in
  i <= i' /\ (i <= j + 1 -> i' <= j + 1) /\
  (forall k, i <= k < i' -> cond k = true) /\
  (i' <= j -> cond i' = false).
Proof.
  revert i. induction fuel as [|fuel IH]; intros i Hfuel; cbn [scanUp]; cbv zeta.
  - split; [lia|]. split; [lia|]. split; [intros k Hk; lia|lia].
  - destruct (Z.leb_spec i j) as [Hij|Hij]; cbn [andb].
    + destruct (cond i) eqn:Hc.
      * destruct (IH (i + 1) ltac:(lia)) as (H1 & H2 & H3 & H4).
        split; [lia|]. split; [lia|]. split; [|exact H4].
        intros k Hk. destruct (Z.eq_dec k i) as [->|Hne]; [exact Hc|].
        apply H3. lia.
      * split; [lia|]. split; [lia|]. split; [intros k Hk; lia|]. intros _. exact Hc.
    + split; [lia|]. split; [lia|]. split; [intros k Hk; lia|lia].
Qed.

Lemma scanDown_spec (cond : Z -> bool) (fuel : nat) i j :
  (Z.to_nat (j - i + 1) <= fuel)%nat ->
  let j' := scanDown fuel cond i j in
  j' <= j /\ (i - 1 <= j -> i - 1 <= j') /\
  (forall k, j' < k <= j -> cond k = true) /\
  (i <= j' -> cond j' = false).
Proof.
  revert j. induction fuel as [|fuel IH]; intros j Hfuel; cbn [scanDown]; cbv zeta.
  - split; [lia|]. split; [lia|]. split; [intros k Hk; lia|lia].
  - destruct (Z.leb_spec i j) as [Hij|Hij]; cbn [andb].
    + destruct (cond j) eqn:Hc.
      * destruct (IH (j - 1) ltac:(lia)) as (H1 & H2 & H3 & H4).
        split; [lia|]. split; [lia|]. split; [|exact H4].
        intros k Hk. destruct (Z.eq_dec k j) as [->|Hne]; [exact Hc|].
        apply H3. lia.
      * split; [lia|]. split; [lia|]. split; [intros k Hk; lia|]. intros _. exact Hc.
    + split; [lia|]. split; [lia|]. split; [intros k Hk; lia|lia].
Qed.

End Ordering.

(** *** [partition_func] and [partitionEqual_func] *)

Section Partition.
Context {A : Type} (less : A -> A -> bool).
Import GoSort sortspec.
Implicit Types (d : list A) (i j k a b : Z).

Hypothesis less_irrefl : forall x, less x x = false.
Hypothesis less_trans :
  forall x y z, less x y = true -> less y z = true -> less x z = true.
Hypothesis less_negtrans :
  forall x y z, less x y = false -> less y z = false -> less x z = false.

(** One round of the two scans, and the swap that follows them; [cu] and
    [cd] are the tests of the two scans. *)
Lemma scans_gen (L : A -> bool) (cu cd : Z -> bool) d a b i j :
  0 <= a -> b <= Z.of_nat (length d) ->
  a + 1 <= i -> i <= j + 1 -> j <= b - 1 ->
  (forall k x, a + 1 <= k < b -> at_ d k = Some x -> cu k = L x) ->
  (forall k x, a + 1 <= k < b -> at_ d k = Some x -> cd k = negb (L x)) ->
  split_by L d a b i j ->
  let i1 := scanUp (span i j) cu i j in
  let j1 := scanDown (span i1 j) cd i1 j in
  i <= i1 /\ i1 <= j1 + 1 /\ j1 <= j /\
  split_by L d a b i1 j1 /\
  (i1 <= j1 -> i1 < j1 /\ split_by L (Swap d i1 j1) a b (i1 + 1) (j1 - 1)).
Proof.
  intros Ha Hb Hi Hij Hj Hcu Hcd (Hleft & Hright).
  pose proof (scanUp_spec cu (span i j) i j ltac:(unfold span; lia)) as Hup.
  cbv zeta in Hup |- *.
  set (i1 := scanUp (span i j) cu i j) in *.
  destruct Hup as (Hup1 & Hup2 & Hup3 & Hup4). specialize (Hup2 ltac:(lia)).
  pose proof (scanDown_spec cd (span i1 j) i1 j ltac:(unfold span; lia)) as Hdn.
  cbv zeta in Hdn.
  set (j1 := scanDown (span i1 j) cd i1 j) in *.
  destruct Hdn as (Hdn1 & Hdn2 & Hdn3 & Hdn4). specialize (Hdn2 ltac:(lia)).
  assert (Hleft1 : all_range (fun x => L x = true) d (a + 1) i1).
  { intros k x Hk Hx. destruct (Z.lt_ge_cases k i) as [Hlt|Hge].
    - apply (Hleft k x); [lia|exact Hx].
    - rewrite <- (Hcu k x ltac:(lia) Hx). apply Hup3. lia. }
  assert (Hright1 : all_range (fun x => L x = false) d (j1 + 1) b).
  { intros k x Hk Hx. destruct (Z.lt_ge_cases j k) as [Hlt|Hge].
    - apply (Hright k x); [lia|exact Hx].
    - specialize (Hdn3 k ltac:(lia)). rewrite (Hcd k x ltac:(lia) Hx) in Hdn3.
      apply negb_true_iff in Hdn3. exact Hdn3. }
  split; [lia|]. split; [lia|]. split; [lia|].
  split; [split; assumption|].
  intros Hle.
  destruct (at_valid d i1 ltac:(lia)) as [xi Hxi].
  destruct (at_valid d j1 ltac:(lia)) as [xj Hxj].
  specialize (Hup4 ltac:(lia)). specialize (Hdn4 ltac:(lia)).
  rewrite (Hcu i1 xi ltac:(lia) Hxi) in Hup4.
  rewrite (Hcd j1 xj ltac:(lia) Hxj) in Hdn4.
  apply negb_false_iff in Hdn4.
  assert (Hne : i1 <> j1).
  { intros Heq. rewrite Heq in Hxi. rewrite Hxi in Hxj. injection Hxj as ->. congruence. }
  split; [lia|].
  pose proof (at_Swap d i1 j1) as Hsw.
  split.
  - intros k x Hk Hx. rewrite Hsw in Hx by lia.
    destruct (Z.eqb_spec k i1) as [Hki|Hki].
    + rewrite Hxj in Hx. injection Hx as <-. exact Hdn4.
    + destruct (Z.eqb_spec k j1); [lia|].
      apply (Hleft1 k x); [lia|exact Hx].
  - intros k x Hk Hx. rewrite Hsw in Hx by lia.
    destruct (Z.eqb_spec k i1) as [Hki|Hki]; [lia|].
    destruct (Z.eqb_spec k j1) as [Hkj|Hkj].
    + rewrite Hxi in Hx. injection Hx as <-. exact Hup4.
    + apply (Hright1 k x); [lia|exact Hx].
Qed.

Lemma at_Swap_other d i j k :
  0 <= i < Z.of_nat (length d) -> 0 <= j < Z.of_nat (length d) ->
  k <> i -> k <> j -> at_ (Swap d i j) k = at_ d k.
Proof.
  intros Hi Hj Hki Hkj. rewrite at_Swap by assumption.
  destruct (Z.eqb_spec k i); [contradiction|].
  destruct (Z.eqb_spec k j); [contradiction|]. reflexivity.
Qed.

Lemma scans_spec d a b i j p :
  0 <= a -> b <= Z.of_nat (length d) ->
  a + 1 <= i -> i <= j + 1 -> j <= b - 1 ->
  partitioned less d a b i j p ->
  let i1 := scanUp (span i j) (fun i => Less less d i a) i j in
  let j1 := scanDown (span i1 j) (fun j => negb (Less less d j a)) i1 j in
  i <= i1 /\ i1 <= j1 + 1 /\ j1 <= j /\
  partitioned less d a b i1 j1 p /\
  (i1 <= j1 -> i1 < j1 /\ partitioned less (Swap d i1 j1) a b (i1 + 1) (j1 - 1) p).
Proof.
  intros Ha Hb Hi Hij Hj (Hp & Hsplit).
  pose proof (scans_gen (fun x => less x p) (fun i => Less less d i a)
                (fun j => negb (Less less d j a)) d a b i j Ha Hb Hi Hij Hj) as Hgen.
  cbv zeta in Hgen |- *.
  destruct Hgen as (H1 & H2 & H3 & Hsplit1 & Hswap).
  - intros k x Hk Hx. apply (Less_at less d k a x p Hx Hp).
  - intros k x Hk Hx. rewrite (Less_at less d k a x p Hx Hp). reflexivity.
  - exact Hsplit.
  - split; [exact H1|]. split; [exact H2|]. split; [exact H3|].
    split; [split; [exact Hp|exact Hsplit1]|].
    intros Hle. destruct (Hswap Hle) as [Hlt Hsplit2]. split; [exact Hlt|].
    split; [|exact Hsplit2].
    rewrite at_Swap_other by lia. exact Hp.
Qed.

Lemma partitionLoop_spec (fuel : nat) :
  forall d a b i j p,
  0 <= a -> b <= Z.of_nat (length d) ->
  a + 1 <= i -> i <= j + 1 -> j <= b - 1 ->
  (Z.to_nat (j - i + 1) <= fuel)%nat ->
  partitioned less d a b i j p ->
  let '(d', j') := partitionLoop less fuel d a i j in
  inplace (a + 1) b d d' /\ a <= j' < b /\
  partitioned less d' a b (j' + 1) j' p.
Proof.
  induction fuel as [|fuel IH]; intros d a b i j p Ha Hb Hi Hij Hj Hfuel Hpart.
  - cbn [partitionLoop]. assert (i = j + 1) by lia. subst i.
    split; [apply inplace_refl|]. split; [lia|exact Hpart].
  - cbn [partitionLoop]. cbv zeta.
    pose proof (scans_spec d a b i j p Ha Hb Hi Hij Hj Hpart) as Hscan.
    cbv zeta in Hscan.
    set (i1 := scanUp (span i j) (fun i => Less less d i a) i j) in *.
    set (j1 := scanDown (span i1 j) (fun j => negb (Less less d j a)) i1 j) in *.
    destruct Hscan as (H1 & H2 & H3 & Hpart1 & Hswap).
    destruct (Z.gtb_spec i1 j1) as [Hgt|Hle].
    + assert (Heq : i1 = j1 + 1) by lia. rewrite Heq in Hpart1.
      split; [apply inplace_refl|]. split; [lia|exact Hpart1].
    + destruct (Hswap Hle) as [Hlt Hpart2].
      specialize (IH (Swap d i1 j1) a b (i1 + 1) (j1 - 1) p Ha
                     ltac:(rewrite length_Swap; lia) ltac:(lia) ltac:(lia) ltac:(lia)
                     ltac:(lia) Hpart2).
      destruct (partitionLoop less fuel (Swap d i1 j1) a (i1 + 1) (j1 - 1))
        as [d' j'].
      destruct IH as (Hin & Hj' & Hpart').
      split; [|split; [exact Hj'|exact Hpart']].
      eapply inplace_trans; [|exact Hin].
      apply inplace_Swap; lia.
Qed.

Lemma partition_func_spec d a b pivot p :
  0 <= a -> a <= pivot < b -> b <= Z.of_nat (length d) ->
  at_ d pivot = Some p ->
  let '(d', mid, _) := partition_func less d a b pivot in
  inplace a b d d' /\ a <= mid < b /\
  at_ d' mid = Some p /\
  all_range (fun x => less x p = true) d' a mid /\
  all_range (fun x => less x p = false) d' (mid + 1) b.
Proof.
  intros Ha Hpivot Hb Hp. unfold partition_func. cbv zeta.
  set (d1 := Swap d a pivot).
  assert (Hin1 : inplace a b d d1) by (apply inplace_Swap; lia).
  assert (Hlen1 : length d1 = length d) by apply length_Swap.
  assert (Hp1 : at_ d1 a = Some p).
  { unfold d1. rewrite at_Swap by lia. rewrite Z.eqb_refl. exact Hp. }
  assert (Hstart : partitioned less d1 a b (a + 1) (b - 1 ) p).
  { split; [exact Hp1|]. split; intros k x Hk; lia. }
  pose proof (scans_spec d1 a b (a + 1) (b - 1) p Ha ltac:(lia) ltac:(lia) ltac:(lia)
                ltac:(lia) Hstart) as Hscan.
  cbv zeta in Hscan.
  set (i1 := scanUp (span (a + 1) (b - 1)) (fun i => Less less d1 i a) (a + 1) (b - 1)) in *.
  set (j1 := scanDown (span i1 (b - 1)) (fun j => negb (Less less d1 j a)) i1 (b - 1)) in *.
  destruct Hscan as (H1 & H2 & H3 & Hpart1 & Hswap).
  assert (Hfinish : forall d2 j2,
            inplace (a + 1) b d1 d2 -> a <= j2 < b -> partitioned less d2 a b (j2 + 1) j2 p ->
            inplace a b d (Swap d2 j2 a) /\ a <= j2 < b /\
            at_ (Swap d2 j2 a) j2 = Some p /\
            all_range (fun x => less x p = true) (Swap d2 j2 a) a j2 /\
            all_range (fun x => less x p = false) (Swap d2 j2 a) (j2 + 1) b).
  { intros d2 j2 Hin2 Hj2 (Hp2 & Hleft & Hright).
    assert (Hlen2 : length d2 = length d) by (destruct Hin2 as [-> _]; exact Hlen1).
    pose proof (at_Swap d2 j2 a) as Hsw.
    split.
    { eapply inplace_trans; [exact Hin1|].
      eapply inplace_trans; [eapply inplace_weaken; [| |exact Hin2]; lia|].
      apply inplace_Swap; lia. }
    split; [exact Hj2|]. split.
    { rewrite Hsw by lia. rewrite Z.eqb_refl. exact Hp2. }
    split.
    - intros k x Hk Hx. rewrite Hsw in Hx by lia.
      destruct (Z.eqb_spec k j2); [lia|].
      destruct (Z.eqb_spec k a) as [Hka|Hka].
      + apply (Hleft j2 x); [lia|exact Hx].
      + apply (Hleft k x); [lia|exact Hx].
    - intros k x Hk Hx. rewrite Hsw in Hx by lia.
      destruct (Z.eqb_spec k j2); [lia|]. destruct (Z.eqb_spec k a); [lia|].
      apply (Hright k x); [lia|exact Hx]. }
  destruct (Z.gtb_spec i1 j1) as [Hgt|Hle].
  - assert (Heq : i1 = j1 + 1) by lia. rewrite Heq in Hpart1.
    apply Hfinish; [apply inplace_refl|lia|exact Hpart1].
  - destruct (Hswap Hle) as [Hlt Hpart2].
    pose proof (partitionLoop_spec (span (i1 + 1) (j1 - 1)) (Swap d1 i1 j1) a b
                  (i1 + 1) (j1 - 1) p Ha ltac:(rewrite length_Swap; lia) ltac:(lia)
                  ltac:(lia) ltac:(lia) ltac:(unfold span; lia) Hpart2) as Hloop.
    destruct (partitionLoop less (span (i1 + 1) (j1 - 1)) (Swap d1 i1 j1) a
                (i1 + 1) (j1 - 1)) as [d2 j2].
    destruct Hloop as (Hin & Hj & Hpart).
    apply Hfinish; [|exact Hj|exact Hpart].
    eapply inplace_trans; [|exact Hin]. apply inplace_Swap; lia.
Qed.
Lemma partitionEqualLoop_spec (fuel : nat) :
  forall d a b i j p,
  0 <= a -> b <= Z.of_nat (length d) ->
  a + 1 <= i -> i <= j + 1 -> j <= b - 1 ->
  (Z.to_nat (j - i + 1) < fuel)%nat ->
  eq_partitioned less d a b i j p ->
  let '(d', mid) := partitionEqualLoop less fuel d a i j in
  inplace (a + 1) b d d' /\ a + 1 <= mid <= b /\
  eq_partitioned less d' a b mid (mid - 1) p.
Proof.
  induction fuel as [|fuel IH]; intros d a b i j p Ha Hb Hi Hij Hj Hfuel (Hp & Hsplit);
    [lia|].
  cbn [partitionEqualLoop]. cbv zeta.
  pose proof (scans_gen (fun x => negb (less p x)) (fun i => negb (Less less d a i))
                (fun j => Less less d a j) d a b i j Ha Hb Hi Hij Hj) as Hgen.
  cbv zeta in Hgen.
  set (i1 := scanUp (span i j) (fun i => negb (Less less d a i)) i j) in *.
  set (j1 := scanDown (span i1 j) (fun j => Less less d a j) i1 j) in *.
  destruct Hgen as (H1 & H2 & H3 & Hsplit1 & Hswap).
  - intros k x Hk Hx. rewrite (Less_at less d a k p x Hp Hx). reflexivity.
  - intros k x Hk Hx. rewrite (Less_at less d a k p x Hp Hx).
    rewrite negb_involutive. reflexivity.
  - exact Hsplit.
  - destruct (Z.gtb_spec i1 j1) as [Hgt|Hle].
    + assert (Heq : j1 = i1 - 1) by lia. rewrite Heq in Hsplit1.
      split; [apply inplace_refl|]. split; [lia|]. split; assumption.
    + destruct (Hswap Hle) as [Hlt Hsplit2].
      specialize (IH (Swap d i1 j1) a b (i1 + 1) (j1 - 1) p Ha
                     ltac:(rewrite length_Swap; lia) ltac:(lia) ltac:(lia) ltac:(lia)
                     ltac:(lia)).
      destruct (partitionEqualLoop less fuel (Swap d i1 j1) a (i1 + 1) (j1 - 1))
        as [d' mid].
      destruct IH as (Hin & Hmid & Hpart').
      * split; [|exact Hsplit2]. rewrite at_Swap_other by lia. exact Hp.
      * split; [|split; [exact Hmid|exact Hpart']].
        eapply inplace_trans; [|exact Hin].
        apply inplace_Swap; lia.
Qed.

Lemma partitionEqual_func_spec d a b pivot p :
  0 <= a -> a <= pivot < b -> b <= Z.of_nat (length d) ->
  at_ d pivot = Some p ->
  let '(d', mid) := partitionEqual_func less d a b pivot in
  inplace a b d d' /\ a + 1 <= mid <= b /\
  all_range (fun x => less p x = false) d' a mid /\
  all_range (fun x => less p x = true) d' mid b.
Proof.
  intros Ha Hpivot Hb Hp. unfold partitionEqual_func. cbv zeta.
  set (d1 := Swap d a pivot).
  assert (Hin1 : inplace a b d d1) by (apply inplace_Swap; lia).
  assert (Hlen1 : length d1 = length d) by apply length_Swap.
  assert (Hp1 : at_ d1 a = Some p).
  { unfold d1. rewrite at_Swap by lia. rewrite Z.eqb_refl. exact Hp. }
  assert (Hstart : eq_partitioned less d1 a b (a + 1) (b - 1) p).
  { split; [exact Hp1|]. split; intros k x Hk; lia. }
  pose proof (partitionEqualLoop_spec (S (span (a + 1) (b - 1))) d1 a b (a + 1) (b - 1) p
                Ha ltac:(lia) ltac:(lia) ltac:(lia) ltac:(lia) ltac:(unfold span; lia)
                Hstart) as Hloop.
  destruct (partitionEqualLoop less (S (span (a + 1) (b - 1))) d1 a (a + 1) (b - 1))
    as [d' mid].
  destruct Hloop as (Hin & Hmid & Hp' & Hleft & Hright).
  split.
  { eapply inplace_trans; [exact Hin1|].
    eapply inplace_weaken; [| |exact Hin]; lia. }
  split; [exact Hmid|]. split.
  - intros k x Hk Hx. destruct (Z.eq_dec k a) as [->|Hne].
    + rewrite Hp' in Hx. injection Hx as <-. apply less_irrefl.
    + apply negb_true_iff. apply (Hleft k x); [lia|exact Hx].
  - intros k x Hk Hx. specialize (Hright k x ltac:(lia) Hx). cbn beta in Hright.
    apply negb_false_iff in Hright. exact Hright.
Qed.

End Partition.

(** *** [heapSort_func] *)

Section HeapSort.
Context {A : Type} (less : A -> A -> bool).
Import GoSort sortspec.
Implicit Types (d : list A) (i j k a b : Z).

Hypothesis less_irrefl : forall x, less x x = false.
Hypothesis less_trans :
  forall x y z, less x y = true -> less y z = true -> less x z = true.
Hypothesis less_negtrans :
  forall x y z, less x y = false -> less y z = false -> less x z = false.

Lemma siftDownLoop_spec (first hi lo : Z) (fuel : nat) :
  forall d root,
  0 <= first -> first + hi <= Z.of_nat (length d) ->
  0 <= lo <= root ->
  (Z.to_nat (hi - root) <= fuel)%nat ->
  (forall k, lo <= k < hi -> k <> root -> heap_at less d first hi k) ->
  above_children less d first hi lo root ->
  let d' := siftDownLoop less fuel d root hi first in
  inplace (first + lo) (first + hi) d d' /\
  (forall k, lo <= k < hi -> heap_at less d' first hi k).
Proof.
  induction fuel as [|fuel IH]; intros d root Hfirst Hlen Hlo Hfuel Hheap Habove.
  - cbn [siftDownLoop]. split; [apply inplace_refl|].
    intros k Hk. apply Hheap; lia.
  - cbn [siftDownLoop]. cbv zeta.
    destruct (Z.geb_spec (2 * root + 1) hi) as [Hleaf|Hchild].
    { split; [apply inplace_refl|]. intros k Hk.
      destruct (Z.eq_dec k root) as [->|Hne]; [|apply Hheap; lia].
      intros c x y Hc Hchi. lia. }
    set (l := 2 * root + 1) in *.
    destruct (at_valid d (first + root) ltac:(lia)) as [vr Hvr].
    destruct (at_valid d (first + l) ltac:(lia)) as [vl Hvl].
    (* the larger child [c], with value [vc], is not less than either child *)
    set (c := if (l + 1 <? hi) && Less less d (first + l) (first + l + 1)
              then l + 1 else l).
    assert (Hc : exists vc, at_ d (first + c) = Some vc /\ (c = l \/ c = l + 1) /\ c < hi /\
              forall c' y, c' = l \/ c' = l + 1 -> c' < hi ->
                           at_ d (first + c') = Some y -> less vc y = false).
    { unfold c. destruct (Z.ltb_spec (l + 1) hi) as [Hr|Hr]; cbn [andb].
      - destruct (at_valid d (first + (l + 1)) ltac:(lia)) as [vr' Hvr'].
        replace (first + l + 1) with (first + (l + 1)) by lia.
        rewrite (Less_at less d _ _ vl vr' Hvl Hvr').
        destruct (less vl vr') eqn:Hlr.
        + exists vr'. split; [exact Hvr'|]. split; [right; reflexivity|]. split; [lia|].
          intros c' y [->| ->] _ Hy.
          * rewrite Hvl in Hy. injection Hy as <-. apply (less_asym less less_irrefl less_trans), Hlr.
          * rewrite Hvr' in Hy. injection Hy as <-. apply less_irrefl.
        + exists vl. split; [exact Hvl|]. split; [left; reflexivity|]. split; [lia|].
          intros c' y [->| ->] _ Hy.
          * rewrite Hvl in Hy. injection Hy as <-. apply less_irrefl.
          * rewrite Hvr' in Hy. injection Hy as <-. exact Hlr.
      - exists vl. split; [exact Hvl|]. split; [left; reflexivity|]. split; [lia|].
        intros c' y [->| ->] Hlt Hy; [|lia].
        rewrite Hvl in Hy. injection Hy as <-. apply less_irrefl. }
    destruct Hc as (vc & Hvc & Hcl & Hchi & Hmax). clearbody c.
    rewrite (Less_at less d _ _ vr vc Hvr Hvc).
    destruct (less vr vc) eqn:Hrc; cbn [negb].
    + (* the root goes down *)
      pose proof (at_Swap d (first + root) (first + c)) as Hsw.
      specialize (IH (Swap d (first + root) (first + c)) c Hfirst
                     ltac:(rewrite length_Swap; lia) ltac:(lia) ltac:(lia)).
      destruct IH as (Hin & Hres).
      * (* heap property away from the new root *)
        intros k Hk Hkc c' x y Hc' Hc'hi Hx Hy.
        rewrite Hsw in Hx, Hy by lia.
        destruct (Z.eqb_spec (first + k) (first + root)) as [Hkr|Hkr].
        -- (* the old root position now holds the larger child *)
           assert (k = root) by lia. subst k.
           rewrite Hvc in Hx. injection Hx as <-.
           destruct (Z.eqb_spec (first + c') (first + root)); [lia|].
           destruct (Z.eqb_spec (first + c') (first + c)) as [Hcc|Hcc].
           ++ rewrite Hvr in Hy. injection Hy as <-. apply (less_asym less less_irrefl less_trans), Hrc.
           ++ apply (Hmax c' y); [fold l in Hc'; lia|lia|exact Hy].
        -- destruct (Z.eqb_spec (first + k) (first + c)); [lia|].
           destruct (Z.eqb_spec (first + c') (first + root)) as [Hcr|Hcr].
           ++ (* [k] is the parent of the old root *)
              assert (c' = root) by lia. subst c'.
              rewrite Hvc in Hy. injection Hy as <-.
              apply (Habove k c x vc); try assumption; try lia.
           ++ destruct (Z.eqb_spec (first + c') (first + c)) as [Hcc|Hcc].
              ** assert (c' = c) by lia. subst c'. fold l in Hcl. lia.
              ** apply (Hheap k ltac:(lia) ltac:(lia) c' x y); assumption.
      * (* the parent of the new root is the old root position *)
        intros k c' x y Hk Hck Hc' Hc'hi Hx Hy.
        assert (k = root) by (fold l in Hcl; lia). subst k.
        rewrite Hsw in Hx, Hy by lia.
        rewrite Z.eqb_refl in Hx. rewrite Hvc in Hx. injection Hx as <-.
        destruct (Z.eqb_spec (first + c') (first + root)); [lia|].
        destruct (Z.eqb_spec (first + c') (first + c)); [lia|].
        apply (Hheap c ltac:(lia) ltac:(lia) c' vc y); assumption.
      * split; [|exact Hres].
        eapply inplace_trans; [|eapply inplace_weaken; [| |exact Hin]; lia].
        apply inplace_Swap; lia.
    + split; [apply inplace_refl|]. intros k Hk.
      destruct (Z.eq_dec k root) as [->|Hne]; [|apply Hheap; lia].
      intros c' x y Hc' Hc'hi Hx Hy. rewrite Hvr in Hx. injection Hx as <-.
      apply (less_negtrans vr vc y Hrc).
      apply (Hmax c' y); [fold l in Hc'; lia|lia|exact Hy].
Qed.

(** Loops that count down: [for i := n - 1; i >= 0; i--]. *)
Lemma foldl_down (f : list A -> Z -> list A) (Inv : Z -> list A -> Prop) (n : nat) :
  forall d,
  Inv (Z.of_nat n) d ->
  (forall i d, 0 <= i < Z.of_nat n -> Inv (i + 1) d -> Inv i (f d i)) ->
  Inv 0 (foldl f d (reverse (seqZ 0 (Z.of_nat n)))).
Proof.
  induction n as [|n IH]; intros d Hstart Hstep.
  - exact Hstart.
  - rewrite seqZ_S, reverse_app, Z.add_0_l.
    change (reverse [Z.of_nat n]) with [Z.of_nat n].
    cbn [app foldl]. apply IH.
    + apply Hstep; [lia|]. replace (Z.of_nat n + 1) with (Z.of_nat (S n)) by lia.
      exact Hstart.
    + intros i d' Hi. apply Hstep. lia.
Qed.

(** The root of a heap is not less than any of its nodes. *)
Lemma heap_root_max d first m :
  (forall k, 0 <= k < m -> heap_at less d first m k) ->
  forall k x y, 0 <= k < m -> at_ d (first + 0) = Some x ->
                at_ d (first + k) = Some y -> less x y = false.
Proof.
  intros Hheap k. 
  assert (Hgen : forall n : nat, forall k, Z.to_nat k = n -> forall x y,
            0 <= k < m -> at_ d (first + 0) = Some x ->
            at_ d (first + k) = Some y -> less x y = false).
  { intros n. induction n as [n IHn] using lt_wf_ind. intros k' Hn x y Hk' Hx Hy.
    destruct (Z.eq_dec k' 0) as [->|Hpos].
    - rewrite Hx in Hy. injection Hy as <-. apply less_irrefl.
    - set (q := (k' - 1) / 2).
      assert (Hq : 0 <= q < k' /\ (k' = 2 * q + 1 \/ k' = 2 * q + 2)).
      { unfold q. split; [split|].
        - apply Z.div_pos; lia.
        - apply Z.div_lt_upper_bound; lia.
        - pose proof (Z.div_mod (k' - 1) 2 ltac:(lia)) as Hdm.
          pose proof (Z.mod_pos_bound (k' - 1) 2 ltac:(lia)). lia. }
      destruct Hq as [Hq0 Hq1].
      assert (Hvq : exists z, at_ d (first + q) = Some z).
      { apply at_valid. apply at_Some in Hx. apply at_Some in Hy. lia. }
      destruct Hvq as [z Hz].
      apply (less_negtrans x z y).
      + apply (IHn (Z.to_nat q) ltac:(lia) q eq_refl x z); [lia|exact Hx|exact Hz].
      + apply (Hheap q ltac:(lia) k' z y); [exact Hq1|lia|exact Hz|exact Hy]. }
  intros x y. apply (Hgen (Z.to_nat k) k eq_refl).
Qed.

Lemma heapSort_func_spec d a b :
  0 <= a <= b -> b <= Z.of_nat (length d) ->
  inplace a b d (heapSort_func less d a b) /\
  ordered_range less (heapSort_func less d a b) a b.
Proof.
  intros Hab Hb. unfold heapSort_func. cbv zeta.
  set (hi := b - a).
  (* building the heap *)
  set (build := foldl (fun data i => siftDown_func less data i hi a) d
                      (reverse (seqZ 0 (Z.quot (hi - 1) 2 + 1)))).
  assert (Hbuild : inplace a b d build /\ forall k, 0 <= k < hi -> heap_at less build a hi k).
  { unfold build.
    assert (Hm : 0 <= Z.quot (hi - 1) 2 + 1 /\ hi <= 2 * (Z.quot (hi - 1) 2 + 1)).
    { assert (0 <= hi) by (unfold hi; lia). Z.quot_rem_to_equations. lia. }
    rewrite <- (Z2Nat.id (Z.quot (hi - 1) 2 + 1)) by lia.
    apply (foldl_down (fun data i => siftDown_func less data i hi a)
             (fun i d' => inplace a b d d' /\ forall k, i <= k < hi -> heap_at less d' a hi k)).
    - split; [apply inplace_refl|]. intros k Hk c x y Hc Hchi. lia.
    - intros i d' Hi [Hin Hheap]. unfold siftDown_func.
      assert (Hlen' : length d' = length d) by (destruct Hin as [-> _]; reflexivity).
      destruct (siftDownLoop_spec a hi i (Z.to_nat hi) d' i) as [Hin' Hheap'];
        try lia.
      + intros k Hk Hne. apply Hheap. lia.
      + intros k c x y Hk Hroot. lia.
      + split; [|intros k Hk; apply Hheap'; lia].
        eapply inplace_trans; [exact Hin|].
        eapply inplace_weaken; [| |exact Hin']; lia. }
  clearbody build. destruct Hbuild as [Hin0 Hheap0].
  assert (Hlen0 : length build = length d) by (destruct Hin0 as [-> _]; reflexivity).
  (* popping the elements *)
  assert (Hhi : 0 <= hi) by (unfold hi; lia).
  assert (Hhib : a + hi = b) by (unfold hi; lia).
  pose proof (foldl_down
    (fun data i => siftDown_func less (Swap data a (a + i)) 0 i a)
    (fun i d' =>
       inplace a b d d' /\
       (forall k, 0 <= k < i -> heap_at less d' a i k) /\
       ordered_range less d' (a + i) (a + hi) /\
       (forall k1 k2 x y, 0 <= k1 < i -> i <= k2 < hi ->
                          at_ d' (a + k1) = Some x -> at_ d' (a + k2) = Some y ->
                          less y x = false))
    (Z.to_nat hi) build) as Hpop.
  cbn beta in Hpop. rewrite Z2Nat.id in Hpop by exact Hhi.
  destruct Hpop as (Hin & _ & Hord & _).
  - split; [exact Hin0|]. split; [exact Hheap0|]. split.
    + intros i j x y Hi Hij Hj. lia.
    + intros k1 k2 x y Hk1 Hk2. lia.
  - intros i d' Hi (Hin & Hheap & Hord & Hcross).
    assert (Hlen' : length d' = length d) by (destruct Hin as [-> _]; reflexivity).
    set (d1 := Swap d' a (a + i)).
    pose proof (at_Swap d' a (a + i) ) as Hsw.
    assert (Hlen1 : length d1 = length d) by (unfold d1; rewrite length_Swap; exact Hlen').
    unfold siftDown_func.
    destruct (siftDownLoop_spec a i 0 (Z.to_nat i) d1 0) as [Hin2 Hheap2]; try lia.
    { intros k Hk Hne c x y Hc Hci Hx Hy. unfold d1 in Hx, Hy.
      rewrite at_Swap_other in Hx, Hy by lia.
      apply (Hheap k ltac:(lia) c x y); [exact Hc|lia|exact Hx|exact Hy]. }
    { intros k c x y Hk Hroot. lia. }
    set (d2 := siftDownLoop less (Z.to_nat i) d1 0 i a) in *.
    rewrite Z.add_0_r in Hin2.
    assert (Hout2 : forall k, a + i <= k -> at_ d2 k = at_ d1 k).
    { intros k Hk. destruct Hin2 as (_ & Hout & _). apply Hout. lia. }
    destruct (at_valid d' (a + 0) ltac:(lia)) as [vmax Hvmax].
    split; [|split; [|split]].
    + eapply inplace_trans; [exact Hin|].
      eapply inplace_trans; [apply (inplace_Swap a b d' a (a + i)); lia|].
      eapply inplace_weaken; [| |exact Hin2]; lia.
    + exact Hheap2.
    + intros k2 k3 x y Hk2 Hk23 Hk3 Hx Hy.
      rewrite Hout2 in Hx, Hy by lia. unfold d1 in Hx, Hy.
      rewrite Hsw in Hx, Hy by lia.
      destruct (Z.eqb_spec k3 a); [lia|]. destruct (Z.eqb_spec k3 (a + i)); [lia|].
      destruct (Z.eqb_spec k2 a) as [Hk2a|Hk2a].
      * (* i = 0 *)
        assert (i = 0) by lia. subst i.
        replace (a + 0) with a in * by lia.
        apply (Hcross 0 (k3 - a) x y); [lia|lia| |].
        -- replace (a + 0) with a by lia. exact Hx.
        -- replace (a + (k3 - a)) with k3 by lia. exact Hy.
      * destruct (Z.eqb_spec k2 (a + i)) as [Hk2i|Hk2i].
        -- apply (Hcross 0 (k3 - a) x y); [lia|lia| |].
           ++ replace (a + 0) with a by lia. exact Hx.
           ++ replace (a + (k3 - a)) with k3 by lia. exact Hy.
        -- apply (Hord k2 k3 x y); [lia|lia|lia|exact Hx|exact Hy].
    + intros k1 k2 x y Hk1 Hk2 Hx Hy.
      rewrite Hout2 in Hy by lia.
      assert (HP : forall k x, a <= k < a + i -> at_ d1 k = Some x ->
                   forall y, at_ d1 (a + k2) = Some y -> less y x = false).
      { clear x Hx k1 Hk1 y Hy. intros k x Hk Hx y Hy. unfold d1 in Hx, Hy.
        rewrite Hsw in Hx, Hy by lia.
        destruct (Z.eqb_spec (a + k2) a) as [Hk2a|Hk2a]; [lia|].
        assert (Hxold : exists k1, 0 <= k1 < i + 1 /\ at_ d' (a + k1) = Some x).
        { destruct (Z.eqb_spec k a) as [Hka|Hka].
          - exists i. split; [lia|exact Hx].
          - destruct (Z.eqb_spec k (a + i)); [lia|].
            exists (k - a). split; [lia|]. replace (a + (k - a)) with k by lia. exact Hx. }
        destruct Hxold as (k1 & Hk1 & Hx1).
        destruct (Z.eqb_spec (a + k2) (a + i)) as [Hk2i|Hk2i].
        - (* the element that was popped: the old root *)
          replace a with (a + 0) in Hy by lia.
          apply (heap_root_max d' a (i + 1) Hheap k1 y x Hk1 Hy Hx1).
        - apply (Hcross k1 k2 x y); [lia|lia|exact Hx1|exact Hy]. }
      exact (inplace_Forall a (a + i) d1 d2 _ ltac:(lia) ltac:(lia) Hin2 HP
               (a + k1) x ltac:(lia) Hx y Hy).
  - split; [exact Hin|]. unfold hi in Hord.
    replace (a + 0) with a in Hord by lia. replace (a + (b - a)) with b in Hord by lia.
    exact Hord.
Qed.
End HeapSort.

(** *** The steps before partitioning *)

Section Prelude.
Context {A : Type} (less : A -> A -> bool).
Import GoSort sortspec.
Implicit Types (d : list A) (i j k a b : Z).

Hypothesis less_irrefl : forall x, less x x = false.
Hypothesis less_trans :
  forall x y z, less x y = true -> less y z = true -> less x z = true.
Hypothesis less_negtrans :
  forall x y z, less x y = false -> less y z = false -> less x z = false.

Lemma lower_bound_inplace d d' a b :
  0 <= a <= b -> b <= Z.of_nat (length d) ->
  inplace a b d d' -> lower_bound less d a b -> lower_bound less d' a b.
Proof.
  intros Hab Hb Hin Hlow p k x Hp Hk Hx.
  assert (Hp' : at_ d (a - 1) = Some p).
  { destruct Hin as (_ & Hout & _). rewrite <- Hout by lia. exact Hp. }
  exact (inplace_Forall a b d d' (fun x => less x p = false) Hab Hb Hin
           (fun k x Hk Hx => Hlow p k x Hp' Hk Hx) k x Hk Hx).
Qed.

Lemma adjacent_ordered d a b :
  0 <= a -> b <= Z.of_nat (length d) -> adjacent less d a b -> ordered_range less d a b.
Proof.
  intros Ha Hb Hadj i j x y Hai Hij Hjb Hx.
  assert (Hgen : forall n : nat, forall j y, j = i + 1 + Z.of_nat n -> j < b ->
            at_ d j = Some y -> less y x = false).
  { clear j y Hij Hjb. induction n as [|n IH]; intros j y Hj Hjb Hy.
    - apply (Hadj j x y); [lia| |exact Hy].
      replace (j - 1) with i by lia. exact Hx.
    - destruct (at_valid d (j - 1) ltac:(lia)) as [z Hz].
      apply (less_negtrans y z x).
      + apply (Hadj j z y); [lia|exact Hz|exact Hy].
      + apply (IH (j - 1) z); [lia|lia|exact Hz]. }
  intros Hy. apply (Hgen (Z.to_nat (j - i - 1)) j y); [lia|exact Hjb|exact Hy].
Qed.

(** *** [reverseRange_func] *)

Lemma reverseLoop_inplace a b (fuel : nat) :
  forall d i j, a <= i -> j < b -> inplace a b d (reverseLoop fuel d i j).
Proof.
  induction fuel as [|fuel IH]; intros d i j Hi Hj; cbn [reverseLoop].
  - apply inplace_refl.
  - destruct (Z.ltb_spec i j) as [Hij|Hij]; [|apply inplace_refl].
    eapply inplace_trans; [apply (inplace_Swap a b d i j); lia|].
    apply IH; lia.
Qed.

Lemma reverseRange_inplace d a b : inplace a b d (reverseRange_func d a b).
Proof. unfold reverseRange_func. apply reverseLoop_inplace; lia. Qed.

(** *** [breakPatterns_func] *)

Lemma nextPowerOfTwo_bounds l : 0 < l -> l < nextPowerOfTwo l <= 2 * l.
Proof.
  intros Hl. unfold nextPowerOfTwo, bitsLen.
  destruct (Z.leb_spec l 0) as [Hle|_]; [lia|].
  rewrite Z.shiftl_1_l.
  pose proof (Z.log2_spec l Hl) as Hlog. pose proof (Z.log2_nonneg l) as Hnn.
  replace (Z.log2 l + 1) with (Z.succ (Z.log2 l)) by lia.
  rewrite Z.pow_succ_r in * by exact Hnn. lia.
Qed.

Lemma breakPatterns_inplace d a b :
  inplace a b d (breakPatterns_func d a b).
Proof.
  unfold breakPatterns_func. cbv zeta.
  destruct (Z.geb_spec (b - a) 8) as [Hl|Hl]; [|apply inplace_refl].
  set (l := b - a) in *.
  set (step := fun '(data, random) i => _).
  assert (Hgen : forall (idxs : list Z) d' r, Forall (fun i => 0 <= i <= 2) idxs ->
            inplace a b d' (fst (foldl step (d', r) idxs))).
  { induction idxs as [|i idxs IH]; intros d' r Hidx; [apply inplace_refl|].
    apply Forall_cons in Hidx as [Hi Hidx]. cbn [foldl]. unfold step at 2.
    eapply inplace_trans; [|apply IH; exact Hidx].
    pose proof (nextPowerOfTwo_bounds l ltac:(lia)) as Hpow.
    set (m := nextPowerOfTwo l) in *.
    set (other := Z.land (xorshiftNext r) (m - 1)).
    assert (Hother : 0 <= other < m).
    { unfold other, m, nextPowerOfTwo.
      change (Z.shiftl 1 (bitsLen l) - 1) with (Z.ones (bitsLen l)).
      assert (Hbits : 0 <= bitsLen l).
      { unfold bitsLen. destruct (l <=? 0); [lia|]. pose proof (Z.log2_nonneg l). lia. }
      rewrite Z.land_ones by exact Hbits. rewrite Z.shiftl_1_l.
      apply Z.mod_pos_bound. apply Z.pow_pos_nonneg; lia. }
    assert (Hq : 2 <= Z.quot l 4 /\ 4 * Z.quot l 4 <= l).
    { Z.quot_rem_to_equations. lia. }
    apply inplace_Swap.
    - lia.
    - destruct (Z.geb_spec other l); lia. }
  apply Hgen. repeat constructor; lia.
Qed.

(** *** [choosePivot_func] *)

Lemma median_range d x y z s lo hi :
  lo <= x <= hi -> lo <= y <= hi -> lo <= z <= hi ->
  lo <= fst (median_func less d x y z s) <= hi.
Proof.
  intros Hx Hy Hz. unfold median_func, order2_func.
  destruct (Less less d y x); destruct (Less less d z _);
    destruct (Less less d _ _); cbn [fst]; lia.
Qed.

Lemma choosePivot_range d a b :
  8 <= b - a -> a <= fst (choosePivot_func less d a b) < b.
Proof.
  intros Hl. unfold choosePivot_func. cbv zeta.
  set (l := b - a) in *. set (q := Z.quot l 4).
  assert (Hq : 2 <= q /\ 4 * q <= l /\ (50 <= l -> 12 <= q)).
  { unfold q. Z.quot_rem_to_equations. lia. }
  destruct (Z.geb_spec l 8) as [_|Hlt]; [|lia].
  assert (Hres : forall i j k s, a <= i <= b - 1 -> a <= j <= b - 1 -> a <= k <= b - 1 ->
            a <= fst (let '(j, swaps) := median_func less d i j k s in
                      if swaps =? 0 then (j, increasingHint)
                      else if swaps =? maxSwaps then (j, decreasingHint)
                      else (j, unknownHint)) < b).
  { intros i j k s Hi Hj Hk.
    pose proof (median_range d i j k s a (b - 1) Hi Hj Hk) as Hm.
    destruct (median_func less d i j k s) as [m s']. cbn [fst] in Hm.
    destruct (s' =? 0); [cbn [fst]; lia|].
    destruct (s' =? maxSwaps); cbn [fst]; lia. }
  destruct (Z.geb_spec l shortestNinther) as [Hbig|Hsmall].
  - unfold shortestNinther in Hbig. unfold medianAdjacent_func.
    pose proof (median_range d (a + q * 1 - 1) (a + q * 1) (a + q * 1 + 1) 0
                  a (b - 1) ltac:(lia) ltac:(lia) ltac:(lia)) as Hi.
    destruct (median_func less d (a + q * 1 - 1) (a + q * 1) (a + q * 1 + 1) 0)
      as [i s1].
    pose proof (median_range d (a + q * 2 - 1) (a + q * 2) (a + q * 2 + 1) s1
                  a (b - 1) ltac:(lia) ltac:(lia) ltac:(lia)) as Hj.
    destruct (median_func less d (a + q * 2 - 1) (a + q * 2) (a + q * 2 + 1) s1)
      as [j s2].
    pose proof (median_range d (a + q * 3 - 1) (a + q * 3) (a + q * 3 + 1) s2
                  a (b - 1) ltac:(lia) ltac:(lia) ltac:(lia)) as Hk.
    destruct (median_func less d (a + q * 3 - 1) (a + q * 3) (a + q * 3 + 1) s2)
      as [k s3].
    cbn [fst] in Hi, Hj, Hk. apply Hres; assumption.
  - apply Hres; lia.
Qed.

(** *** [partialInsertionSort_func] *)

Lemma shiftLeft_spec a top (fuel : nat) :
  forall d j,
  0 <= a <= j -> j < top <= Z.of_nat (length d) ->
  (Z.to_nat j < fuel)%nat ->
  lower_bound less d a top ->
  (forall k x y, a < k < top -> k <> j ->
                 at_ d (k - 1) = Some x -> at_ d k = Some y -> less y x = false) ->
  (forall x y, a < j -> j + 1 < top ->
               at_ d (j - 1) = Some x -> at_ d (j + 1) = Some y -> less y x = false) ->
  inplace a top d (shiftLeft less fuel d j) /\
  adjacent less (shiftLeft less fuel d j) a top.
Proof.
  induction fuel as [|fuel IH]; intros d j Haj Hjt Hfuel Hlow Hadj Hbridge; [lia|].
  cbn [shiftLeft].
  destruct (Z.geb_spec j 1) as [Hj1|Hj0].
  - destruct (at_valid d j ltac:(lia)) as [vj Hvj].
    destruct (at_valid d (j - 1) ltac:(lia)) as [vp Hvp].
    rewrite (Less_at less d _ _ vj vp Hvj Hvp).
    destruct (less vj vp) eqn:Hless; cbn [negb].
    + (* the element moves one place to the left *)
      assert (Hja : a < j).
      { destruct (Z.eq_dec j a) as [->|Hne]; [|lia].
        rewrite (Hlow vp a vj Hvp ltac:(lia) Hvj) in Hless. discriminate. }
      pose proof (at_Swap d j (j - 1)) as Hsw.
      assert (Hin1 : inplace a top d (Swap d j (j - 1))) by (apply inplace_Swap; lia).
      destruct (IH (Swap d j (j - 1)) (j - 1)) as [Hin Hres].
      * lia.
      * rewrite length_Swap. lia.
      * lia.
      * apply (lower_bound_inplace d); [lia|lia|exact Hin1|exact Hlow].
      * intros k x y Hk Hne Hx Hy. rewrite Hsw in Hx, Hy by lia.
        destruct (Z.eqb_spec k j) as [->|Hkj].
        -- (* the pair just swapped *)
           destruct (Z.eqb_spec (j - 1) j); [lia|]. rewrite Z.eqb_refl in Hx.
           rewrite Hvj in Hx. rewrite Hvp in Hy. injection Hx as <-. injection Hy as <-.
           apply (less_asym less less_irrefl less_trans), Hless.
        -- destruct (Z.eqb_spec k (j - 1)); [lia|].
           destruct (Z.eqb_spec (k - 1) j) as [Hk1|Hk1].
           ++ (* k = j + 1 *)
              rewrite Hvp in Hx. injection Hx as <-.
              apply (Hbridge vp y Hja ltac:(lia) Hvp).
              replace (j + 1) with k by lia. exact Hy.
           ++ destruct (Z.eqb_spec (k - 1) (j - 1)); [lia|].
              apply (Hadj k x y); [lia|exact Hkj|exact Hx|exact Hy].
      * intros x y Ha1 _ Hx Hy. rewrite Hsw in Hx, Hy by lia.
        replace (j - 1 + 1) with j in Hy by lia. rewrite Z.eqb_refl in Hy.
        destruct (Z.eqb_spec (j - 1 - 1) j); [lia|].
        destruct (Z.eqb_spec (j - 1 - 1) (j - 1)); [lia|].
        rewrite Hvp in Hy. injection Hy as <-.
        apply (Hadj (j - 1) x vp); [lia|lia|exact Hx|exact Hvp].
      * split; [eapply inplace_trans; [exact Hin1|exact Hin]|exact Hres].
    + split; [apply inplace_refl|]. intros k x y Hk Hx Hy.
      destruct (Z.eq_dec k j) as [->|Hne]; [|apply (Hadj k x y); assumption].
      rewrite Hvp in Hx. rewrite Hvj in Hy. injection Hx as <-. injection Hy as <-.
      exact Hless.
  - split; [apply inplace_refl|]. intros k x y Hk Hx Hy.
    apply (Hadj k x y); [lia|lia|exact Hx|exact Hy].
Qed.

Lemma shiftRight_inplace lo b (fuel : nat) :
  forall d j, lo < j -> inplace lo b d (shiftRight less fuel d j b).
Proof.
  induction fuel as [|fuel IH]; intros d j Hj; cbn [shiftRight]; [apply inplace_refl|].
  destruct (Z.ltb_spec j b) as [Hjb|Hjb]; [|apply inplace_refl].
  destruct (negb (Less less d j (j - 1))); [apply inplace_refl|].
  eapply inplace_trans; [apply (inplace_Swap lo b d j (j - 1)); lia|].
  apply IH. lia.
Qed.

Lemma partialInsertionLoop_spec a b (steps : nat) :
  forall d i,
  0 <= a -> a + 1 <= i <= b -> b <= Z.of_nat (length d) ->
  lower_bound less d a b -> adjacent less d a i ->
  let '(d', ok) := partialInsertionLoop less steps d a b i in
  inplace a b d d' /\ (ok = true -> adjacent less d' a b).
Proof.
  induction steps as [|steps IH]; intros d i Ha Hi Hb Hlow Hadj; cbn [partialInsertionLoop].
  - split; [apply inplace_refl|discriminate].
  - cbv zeta.
    pose proof (scanUp_spec (fun i => negb (Less less d i (i - 1))) (span i (b - 1))
                  i (b - 1) ltac:(unfold span; lia)) as Hscan.
    cbv zeta in Hscan.
    set (i' := scanUp (span i (b - 1)) (fun i => negb (Less less d i (i - 1))) i (b - 1)) in *.
    destruct Hscan as (Hii & Hib & Hpairs & Hstop).
    assert (Hadj' : adjacent less d a i').
    { intros k x y Hk Hx Hy. destruct (Z.lt_ge_cases k i) as [Hki|Hki].
      - apply (Hadj k x y); [lia|exact Hx|exact Hy].
      - specialize (Hpairs k ltac:(lia)). cbn beta in Hpairs.
        rewrite (Less_at less d _ _ y x Hy Hx) in Hpairs.
        destruct (less y x); [discriminate|reflexivity]. }
    destruct (Z.eqb_spec i' b) as [Hend|Hnot].
    { split; [apply inplace_refl|]. intros _. rewrite <- Hend. exact Hadj'. }
    destruct (Z.ltb_spec (b - a) shortestShifting) as [Hshort|Hlong].
    { split; [apply inplace_refl|discriminate]. }
    assert (Hi'b : a + 1 <= i' < b) by lia.
    set (d1 := Swap d i' (i' - 1)).
    assert (Hin1 : inplace a b d d1) by (apply inplace_Swap; lia).
    assert (Hlen1 : length d1 = length d) by apply length_Swap.
    assert (Hlow1 : lower_bound less d1 a b)
      by (apply (lower_bound_inplace d); [lia|lia|exact Hin1|exact Hlow]).
    assert (Hadj1 : forall k x y, a < k < i' -> k <> i' - 1 ->
              at_ d1 (k - 1) = Some x -> at_ d1 k = Some y -> less y x = false).
    { intros k x y Hk Hne Hx Hy. unfold d1 in Hx, Hy.
      rewrite at_Swap_other in Hx, Hy by lia.
      apply (Hadj' k x y); [lia|exact Hx|exact Hy]. }
    set (d2 := if i' - a >=? 2 then shiftLeft less (Z.to_nat i') d1 (i' - 1) else d1).
    assert (H2 : inplace a b d1 d2 /\ adjacent less d2 a i').
    { unfold d2. destruct (Z.geb_spec (i' - a) 2) as [Hge|Hlt].
      - destruct (shiftLeft_spec a i' (Z.to_nat i') d1 (i' - 1)) as [Hin Hres].
        + lia.
        + lia.
        + lia.
        + intros p k x Hp Hk Hx. apply (Hlow1 p k x Hp); [lia|exact Hx].
        + exact Hadj1.
        + intros x y _ Hcontra. lia.
        + split; [|exact Hres]. eapply inplace_weaken; [| |exact Hin]; lia.
      - split; [apply inplace_refl|]. intros k x y Hk. lia. }
    destruct H2 as [Hin2 Hadj2].
    assert (Hlen2 : length d2 = length d) by (destruct Hin2 as [-> _]; exact Hlen1).
    set (d3 := if b - i' >=? 2 then shiftRight less (Z.to_nat (b - i')) d2 (i' + 1) b else d2).
    assert (Hin3 : inplace i' b d2 d3).
    { unfold d3. destruct (b - i' >=? 2); [|apply inplace_refl].
      apply shiftRight_inplace. lia. }
    assert (Hlen3 : length d3 = length d) by (destruct Hin3 as [-> _]; exact Hlen2).
    assert (Hin03 : inplace a b d d3).
    { eapply inplace_trans; [exact Hin1|]. eapply inplace_trans; [exact Hin2|].
      eapply inplace_weaken; [| |exact Hin3]; lia. }
    specialize (IH d3 i' Ha ltac:(lia) ltac:(lia)).
    destruct (partialInsertionLoop less steps d3 a b i') as [d' ok].
    destruct IH as [Hin Hok].
    + apply (lower_bound_inplace d); [lia|lia|exact Hin03|exact Hlow].
    + intros k x y Hk Hx Hy. destruct Hin3 as (_ & Hout & _).
      rewrite Hout in Hx, Hy by lia. apply (Hadj2 k x y); [lia|exact Hx|exact Hy].
    + split; [eapply inplace_trans; [exact Hin03|exact Hin]|exact Hok].
Qed.

Lemma partialInsertionSort_spec d a b :
  0 <= a -> a < b -> b <= Z.of_nat (length d) -> lower_bound less d a b ->
  let '(d', ok) := partialInsertionSort_func less d a b in
  inplace a b d d' /\ (ok = true -> ordered_range less d' a b).
Proof.
  intros Ha Hab Hb Hlow. unfold partialInsertionSort_func.
  pose proof (partialInsertionLoop_spec a b maxSteps d (a + 1) Ha ltac:(lia) Hb Hlow) as H.
  destruct (partialInsertionLoop less maxSteps d a b (a + 1)) as [d' ok].
  destruct H as [Hin Hok]; [intros k x y Hk; lia|].
  split; [exact Hin|]. intros Htrue. apply adjacent_ordered; [exact Ha| |exact (Hok Htrue)].
  destruct Hin as [-> _]. exact Hb.
Qed.

End Prelude.

(** *** [pdqsort_func] sorts *)

Section Pdqsort.
Context {A : Type} (less : A -> A -> bool).
Import GoSort sortspec.
Implicit Types (d : list A) (i j k a b : Z).

Hypothesis less_irrefl : forall x, less x x = false.
Hypothesis less_trans :
  forall x y z, less x y = true -> less y z = true -> less x z = true.
Hypothesis less_negtrans :
  forall x y z, less x y = false -> less y z = false -> less x z = false.

Lemma all_range_outside (P : A -> Prop) d d' a b a' b' :
  inplace a' b' d d' -> b <= a' \/ b' <= a ->
  all_range P d a b -> all_range P d' a b.
Proof.
  intros (_ & Hout & _) Hdisj Hall k x Hk Hx. rewrite Hout in Hx by lia.
  exact (Hall k x Hk Hx).
Qed.

Lemma ordered_range_outside d d' a b a' b' :
  inplace a' b' d d' -> b <= a' \/ b' <= a ->
  ordered_range less d a b -> ordered_range less d' a b.
Proof.
  intros (_ & Hout & _) Hdisj Hord i j x y Hai Hij Hjb Hx Hy.
  rewrite Hout in Hx, Hy by lia. exact (Hord i j x y Hai Hij Hjb Hx Hy).
Qed.

Lemma lower_bound_outside d d' a b a' b' :
  inplace a' b' d d' -> b <= a' -> lower_bound less d a b -> lower_bound less d' a b.
Proof.
  intros (_ & Hout & _) Hdisj Hlow p k x Hp Hk Hx.
  rewrite Hout in Hp, Hx by lia. exact (Hlow p k x Hp Hk Hx).
Qed.

Lemma pivoted_left d d' a mid b :
  0 <= a <= mid -> mid <= Z.of_nat (length d) ->
  inplace a mid d d' -> pivoted less d a mid b -> pivoted less d' a mid b.
Proof.
  intros Ham Hlen Hin (p & Hp & Hl & Hr). exists p. split; [|split].
  - destruct Hin as (_ & Hout & _). rewrite Hout by lia. exact Hp.
  - exact (inplace_Forall a mid d d' _ Ham Hlen Hin Hl).
  - apply (all_range_outside _ d d' _ _ a mid Hin); [lia|exact Hr].
Qed.

Lemma pivoted_right d d' a mid b :
  0 <= mid + 1 <= b -> b <= Z.of_nat (length d) ->
  inplace (mid + 1) b d d' -> pivoted less d a mid b -> pivoted less d' a mid b.
Proof.
  intros Hmb Hlen Hin (p & Hp & Hl & Hr). exists p. split; [|split].
  - destruct Hin as (_ & Hout & _). rewrite Hout by lia. exact Hp.
  - apply (all_range_outside _ d d' _ _ (mid + 1) b Hin); [lia|exact Hl].
  - exact (inplace_Forall (mid + 1) b d d' _ Hmb Hlen Hin Hr).
Qed.

Lemma pivoted_lower_bound d a mid b :
  pivoted less d a mid b -> lower_bound less d (mid + 1) b.
Proof.
  intros (p & Hp & _ & Hr) q k x Hq Hk Hx.
  replace (mid + 1 - 1) with mid in Hq by lia.
  rewrite Hp in Hq. injection Hq as <-. exact (Hr k x Hk Hx).
Qed.

Lemma pivoted_ordered d a mid b :
  pivoted less d a mid b -> ordered_range less d a mid ->
  ordered_range less d (mid + 1) b -> ordered_range less d a b.
Proof.
  intros (p & Hp & Hl & Hr) Hleft Hright i j x y Hai Hij Hjb Hx Hy.
  destruct (Z.lt_trichotomy j mid) as [Hjm|[Hjm|Hjm]].
  - exact (Hleft i j x y Hai Hij Hjm Hx Hy).
  - subst j. rewrite Hp in Hy. injection Hy as <-.
    apply (less_asym less less_irrefl less_trans). exact (Hl i x ltac:(lia) Hx).
  - destruct (Z.lt_trichotomy i mid) as [Him|[Him|Him]].
    + pose proof (Hl i x ltac:(lia) Hx) as Hxp.
      pose proof (Hr j y ltac:(lia) Hy) as Hyp. cbn beta in Hxp, Hyp.
      destruct (less y x) eqn:Hyx; [|reflexivity].
      rewrite (less_trans y x p Hyx Hxp) in Hyp. discriminate.
    + subst i. rewrite Hp in Hx. injection Hx as <-. exact (Hr j y ltac:(lia) Hy).
    + exact (Hright i j x y ltac:(lia) Hij Hjb Hx Hy).
Qed.

Lemma equal_prefix_lower_bound d a mid b p :
  0 <= a < mid -> mid <= Z.of_nat (length d) ->
  equal_prefix less d a mid b p -> lower_bound less d mid b.
Proof.
  intros Ham Hlen [Heq Hgt] q k x Hq Hk Hx.
  destruct (Heq (mid - 1) q ltac:(lia) Hq) as [Hpq _].
  pose proof (Hgt k x Hk Hx) as Hpx. cbn beta in Hpx.
  destruct (less x q) eqn:Hxq; [|reflexivity].
  rewrite (less_trans p x q Hpx Hxq) in Hpq. discriminate.
Qed.

Lemma equal_prefix_ordered d a mid b p :
  equal_prefix less d a mid b p -> ordered_range less d mid b -> ordered_range less d a b.
Proof.
  intros [Heq Hgt] Hright i j x y Hai Hij Hjb Hx Hy.
  destruct (Z.lt_ge_cases i mid) as [Him|Him].
  - destruct (Heq i x ltac:(lia) Hx) as [Hpx Hxp].
    destruct (Z.lt_ge_cases j mid) as [Hjm|Hjm].
    + destruct (Heq j y ltac:(lia) Hy) as [Hpy Hyp].
      exact (less_negtrans y p x Hyp Hpx).
    + pose proof (Hgt j y ltac:(lia) Hy) as Hpy. cbn beta in Hpy.
      destruct (less y x) eqn:Hyx; [|reflexivity].
      rewrite (less_trans p y x Hpy Hyx) in Hpx. discriminate.
  - exact (Hright i j x y Him Hij Hjb Hx Hy).
Qed.

Lemma equal_prefix_right d d' a mid b p :
  0 <= mid <= b -> b <= Z.of_nat (length d) ->
  inplace mid b d d' -> equal_prefix less d a mid b p -> equal_prefix less d' a mid b p.
Proof.
  intros Hmb Hlen Hin [Heq Hgt]. split.
  - apply (all_range_outside _ d d' _ _ mid b Hin); [lia|exact Heq].
  - exact (inplace_Forall mid b d d' _ Hmb Hlen Hin Hgt).
Qed.

Lemma pdqsortLoop_spec (fuel : nat) :
  forall d a b limit wasBalanced wasPartitioned,
  0 <= a <= b -> b <= Z.of_nat (length d) ->
  (Z.to_nat (b - a) < fuel)%nat ->
  lower_bound less d a b ->
  inplace a b d (pdqsortLoop less fuel d a b limit wasBalanced wasPartitioned) /\
  ordered_range less (pdqsortLoop less fuel d a b limit wasBalanced wasPartitioned) a b.
Proof.
  induction fuel as [|fuel IH]; intros d a b limit wb wp Hab Hb Hfuel Hlow; [lia|].
  cbn [pdqsortLoop]. cbv zeta.
  destruct (Z.leb_spec (b - a) maxInsertion) as [Hshort|Hlong].
  { apply insertionSort_range; assumption. }
  destruct (Z.eqb_spec limit 0) as [Hlimit|Hlimit].
  { apply heapSort_func_spec; assumption. }
  unfold maxInsertion in Hlong.
  (* breaking patterns *)
  set (pre := if negb wb then (breakPatterns_func d a b, limit - 1) else (d, limit)).
  assert (Hpre : inplace a b d (fst pre)).
  { unfold pre. destruct (negb wb); cbn [fst];
      [apply breakPatterns_inplace|apply inplace_refl]. }
  clearbody pre. destruct pre as [d1 limit1]. cbn [fst] in Hpre.
  (* choosing the pivot *)
  pose proof (choosePivot_range less d1 a b ltac:(lia)) as Hpivot.
  destruct (choosePivot_func less d1 a b) as [pivot0 hint0]. cbn [fst] in Hpivot.
  set (adj := match hint0 with
              | decreasingHint =>
                  (reverseRange_func d1 a b, b - 1 - (pivot0 - a), increasingHint)
              | _ => (d1, pivot0, hint0)
              end).
  assert (Hadj : inplace a b d1 (fst (fst adj)) /\ a <= snd (fst adj) < b).
  { unfold adj. destruct hint0; cbn [fst snd];
      (split; [try apply inplace_refl; apply reverseRange_inplace|lia]). }
  clearbody adj. destruct adj as [[d2 pivot] hint]. cbn [fst snd] in Hadj.
  destruct Hadj as [Hin2 Hpivot2].
  assert (Hin02 : inplace a b d d2) by (eapply inplace_trans; eassumption).
  assert (Hlen2 : length d2 = length d) by (destruct Hin02 as [-> _]; reflexivity).
  assert (Hlow2 : lower_bound less d2 a b)
    by (apply (lower_bound_inplace less d); assumption).
  (* a slice that looks sorted already *)
  set (pis := match hint with
              | increasingHint =>
                  if wb && wp then partialInsertionSort_func less d2 a b
                  else (d2, false)
              | _ => (d2, false)
              end).
  assert (Hpis : inplace a b d2 (fst pis) /\
                 (snd pis = true -> ordered_range less (fst pis) a b)).
  { unfold pis.
    assert (Hno : inplace a b d2 (fst (d2, false)) /\
                  (snd (d2, false) = true -> ordered_range less (fst (d2, false)) a b))
      by (split; [apply inplace_refl|discriminate]).
    destruct hint; try exact Hno. destruct (wb && wp); [|exact Hno].
    pose proof (partialInsertionSort_spec less less_irrefl less_trans less_negtrans
                  d2 a b ltac:(lia) ltac:(lia) ltac:(lia) Hlow2) as Hp.
    destruct (partialInsertionSort_func less d2 a b) as [d' ok]. exact Hp. }
  clearbody pis. destruct pis as [d3 done]. cbn [fst snd] in Hpis.
  destruct Hpis as [Hin3 Hdone].
  assert (Hin03 : inplace a b d d3) by (eapply inplace_trans; eassumption).
  destruct done.
  { split; [exact Hin03|exact (Hdone eq_refl)]. }
  assert (Hlen3 : length d3 = length d) by (destruct Hin03 as [-> _]; reflexivity).
  assert (Hlow3 : lower_bound less d3 a b)
    by (apply (lower_bound_inplace less d); assumption).
  destruct (at_valid d3 pivot ltac:(lia)) as [p Hp].
  destruct ((a >? 0) && negb (Less less d3 (a - 1) pivot)) eqn:Hequal.
  - (* the slice starts with elements equal to the one before it *)
    apply andb_true_iff in Hequal as [Hapos Hnotless].
    apply Z.gtb_lt in Hapos.
    destruct (at_valid d3 (a - 1) ltac:(lia)) as [q Hq].
    rewrite (Less_at less d3 _ _ q p Hq Hp) in Hnotless.
    apply negb_true_iff in Hnotless.
    pose proof (partitionEqual_func_spec less less_irrefl d3 a b pivot p
                  ltac:(lia) Hpivot2 ltac:(lia) Hp) as Hpart.
    destruct (partitionEqual_func less d3 a b pivot) as [d4 mid].
    destruct Hpart as (Hin4 & Hmid & Hle & Hgt).
    assert (Hlen4 : length d4 = length d) by (destruct Hin4 as [-> _]; exact Hlen3).
    assert (Hprefix : equal_prefix less d4 a mid b p).
    { split; [|exact Hgt]. intros k x Hk Hx. split; [exact (Hle k x Hk Hx)|].
      refine (inplace_Forall a b d3 d4 (fun x => less x p = false)
                ltac:(lia) ltac:(lia) Hin4 _ k x ltac:(lia) Hx).
      intros k' x' Hk' Hx'. apply (less_negtrans x' q p); [|exact Hnotless].
      exact (Hlow3 q k' x' Hq Hk' Hx'). }
    destruct (IH d4 mid b limit1 wb wp) as [Hin5 Hord5].
    + lia.
    + lia.
    + lia.
    + apply (equal_prefix_lower_bound d4 a mid b p); [lia|lia|exact Hprefix].
    + split.
      * eapply inplace_trans; [exact Hin03|]. eapply inplace_trans; [exact Hin4|].
        eapply inplace_weaken; [| |exact Hin5]; lia.
      * apply (equal_prefix_ordered _ a mid b p); [|exact Hord5].
        apply (equal_prefix_right d4); [lia|lia|exact Hin5|exact Hprefix].
  - (* partitioning around the pivot *)
    clear Hequal.
    pose proof (partition_func_spec less d3 a b pivot p ltac:(lia) Hpivot2 ltac:(lia) Hp)
      as Hpart.
    destruct (partition_func less d3 a b pivot) as [[d4 mid] already].
    destruct Hpart as (Hin4 & Hmid & Hpmid & Hl & Hr).
    assert (Hlen4 : length d4 = length d) by (destruct Hin4 as [-> _]; exact Hlen3).
    assert (Hin04 : inplace a b d d4) by (eapply inplace_trans; eassumption).
    assert (Hlow4 : lower_bound less d4 a mid).
    { intros q k x Hq Hk Hx.
      apply (lower_bound_inplace less d d4 a b Hab Hb Hin04 Hlow q k x Hq); [lia|exact Hx]. }
    assert (Hpiv4 : pivoted less d4 a mid b) by (exists p; split; [exact Hpmid|split; assumption]).
    destruct (Z.ltb_spec (mid - a) (b - mid)) as [Hsmall|Hbig].
    + (* the left part first *)
      set (d5 := pdqsortLoop less fuel d4 a mid limit1 true true).
      destruct (IH d4 a mid limit1 true true) as [Hin5 Hord5];
        [lia|lia|lia|exact Hlow4|]. fold d5 in Hin5, Hord5.
      assert (Hlen5 : length d5 = length d) by (destruct Hin5 as [-> _]; exact Hlen4).
      assert (Hpiv5 : pivoted less d5 a mid b)
        by (apply (pivoted_left d4); [lia|lia|exact Hin5|exact Hpiv4]).
      destruct (IH d5 (mid + 1) b limit1 (mid - a >=? Z.quot (b - a) 8) already)
        as [Hin6 Hord6];
        [lia|lia|lia|exact (pivoted_lower_bound d5 a mid b Hpiv5)|].
      split.
      * eapply inplace_trans; [exact Hin04|].
        eapply inplace_trans; [eapply inplace_weaken; [| |exact Hin5]; lia|].
        eapply inplace_weaken; [| |exact Hin6]; lia.
      * apply (pivoted_ordered _ a mid b).
        -- apply (pivoted_right d5); [lia|lia|exact Hin6|exact Hpiv5].
        -- apply (ordered_range_outside d5 _ a mid (mid + 1) b Hin6); [lia|exact Hord5].
        -- exact Hord6.
    + (* the right part first *)
      set (d5 := pdqsortLoop less fuel d4 (mid + 1) b limit1 true true).
      destruct (IH d4 (mid + 1) b limit1 true true) as [Hin5 Hord5];
        [lia|lia|lia|exact (pivoted_lower_bound d4 a mid b Hpiv4)|].
      fold d5 in Hin5, Hord5.
      assert (Hlen5 : length d5 = length d) by (destruct Hin5 as [-> _]; exact Hlen4).
      assert (Hpiv5 : pivoted less d5 a mid b)
        by (apply (pivoted_right d4); [lia|lia|exact Hin5|exact Hpiv4]).
      destruct (IH d5 a mid limit1 (b - mid >=? Z.quot (b - a) 8) already)
        as [Hin6 Hord6]; [lia|lia|lia| |].
      { apply (lower_bound_outside d4 d5 a mid (mid + 1) b Hin5); [lia|exact Hlow4]. }
      split.
      * eapply inplace_trans; [exact Hin04|].
        eapply inplace_trans; [eapply inplace_weaken; [| |exact Hin5]; lia|].
        eapply inplace_weaken; [| |exact Hin6]; lia.
      * apply (pivoted_ordered _ a mid b).
        -- apply (pivoted_left d5); [lia|lia|exact Hin6|exact Hpiv5].
        -- exact Hord6.
        -- apply (ordered_range_outside d5 _ (mid + 1) b a mid Hin6); [lia|exact Hord5].
Qed.

Lemma Slice_sorts (x : list A) :
  ordered less (Slice less x) /\ Slice less x ≡ₚ x.
Proof.
  unfold Slice, pdqsort_func. cbv zeta.
  set (n := Z.of_nat (length x)).
  destruct (pdqsortLoop_spec (S (Z.to_nat (n - 0))) x 0 n (bitsLen n) true true)
    as [(Hlen & _ & Hperm) Hord].
  - unfold n. lia.
  - unfold n. lia.
  - lia.
  - intros p k y Hp. discriminate Hp.
  - split; [|exact Hperm].
    intros i j y z Hij Hy Hz. pose proof (lookup_lt_Some _ _ _ Hz) as Hj.
    apply (Hord (Z.of_nat i) (Z.of_nat j) y z); [lia|lia| | |].
    + rewrite Hlen in Hj. unfold n. lia.
    + rewrite at_lookup by lia. rewrite Nat2Z.id. exact Hy.
    + rewrite at_lookup by lia. rewrite Nat2Z.id. exact Hz.
Qed.

End Pdqsort.

(** The byte-wise order of Go strings. *)
Lemma lt_irrefl (a : string) : GoStrings.lt a a = false.
Proof.
  induction a as [|c a IH]; [reflexivity|].
  cbn [GoStrings.lt]. cbv zeta. rewrite Nat.ltb_irrefl. exact IH.
Qed.

Lemma lt_trans (a : string) :
  forall b c, GoStrings.lt a b = true -> GoStrings.lt b c = true ->
              GoStrings.lt a c = true.
Proof.
  induction a as [|x a IH]; intros [|y b] [|z c]; cbn [GoStrings.lt]; cbv zeta;
    try discriminate; try reflexivity.
  destruct (Nat.ltb_spec (nat_of_ascii x) (nat_of_ascii y)),
           (Nat.ltb_spec (nat_of_ascii y) (nat_of_ascii x)),
           (Nat.ltb_spec (nat_of_ascii y) (nat_of_ascii z)),
           (Nat.ltb_spec (nat_of_ascii z) (nat_of_ascii y)),
           (Nat.ltb_spec (nat_of_ascii x) (nat_of_ascii z)),
           (Nat.ltb_spec (nat_of_ascii z) (nat_of_ascii x));
    try lia; try discriminate; try reflexivity.
  apply IH.
Qed.

Lemma lt_negtrans (a : string) :
  forall b c, GoStrings.lt a b = false -> GoStrings.lt b c = false ->
              GoStrings.lt a c = false.
Proof.
  induction a as [|x a IH]; intros [|y b] [|z c]; cbn [GoStrings.lt]; cbv zeta;
    try discriminate; try reflexivity.
  destruct (Nat.ltb_spec (nat_of_ascii x) (nat_of_ascii y)),
           (Nat.ltb_spec (nat_of_ascii y) (nat_of_ascii x)),
           (Nat.ltb_spec (nat_of_ascii y) (nat_of_ascii z)),
           (Nat.ltb_spec (nat_of_ascii z) (nat_of_ascii y)),
           (Nat.ltb_spec (nat_of_ascii x) (nat_of_ascii z)),
           (Nat.ltb_spec (nat_of_ascii z) (nat_of_ascii x));
    try lia; try discriminate; try reflexivity.
  apply IH.
Qed.

Lemma newerFirst_irrefl (x : WeeklyUpdate) : repository.newerFirst x x = false.
Proof. apply lt_irrefl. Qed.

Lemma newerFirst_trans (x y z : WeeklyUpdate) :
  repository.newerFirst x y = true -> repository.newerFirst y z = true ->
  repository.newerFirst x z = true.
Proof.
  unfold repository.newerFirst, gt. intros Hxy Hyz. eapply lt_trans; eassumption.
Qed.

Lemma newerFirst_negtrans (x y z : WeeklyUpdate) :
  repository.newerFirst x y = false -> repository.newerFirst y z = false ->
  repository.newerFirst x z = false.
Proof.
  unfold repository.newerFirst, gt. intros Hxy Hyz. eapply lt_negtrans; eassumption.
Qed.

(** C5, amended.  For every list of raw comments, the list produced by
    parsing is sorted descending by date (byte-wise order of the date
    strings) and is a rearrangement of the qualifying updates; when at
    most 12 comments qualify as weekly updates, updates with equal dates
    also keep their fetch order.  (Longer slices take the partitioning
    path of [sort.Slice], which does not keep the order of equal dates.) *)
Theorem weekly_updates_order (comments : list gogithub.IssueComment.t) :
  let updates := omap repository.commentToWeeklyUpdate comments in
  let sorted := repository.convertGitHubCommentsToWeeklyUpdates comments in
  sortspec.descending sorted /\
  Permutation sorted updates /\
  ((length updates <= 12)%nat ->
   forall date, sortspec.dated date sorted = sortspec.dated date updates).
Proof.
  intros updates sorted. unfold sorted, repository.convertGitHubCommentsToWeeklyUpdates.
  fold updates.
  destruct (Slice_sorts repository.newerFirst newerFirst_irrefl newerFirst_trans
              newerFirst_negtrans updates) as [Hord Hperm].
  split; [|split].
  - intros i j x y Hij Hx Hy. exact (Hord i j x y Hij Hx Hy).
  - exact Hperm.
  - intros Hlen date. rewrite Slice_short by exact Hlen.
    unfold sortspec.dated. apply isort_filter.
    intros x y Hless Hx Hy.
    apply String.eqb_eq in Hx, Hy. unfold repository.newerFirst, gt in Hless.
    rewrite Hx, Hy, lt_irrefl in Hless. discriminate.
Qed.

Lemma weekly_updates_order_witness :
  let updates := omap repository.commentToWeeklyUpdate testserver.threeUpdates in
  let sorted := repository.convertGitHubCommentsToWeeklyUpdates testserver.threeUpdates in
  map Date sorted = ["2025-07-09"; "2025-07-01"; "2025-06-15"]%string /\
  sortspec.descending sorted /\
  (forall date, sortspec.dated date sorted = sortspec.dated date updates).
Proof.
  cbv zeta. split; [vm_compute; reflexivity|].
  destruct (weekly_updates_order testserver.threeUpdates) as (Hdesc & _ & Hstable).
  split; [exact Hdesc|]. apply Hstable. vm_compute. lia.
Defined.

(** The parser of the service sorts its updates with the same call. *)
Lemma ExtractWeeklyUpdates_descending (comments : list string) :
  sortspec.descending (service.ExtractWeeklyUpdates comments).
Proof.
  unfold service.ExtractWeeklyUpdates, sortspec.descending. cbv zeta.
  intros i j x y Hij Hx Hy.
  exact (proj1 (Slice_sorts repository.newerFirst newerFirst_irrefl newerFirst_trans
                  newerFirst_negtrans _) i j x y Hij Hx Hy).
Qed.

(** C5, counterexample.  Thirteen weekly updates fetched oldest first, the
    last two (alice's, then bob's) for the same week: after parsing, bob's
    update comes before alice's. *)
Lemma equal_dates_are_reordered :
  let updates := omap repository.commentToWeeklyUpdate testserver.thirteenUpdates in
  let sorted := repository.convertGitHubCommentsToWeeklyUpdates testserver.thirteenUpdates in
  length updates = 13%nat /\
  map Author (sortspec.dated "2025-06-23" updates) = ["alice"; "bob"]%string /\
  map Author (sortspec.dated "2025-06-23" sorted) = ["bob"; "alice"]%string /\
  sortspec.dated "2025-06-23" sorted <> sortspec.dated "2025-06-23" updates.
Proof.
  cbv zeta. split; [vm_compute; reflexivity|].
  split; [vm_compute; reflexivity|]. split; [vm_compute; reflexivity|].
  vm_compute. discriminate.
Qed.

(** ** Further properties of the code *)

(** ** The words of the patterns *)

Section Words.
Import regexp regexp_spec.
Local Open Scope string_scope.

Lemma append_cons (x : ascii) (a b : string) : String x a ++ b = String x (a ++ b).
Proof. reflexivity. Qed.

Lemma append_nil_l (a : string) : "" ++ a = a.
Proof. reflexivity. Qed.

Lemma append_assoc (a b c : string) : (a ++ b) ++ c = a ++ (b ++ c).
Proof.
  induction a as [|x a IH]; [reflexivity|]. rewrite !append_cons, IH. reflexivity.
Qed.

Lemma append_nil_r (a : string) : a ++ "" = a.
Proof. induction a as [|x a IH]; [reflexivity|]. rewrite append_cons, IH. reflexivity. Qed.

Lemma length_append (a b : string) :
  String.length (a ++ b) = (String.length a + String.length b)%nat.
Proof.
  induction a as [|x a IH]; [reflexivity|].
  rewrite append_cons. cbn [String.length]. rewrite IH. reflexivity.
Qed.

Lemma takeBytes_append (a b : string) : takeBytes (String.length a) (a ++ b) = a.
Proof.
  induction a as [|x a IH]; [reflexivity|].
  rewrite append_cons. cbn [String.length takeBytes]. rewrite IH. reflexivity.
Qed.

Lemma dropBytes_append (a b : string) : dropBytes (String.length a) (a ++ b) = b.
Proof.
  induction a as [|x a IH]; [reflexivity|].
  rewrite append_cons. cbn [String.length dropBytes]. exact IH.
Qed.

Lemma consumed_append (w rest : string) : consumed (w ++ rest) rest = w.
Proof.
  unfold consumed. rewrite length_append.
  replace (String.length w + String.length rest - String.length rest)%nat
    with (String.length w) by lia.
  apply takeBytes_append.
Qed.

Lemma HasPrefix_append (s prefix : string) :
  HasPrefix s prefix = true -> s = prefix ++ dropBytes (String.length prefix) s.
Proof.
  revert s. induction prefix as [|p prefix IH]; intros s Hs; [reflexivity|].
  destruct s as [|c s]; [discriminate|]. cbn [HasPrefix] in Hs.
  rewrite append_cons. cbn [String.length dropBytes].
  apply andb_true_iff in Hs as [Hc Hs]. apply Ascii.eqb_eq in Hc. subst c.
  f_equal. apply IH, Hs.
Qed.

Lemma HasPrefix_here (prefix rest : string) : HasPrefix (prefix ++ rest) prefix = true.
Proof.
  induction prefix as [|p prefix IH]; [destruct rest; reflexivity|].
  rewrite append_cons. cbn [HasPrefix]. rewrite Ascii.eqb_refl. exact IH.
Qed.

Lemma Contains_here (s w : string) : HasPrefix s w = true -> Contains s w = true.
Proof. intros Hp. destruct s; cbn [Contains]; rewrite Hp; reflexivity. Qed.

Lemma Contains_append (pre w post : string) :
  Contains (pre ++ w ++ post) w = true.
Proof.
  induction pre as [|c pre IH].
  - rewrite append_nil_l. apply Contains_here, HasPrefix_here.
  - rewrite append_cons. cbn [Contains]. rewrite IH. apply orb_true_r.
Qed.

(** *** The matcher returns matches *)

Section Soundness.
Context {X : Type}.

Lemma matchStar_sound (p : ascii -> bool) (s : string) :
  forall bol caps (k : cont (X := X)) x,
  matchStar p bol s caps k = Some x ->
  exists w s' bol', s = w ++ s' /\ matched (Star p) bol w bol' [] /\
                    k bol' s' caps = Some x.
Proof.
  induction s as [|c s IH]; intros bol caps k x Hrun; cbn [matchStar] in Hrun.
  - exists "", "", bol. split; [reflexivity|]. split; [constructor|exact Hrun].
  - destruct (p c) eqn:Hp.
    + destruct (matchStar p (isNewline c) s caps k) as [y|] eqn:Hrec.
      * injection Hrun as <-.
        destruct (IH _ _ _ _ Hrec) as (w & s' & bol' & -> & Hm & Hk).
        exists (String c w), s', bol'. split; [reflexivity|].
        split; [constructor; assumption|exact Hk].
      * exists "", (String c s), bol. split; [reflexivity|].
        split; [constructor|exact Hrun].
    + exists "", (String c s), bol. split; [reflexivity|].
      split; [constructor|exact Hrun].
Qed.

Lemma matchRe_sound (r : re) :
  forall bol s caps (k : cont (X := X)) x,
  matchRe r bol s caps k = Some x ->
  exists w s' bol' cs, s = w ++ s' /\ matched r bol w bol' cs /\
                       k bol' s' (caps ++ cs)%list = Some x.
Proof.
  induction r as [|p|c|r1 IH1 r2 IH2|r IH|p|r IH|];
    intros bol s caps k x Hrun; cbn [matchRe] in Hrun.
  - exists "", s, bol, []. rewrite app_nil_r.
    split; [reflexivity|]. split; [constructor|exact Hrun].
  - destruct s as [|c s]; [discriminate|]. destruct (p c) eqn:Hp; [|discriminate].
    exists (String c ""), s, (isNewline c), []. rewrite app_nil_r.
    split; [reflexivity|]. split; [constructor; exact Hp|exact Hrun].
  - destruct s as [|b s]; [discriminate|].
    destruct (Ascii.eqb_spec (lower_byte b) c) as [Hb|Hb].
    + exists (String b ""), s, (isNewline b), []. rewrite app_nil_r.
      split; [reflexivity|]. split; [constructor; exact Hb|exact Hrun].
    + destruct (foldExtra c) as [alt|] eqn:Halt; [|discriminate].
      destruct (HasPrefix (String b s) alt) eqn:Hpre; [|discriminate].
      exists alt, (dropBytes (String.length alt) (String b s)), false, [].
      rewrite app_nil_r. split; [apply HasPrefix_append, Hpre|].
      split; [apply matched_Fold_extra; exact Halt|exact Hrun].
  - destruct (IH1 _ _ _ _ _ Hrun) as (w1 & s1 & bol1 & cs1 & -> & Hm1 & Hk1).
    destruct (IH2 _ _ _ _ _ Hk1) as (w2 & s2 & bol2 & cs2 & -> & Hm2 & Hk2).
    exists (w1 ++ w2), s2, bol2, (cs1 ++ cs2)%list.
    split; [symmetry; apply append_assoc|].
    split; [econstructor; eassumption|]. rewrite app_assoc. exact Hk2.
  - destruct (matchRe r bol s caps k) as [y|] eqn:Hrec.
    + injection Hrun as <-.
      destruct (IH _ _ _ _ _ Hrec) as (w & s' & bol' & cs & -> & Hm & Hk).
      exists w, s', bol', cs. split; [reflexivity|].
      split; [apply matched_Opt_some; exact Hm|exact Hk].
    + exists "", s, bol, []. rewrite app_nil_r.
      split; [reflexivity|]. split; [apply matched_Opt_none|exact Hrun].
  - destruct (matchStar_sound _ _ _ _ _ _ Hrun) as (w & s' & bol' & -> & Hm & Hk).
    exists w, s', bol', []. rewrite app_nil_r.
    split; [reflexivity|]. split; [exact Hm|exact Hk].
  - destruct (IH _ _ _ _ _ Hrun) as (w & s' & bol' & cs & -> & Hm & Hk).
    rewrite consumed_append in Hk.
    exists w, s', bol', (cs ++ [w])%list. split; [reflexivity|].
    split; [constructor; exact Hm|]. rewrite app_assoc. exact Hk.
  - destruct bol; [|discriminate].
    exists "", s, true, []. rewrite app_nil_r.
    split; [reflexivity|]. split; [constructor|exact Hrun].
Qed.

End Soundness.

Lemma first_attempt_sound (r : re) (bol : bool) (s : string) (m : list string) :
  matchRe r bol s [] (fun _ s' caps => Some (consumed s s' :: caps)) = Some m ->
  exists w post bol' cs, s = w ++ post /\ matched r bol w bol' cs /\ m = w :: cs.
Proof.
  intros Hm.
  destruct (matchRe_sound _ _ _ _ _ _ Hm) as (w & s' & bol' & cs & Hs & Hw & Hk).
  subst s. rewrite consumed_append in Hk. cbn [app] in Hk. injection Hk as <-.
  exists w, s', bol', cs. split; [reflexivity|]. split; [exact Hw|reflexivity].
Qed.

Lemma findFrom_sound (r : re) (s : string) :
  forall bol m, findFrom r bol s = Some m ->
  exists pre w post bol0 bol' cs,
    s = pre ++ w ++ post /\ matched r bol0 w bol' cs /\ m = w :: cs.
Proof.
  induction s as [|c s IH]; intros bol m Hrun; cbn [findFrom] in Hrun.
  - destruct (matchRe r bol "" [] _) as [y|] eqn:Hm; [|discriminate].
    injection Hrun as <-.
    destruct (first_attempt_sound _ _ _ _ Hm) as (w & post & bol' & cs & Hs & Hw & ->).
    exists "", w, post, bol, bol', cs. split; [exact Hs|]. split; [exact Hw|reflexivity].
  - destruct (matchRe r bol (String c s) [] _) as [y|] eqn:Hm.
    + injection Hrun as <-.
      destruct (first_attempt_sound _ _ _ _ Hm) as (w & post & bol' & cs & Hs & Hw & ->).
      exists "", w, post, bol, bol', cs. split; [exact Hs|].
      split; [exact Hw|reflexivity].
    + destruct (IH _ _ Hrun) as (pre & w & post & bol0 & bol' & cs & -> & Hw & ->).
      exists (String c pre), w, post, bol0, bol', cs.
      split; [reflexivity|]. split; [exact Hw|reflexivity].
Qed.

Lemma FindStringSubmatch_sound (r : re) (s : string) (m : list string) :
  FindStringSubmatch r s = Some m ->
  exists pre w post bol0 bol' cs,
    s = pre ++ w ++ post /\ matched r bol0 w bol' cs /\ m = w :: cs.
Proof. apply findFrom_sound. Qed.

(** *** What the pieces of the patterns match *)

Lemma matched_lit (s : string) :
  forall bol w bol' cs, matched (lit s) bol w bol' cs -> w = s /\ cs = [].
Proof.
  induction s as [|c s IH]; intros bol w bol' cs Hm; cbn [lit] in Hm.
  - inversion Hm; subst. split; reflexivity.
  - inversion Hm as [| | | |? ? ? w1 bol1 cs1 w2 ? cs2 H1 H2| | | | | |]; subst.
    inversion H1; subst. destruct (IH _ _ _ _ H2) as [-> ->].
    match goal with Hc : Ascii.eqb _ _ = true |- _ => apply Ascii.eqb_eq in Hc; subst end.
    rewrite append_cons, append_nil_l. split; reflexivity.
Qed.

Lemma matched_Star (p : ascii -> bool) bol w bol' cs :
  matched (Star p) bol w bol' cs -> allBytes p w = true /\ cs = [].
Proof.
  remember (Star p) as r eqn:Hr. intros Hm.
  induction Hm; try discriminate; injection Hr as ->.
  - split; reflexivity.
  - destruct (IHHm eq_refl) as [Hall _]. cbn [allBytes].
    rewrite H, Hall. split; reflexivity.
Qed.

Lemma matched_Plus (p : ascii -> bool) bol w bol' cs :
  matched (Plus p) bol w bol' cs ->
  exists c w', w = String c w' /\ p c = true /\ allBytes p w' = true /\ cs = [].
Proof.
  unfold Plus. intros Hm.
  inversion Hm as [| | | |? ? ? w1 bol1 cs1 w2 ? cs2 H1 H2| | | | | |]; subst.
  inversion H1; subst. apply matched_Star in H2 as [Hall ->].
  rewrite append_cons, append_nil_l.
  eexists _, _. split; [reflexivity|]. split; [assumption|]. split; [exact Hall|reflexivity].
Qed.

Lemma matched_Rep (n : nat) (p : ascii -> bool) :
  forall bol w bol' cs,
  matched (Rep n p) bol w bol' cs ->
  String.length w = n /\ allBytes p w = true /\ cs = [].
Proof.
  induction n as [|n IH]; intros bol w bol' cs Hm; cbn [Rep] in Hm.
  - inversion Hm; subst. repeat split.
  - inversion Hm as [| | | |? ? ? w1 bol1 cs1 w2 ? cs2 H1 H2| | | | | |]; subst.
    inversion H1; subst. destruct (IH _ _ _ _ H2) as (Hlen & Hall & ->).
    rewrite append_cons, append_nil_l. cbn [String.length allBytes app].
    rewrite Hlen, Hall.
    match goal with Hc : p _ = true |- _ => rewrite Hc end. repeat split.
Qed.

Lemma matched_capfree (r : re) bol w bol' cs :
  matched r bol w bol' cs -> capfree r = true -> cs = [].
Proof.
  intros Hm. induction Hm; cbn [capfree]; intros Hfree; try reflexivity.
  - apply andb_true_iff in Hfree as [H1 H2].
    rewrite (IHHm1 H1), (IHHm2 H2). reflexivity.
  - apply IHHm, Hfree.
  - discriminate.
Qed.

Lemma capfree_lit (s : string) : capfree (lit s) = true.
Proof. induction s as [|c s IH]; [reflexivity|exact IH]. Qed.

Lemma capfree_ilit (s : string) : capfree (ilit s) = true.
Proof. induction s as [|c s IH]; [reflexivity|exact IH]. Qed.

Lemma matched_Cat_inv r1 r2 bol w bol' cs :
  matched (Cat r1 r2) bol w bol' cs ->
  exists w1 w2 bol1 cs1 cs2,
    w = w1 ++ w2 /\ cs = (cs1 ++ cs2)%list /\
    matched r1 bol w1 bol1 cs1 /\ matched r2 bol1 w2 bol' cs2.
Proof.
  intros Hm.
  inversion Hm as [| | | |? ? ? w1 bol1 cs1 w2 ? cs2 H1 H2| | | | | |]; subst.
  exists w1, w2, bol1, cs1, cs2. repeat split; assumption.
Qed.

Lemma matched_Cap_inv r bol w bol' cs :
  matched (Cap r) bol w bol' cs ->
  exists cs', cs = (cs' ++ [w])%list /\ matched r bol w bol' cs'.
Proof.
  intros Hm. inversion Hm; subst. eexists. split; [reflexivity|assumption].
Qed.

(** *** Strings of digits *)

Lemma digitsValue_nonneg (s : string) :
  forall acc v, 0 <= acc -> strconv.digitsValue acc s = Some v -> 0 <= v.
Proof.
  induction s as [|c s IH]; intros acc v Hacc Hv; cbn [strconv.digitsValue] in Hv.
  - injection Hv as <-. exact Hacc.
  - destruct (strconv.isDigit c) eqn:Hc; [|discriminate].
    refine (IH _ _ _ Hv).
    unfold strconv.isDigit in Hc. apply andb_true_iff in Hc as [H1 H2].
    apply Nat.leb_le in H1, H2. lia.
Qed.

Lemma Atoi_digits (c : ascii) (s : string) (v : Z) :
  strconv.isDigit c = true ->
  strconv.Atoi (String c s) = Some v -> 0 <= v <= strconv.maxInt.
Proof.
  intros Hc Hv. unfold strconv.Atoi in Hv.
  assert (Hplain : match strconv.unsignedValue (String c s) with
                   | Some v0 => if (v0 <=? strconv.maxInt)%Z then Some v0 else None
                   | None => None
                   end = Some v).
  { destruct c as [[] [] [] [] [] [] [] []]; try discriminate Hc; exact Hv. }
  clear Hv. cbn [strconv.unsignedValue] in Hplain.
  destruct (strconv.digitsValue 0 (String c s)) as [v0|] eqn:Hd; [|discriminate].
  destruct (Z.leb_spec v0 strconv.maxInt); [|discriminate].
  injection Hplain as <-. split; [|assumption].
  exact (digitsValue_nonneg (String c s) 0 v0 ltac:(lia) Hd).
Qed.

End Words.

Section Runs.
Import regexp regexp_spec.
Local Open Scope string_scope.
Context {X : Type}.

(** *** The matcher finds the matches that are there *)

Lemma matchRe_lit (s : string) :
  forall bol rest caps (k : cont (X := X)),
  matchRe (lit s) bol (s ++ rest) caps k = k (bolAfter bol s) rest caps.
Proof.
  induction s as [|c s IH]; intros bol rest caps k; [reflexivity|].
  rewrite append_cons. cbn [lit matchRe bolAfter]. rewrite Ascii.eqb_refl. apply IH.
Qed.

(** A greedy repetition stops where the class ends, provided the rest of
    the pattern matches from there. *)
Lemma matchStar_greedy (p : ascii -> bool) (w : string) :
  forall bol rest caps (k : cont (X := X)) x,
  allBytes p w = true ->
  match rest with String c _ => p c = false | EmptyString => True end ->
  k (bolAfter bol w) rest caps = Some x ->
  matchStar p bol (w ++ rest) caps k = Some x.
Proof.
  induction w as [|c w IH]; intros bol rest caps k x Hall Hstop Hk.
  - rewrite append_nil_l. cbn [bolAfter] in Hk.
    destruct rest as [|c rest]; cbn [matchStar]; [exact Hk|].
    rewrite Hstop. exact Hk.
  - rewrite append_cons. cbn [matchStar allBytes bolAfter] in *.
    apply andb_true_iff in Hall as [Hc Hall]. rewrite Hc.
    rewrite (IH _ _ _ _ _ Hall Hstop Hk). reflexivity.
Qed.

Lemma matchRe_Plus_greedy (p : ascii -> bool) (c : ascii) (w : string) :
  forall bol rest caps (k : cont (X := X)) x,
  p c = true -> allBytes p w = true ->
  match rest with String c _ => p c = false | EmptyString => True end ->
  k (bolAfter bol (String c w)) rest caps = Some x ->
  matchRe (Plus p) bol (String c w ++ rest) caps k = Some x.
Proof.
  intros bol rest caps k x Hc Hall Hstop Hk.
  unfold Plus. rewrite append_cons. cbn [matchRe]. rewrite Hc.
  apply matchStar_greedy; assumption.
Qed.

End Runs.

(** ** Owner and repository of an issue URL *)

Section IssueURL.
Import regexp regexp_spec.
Local Open Scope string_scope.

(** X1.  The canonical issue URL gives back its owner and repository, whatever
    follows the first digit of the issue number. *)
Theorem ExtractOwnerRepoFromIssue_canonical (issue : Issue)
  (o r d : ascii) (owner repo rest : string) :
  notSlash o = true -> allBytes notSlash owner = true ->
  notSlash r = true -> allBytes notSlash repo = true ->
  digit d = true ->
  URL issue = "https://github.com/" ++ String o owner ++ "/" ++ String r repo
              ++ "/issues/" ++ String d rest ->
  repository.ExtractOwnerRepoFromIssue issue = (String o owner, String r repo).
Proof.
  intros Ho Howner Hr Hrepo Hd Hurl.
  unfold repository.ExtractOwnerRepoFromIssue. rewrite Hurl.
  change (String.eqb ("https://github.com/" ++ _) "") with false. cbv iota.
  unfold FindStringSubmatch.
  set (url := "https://github.com/" ++ String o owner ++ "/" ++ String r repo
              ++ "/issues/" ++ String d rest).
  (* the rest of the input after the issue number *)
  assert (Hdigits : exists num tail,
            String d rest = String d num ++ tail /\ allBytes digit num = true /\
            match tail with String c _ => digit c = false | EmptyString => True end).
  { clear. induction rest as [|c rest IH].
    - exists "", "". repeat split.
    - destruct (digit c) eqn:Hc.
      + destruct IH as (num & tail & Heq & Hall & Hstop).
        injection Heq as Heq. exists (String c num), tail.
        rewrite !append_cons in *. rewrite Heq. cbn [allBytes]. rewrite Hc, Hall.
        repeat split. exact Hstop.
      + exists "", (String c rest). cbn [allBytes]. repeat split. exact Hc. }
  destruct Hdigits as (num & tail & Hsplit & Hnum & Hstop).
  assert (Hfirst : matchRe repository.issueURLPattern true url []
                     (fun _ s' caps => Some (consumed url s' :: caps))
                   = Some [consumed url tail; String o owner; String r repo]).
  { unfold repository.issueURLPattern. cbn [seq_re matchRe]. unfold url.
    rewrite matchRe_lit.
    apply matchRe_Plus_greedy; [exact Ho|exact Howner|reflexivity|].
    rewrite consumed_append. rewrite matchRe_lit.
    apply matchRe_Plus_greedy; [exact Hr|exact Hrepo|reflexivity|].
    rewrite consumed_append. rewrite matchRe_lit. rewrite Hsplit.
    apply matchRe_Plus_greedy; [exact Hd|exact Hnum|exact Hstop|].
    reflexivity. }
  destruct url as [|u0 url'] eqn:Eurl; [discriminate|].
  cbn [findFrom]. rewrite Hfirst. reflexivity.
Qed.

(** X2.  Whatever [ExtractOwnerRepoFromIssue] returns is in the URL: either it
    returns two empty strings, or an owner and a repository that are both
    non-empty, free of slashes, and occur in the URL in the form of an
    issue URL. *)
Theorem ExtractOwnerRepoFromIssue_sound (issue : Issue) :
  let '(owner, repo) := repository.ExtractOwnerRepoFromIssue issue in
  (owner = "" /\ repo = "") \/
  (owner <> "" /\ repo <> "" /\
   allBytes notSlash owner = true /\ allBytes notSlash repo = true /\
   Contains (URL issue) ("https://github.com/" ++ owner ++ "/" ++ repo ++ "/issues/")
     = true).
Proof.
  unfold repository.ExtractOwnerRepoFromIssue.
  destruct (String.eqb (URL issue) ""); [left; split; reflexivity|].
  destruct (FindStringSubmatch repository.issueURLPattern (URL issue)) as [m|] eqn:Hfind;
    [|left; split; reflexivity].
  destruct (FindStringSubmatch_sound _ _ _ Hfind)
    as (pre & w & post & bol0 & bol' & cs & Hurl & Hm & ->).
  unfold repository.issueURLPattern in Hm. cbn [seq_re] in Hm.
  apply matched_Cat_inv in Hm as (w1 & x1 & b1 & c1 & y1 & -> & -> & H1 & Hm).
  apply matched_Cat_inv in Hm as (w2 & x2 & b2 & c2 & y2 & -> & -> & H2 & Hm).
  apply matched_Cat_inv in Hm as (w3 & x3 & b3 & c3 & y3 & -> & -> & H3 & Hm).
  apply matched_Cat_inv in Hm as (w4 & x4 & b4 & c4 & y4 & -> & -> & H4 & Hm).
  apply matched_Cat_inv in Hm as (w5 & x5 & b5 & c5 & y5 & -> & -> & H5 & Hm).
  apply matched_Cat_inv in Hm as (w6 & x6 & b6 & c6 & y6 & -> & -> & H6 & Hm).
  apply matched_lit in H1 as [-> ->]. apply matched_lit in H3 as [-> ->].
  apply matched_lit in H5 as [-> ->].
  apply matched_Cap_inv in H2 as (c2' & -> & H2).
  apply matched_Plus in H2 as (o & owner & -> & Ho & Howner & ->).
  apply matched_Cap_inv in H4 as (c4' & -> & H4).
  apply matched_Plus in H4 as (r & repo & -> & Hr & Hrepo & ->).
  apply matched_Plus in H6 as (d & num & -> & Hd & Hnum & ->).
  inversion Hm; subst. cbn [app].
  right. split; [discriminate|]. split; [discriminate|].
  cbn [allBytes]. rewrite Ho, Howner, Hr, Hrepo.
  split; [reflexivity|]. split; [reflexivity|].
  rewrite Hurl.
  replace (("https://github.com/" ++ String o owner ++ "/" ++ String r repo
            ++ "/issues/" ++ String d num ++ "") ++ post)
    with (("https://github.com/" ++ String o owner ++ "/" ++ String r repo ++ "/issues/")
          ++ (String d num ++ post)).
  - apply Contains_append.
  - rewrite !append_assoc, append_nil_l. reflexivity.
Qed.

End IssueURL.

(** ** Parent references *)

Section ParentNumber.
Import regexp regexp_spec.
Local Open Scope string_scope.

Lemma matched_Cat_capfree r1 r2 bol w bol' cs :
  capfree r1 = true -> matched (Cat r1 r2) bol w bol' cs ->
  exists bol1 w2, matched r2 bol1 w2 bol' cs.
Proof.
  intros Hfree Hm.
  apply matched_Cat_inv in Hm as (w1 & w2 & bol1 & cs1 & cs2 & -> & -> & H1 & H2).
  rewrite (matched_capfree _ _ _ _ _ H1 Hfree). exists bol1, w2. exact H2.
Qed.

Lemma matched_number bol w bol' cs :
  matched (Cat (Cap (Plus digit)) Eps) bol w bol' cs ->
  exists c s, cs = [String c s] /\ digit c = true.
Proof.
  intros Hm.
  apply matched_Cat_inv in Hm as (w1 & w2 & bol1 & cs1 & cs2 & -> & -> & H1 & H2).
  inversion H2; subst.
  apply matched_Cap_inv in H1 as (cs' & -> & H1).
  apply matched_Plus in H1 as (c & s & -> & Hc & _ & ->).
  exists c, s. split; [reflexivity|exact Hc].
Qed.

Lemma matched_refTail bol w bol' cs :
  matched (Cat refTail Eps) bol w bol' cs ->
  exists c s, cs = [String c s] /\ digit c = true.
Proof.
  intros Hm.
  apply matched_Cat_inv in Hm as (w1 & w2 & bol1 & cs1 & cs2 & -> & -> & H1 & H2).
  inversion H2; subst. rewrite app_nil_r.
  unfold refTail in H1. cbn [seq_re] in H1.
  apply matched_Cat_capfree in H1 as (b & w & H1); [|apply capfree_lit].
  apply (matched_number _ _ _ _ H1).
Qed.

(** Takes the leading group-free pieces off a pattern. *)
Ltac strip_front H :=
  repeat (apply matched_Cat_capfree in H; [|reflexivity];
          let b := fresh "b" in let w := fresh "w" in destruct H as (b & w & H)).

(** Each pattern of [extractParentIssueNumber] has one group, which
    captures a string that starts with a digit. *)
Lemma bodyPatterns_capture (pattern : re) bol w bol' cs :
  In pattern bodyPatterns -> matched pattern bol w bol' cs ->
  exists c s, cs = [String c s] /\ digit c = true.
Proof.
  intros Hin Hm. unfold bodyPatterns in Hin. cbn [In] in Hin.
  repeat (destruct Hin as [<-|Hin]);
    try (cbn [seq_re] in Hm; strip_front Hm;
         first [exact (matched_refTail _ _ _ _ Hm)|exact (matched_number _ _ _ _ Hm)]).
  contradiction.
Qed.

Lemma firstParentReference_range (text : string) (patterns : list re) :
  (forall p, In p patterns -> In p bodyPatterns) ->
  (0 <= firstParentReference patterns text <= strconv.maxInt)%Z.
Proof.
  induction patterns as [|p rest IH]; intros Hsub; cbn [firstParentReference].
  - unfold strconv.maxInt. lia.
  - assert (IH' := IH (fun q Hq => Hsub q (or_intror Hq))).
    destruct (FindStringSubmatch p text) as [m|] eqn:Hfind; [|exact IH'].
    destruct (FindStringSubmatch_sound _ _ _ Hfind)
      as (pre & w & post & bol0 & bol' & cs & _ & Hm & ->).
    destruct (bodyPatterns_capture p _ _ _ _ (Hsub p (or_introl eq_refl)) Hm)
      as (c & s & -> & Hc).
    destruct (strconv.Atoi (String c s)) as [v|] eqn:Hv; [|exact IH'].
    exact (Atoi_digits c s v Hc Hv).
Qed.

(** X3.  The parent number taken from the text of an issue is never negative:
    it is 0 (no reference) or a number that [strconv.Atoi] read from a
    string of digits. *)
Theorem extractParentIssueNumber_range (issue : Issue) :
  (0 <= extractParentIssueNumber issue <= strconv.maxInt)%Z.
Proof.
  unfold extractParentIssueNumber. apply firstParentReference_range. auto.
Qed.

End ParentNumber.

(** ** The dates of the weekly updates *)

Section Dates.
Import regexp regexp_spec calendar.
Local Open Scope string_scope.

Lemma matched_dash bol w bol' cs :
  matched (ilit "-") bol w bol' cs -> w = "-".
Proof.
  cbn [ilit]. intros Hm.
  apply matched_Cat_inv in Hm as (w1 & w2 & bol1 & cs1 & cs2 & -> & -> & H1 & H2).
  inversion H2; subst. rewrite append_nil_r.
  inversion H1 as [| |? b ? Hb|? alt ? Halt| | | | | | |]; subst.
  - destruct b as [[] [] [] [] [] [] [] []]; try discriminate Hb; reflexivity.
  - discriminate Halt.
Qed.

Lemma matched_datePattern bol w bol' cs :
  matched repository.datePattern bol w bol' cs -> isoShaped w = true /\ cs = [].
Proof.
  intros Hm. split; [|apply (matched_capfree _ _ _ _ _ Hm); reflexivity].
  unfold repository.datePattern in Hm. cbn [seq_re] in Hm.
  apply matched_Cat_inv in Hm as (y & x1 & b1 & c1 & z1 & -> & _ & Hy & Hm).
  apply matched_Cat_inv in Hm as (h1 & x2 & b2 & c2 & z2 & -> & _ & Hh1 & Hm).
  apply matched_Cat_inv in Hm as (m & x3 & b3 & c3 & z3 & -> & _ & Hmo & Hm).
  apply matched_Cat_inv in Hm as (h2 & x4 & b4 & c4 & z4 & -> & _ & Hh2 & Hm).
  apply matched_Cat_inv in Hm as (d & x5 & b5 & c5 & z5 & -> & _ & Hd & Hm).
  inversion Hm; subst.
  apply matched_dash in Hh1, Hh2. subst h1 h2.
  apply matched_Rep in Hy as (Hylen & Hy & _).
  apply matched_Rep in Hmo as (Hmlen & Hmo & _).
  apply matched_Rep in Hd as (Hdlen & Hd & _).
  destruct y as [|y1 [|y2 [|y3 [|y4 [|]]]]]; try discriminate Hylen.
  destruct m as [|m1 [|m2 [|]]]; try discriminate Hmlen.
  destruct d as [|d1 [|d2 [|]]]; try discriminate Hdlen.
  cbn [allBytes] in Hy, Hmo, Hd. unfold digit in *.
  repeat match goal with
         | H : _ && _ = true |- _ => apply andb_true_iff in H as [? H]
         end.
  repeat (rewrite append_cons || rewrite append_nil_l). cbn [isoShaped].
  repeat match goal with H : strconv.isDigit _ = true |- _ => rewrite H; clear H end.
  reflexivity.
Qed.

(** The date of a weekly update is always the one written in the comment,
    and has the shape [dddd-dd-dd]. *)
Lemma commentToWeeklyUpdate_date (comment : gogithub.IssueComment.t) (u : WeeklyUpdate) :
  repository.commentToWeeklyUpdate comment = Some u ->
  isoShaped (Date u) = true /\
  exists body, gogithub.IssueComment.Body comment = Some body /\
               Content u = body /\ Contains body (Date u) = true.
Proof.
  unfold repository.commentToWeeklyUpdate.
  destruct (gogithub.IssueComment.Body comment) as [body|]; [|discriminate].
  destruct (gogithub.IssueComment.User comment) as [user|]; [|discriminate].
  destruct (gogithub.IssueComment.CreatedAt comment) as [createdAt|]; [|discriminate].
  destruct (gogithub.User.Login user) as [login|]; [|discriminate].
  destruct (FindStringSubmatch repository.weeklyUpdatePattern body) as [m|] eqn:Hfind;
    [|discriminate].
  intros Hu. injection Hu as <-. cbn [Date Content].
  destruct (FindStringSubmatch_sound _ _ _ Hfind)
    as (pre & w & post & bol0 & bol' & cs & Hbody & Hm & ->).
  unfold repository.weeklyUpdatePattern in Hm. cbn [seq_re] in Hm.
  apply matched_Cat_inv in Hm as (w1 & x1 & b1 & c1 & z1 & -> & -> & H1 & Hm).
  apply matched_Cat_inv in Hm as (w2 & x2 & b2 & c2 & z2 & -> & -> & H2 & Hm).
  apply matched_Cat_inv in Hm as (w3 & x3 & b3 & c3 & z3 & -> & -> & H3 & Hm).
  apply matched_Cat_inv in Hm as (w4 & x4 & b4 & c4 & z4 & -> & -> & H4 & Hm).
  apply matched_Cat_inv in Hm as (w5 & x5 & b5 & c5 & z5 & -> & -> & H5 & Hm).
  inversion Hm; subst.
  rewrite (matched_capfree _ _ _ _ _ H1 eq_refl), (matched_capfree _ _ _ _ _ H2 eq_refl),
    (matched_capfree _ _ _ _ _ H3 eq_refl), (matched_capfree _ _ _ _ _ H4 eq_refl).
  apply matched_Cap_inv in H5 as (cs' & -> & H5).
  apply matched_datePattern in H5 as [Hshape ->]. cbn [app].
  split; [exact Hshape|]. eexists. split; [reflexivity|]. split; [reflexivity|].
  replace (pre ++ (w1 ++ w2 ++ w3 ++ w4 ++ w5 ++ "") ++ post)
    with ((pre ++ w1 ++ w2 ++ w3 ++ w4) ++ w5 ++ post)
    by (rewrite !append_assoc, append_nil_l; reflexivity).
  apply Contains_append.
Qed.

(** On dates of that shape the byte-wise order is the order of the
    calendar. *)
Lemma lt_dayNumber (a b : string) :
  isoShaped a = true -> isoShaped b = true ->
  lt a b = (dayNumber a <? dayNumber b)%Z.
Proof.
  intros Ha Hb.
  destruct a as [|a1 [|a2 [|a3 [|a4 [|a5 [|a6 [|a7 [|a8 [|a9 [|a10 [|]]]]]]]]]]];
    try discriminate Ha.
  destruct b as [|b1 [|b2 [|b3 [|b4 [|b5 [|b6 [|b7 [|b8 [|b9 [|b10 [|]]]]]]]]]]];
    try discriminate Hb.
  cbn [isoShaped] in Ha, Hb.
  repeat match goal with
         | H : _ && _ = true |- _ => apply andb_true_iff in H as [H ?]
         end.
  repeat match goal with
         | H : Ascii.eqb _ _ = true |- _ => apply Ascii.eqb_eq in H; subst
         end.
  unfold dayNumber, year, month, day, field.
  cbn [substring strconv.digitsValue].
  repeat match goal with
         | H : strconv.isDigit ?c = true |- _ =>
             rewrite H; unfold strconv.isDigit in H;
             apply andb_true_iff in H as [?H ?H]
         end.
  cbn [default lt].
  repeat match goal with
         | H : (_ <=? _)%nat = true |- _ => apply Nat.leb_le in H
         end.
  change (nat_of_ascii "-") with 45%nat. change (45 <? 45)%nat with false. cbv iota.
  cbv [id].
  repeat match goal with
         | |- context [(nat_of_ascii ?x <? nat_of_ascii ?y)%nat] =>
             destruct (Nat.ltb_spec (nat_of_ascii x) (nat_of_ascii y))
         end;
    symmetry; first [apply Z.ltb_lt; lia | apply Z.ltb_ge; lia].
Qed.

(** X4.  The weekly updates of an issue come out newest first by the calendar:
    every date has the shape [dddd-dd-dd], and along the list the triple
    (year, month, day) never increases. *)
Theorem weekly_updates_by_calendar (comments : list gogithub.IssueComment.t) :
  let sorted := repository.convertGitHubCommentsToWeeklyUpdates comments in
  (forall u, In u sorted -> isoShaped (Date u) = true) /\
  (forall i j x y, (i < j)%nat -> sorted !! i = Some x -> sorted !! j = Some y ->
                   (dayNumber (Date y) <= dayNumber (Date x))%Z).
Proof.
  intros sorted. unfold sorted, repository.convertGitHubCommentsToWeeklyUpdates.
  set (updates := omap repository.commentToWeeklyUpdate comments).
  destruct (Slice_sorts repository.newerFirst newerFirst_irrefl newerFirst_trans
              newerFirst_negtrans updates) as [Hord Hperm].
  assert (Hshape : forall u, In u (GoSort.Slice repository.newerFirst updates) ->
                             isoShaped (Date u) = true).
  { intros u Hu. apply list_elem_of_In in Hu. rewrite Hperm in Hu.
    apply list_elem_of_omap in Hu as (c & _ & Hc).
    apply (commentToWeeklyUpdate_date c u Hc). }
  split; [exact Hshape|].
  intros i j x y Hij Hx Hy.
  pose proof (Hord i j x y Hij Hx Hy) as Hle.
  unfold repository.newerFirst, gt in Hle.
  rewrite lt_dayNumber in Hle.
  - apply Z.ltb_ge in Hle. exact Hle.
  - apply Hshape. apply list_elem_of_In. eapply list_elem_of_lookup_2. exact Hx.
  - apply Hshape. apply list_elem_of_In. eapply list_elem_of_lookup_2. exact Hy.
Qed.

End Dates.

(** ** Project URLs *)

Section ProjectURL.
Import regexp regexp_spec.
Local Open Scope string_scope.

(** The digits at the head of a string. *)
Lemma leading_digits (d : ascii) (rest : string) :
  exists num tail,
    String d rest = String d num ++ tail /\ allBytes digit num = true /\
    match tail with String c _ => digit c = false | EmptyString => True end.
Proof.
  induction rest as [|c rest IH].
  - exists "", "". repeat split.
  - destruct (digit c) eqn:Hc.
    + destruct IH as (num & tail & Heq & Hall & Hstop).
      injection Heq as Heq. exists (String c num), tail.
      rewrite !append_cons in *. rewrite Heq. cbn [allBytes]. rewrite Hc, Hall.
      repeat split. exact Hstop.
    + exists "", (String c rest). cbn [allBytes]. repeat split. exact Hc.
Qed.

(** X5.  The URL of a view of an organization project is parsed into its
    owner, project number and view number. *)
Theorem parseProjectURL_org_view (o d v : ascii) (owner id view tail : string)
  (projectID viewID : Z) :
  notSlash o = true -> allBytes notSlash owner = true ->
  digit d = true -> allBytes digit id = true ->
  digit v = true -> allBytes digit view = true ->
  match tail with String c _ => digit c = false | EmptyString => True end ->
  strconv.Atoi (String d id) = Some projectID ->
  strconv.Atoi (String v view) = Some viewID ->
  let url := "https://github.com/orgs/" ++ String o owner ++ "/projects/"
             ++ String d id ++ "/views/" ++ String v view ++ tail in
  project.parseProjectURL url =
  project.Project (project.mkProjectInfo (String o owner) "" projectID viewID
                     project.ProjectTypeOrganization url).
Proof.
  intros Ho Howner Hd Hid Hv Hview Htail Hpid Hvid url.
  assert (Hfind : FindStringSubmatch project.orgViewPattern url
                  = Some [consumed url tail; String o owner; String d id; String v view]).
  { unfold FindStringSubmatch.
    assert (Hfirst : matchRe project.orgViewPattern true url []
                       (fun _ s' caps => Some (consumed url s' :: caps))
                     = Some [consumed url tail; String o owner; String d id;
                             String v view]).
    { unfold project.orgViewPattern. cbn [seq_re matchRe]. unfold url.
      rewrite matchRe_lit.
      apply matchRe_Plus_greedy; [exact Ho|exact Howner|reflexivity|].
      rewrite consumed_append. rewrite matchRe_lit.
      apply matchRe_Plus_greedy; [exact Hd|exact Hid|reflexivity|].
      rewrite consumed_append. rewrite matchRe_lit.
      apply matchRe_Plus_greedy; [exact Hv|exact Hview|exact Htail|].
      rewrite consumed_append. reflexivity. }
    destruct url as [|u0 url'] eqn:Eurl; [discriminate|].
    cbn [findFrom]. rewrite Hfirst. reflexivity. }
  unfold project.parseProjectURL, project.patterns. cbn [project.parseWith].
  rewrite Hfind. cbv zeta iota beta. unfold project.index.
  cbn [length Nat.leb nth].
  change ([consumed url tail; String o owner; String d id; String v view] !! 2%nat)
    with (Some (String d id)).
  change ([consumed url tail; String o owner; String d id; String v view] !! 3%nat)
    with (Some (String v view)).
  cbv iota beta. rewrite Hpid, Hvid. reflexivity.
Qed.

(** What the four patterns capture. *)
Lemma matched_orgPattern bol w bol' cs :
  matched project.orgPattern bol w bol' cs ->
  exists o owner d id,
    cs = [String o owner; String d id] /\ digit d = true /\
    notSlash o = true /\ allBytes notSlash owner = true /\
    w = "https://github.com/orgs/" ++ String o owner ++ "/projects/" ++ String d id.
Proof.
  unfold project.orgPattern. cbn [seq_re]. intros Hm.
  apply matched_Cat_inv in Hm as (w1 & x1 & b1 & c1 & y1 & -> & -> & H1 & Hm).
  apply matched_Cat_inv in Hm as (w2 & x2 & b2 & c2 & y2 & -> & -> & H2 & Hm).
  apply matched_Cat_inv in Hm as (w3 & x3 & b3 & c3 & y3 & -> & -> & H3 & Hm).
  apply matched_Cat_inv in Hm as (w4 & x4 & b4 & c4 & y4 & -> & -> & H4 & Hm).
  inversion Hm; subst.
  apply matched_lit in H1 as [-> ->]. apply matched_lit in H3 as [-> ->].
  apply matched_Cap_inv in H2 as (c2' & -> & H2).
  apply matched_Plus in H2 as (o & owner & -> & Ho & Howner & ->).
  apply matched_Cap_inv in H4 as (c4' & -> & H4).
  apply matched_Plus in H4 as (d & id & -> & Hd & Hid & ->).
  exists o, owner, d, id. cbn [app]. rewrite append_nil_r. repeat split; assumption.
Qed.

Lemma matched_orgViewPattern bol w bol' cs :
  matched project.orgViewPattern bol w bol' cs ->
  exists o owner d id v view,
    cs = [String o owner; String d id; String v view] /\
    digit d = true /\ digit v = true /\
    notSlash o = true /\ allBytes notSlash owner = true /\
    w = "https://github.com/orgs/" ++ String o owner ++ "/projects/" ++ String d id
        ++ "/views/" ++ String v view.
Proof.
  unfold project.orgViewPattern. cbn [seq_re]. intros Hm.
  apply matched_Cat_inv in Hm as (w1 & x1 & b1 & c1 & y1 & -> & -> & H1 & Hm).
  apply matched_Cat_inv in Hm as (w2 & x2 & b2 & c2 & y2 & -> & -> & H2 & Hm).
  apply matched_Cat_inv in Hm as (w3 & x3 & b3 & c3 & y3 & -> & -> & H3 & Hm).
  apply matched_Cat_inv in Hm as (w4 & x4 & b4 & c4 & y4 & -> & -> & H4 & Hm).
  apply matched_Cat_inv in Hm as (w5 & x5 & b5 & c5 & y5 & -> & -> & H5 & Hm).
  apply matched_Cat_inv in Hm as (w6 & x6 & b6 & c6 & y6 & -> & -> & H6 & Hm).
  inversion Hm; subst.
  apply matched_lit in H1 as [-> ->]. apply matched_lit in H3 as [-> ->].
  apply matched_lit in H5 as [-> ->].
  apply matched_Cap_inv in H2 as (c2' & -> & H2).
  apply matched_Plus in H2 as (o & owner & -> & Ho & Howner & ->).
  apply matched_Cap_inv in H4 as (c4' & -> & H4).
  apply matched_Plus in H4 as (d & id & -> & Hd & Hid & ->).
  apply matched_Cap_inv in H6 as (c6' & -> & H6).
  apply matched_Plus in H6 as (v & view & -> & Hv & Hview & ->).
  exists o, owner, d, id, v, view. cbn [app]. rewrite append_nil_r.
  repeat split; assumption.
Qed.

Lemma matched_repoPattern bol w bol' cs :
  matched project.repoPattern bol w bol' cs ->
  exists o owner r repo d id,
    cs = [String o owner; String r repo; String d id] /\ digit d = true /\
    notSlash o = true /\ allBytes notSlash owner = true /\
    notSlash r = true /\ allBytes notSlash repo = true /\
    w = "https://github.com/" ++ String o owner ++ "/" ++ String r repo
        ++ "/projects/" ++ String d id.
Proof.
  unfold project.repoPattern. cbn [seq_re]. intros Hm.
  apply matched_Cat_inv in Hm as (w1 & x1 & b1 & c1 & y1 & -> & -> & H1 & Hm).
  apply matched_Cat_inv in Hm as (w2 & x2 & b2 & c2 & y2 & -> & -> & H2 & Hm).
  apply matched_Cat_inv in Hm as (w3 & x3 & b3 & c3 & y3 & -> & -> & H3 & Hm).
  apply matched_Cat_inv in Hm as (w4 & x4 & b4 & c4 & y4 & -> & -> & H4 & Hm).
  apply matched_Cat_inv in Hm as (w5 & x5 & b5 & c5 & y5 & -> & -> & H5 & Hm).
  apply matched_Cat_inv in Hm as (w6 & x6 & b6 & c6 & y6 & -> & -> & H6 & Hm).
  inversion Hm; subst.
  apply matched_lit in H1 as [-> ->]. apply matched_lit in H3 as [-> ->].
  apply matched_lit in H5 as [-> ->].
  apply matched_Cap_inv in H2 as (c2' & -> & H2).
  apply matched_Plus in H2 as (o & owner & -> & Ho & Howner & ->).
  apply matched_Cap_inv in H4 as (c4' & -> & H4).
  apply matched_Plus in H4 as (r & repo & -> & Hr & Hrepo & ->).
  apply matched_Cap_inv in H6 as (c6' & -> & H6).
  apply matched_Plus in H6 as (d & id & -> & Hd & Hid & ->).
  exists o, owner, r, repo, d, id. cbn [app]. rewrite append_nil_r.
  repeat split; assumption.
Qed.

Lemma matched_repoViewPattern bol w bol' cs :
  matched project.repoViewPattern bol w bol' cs ->
  exists o owner r repo d id v view,
    cs = [String o owner; String r repo; String d id; String v view] /\
    digit d = true /\ digit v = true /\
    notSlash o = true /\ allBytes notSlash owner = true /\
    notSlash r = true /\ allBytes notSlash repo = true /\
    w = "https://github.com/" ++ String o owner ++ "/" ++ String r repo
        ++ "/projects/" ++ String d id ++ "/views/" ++ String v view.
Proof.
  unfold project.repoViewPattern. cbn [seq_re]. intros Hm.
  apply matched_Cat_inv in Hm as (w1 & x1 & b1 & c1 & y1 & -> & -> & H1 & Hm).
  apply matched_Cat_inv in Hm as (w2 & x2 & b2 & c2 & y2 & -> & -> & H2 & Hm).
  apply matched_Cat_inv in Hm as (w3 & x3 & b3 & c3 & y3 & -> & -> & H3 & Hm).
  apply matched_Cat_inv in Hm as (w4 & x4 & b4 & c4 & y4 & -> & -> & H4 & Hm).
  apply matched_Cat_inv in Hm as (w5 & x5 & b5 & c5 & y5 & -> & -> & H5 & Hm).
  apply matched_Cat_inv in Hm as (w6 & x6 & b6 & c6 & y6 & -> & -> & H6 & Hm).
  apply matched_Cat_inv in Hm as (w7 & x7 & b7 & c7 & y7 & -> & -> & H7 & Hm).
  apply matched_Cat_inv in Hm as (w8 & x8 & b8 & c8 & y8 & -> & -> & H8 & Hm).
  inversion Hm; subst.
  apply matched_lit in H1 as [-> ->]. apply matched_lit in H3 as [-> ->].
  apply matched_lit in H5 as [-> ->]. apply matched_lit in H7 as [-> ->].
  apply matched_Cap_inv in H2 as (c2' & -> & H2).
  apply matched_Plus in H2 as (o & owner & -> & Ho & Howner & ->).
  apply matched_Cap_inv in H4 as (c4' & -> & H4).
  apply matched_Plus in H4 as (r & repo & -> & Hr & Hrepo & ->).
  apply matched_Cap_inv in H6 as (c6' & -> & H6).
  apply matched_Plus in H6 as (d & id & -> & Hd & Hid & ->).
  apply matched_Cap_inv in H8 as (c8' & -> & H8).
  apply matched_Plus in H8 as (v & view & -> & Hv & Hview & ->).
  exists o, owner, r, repo, d, id, v, view. cbn [app]. rewrite append_nil_r.
  repeat split; assumption.
Qed.

Lemma Contains_inside (url pre target rest post : string) :
  url = pre ++ (target ++ rest) ++ post -> Contains url target = true.
Proof. intros ->. rewrite append_assoc. apply Contains_append. Qed.

(** X6.  [parseProjectURL] never indexes its matches out of range, and a
    project it returns carries the URL it was given, numbers read from
    digits, a non-empty owner without slash and, for a repository project
    only, a non-empty repository; the owner (and repository) stand in the
    URL in front of [/projects/]. *)
Theorem parseProjectURL_result (url : string) :
  match project.parseProjectURL url with
  | project.Project info =>
      project.URL info = url /\
      (0 <= project.ProjectID info <= strconv.maxInt)%Z /\
      (0 <= project.ViewID info <= strconv.maxInt)%Z /\
      project.Owner info <> "" /\
      allBytes notSlash (project.Owner info) = true /\
      if project.IsOrganizationProject info then
        project.Repo info = "" /\
        Contains url ("https://github.com/orgs/" ++ project.Owner info ++ "/projects/")
          = true
      else
        project.Repo info <> "" /\
        allBytes notSlash (project.Repo info) = true /\
        Contains url ("https://github.com/" ++ project.Owner info ++ "/"
                      ++ project.Repo info ++ "/projects/") = true
  | project.Failed _ => True
  | project.IndexOutOfRange => False
  end.
Proof.
  assert (Hzero : (0 <= 0 <= strconv.maxInt)%Z) by (unfold strconv.maxInt; lia).
  unfold project.parseProjectURL, project.patterns. cbn [project.parseWith].
  (* organization project with a view *)
  destruct (FindStringSubmatch project.orgViewPattern url) as [m|] eqn:Hfind.
  { destruct (FindStringSubmatch_sound _ _ _ Hfind)
      as (pre & w & post & bol0 & bol' & cs & Hurl & Hm & ->).
    apply matched_orgViewPattern in Hm
      as (o & owner & d & id & v & view & -> & Hd & Hv & Ho & Howner & ->).
    cbv zeta. cbn [length Nat.leb nth]. unfold project.index.
    change ([?a; ?b; ?c; ?e] !! 2%nat) with (Some c).
    change ([?a; ?b; ?c; ?e] !! 3%nat) with (Some e). cbv iota beta.
    destruct (strconv.Atoi (String d id)) as [pid|] eqn:Hpid; [|exact I].
    destruct (strconv.Atoi (String v view)) as [vid|] eqn:Hvid; [|exact I].
    cbn [project.URL project.ProjectID project.ViewID project.Owner project.Repo
         project.Type_ project.IsOrganizationProject].
    split; [reflexivity|]. split; [exact (Atoi_digits _ _ _ Hd Hpid)|].
    split; [exact (Atoi_digits _ _ _ Hv Hvid)|]. split; [discriminate|].
    split; [cbn [allBytes]; rewrite Ho, Howner; reflexivity|].
    change (project.IsOrganizationProject _) with true. cbv iota.
    split; [reflexivity|].
    apply (Contains_inside url pre _ (String d id ++ "/views/" ++ String v view) post).
    rewrite Hurl, !append_assoc. reflexivity. }
  cbv zeta. cbn [length Nat.leb].
  (* organization project *)
  destruct (FindStringSubmatch project.orgPattern url) as [m|] eqn:Hfind2.
  { destruct (FindStringSubmatch_sound _ _ _ Hfind2)
      as (pre & w & post & bol0 & bol' & cs & Hurl & Hm & ->).
    apply matched_orgPattern in Hm as (o & owner & d & id & -> & Hd & Ho & Howner & ->).
    cbn [length Nat.leb nth]. unfold project.index.
    change ([?a; ?b; ?c] !! 2%nat) with (Some c). cbv iota beta.
    destruct (strconv.Atoi (String d id)) as [pid|] eqn:Hpid; [|exact I].
    cbn [project.URL project.ProjectID project.ViewID project.Owner project.Repo
         project.Type_ project.IsOrganizationProject].
    split; [reflexivity|]. split; [exact (Atoi_digits _ _ _ Hd Hpid)|].
    split; [exact Hzero|]. split; [discriminate|].
    split; [cbn [allBytes]; rewrite Ho, Howner; reflexivity|].
    change (project.IsOrganizationProject _) with true. cbv iota.
    split; [reflexivity|].
    apply (Contains_inside url pre _ (String d id) post).
    rewrite Hurl, !append_assoc. reflexivity. }
  cbn [length Nat.leb].
  (* repository project with a view *)
  destruct (FindStringSubmatch project.repoViewPattern url) as [m|] eqn:Hfind3.
  { destruct (FindStringSubmatch_sound _ _ _ Hfind3)
      as (pre & w & post & bol0 & bol' & cs & Hurl & Hm & ->).
    apply matched_repoViewPattern in Hm
      as (o & owner & r & repo & d & id & v & view & -> & Hd & Hv & Ho & Howner
          & Hr & Hrepo & ->).
    cbn [length Nat.leb nth]. unfold project.index.
    change ([?a; ?b; ?c; ?e; ?f] !! 3%nat) with (Some e).
    change ([?a; ?b; ?c; ?e; ?f] !! 4%nat) with (Some f). cbv iota beta.
    destruct (strconv.Atoi (String d id)) as [pid|] eqn:Hpid; [|exact I].
    destruct (strconv.Atoi (String v view)) as [vid|] eqn:Hvid; [|exact I].
    cbn [project.URL project.ProjectID project.ViewID project.Owner project.Repo
         project.Type_ project.IsOrganizationProject].
    split; [reflexivity|]. split; [exact (Atoi_digits _ _ _ Hd Hpid)|].
    split; [exact (Atoi_digits _ _ _ Hv Hvid)|]. split; [discriminate|].
    split; [cbn [allBytes]; rewrite Ho, Howner; reflexivity|].
    change (project.IsOrganizationProject _) with false. cbv iota.
    split; [discriminate|].
    split; [cbn [allBytes]; rewrite Hr, Hrepo; reflexivity|].
    apply (Contains_inside url pre _ (String d id ++ "/views/" ++ String v view) post).
    rewrite Hurl, !append_assoc. reflexivity. }
  cbn [length Nat.leb].
  (* repository project *)
  destruct (FindStringSubmatch project.repoPattern url) as [m|] eqn:Hfind4;
    [|exact I].
  destruct (FindStringSubmatch_sound _ _ _ Hfind4)
    as (pre & w & post & bol0 & bol' & cs & Hurl & Hm & ->).
  apply matched_repoPattern in Hm
    as (o & owner & r & repo & d & id & -> & Hd & Ho & Howner & Hr & Hrepo & ->).
  cbn [length Nat.leb nth]. unfold project.index.
  change ([?a; ?b; ?c; ?e] !! 3%nat) with (Some e). cbv iota beta.
  destruct (strconv.Atoi (String d id)) as [pid|] eqn:Hpid; [|exact I].
  cbn [project.URL project.ProjectID project.ViewID project.Owner project.Repo
       project.Type_ project.IsOrganizationProject].
  split; [reflexivity|]. split; [exact (Atoi_digits _ _ _ Hd Hpid)|].
  split; [exact Hzero|]. split; [discriminate|].
  split; [cbn [allBytes]; rewrite Ho, Howner; reflexivity|].
  change (project.IsOrganizationProject _) with false. cbv iota.
  split; [discriminate|].
  split; [cbn [allBytes]; rewrite Hr, Hrepo; reflexivity|].
  apply (Contains_inside url pre _ (String d id) post).
  rewrite Hurl, !append_assoc. reflexivity.
Qed.

End ProjectURL.

(** ** The cache *)

Section Cache.
Import github bookkeeping.
Context {R : Type} `{Remote R}.

(** X7.  What is stored under a key is found under that key until it expires,
    whatever happens to the outside world in between; once expired it is
    reported missing and removed.  Other keys are not affected, and without
    a cache nothing is stored. *)
Theorem SetCache_GetFromCache (b : BridgeClient R) (key : string) (d : CacheData)
  (ttl : Z) (later : R) :
  let stored := SetCache key d ttl b in
  let b' := with_remote later stored in
  (cache b = None -> stored = b /\ GetFromCache key b' = (None, b')) /\
  (forall data, cache b = Some data ->
     (Now later <= Now (remote b) + ttl -> GetFromCache key b' = (Some d, b')) /\
     (Now later > Now (remote b) + ttl ->
      GetFromCache key b' = (None, with_cache (Some (delete key data)) b'))) /\
  (forall other, other <> key ->
     fst (GetFromCache other stored) = fst (GetFromCache other b)).
Proof.
  cbv zeta. unfold SetCache, GetFromCache. split; [|split].
  - intros Hnone. rewrite Hnone. split; [reflexivity|].
    cbn [cache with_remote]. rewrite Hnone. reflexivity.
  - intros data Hdata. rewrite Hdata. cbn [cache with_remote with_cache remote].
    rewrite lookup_insert_eq. cbn [ExpiresAt Data]. split; intros Htime.
    + destruct (Z.gtb_spec (Now later) (Now (remote b) + ttl)); [lia|reflexivity].
    + destruct (Z.gtb_spec (Now later) (Now (remote b) + ttl)); [|lia].
      rewrite delete_insert_eq. reflexivity.
  - intros other Hother. destruct (cache b) as [data|] eqn:Hcache.
    + cbn [cache with_cache remote]. rewrite lookup_insert_ne by congruence.
      destruct (data !! other) as [entry|]; [|reflexivity].
      destruct (Now (remote b) >? ExpiresAt entry); reflexivity.
    + rewrite Hcache. reflexivity.
Qed.

(** X8.  [ClearExpired] leaves exactly the entries that have not expired, and
    no lookup can tell the difference. *)
Theorem ClearExpired_lookups (b : BridgeClient R) :
  (forall key, fst (GetFromCache key (ClearExpired b)) = fst (GetFromCache key b)) /\
  (forall data, cache b = Some data ->
     exists data', cache (ClearExpired b) = Some data' /\
       forall key entry,
         data' !! key = Some entry <->
         data !! key = Some entry /\ Now (remote b) <= ExpiresAt entry) /\
  stats (ClearExpired b) = stats b /\ config (ClearExpired b) = config b /\
  remote (ClearExpired b) = remote b.
Proof.
  unfold ClearExpired, GetFromCache.
  destruct (cache b) as [data|] eqn:Hcache.
  - cbn [cache with_cache remote stats config]. split; [|split].
    + intros key.
      destruct (data !! key) as [entry|] eqn:Hentry.
      * destruct (Z.gtb_spec (Now (remote b)) (ExpiresAt entry)) as [Hexp|Hlive].
        -- rewrite map_lookup_filter_None_2; [reflexivity|].
           right. intros e He Hkeep. cbn [snd] in Hkeep. congruence || idtac.
           rewrite Hentry in He. injection He as <-. lia.
        -- rewrite (map_lookup_filter_Some_2 _ _ key entry Hentry);
             [|cbn [snd]; lia].
           destruct (Z.gtb_spec (Now (remote b)) (ExpiresAt entry)); [lia|reflexivity].
      * rewrite map_lookup_filter_None_2; [reflexivity|]. left. exact Hentry.
    + intros data0 Hdata0. injection Hdata0 as <-. eexists. split; [reflexivity|].
      intros key entry. rewrite map_lookup_filter_Some. reflexivity.
    + repeat split.
  - rewrite Hcache. split; [reflexivity|]. split; [discriminate|]. repeat split.
Qed.

End Cache.

(** ** The bookkeeping of the fetch functions *)

Section Accounting.
Import github bookkeeping.
Context {R : Type} `{Remote R}.

Lemma onlyCalls_refl (b : BridgeClient R) : onlyCalls b b.
Proof. unfold onlyCalls. repeat split; lia. Qed.

Lemma onlyCalls_trans (b1 b2 b3 : BridgeClient R) :
  onlyCalls b1 b2 -> onlyCalls b2 b3 -> onlyCalls b1 b3.
Proof.
  unfold onlyCalls. intros (C1 & F1 & E1 & T1 & H1 & A1) (C2 & F2 & E2 & T2 & H2 & A2).
  repeat split; try congruence; lia.
Qed.

Lemma onlyCalls_updateRateLimitStats resp (b : BridgeClient R) :
  onlyCalls b (updateRateLimitStats resp b).
Proof.
  unfold updateRateLimitStats, onlyCalls.
  destruct (negb (String.eqb _ "")); [destruct (strconv.Atoi _)|];
    destruct (_ =? 429); cbn; repeat split; lia.
Qed.

Lemma onlyCalls_waitForRateLimit (b : BridgeClient R) :
  onlyCalls b (snd (waitForRateLimit b)).
Proof.
  unfold waitForRateLimit. destruct (Wait (remote b)) as [err r]. cbn.
  unfold onlyCalls. cbn. repeat split; lia.
Qed.

Lemma onlyCalls_call (b : BridgeClient R) (r : R) :
  onlyCalls b (with_remote r (IncrementAPICall b)).
Proof. unfold onlyCalls. cbn. repeat split; lia. Qed.

(** The pagination loops add to what has been collected. *)
Lemma commentPages_onlyCalls (fuel : nat) (owner repo : string) (n : Z) :
  forall page all b r all' b',
  commentPages fuel owner repo n page (all, b) = Returns (r, (all', b')) ->
  onlyCalls b b' /\ exists more, all' = (all ++ more)%list.
Proof.
  induction fuel as [|fuel IH]; intros page all b r all' b' Hrun;
    cbn [commentPages] in Hrun; [discriminate|].
  pose proof (onlyCalls_waitForRateLimit b) as Hwait.
  destruct (waitForRateLimit b) as [werr b1]. cbn [snd] in Hwait.
  destruct werr as [e|].
  { injection Hrun as <- <- <-. split; [exact Hwait|].
    exists []. rewrite app_nil_r. reflexivity. }
  destruct (ListComments owner repo n page 100 (remote (IncrementAPICall b1)))
    as [res r1] eqn:Hcall.
  pose proof (onlyCalls_call b1 r1) as Hcalled.
  destruct res as [e|[comments resp]].
  { injection Hrun as <- <- <-.
    split; [eapply onlyCalls_trans; eassumption|].
    exists []. rewrite app_nil_r. reflexivity. }
  pose proof (onlyCalls_updateRateLimitStats resp (with_remote r1 (IncrementAPICall b1)))
    as Hupd.
  assert (H2 : onlyCalls b (updateRateLimitStats resp (with_remote r1 (IncrementAPICall b1))))
    by (eapply onlyCalls_trans; [|exact Hupd]; eapply onlyCalls_trans; eassumption).
  destruct (gogithub.Response.NextPage resp =? 0).
  { injection Hrun as <- <- <-. split; [exact H2|]. exists comments. reflexivity. }
  destruct (IH _ _ _ _ _ _ Hrun) as [Hrest (more & ->)].
  split; [eapply onlyCalls_trans; eassumption|].
  exists (comments ++ more)%list. rewrite app_assoc. reflexivity.
Qed.

Lemma maxIssuesOf_onlyCalls (b b' : BridgeClient R) :
  onlyCalls b b' -> maxIssuesOf b' = maxIssuesOf b.
Proof. intros (_ & Hcfg & _). unfold maxIssuesOf. rewrite Hcfg. reflexivity. Qed.

(** The search stops asking for pages once more than the limit has been
    collected: whatever one attempt adds, all but its last page is within
    the limit. *)
Lemma searchPages_onlyCalls (fuel : nat) (query : string) (pageSize : Z) :
  forall page all b r all' b',
  searchPages fuel query pageSize page (all, b) = Returns (r, (all', b')) ->
  onlyCalls b b' /\
  exists more, all' = (all ++ more)%list /\
    (Z.of_nat (length all) <= maxIssuesOf b ->
     exists init last, more = (init ++ last)%list /\
                       Z.of_nat (length (all ++ init)) <= maxIssuesOf b /\
                       (is_Some r -> last = [])).
Proof.
  induction fuel as [|fuel IH]; intros page all b r all' b' Hrun;
    cbn [searchPages] in Hrun; [discriminate|].
  assert (Hnothing : exists more, all = (all ++ more)%list /\
            (Z.of_nat (length all) <= maxIssuesOf b ->
             exists init last, more = (init ++ last)%list /\
                               Z.of_nat (length (all ++ init)) <= maxIssuesOf b /\
                               (is_Some r -> last = []))).
  { exists []. rewrite app_nil_r. split; [reflexivity|]. intros Hle.
    exists [], []. split; [reflexivity|]. rewrite app_nil_r. split; [exact Hle|].
    reflexivity. }
  pose proof (onlyCalls_waitForRateLimit b) as Hwait.
  destruct (waitForRateLimit b) as [werr b1]. cbn [snd] in Hwait.
  destruct werr as [e|].
  { injection Hrun as <- <- <-. split; [exact Hwait|exact Hnothing]. }
  destruct (SearchIssues query page pageSize (remote (IncrementAPICall b1)))
    as [res r1] eqn:Hcall.
  pose proof (onlyCalls_call b1 r1) as Hcalled.
  destruct res as [e|[issues resp]].
  { injection Hrun as <- <- <-.
    split; [eapply onlyCalls_trans; eassumption|exact Hnothing]. }
  clear Hnothing.
  pose proof (onlyCalls_updateRateLimitStats resp (with_remote r1 (IncrementAPICall b1)))
    as Hupd.
  set (b2 := updateRateLimitStats resp (with_remote r1 (IncrementAPICall b1))) in *.
  assert (H2 : onlyCalls b b2)
    by (eapply onlyCalls_trans; [|exact Hupd]; eapply onlyCalls_trans; eassumption).
  assert (Hlast : exists more, (all ++ issues)%list = (all ++ more)%list /\
            (Z.of_nat (length all) <= maxIssuesOf b ->
             exists init last, more = (init ++ last)%list /\
                               Z.of_nat (length (all ++ init)) <= maxIssuesOf b /\
                               (is_Some (@None string) -> last = []))).
  { exists issues. split; [reflexivity|]. intros Hle.
    exists [], issues. split; [reflexivity|]. rewrite app_nil_r. split; [exact Hle|].
    intros [x Hx]. discriminate. }
  destruct (gogithub.Response.NextPage resp =? 0).
  { injection Hrun as <- <- <-. split; [exact H2|exact Hlast]. }
  destruct (Z.gtb_spec (Z.of_nat (length (all ++ issues))) (maxIssuesOf b2)) as [Hover|Hin].
  { injection Hrun as <- <- <-. split; [exact H2|exact Hlast]. }
  destruct (IH _ _ _ _ _ _ Hrun) as [Hrest (more & -> & Hbound)].
  split; [eapply onlyCalls_trans; eassumption|].
  exists (issues ++ more)%list. rewrite app_assoc. split; [reflexivity|].
  intros _. rewrite (maxIssuesOf_onlyCalls _ _ H2) in Hin, Hbound.
  destruct (Hbound Hin) as (init & last & -> & Hle & Herr).
  exists (issues ++ init)%list, last. rewrite !app_assoc. split; [reflexivity|].
  split; [exact Hle|exact Herr].
Qed.

(** The retry loop around an operation that only makes calls. *)
Lemma retryLoop_accounting {A : Type} (op : operation A) (maxRetries : Z) :
  (forall a b r a' b', op (a, b) = Returns (r, (a', b')) -> onlyCalls b b') ->
  forall (n : nat) (i : Z) a b r a' b',
  0 <= i -> i + Z.of_nat n = maxRetries -> (1 <= n)%nat ->
  retryLoop n i maxRetries op (a, b) = Returns (r, (a', b')) ->
  cache b' = cache b /\ config b' = config b /\
  CacheHitsCount (stats b') = CacheHitsCount (stats b) /\
  APICallsCount (stats b) <= APICallsCount (stats b') /\
  RetryCount (stats b) <= RetryCount (stats b') /\
  RetryCount (stats b') <= RetryCount (stats b) + Z.of_nat n - (if i =? 0 then 1 else 0) /\
  ErrorsCount (stats b') = ErrorsCount (stats b) + match r with Some _ => 1 | None => 0 end.
Proof.
  intros Hop. induction n as [|n IH]; intros i a b r a' b' Hi Hmax Hn Hrun; [lia|].
  cbn [retryLoop] in Hrun. unfold mbind, M_bind, modify, mret, M_ret in Hrun.
  unfold onClient at 1 in Hrun. cbn [fst snd] in Hrun.
  assert (Hbefore : cache (beforeAttempt i b) = cache b /\
                    config (beforeAttempt i b) = config b /\
                    CacheHitsCount (stats (beforeAttempt i b)) = CacheHitsCount (stats b) /\
                    APICallsCount (stats (beforeAttempt i b)) = APICallsCount (stats b) /\
                    ErrorsCount (stats (beforeAttempt i b)) = ErrorsCount (stats b) /\
                    RetryCount (stats (beforeAttempt i b))
                    = RetryCount (stats b) + (if i =? 0 then 0 else 1)).
  { unfold beforeAttempt. destruct (Z.gtb_spec i 0); destruct (Z.eqb_spec i 0); try lia;
      cbn; repeat split; lia. }
  destruct Hbefore as (Bc & Bf & Bh & Ba & Be & Br).
  destruct (op (a, beforeAttempt i b)) as [[r1 [a1 b1]]|] eqn:Hcall; [|discriminate].
  destruct (Hop _ _ _ _ _ Hcall) as (C1 & F1 & E1 & T1 & H1 & A1).
  destruct r1 as [e|].
  - destruct ((i =? maxRetries - 1) || negb (isRetryableError (Some e))) eqn:Hstop.
    + injection Hrun as <- <- <-. cbn [onClient fst snd IncrementError with_stats
        stats cache config ErrorsCount RetryCount CacheHitsCount APICallsCount].
      repeat split; try congruence; destruct (Z.eqb_spec i 0); lia.
    + apply orb_false_iff in Hstop as [Hlast _]. apply Z.eqb_neq in Hlast.
      destruct (IH (i + 1) a1 b1 r a' b' ltac:(lia) ltac:(lia) ltac:(lia) Hrun)
        as (C2 & F2 & H2 & A2 & R2 & R2' & E2).
      destruct (Z.eqb_spec (i + 1) 0); [lia|].
      repeat split; try congruence; destruct (Z.eqb_spec i 0); lia.
  - injection Hrun as <- <- <-.
    repeat split; try congruence; destruct (Z.eqb_spec i 0); lia.
Qed.

End Accounting.

Section Fetching.
Import github bookkeeping.
Context {R : Type} `{Remote R}.

Lemma GetFromCache_client (key : string) (b : BridgeClient R) :
  stats (snd (GetFromCache key b)) = stats b /\
  config (snd (GetFromCache key b)) = config b /\
  remote (snd (GetFromCache key b)) = remote b /\
  (cache b = None -> cache (snd (GetFromCache key b)) = None).
Proof.
  unfold GetFromCache. destruct (cache b) as [data|] eqn:Hcache.
  - destruct (data !! key) as [entry|];
      [destruct (Now (remote b) >? ExpiresAt entry)|]; cbn; repeat split; discriminate.
  - cbn. repeat split. intros _. exact Hcache.
Qed.

Lemma SetCache_client (key : string) (d : CacheData) (ttl : Z) (b : BridgeClient R) :
  stats (SetCache key d ttl b) = stats b /\
  config (SetCache key d ttl b) = config b /\
  remote (SetCache key d ttl b) = remote b /\
  (cache b = None -> cache (SetCache key d ttl b) = None).
Proof.
  unfold SetCache. destruct (cache b) as [data|] eqn:Hcache; cbn; repeat split;
    try discriminate. intros _. exact Hcache.
Qed.


(** *** [fetchIssueComments] *)

(** X9.  The books of a comment fetch: the configuration is never touched; the
    error counter goes up by one exactly when the fetch fails, and then no
    comments are returned; at most two retries are counted; and the cache
    hit counter goes up only when the answer came from the cache, in which
    case nothing was asked of the API and nothing else was counted. *)
Theorem fetchIssueComments_accounting (fuel : nat) (owner repo : string) (n : Z)
  (b b' : BridgeClient R) (comments : list gogithub.IssueComment.t)
  (err : option string) :
  fetchIssueComments fuel owner repo n b = Returns ((comments, err), b') ->
  config b' = config b /\
  ErrorsCount (stats b')
  = ErrorsCount (stats b) + match err with Some _ => 1 | None => 0 end /\
  (err <> None -> comments = []) /\
  RetryCount (stats b) <= RetryCount (stats b') <= RetryCount (stats b) + 2 /\
  APICallsCount (stats b) <= APICallsCount (stats b') /\
  (cache b = None -> cache b' = None) /\
  (CacheHitsCount (stats b') = CacheHitsCount (stats b) \/
   CacheHitsCount (stats b') = CacheHitsCount (stats b) + 1 /\
   err = None /\ remote b' = remote b /\
   APICallsCount (stats b') = APICallsCount (stats b) /\
   RetryCount (stats b') = RetryCount (stats b)).
Proof.
  unfold fetchIssueComments. intros Hrun.
  set (key := ("comments:" ++ owner ++ "/" ++ repo ++ ":" ++ strconv.Itoa n)%string) in *.
  destruct (GetFromCache_client key b) as (Gs & Gf & Gr & Gc).
  destruct (GetFromCache key b) as [cached b0]. cbn [snd] in Gs, Gf, Gr, Gc.
  assert (Hmiss :
    match retryWithBackoff 3 (commentPages fuel owner repo n 0) ([], b0) with
    | Returns (Some err, (_, b)) => Returns (([], Some err), b)
    | Returns (None, (allComments, b)) =>
        Returns ((allComments, None), SetCache key (CachedComments allComments) (5 * 60) b)
    | Diverges => Diverges
    end = Returns ((comments, err), b') ->
    config b' = config b /\
    ErrorsCount (stats b')
    = ErrorsCount (stats b) + match err with Some _ => 1 | None => 0 end /\
    (err <> None -> comments = []) /\
    RetryCount (stats b) <= RetryCount (stats b') <= RetryCount (stats b) + 2 /\
    APICallsCount (stats b) <= APICallsCount (stats b') /\
    (cache b = None -> cache b' = None) /\
    (CacheHitsCount (stats b') = CacheHitsCount (stats b) \/
     CacheHitsCount (stats b') = CacheHitsCount (stats b) + 1 /\
     err = None /\ remote b' = remote b /\
     APICallsCount (stats b') = APICallsCount (stats b) /\
     RetryCount (stats b') = RetryCount (stats b))).
  { clear Hrun. intros Hrun. unfold retryWithBackoff in Hrun.
    destruct (retryLoop (Z.to_nat 3) 0 3 (commentPages fuel owner repo n 0) ([], b0))
      as [[r [all b1]]|] eqn:Hloop; [|discriminate].
    apply retryLoop_accounting in Hloop; [| |lia|reflexivity|cbn; lia].
    2:{ intros a c r0 a0 c0 Hcall.
        apply commentPages_onlyCalls in Hcall as [Hcall _]. exact Hcall. }
    destruct Hloop as (Lc & Lf & Lh & La & Lr & Lr' & Le).
    rewrite Z2Nat.id in Lr' by lia. cbn [Z.eqb] in Lr'.
    rewrite Gs in *.
    destruct r as [e|].
    - injection Hrun as <- <- <-.
      repeat split;
        first [congruence | lia | left; exact Lh
              | intros Hnone; rewrite Lc; apply Gc; exact Hnone].
    - injection Hrun as <- <- <-.
      destruct (SetCache_client key (CachedComments all) (5 * 60) b1) as (Ss & Sf & Sr & Sc).
      rewrite Ss, Sf.
      repeat split;
        first [congruence | lia | left; exact Lh
              | intros Hnone; apply Sc; rewrite Lc; apply Gc; exact Hnone]. }
  destruct cached as [[issues|cs|]|]; try (apply Hmiss; exact Hrun).
  clear Hmiss. injection Hrun as <- <- <-.
  cbn [IncrementCacheHit with_stats stats config cache remote ErrorsCount RetryCount
       APICallsCount CacheHitsCount].
  rewrite Gs, Gf, Gr.
  repeat split; first [lia | congruence | exact Gc | right; repeat split; lia].
Qed.

(** *** [fetchIssuesBySearchQuery] *)

(** X10.  The books of a search: an empty query is refused before anything is
    counted or asked; otherwise the error counter goes up by one exactly
    when the search fails, and then no issues are returned; the retries
    counted stay below the configured number of attempts. *)
Theorem fetchIssuesBySearchQuery_accounting (fuel : nat) (owner repo query : string)
  (b b' : BridgeClient R) (issues : list gogithub.Issue.t) (err : option string) :
  fetchIssuesBySearchQuery fuel owner repo query b = Returns ((issues, err), b') ->
  (query = ""%string ->
   issues = [] /\ err = Some "no search query specified"%string /\ b' = b) /\
  (query <> ""%string ->
   ErrorsCount (stats b')
   = ErrorsCount (stats b) + match err with Some _ => 1 | None => 0 end) /\
  (err <> None -> issues = []) /\
  config b' = config b /\
  RetryCount (stats b) <= RetryCount (stats b')
                       <= RetryCount (stats b) + maxRetriesOf b - 1 /\
  APICallsCount (stats b) <= APICallsCount (stats b') /\
  (cache b = None -> cache b' = None).
Proof.
  unfold fetchIssuesBySearchQuery. intros Hrun.
  assert (Hretries : 1 <= maxRetriesOf b).
  { unfold maxRetriesOf. destruct (config b) as [c|]; [|lia].
    destruct (Z.gtb_spec (config.MaxRetries c) 0); lia. }
  destruct (String.eqb_spec query "") as [->|Hquery].
  { injection Hrun as <- <- <-.
    repeat split; first [lia | discriminate | reflexivity | intros ?; congruence]. }
  set (key := ("search:" ++ owner ++ "/" ++ repo ++ ":" ++ query)%string) in *.
  destruct (GetFromCache_client key b) as (Gs & Gf & Gr & Gc).
  destruct (GetFromCache key b) as [cached b0]. cbn [snd] in Gs, Gf, Gr, Gc.
  split; [intros ->; congruence|].
  assert (Hsame : maxRetriesOf b0 = maxRetriesOf b)
    by (unfold maxRetriesOf; rewrite Gf; reflexivity).
  assert (Hmiss :
    match retryWithBackoff (maxRetriesOf b0) (searchOperation fuel owner repo query)
            ([], b0) with
    | Returns (Some err, (_, b)) => Returns (([], Some err), b)
    | Returns (None, (allIssues, b)) =>
        Returns ((allIssues, None),
                 SetCache key (CachedIssues allIssues)
                   match config b with
                   | Some c => if config.IssuesTTLMin c >? 0
                               then config.IssuesTTLMin c * 60 else 10 * 60
                   | None => 10 * 60
                   end b)
    | Diverges => Diverges
    end = Returns ((issues, err), b') ->
    (query <> ""%string ->
     ErrorsCount (stats b')
     = ErrorsCount (stats b) + match err with Some _ => 1 | None => 0 end) /\
    (err <> None -> issues = []) /\
    config b' = config b /\
    RetryCount (stats b) <= RetryCount (stats b')
                         <= RetryCount (stats b) + maxRetriesOf b - 1 /\
    APICallsCount (stats b) <= APICallsCount (stats b') /\
    (cache b = None -> cache b' = None)).
  { clear Hrun. intros Hrun. unfold retryWithBackoff in Hrun. rewrite Hsame in Hrun.
    destruct (retryLoop (Z.to_nat (maxRetriesOf b)) 0 (maxRetriesOf b)
                (searchOperation fuel owner repo query) ([], b0))
      as [[r [all b1]]|] eqn:Hloop; [|discriminate].
    apply retryLoop_accounting in Hloop; [| |lia|lia|lia].
    2:{ intros a c r0 a0 c0 Hcall. unfold searchOperation in Hcall.
        apply searchPages_onlyCalls in Hcall as [Hcall _]. exact Hcall. }
    destruct Hloop as (Lc & Lf & Lh & La & Lr & Lr' & Le).
    rewrite Z2Nat.id in Lr' by lia. cbn [Z.eqb] in Lr'.
    rewrite Gs in *.
    destruct r as [e|].
    - injection Hrun as <- <- <-.
      repeat split;
        first [congruence | lia | intros Hnone; rewrite Lc; apply Gc; exact Hnone].
    - injection Hrun as <- <- <-.
      match goal with |- context [SetCache key ?d ?ttl b1] =>
        destruct (SetCache_client key d ttl b1) as (Ss & Sf & Sr & Sc);
        rewrite ?Ss, ?Sf
      end.
      repeat split;
        first [congruence | lia
              | intros Hnone; apply Sc; rewrite Lc; apply Gc; exact Hnone]. }
  destruct cached as [[cs|cs|]|]; try (apply Hmiss; exact Hrun).
  clear Hmiss. injection Hrun as <- <- <-.
  cbn [IncrementCacheHit with_stats stats config cache remote ErrorsCount RetryCount
       APICallsCount CacheHitsCount].
  rewrite Gs, Gf.
  repeat split; first [lia | congruence | exact Gc].
Qed.



End Fetching.

(** ** The waiting times of [retryWithBackoff] *)

Section Backoff.
Import github testserver.
Context {R : Type} `{Remote R}.

Lemma Now_beforeAttempt (i : Z) (b : BridgeClient R) :
  (forall d r, Now (Sleep d r) = Now r + d) ->
  0 <= i ->
  Now (remote (beforeAttempt i b)) = Now (remote b) + i * i.
Proof.
  intros Hsleep Hi. unfold beforeAttempt. destruct (Z.gtb_spec i 0).
  - cbn. apply Hsleep.
  - replace i with 0 by lia. lia.
Qed.

(** After [length es] transient failures and a success from attempt [i]
    on, the squares of the attempt numbers have been slept. *)
Lemma retryLoop_clock (es : list string) :
  (forall d r, Now (Sleep d r) = Now r + d) ->
  forall (n : nat) (i maxRetries : Z) (rest : list (option string))
         (b : BridgeClient R),
  Forall (fun e => isRetryableError (Some e) = true) es ->
  0 <= i ->
  i + Z.of_nat (length es) < maxRetries ->
  exists b',
    retryLoop (length es + S n) i maxRetries scripted (map Some es ++ None :: rest, b) =
    Returns (None, (rest, b')) /\
    6 * (Now (remote b') - Now (remote b)) =
    (i + Z.of_nat (length es)) * (i + Z.of_nat (length es) + 1)
    * (2 * (i + Z.of_nat (length es)) + 1)
    - (i - 1) * i * (2 * i - 1).
Proof.
  intros Hsleep. induction es as [|e es IH]; intros n i maxRetries rest b Hes Hi Hlt.
  - exists (beforeAttempt i b). cbn [length map app Nat.add].
    rewrite retryLoop_success. split; [reflexivity|].
    rewrite Now_beforeAttempt by assumption. rewrite Z.add_0_r. ring.
  - inversion Hes as [|? ? He Hes']; subst. cbn [length] in Hlt.
    destruct (IH n (i + 1) maxRetries rest (beforeAttempt i b) Hes')
      as (b' & Hrun & Hclock); [lia|lia|].
    exists b'. cbn [length map app Nat.add].
    rewrite retryLoop_again by (try assumption; lia).
    split; [exact Hrun|].
    rewrite Now_beforeAttempt in Hclock by assumption.
    rewrite Nat2Z.inj_succ.
    replace (i + Z.succ (Z.of_nat (length es))) with (i + 1 + Z.of_nat (length es)) by lia.
    lia.
Qed.

(** X13.  An operation that fails [k] times with a transient error before it
    succeeds has been kept waiting 1 + 4 + ... + k * k seconds, that is
    k (k + 1) (2 k + 1) / 6 seconds, on any clock that sleeping advances by
    the time slept.  With a number of attempts that is not positive the
    operation is not run at all and the error returned is not counted. *)
Theorem retryWithBackoff_schedule (maxRetries : Z) (es : list string)
  (rest : list (option string)) (b : BridgeClient R) :
  (forall d r, Now (Sleep d r) = Now r + d) ->
  let k := Z.of_nat (length es) in
  (Forall (fun e => isRetryableError (Some e) = true) es ->
   k < maxRetries ->
   exists b',
     retryWithBackoff maxRetries scripted (map Some es ++ None :: rest, b) =
       Returns (None, (rest, b')) /\
     Now (remote b') = Now (remote b) + k * (k + 1) * (2 * k + 1) / 6) /\
  (maxRetries <= 0 ->
   forall (A : Type) (op : operation A) (s : A * BridgeClient R),
     retryWithBackoff maxRetries op s =
     Returns (Some ("operation failed after " ++ strconv.Itoa maxRetries ++ " retries")%string,
              s)).
Proof.
  intros Hsleep k. split.
  - intros Hes Hlt. unfold retryWithBackoff.
    destruct (retryLoop_clock es Hsleep (Z.to_nat maxRetries - length es - 1) 0 maxRetries
                rest b Hes ltac:(lia) ltac:(fold k; lia)) as (b' & Hrun & Hclock).
    exists b'. split.
    + rewrite <- Hrun. f_equal. unfold k in Hlt. lia.
    + fold k in Hclock. rewrite Z.add_0_l in Hclock.
      replace (k * (k + 1) * (2 * k + 1)) with ((Now (remote b') - Now (remote b)) * 6)
        by lia.
      rewrite Z.div_mul by lia. lia.
  - intros Hmax A op s. unfold retryWithBackoff.
    replace (Z.to_nat maxRetries) with 0%nat by lia. reflexivity.
Qed.

End Backoff.

(** ** A retry starts from the first page with what has been collected *)

Section Repeated.
Import github.

Lemma updateRateLimitStats_ok (next : Z) (b : BridgeClient flaky.Server) :
  updateRateLimitStats (testserver.okResponse next) b = b.
Proof. reflexivity. Qed.

Lemma existsb_eqb_single (c k : nat) : existsb (Nat.eqb c) [k] = Nat.eqb c k.
Proof. cbn. apply orb_false_r. Qed.

(** The listing up to the call that fails. *)
Lemma commentPages_until_failure (owner repo : string) (n : Z) (t : Z) (k : nat)
  (pages : list (list gogithub.IssueComment.t)) :
  (k < length pages)%nat ->
  forall (d j : nat) (page : Z) (fuel : nat) all (b : BridgeClient flaky.Server),
  (j + d = k)%nat ->
  page = Z.of_nat j + 1 \/ (page = 0 /\ j = 0%nat) ->
  (d < fuel)%nat ->
  remote b = flaky.mkServer t j [k] pages ->
  exists b',
    commentPages fuel owner repo n page (all, b)
    = Returns (Some "error fetching comments: timeout"%string,
               ((all ++ concat (take d (drop j pages)))%list, b')) /\
    remote b' = flaky.mkServer t (S k) [k] pages /\
    cache b' = cache b /\
    config b' = config b.
Proof.
  intros Hk. induction d as [|d IH]; intros j page fuel all b Hj Hpage Hfuel Hremote;
    (destruct fuel as [|fuel]; [lia|]); cbn [commentPages].
  - unfold waitForRateLimit. cbn [Wait flaky.Server_Remote].
    cbn [IncrementAPICall with_stats with_remote remote ListComments flaky.Server_Remote].
    rewrite Hremote. unfold flaky.serveComments.
    cbn [flaky.served flaky.failing]. rewrite existsb_eqb_single.
    replace j with k by lia. rewrite Nat.eqb_refl.
    eexists. split; [cbn [take concat]; rewrite app_nil_r; reflexivity|].
    repeat split.
  - unfold waitForRateLimit. cbn [Wait flaky.Server_Remote].
    cbn [IncrementAPICall with_stats with_remote remote ListComments flaky.Server_Remote].
    rewrite Hremote. unfold flaky.serveComments.
    cbn [flaky.served flaky.failing flaky.commentPages]. rewrite existsb_eqb_single.
    destruct (Nat.eqb_spec j k) as [?|_]; [lia|].
    set (p := if page <=? 0 then 1 else page).
    assert (Hp : p = Z.of_nat j + 1).
    { unfold p. destruct Hpage as [->|[-> ->]]; [|reflexivity].
      destruct (Z.leb_spec (Z.of_nat j + 1) 0); lia. }
    rewrite Hp. replace (Z.to_nat (Z.of_nat j + 1 - 1)) with j by lia.
    destruct (pages !! j) as [comments|] eqn:Hpagej;
      [|apply lookup_ge_None in Hpagej; lia].
    destruct (Z.ltb_spec (Z.of_nat j + 1) (Z.of_nat (length pages))) as [_|?]; [|lia].
    rewrite updateRateLimitStats_ok.
    change (gogithub.Response.NextPage (testserver.okResponse (Z.of_nat j + 1 + 1)))
      with (Z.of_nat j + 1 + 1).
    destruct (Z.eqb_spec (Z.of_nat j + 1 + 1) 0) as [?|_]; [lia|].
    match goal with |- context [commentPages fuel owner repo n _ (_, ?c)] =>
      destruct (IH (S j) (Z.of_nat j + 1 + 1) fuel (all ++ comments)%list c)
        as (b' & Hrun & Hremote' & Hcache' & Hconfig')
    end; [lia|left; lia|lia|reflexivity|].
    exists b'. rewrite Hrun. split; [|repeat split; assumption].
    rewrite <- app_assoc. repeat f_equal.
    rewrite (drop_S _ _ _ Hpagej). reflexivity.
Qed.

(** The listing once the failing call is behind. *)
Lemma commentPages_after_failure (owner repo : string) (n : Z) (k : nat)
  (pages : list (list gogithub.IssueComment.t)) :
  forall (m j : nat) (page : Z) (fuel : nat) (t : Z) (c : nat) all
         (b : BridgeClient flaky.Server),
  (j + S m = length pages)%nat ->
  page = Z.of_nat j + 1 \/ (page = 0 /\ j = 0%nat) ->
  (m < fuel)%nat ->
  (k < c)%nat ->
  remote b = flaky.mkServer t c [k] pages ->
  exists b',
    commentPages fuel owner repo n page (all, b)
    = Returns (None, ((all ++ concat (drop j pages))%list, b')) /\
    cache b' = cache b /\
    config b' = config b.
Proof.
  induction m as [|m IH]; intros j page fuel t c all b Hj Hpage Hfuel Hc Hremote;
    (destruct fuel as [|fuel]; [lia|]); cbn [commentPages];
    unfold waitForRateLimit; cbn [Wait flaky.Server_Remote];
    cbn [IncrementAPICall with_stats with_remote remote ListComments flaky.Server_Remote];
    rewrite Hremote; unfold flaky.serveComments;
    cbn [flaky.served flaky.failing flaky.commentPages]; rewrite existsb_eqb_single;
    (destruct (Nat.eqb_spec c k) as [?|_]; [lia|]);
    set (p := if page <=? 0 then 1 else page);
    (assert (Hp : p = Z.of_nat j + 1)
      by (unfold p; destruct Hpage as [->|[-> ->]]; [|reflexivity];
          destruct (Z.leb_spec (Z.of_nat j + 1) 0); lia));
    rewrite Hp; replace (Z.to_nat (Z.of_nat j + 1 - 1)) with j by lia;
    (destruct (pages !! j) as [comments|] eqn:Hpagej;
      [|apply lookup_ge_None in Hpagej; lia]);
    rewrite (drop_S _ _ _ Hpagej).
  - destruct (Z.ltb_spec (Z.of_nat j + 1) (Z.of_nat (length pages))) as [?|_]; [lia|].
    rewrite updateRateLimitStats_ok.
    change (gogithub.Response.NextPage (testserver.okResponse 0)) with 0.
    cbn [Z.eqb]. rewrite drop_ge by lia. cbn [concat]. rewrite app_nil_r.
    eexists. split; [reflexivity|]. split; reflexivity.
  - destruct (Z.ltb_spec (Z.of_nat j + 1) (Z.of_nat (length pages))) as [_|?]; [|lia].
    rewrite updateRateLimitStats_ok.
    change (gogithub.Response.NextPage (testserver.okResponse (Z.of_nat j + 1 + 1)))
      with (Z.of_nat j + 1 + 1).
    destruct (Z.eqb_spec (Z.of_nat j + 1 + 1) 0) as [?|_]; [lia|].
    match goal with |- context [commentPages fuel owner repo n _ (_, ?b1)] =>
      destruct (IH (S j) (Z.of_nat j + 1 + 1) fuel t (S c) (all ++ comments)%list b1)
        as (b' & Hrun & Hcache' & Hconfig')
    end; [lia|left; lia|lia|lia|reflexivity|].
    exists b'. rewrite Hrun. split; [|split; assumption].
    rewrite <- app_assoc. reflexivity.
Qed.

(** X14.  When a call in the middle of a comment listing times out, the retry
    lists the comments again from the first page, and the pages that had
    been collected before the failure are kept: they come twice in the
    result. *)
Theorem fetchIssueComments_repeats_pages (fuel : nat) (owner repo : string) (n : Z)
  (b : BridgeClient flaky.Server) (t : Z) (k : nat)
  (pages : list (list gogithub.IssueComment.t)) :
  cache b = None ->
  remote b = flaky.mkServer t 0 [k] pages ->
  (k < length pages)%nat ->
  (length pages < fuel)%nat ->
  exists b',
    fetchIssueComments fuel owner repo n b
    = Returns (((concat (take k pages) ++ concat pages)%list, None), b').
Proof.
  intros Hcache Hremote Hk Hfuel. unfold fetchIssueComments, GetFromCache.
  rewrite Hcache. unfold retryWithBackoff.
  change (Z.to_nat 3) with 3%nat. cbn [retryLoop].
  unfold mbind, M_bind, modify, mret, M_ret.
  unfold onClient at 1. cbn [fst snd].
  change (beforeAttempt 0 b) with b.
  destruct (commentPages_until_failure owner repo n t k pages Hk k 0%nat 0 fuel [] b)
    as (b1 & Hfirst & Hremote1 & Hcache1 & _); [lia|right; split; reflexivity|lia|exact Hremote|].
  rewrite Hfirst. rewrite drop_0. cbn [app].
  change ((0 =? 3 - 1) || negb (isRetryableError (Some "error fetching comments: timeout"%string)))
    with false. cbv iota.
  unfold onClient at 1. cbn [fst snd].
  destruct (length pages) as [|m] eqn:Hlen; [lia|].
  destruct (commentPages_after_failure owner repo n k pages m 0%nat 0 fuel (t + 1) (S k)
              (concat (take k pages)) (beforeAttempt (0 + 1) b1))
    as (b2 & Hsecond & Hcache2 & _);
    [lia|right; split; reflexivity|lia|lia| |].
  { unfold beforeAttempt. change (0 + 1 >? 0) with true. cbv iota.
    cbn [IncrementRetry with_stats with_remote remote Sleep flaky.Server_Remote].
    rewrite Hremote1. reflexivity. }
  rewrite Hsecond. rewrite drop_0.
  unfold SetCache. rewrite Hcache2.
  assert (Hnone : cache (beforeAttempt (0 + 1) b1) = None).
  { unfold beforeAttempt. change (0 + 1 >? 0) with true. cbv iota.
    cbn [IncrementRetry with_stats with_remote cache]. congruence. }
  rewrite Hnone. eexists. reflexivity.
Qed.

End Repeated.

(** ** Labels *)

Section Labels.

Lemma forallb_eq_on {A : Type} (f g : A -> bool) (l : list A) :
  (forall x, In x l -> f x = g x) -> forallb f l = forallb g l.
Proof.
  induction l as [|x l IH]; intros Heq; [reflexivity|]. cbn [forallb].
  rewrite (Heq x (or_introl eq_refl)), IH; [reflexivity|].
  intros y Hy. apply Heq. right. exact Hy.
Qed.

Lemma found_inner (label : string) (requiredLabels : list string) :
  forall (m : gmap string bool) (r : string),
  default false (foldl (fun m required =>
                          if String.eqb label required then <[required := true]> m
                          else m)
                       m requiredLabels !! r)
  = default false (m !! r)
    || (String.eqb label r && existsb (String.eqb r) requiredLabels).
Proof.
  induction requiredLabels as [|q l IH]; intros m r; cbn [foldl existsb].
  - rewrite andb_false_r, orb_false_r. reflexivity.
  - rewrite IH. destruct (String.eqb_spec label q) as [->|Hlq].
    + destruct (String.eqb_spec r q) as [->|Hrq].
      * rewrite lookup_insert_eq. cbn. rewrite String.eqb_refl. cbn.
        rewrite orb_true_r. reflexivity.
      * rewrite lookup_insert_ne by congruence. reflexivity.
    + destruct (String.eqb_spec r q) as [->|Hrq]; [|reflexivity].
      destruct (String.eqb_spec label q) as [?|_]; [congruence|]. reflexivity.
Qed.

Lemma found_outer (labels requiredLabels : list string) :
  forall (m : gmap string bool) (r : string),
  default false (foldl (fun m label =>
                          foldl (fun m required =>
                                   if String.eqb label required
                                   then <[required := true]> m else m)
                                m requiredLabels)
                       m labels !! r)
  = default false (m !! r)
    || (existsb (fun l => String.eqb l r) labels
        && existsb (String.eqb r) requiredLabels).
Proof.
  induction labels as [|label labels IH]; intros m r; cbn [foldl existsb].
  - rewrite orb_false_r. reflexivity.
  - rewrite IH, found_inner.
    destruct (default false (m !! r)), (String.eqb label r),
      (existsb (String.eqb r) requiredLabels),
      (existsb (fun l => String.eqb l r) labels); reflexivity.
Qed.

(** The map of found labels does what a label-by-label test does. *)
Lemma HasAllLabels_forallb (i : Issue) (requiredLabels : list string) :
  HasAllLabels i requiredLabels = forallb (HasLabel i) requiredLabels.
Proof.
  unfold HasAllLabels. destruct requiredLabels as [|q l]; [reflexivity|].
  set (req := q :: l). apply forallb_eq_on.
  intros r Hr.
  rewrite found_outer. rewrite lookup_empty. cbn [default orb].
  unfold HasLabel.
  assert (Hin : existsb (String.eqb r) req = true).
  { apply existsb_exists. exists r. split; [exact Hr|apply String.eqb_refl]. }
  rewrite Hin, andb_true_r. reflexivity.
Qed.

Lemma HasLabel_elem_of (i : Issue) (label : string) :
  HasLabel i label = true <-> label ∈ Labels i.
Proof.
  unfold HasLabel. rewrite existsb_exists. split.
  - intros (l & Hl & Heq). apply String.eqb_eq in Heq as ->.
    apply list_elem_of_In. exact Hl.
  - intros Hin. exists label. split; [apply list_elem_of_In; exact Hin|].
    apply String.eqb_refl.
Qed.

(** X15.  [HasAllLabels] holds exactly when every required label is one of the
    labels of the issue, letter for letter; neither the order of the
    required labels nor a label required twice matters. *)
Theorem HasAllLabels_iff (i : Issue) (requiredLabels : list string) :
  HasAllLabels i requiredLabels = true <->
  forall required, required ∈ requiredLabels -> required ∈ Labels i.
Proof.
  rewrite HasAllLabels_forallb, forallb_forall. split.
  - intros Hall r Hr. apply HasLabel_elem_of, Hall, list_elem_of_In, Hr.
  - intros Hall r Hr. apply HasLabel_elem_of, Hall, list_elem_of_In, Hr.
Qed.

Lemma filterIssuesByLabels_filter (h : list Issue) (issues : list ptr)
  (requiredLabels : list string) :
  filterIssuesByLabels h issues requiredLabels
  = List.filter (fun p => forallb (HasLabel (h !!! p)) requiredLabels) issues.
Proof.
  unfold filterIssuesByLabels. destruct requiredLabels as [|q l].
  - cbn [forallb]. induction issues as [|p issues IH]; [reflexivity|].
    cbn [List.filter]. rewrite <- IH. reflexivity.
  - apply List.filter_ext. intros p. apply HasAllLabels_forallb.
Qed.

(** X16.  The label filter keeps, in their order, the issues that carry every
    required label; filtering twice is filtering by both lists of labels
    at once. *)
Theorem filterIssuesByLabels_compose (h : list Issue) (issues : list ptr)
  (labels1 labels2 : list string) :
  (forall p, p ∈ filterIssuesByLabels h issues labels1 <->
             p ∈ issues /\ forall l, l ∈ labels1 -> l ∈ Labels (h !!! p)) /\
  sublist (filterIssuesByLabels h issues labels1) issues /\
  filterIssuesByLabels h (filterIssuesByLabels h issues labels1) labels2
  = filterIssuesByLabels h issues (labels1 ++ labels2).
Proof.
  rewrite !filterIssuesByLabels_filter. split; [|split].
  - intros p. rewrite list_elem_of_In, List.filter_In, forallb_forall,
      <- list_elem_of_In.
    split; intros [Hp Hall]; (split; [exact Hp|]).
    + intros l Hl. apply HasLabel_elem_of, Hall, list_elem_of_In, Hl.
    + intros l Hl. apply HasLabel_elem_of, Hall, list_elem_of_In, Hl.
  - induction issues as [|p issues IH]; [constructor|].
    cbn [List.filter]. destruct (forallb _ labels1); [apply sublist_skip|apply sublist_cons];
      exact IH.
  - induction issues as [|p issues IH]; [reflexivity|].
    cbn [List.filter]. rewrite forallb_app.
    destruct (forallb (HasLabel (h !!! p)) labels1); cbn [List.filter andb].
    + destruct (forallb (HasLabel (h !!! p)) labels2); rewrite IH; reflexivity.
    + exact IH.
Qed.

End Labels.

(** ** State and status *)

Section Statuses.

Lemma scanAllUpdates_open (updates : list WeeklyUpdate) (s : WeeklyUpdateStatus) :
  scanAllUpdates "open" updates = Some s -> s <> StatusCompleted /\ s <> StatusUnknown.
Proof.
  induction updates as [|u l IH]; [discriminate|]. cbn [scanAllUpdates].
  destruct (decide (Status u = StatusUnknown)) as [E|E].
  - rewrite bool_decide_eq_false_2 by tauto. exact IH.
  - rewrite bool_decide_eq_true_2 by exact E.
    destruct (decide (Status u = StatusCompleted)) as [C|C].
    + rewrite (bool_decide_eq_true_2 _ C). cbn. intros [= <-]. split; discriminate.
    + rewrite (bool_decide_eq_false_2 _ C). cbn. intros [= <-]. split; assumption.
Qed.

(** X17.  The state of an issue without children bounds what is reported for
    it: a closed issue is Completed whatever its updates say, and an open
    issue is never Completed, by any of the three status functions. *)
Theorem status_follows_state (i : IssueWithUpdates) :
  ChildIssues i = [] ->
  (entity.State (Issue_ i) = "closed"%string ->
   GetActualStatus i = StatusCompleted /\ GetKRStatus i = StatusCompleted /\
   GetObjectiveStatus i = StatusCompleted) /\
  (entity.State (Issue_ i) = "open"%string ->
   GetActualStatus i <> StatusCompleted /\ GetKRStatus i <> StatusCompleted /\
   GetObjectiveStatus i <> StatusCompleted).
Proof.
  intros Hleaf.
  assert (Hobj : GetObjectiveStatus i = GetActualStatus i).
  { unfold GetObjectiveStatus. rewrite Hleaf. cbn [length Z.of_nat Z.eqb].
    rewrite orb_true_r. reflexivity. }
  rewrite Hobj. split; intros Hstate.
  - assert (Hactual : GetActualStatus i = StatusCompleted)
      by (unfold GetActualStatus; rewrite Hstate; reflexivity).
    split; [exact Hactual|]. split; [|exact Hactual].
    unfold GetKRStatus. rewrite Hstate.
    destruct (IsKeyResult (Issue_ i)); [reflexivity|exact Hactual].
  - assert (Hactual : GetActualStatus i <> StatusCompleted).
    { unfold GetActualStatus. rewrite Hstate. cbn [String.eqb Ascii.eqb Bool.eqb andb].
      rewrite andb_true_r.
      destruct (decide (GetLatestUpdateStatus i = StatusCompleted)) as [C|C].
      - rewrite (bool_decide_eq_true_2 _ C). discriminate.
      - rewrite (bool_decide_eq_false_2 _ C). exact C. }
    split; [exact Hactual|]. split; [|exact Hactual].
    unfold GetKRStatus. destruct (IsKeyResult (Issue_ i)); cbn [negb]; [|exact Hactual].
    rewrite Hstate. cbn [String.eqb Ascii.eqb Bool.eqb andb].
    destruct (scanAllUpdates "open" (AllUpdates i)) as [s|] eqn:Hscan.
    + apply scanAllUpdates_open in Hscan. tauto.
    + rewrite andb_true_r.
      destruct (decide (GetLatestUpdateStatus i = StatusUnknown)) as [U|U].
      * rewrite bool_decide_eq_false_2 by tauto. discriminate.
      * rewrite bool_decide_eq_true_2 by exact U.
        destruct (decide (GetLatestUpdateStatus i = StatusCompleted)) as [C|C].
        -- rewrite (bool_decide_eq_true_2 _ C). discriminate.
        -- rewrite (bool_decide_eq_false_2 _ C). exact C.
Qed.

Lemma existsb_is_status (s : WeeklyUpdateStatus) (l : list IssueWithUpdates) :
  existsb (design.is_status s) (map GetKRStatus l) = true <->
  exists kr, kr ∈ l /\ GetKRStatus kr = s.
Proof.
  rewrite existsb_exists. split.
  - intros (x & Hx & Hs). apply in_map_iff in Hx as (kr & <- & Hkr).
    exists kr. split; [apply list_elem_of_In; exact Hkr|].
    unfold design.is_status in Hs. apply bool_decide_eq_true_1 in Hs. congruence.
  - intros (kr & Hkr & <-). exists (GetKRStatus kr).
    split; [apply in_map, list_elem_of_In, Hkr|].
    unfold design.is_status. apply bool_decide_eq_true_2. reflexivity.
Qed.

Lemma forallb_is_status (s : WeeklyUpdateStatus) (l : list IssueWithUpdates) :
  forallb (design.is_status s) (map GetKRStatus l) = true <->
  forall kr, kr ∈ l -> GetKRStatus kr = s.
Proof.
  rewrite forallb_forall. split.
  - intros Hall kr Hkr.
    specialize (Hall (GetKRStatus kr) (in_map _ _ _ (proj1 (list_elem_of_In _ _) Hkr))).
    unfold design.is_status in Hall. apply bool_decide_eq_true_1 in Hall. congruence.
  - intros Hall x Hx. apply in_map_iff in Hx as (kr & <- & Hkr).
    unfold design.is_status. apply bool_decide_eq_true_2.
    symmetry. apply Hall, list_elem_of_In, Hkr.
Qed.

(** X18.  The status of an objective with key results: Blocked exactly when a
    key result is Blocked, Completed exactly when every key result is
    Completed, and in any case a status that one of the key results has,
    or else OnTrack or Unknown.  The state and the updates of the
    objective itself play no part. *)
Theorem GetObjectiveStatus_of_children (i : IssueWithUpdates) :
  IsObjective (Issue_ i) = true ->
  ChildIssues i <> [] ->
  (GetObjectiveStatus i = StatusBlocked <->
   exists kr, kr ∈ ChildIssues i /\ GetKRStatus kr = StatusBlocked) /\
  (GetObjectiveStatus i = StatusCompleted <->
   forall kr, kr ∈ ChildIssues i -> GetKRStatus kr = StatusCompleted) /\
  (GetObjectiveStatus i = StatusOnTrack \/ GetObjectiveStatus i = StatusUnknown \/
   exists kr, kr ∈ ChildIssues i /\ GetKRStatus kr = GetObjectiveStatus i).
Proof.
  intros Hobj Hne. rewrite (GetObjectiveStatus_resolution i Hobj Hne).
  unfold design.resolveWithThreshold. cbv zeta.
  pose proof (existsb_is_status StatusBlocked (ChildIssues i)) as HB.
  pose proof (existsb_is_status StatusDelayed (ChildIssues i)) as HD.
  pose proof (existsb_is_status StatusAtRisk (ChildIssues i)) as HA.
  pose proof (existsb_is_status StatusCaution (ChildIssues i)) as HC.
  pose proof (forallb_is_status StatusCompleted (ChildIssues i)) as HF.
  assert (Hsome : exists kr, kr ∈ ChildIssues i).
  { destruct (ChildIssues i) as [|kr l]; [congruence|]. exists kr. left. }
  destruct (existsb (design.is_status StatusBlocked) _).
  { split; [tauto|]. split; [|right; right; apply HB; reflexivity].
    split; [discriminate|]. intros Hall.
    destruct (proj1 HB eq_refl) as (kr & Hkr & Hs). rewrite (Hall kr Hkr) in Hs.
    discriminate. }
  assert (HnoB : ~ exists kr, kr ∈ ChildIssues i /\ GetKRStatus kr = StatusBlocked)
    by (intros Hex; apply HB in Hex; discriminate).
  destruct (existsb (design.is_status StatusDelayed) _).
  { split; [split; [discriminate|tauto]|].
    split; [|right; right; apply HD; reflexivity].
    split; [discriminate|]. intros Hall.
    destruct (proj1 HD eq_refl) as (kr & Hkr & Hs). rewrite (Hall kr Hkr) in Hs.
    discriminate. }
  destruct (existsb (design.is_status StatusAtRisk) _).
  { split; [split; [discriminate|tauto]|].
    split; [|right; right; apply HA; reflexivity].
    split; [discriminate|]. intros Hall.
    destruct (proj1 HA eq_refl) as (kr & Hkr & Hs). rewrite (Hall kr Hkr) in Hs.
    discriminate. }
  destruct (existsb (design.is_status StatusCaution) _).
  { split; [split; [discriminate|tauto]|].
    split; [|right; right; apply HC; reflexivity].
    split; [discriminate|]. intros Hall.
    destruct (proj1 HC eq_refl) as (kr & Hkr & Hs). rewrite (Hall kr Hkr) in Hs.
    discriminate. }
  destruct (forallb (design.is_status StatusCompleted) _).
  { split; [split; [discriminate|tauto]|]. split; [tauto|].
    right; right. destruct Hsome as (kr & Hkr). exists kr.
    split; [exact Hkr|apply HF; [reflexivity|exact Hkr]]. }
  assert (HnoF : ~ forall kr, kr ∈ ChildIssues i -> GetKRStatus kr = StatusCompleted)
    by (intros Hall; apply HF in Hall; discriminate).
  destruct (_ <=? _).
  { split; [split; [discriminate|tauto]|]. split; [split; [discriminate|tauto]|].
    left. reflexivity. }
  destruct (existsb (design.is_status StatusOnTrack) _).
  { split; [split; [discriminate|tauto]|]. split; [split; [discriminate|tauto]|].
    left. reflexivity. }
  split; [split; [discriminate|tauto]|]. split; [split; [discriminate|tauto]|].
  right; left. reflexivity.
Qed.

End Statuses.

(** ** The hierarchy that the service builds *)

Section Grouping.
Context {W : Type} `{ports.GitHubRepository W}.

(** The port finds no parent: an error, or a number that is not
    positive. *)
Hypothesis FindParentIssue_none :
  forall owner repo n w, exists x w',
    ports.FindParentIssue owner repo n w = Returns (x, w') /\
    (snd x <> None \/ fst x <= 0).

Lemma recordParent_groups (m : gmap Z (list ptr)) (p : ptr) (st : State W) :
  exists w',
    recordParent m p st
    = Returns ((let n := extractParentIssueNumber (heap st !!! p) in
                if n >? 0 then <[n := (children_of m n ++ [p])%list]> m else m),
               mkState (heap st) w').
Proof.
  unfold recordParent, deref. unfold mbind at 1, M_bind at 1. cbv zeta.
  set (issue := heap st !!! p).
  set (n := extractParentIssueNumber issue).
  destruct (Z.eqb_spec n 0) as [E0|E0].
  - destruct (ports.ExtractOwnerRepoFromIssue issue) as [owner repo].
    destruct (negb (String.eqb owner "") && negb (String.eqb repo "")).
    + unfold mbind, M_bind, liftW.
      destruct (FindParentIssue_none owner repo (Number issue) (world st))
        as ([apiParentNum err] & w' & Hcall & Hnone).
      rewrite Hcall. cbn [fst snd] in Hnone.
      assert (Hno : bool_decide (err = None) && (apiParentNum >? 0) = false).
      { destruct Hnone as [Herr|Hnum].
        - rewrite bool_decide_eq_false_2 by exact Herr. reflexivity.
        - destruct (Z.gtb_spec apiParentNum 0); [lia|apply andb_false_r]. }
      rewrite Hno. unfold mret, M_ret. exists w'. destruct (n >? 0); reflexivity.
    + unfold mbind, M_bind, mret, M_ret. exists (world st).
      destruct st; destruct (n >? 0); reflexivity.
  - unfold mbind, M_bind, mret, M_ret. exists (world st).
    destruct st; destruct (n >? 0); reflexivity.
Qed.

Lemma Build_groups (l : list ptr) :
  forall (m : gmap Z (list ptr)) (st : State W),
  exists m' w',
    foldM recordParent m l st = Returns (m', mkState (heap st) w') /\
    forall n, children_of m' n
              = (children_of m n
                 ++ if n >? 0
                    then List.filter
                           (fun p => extractParentIssueNumber (heap st !!! p) =? n) l
                    else [])%list.
Proof.
  induction l as [|p l IH]; intros m st.
  - exists m, (world st). split; [destruct st; reflexivity|].
    intros n. cbn [List.filter]. destruct (n >? 0); rewrite app_nil_r; reflexivity.
  - destruct (recordParent_groups m p st) as (w1 & Hstep).
    cbn [foldM]. unfold mbind, M_bind. rewrite Hstep. cbv zeta.
    set (k := extractParentIssueNumber (heap st !!! p)).
    destruct (IH (if k >? 0 then <[k := (children_of m k ++ [p])%list]> m else m)
                 (mkState (heap st) w1)) as (m' & w' & Hrest & Hm').
    exists m', w'. split; [exact Hrest|].
    intros n. rewrite Hm'. cbn [heap List.filter]. fold k.
    destruct (Z.gtb_spec k 0) as [Hk|Hk].
    + rewrite children_of_insert. destruct (decide (k = n)) as [->|Hkn].
      * rewrite Z.eqb_refl. destruct (Z.gtb_spec n 0); [|lia].
        rewrite <- app_assoc. reflexivity.
      * destruct (Z.eqb_spec k n); [congruence|]. reflexivity.
    + destruct (Z.gtb_spec n 0) as [Hn|Hn]; [|reflexivity].
      destruct (Z.eqb_spec k n); [lia|]. reflexivity.
Qed.

(** X19.  When the port finds no parents, the map of [BuildParentChildRelationships]
    groups the issues by the number their text refers to: under a positive
    number are, in their order, the issues whose first parent reference is
    that number, and nothing is under any other number.  The issues
    themselves are left as they are. *)
Theorem BuildParentChildRelationships_groups (issues : list ptr) (st : State W) :
  exists m w',
    BuildParentChildRelationships issues st = Returns (m, mkState (heap st) w') /\
    forall n,
      children_of m n
      = if n >? 0
        then List.filter (fun p => extractParentIssueNumber (heap st !!! p) =? n) issues
        else [].
Proof.
  destruct (Build_groups issues ∅ st) as (m & w' & Hrun & Hm).
  exists m, w'. split; [exact Hrun|]. intros n. rewrite Hm.
  unfold children_of at 1. rewrite lookup_empty. reflexivity.
Qed.

End Grouping.

Section Classification.
Context {W : Type} `{ports.GitHubRepository W}.

Lemma classify_spec (m : gmap Z (list ptr)) (parents : list ptr) (p : ptr)
  (st : State W) :
  let issue := heap st !!! p in
  let isKR := extractParentIssueNumber issue >? 0 in
  let isObj := (0 <? Z.of_nat (length (children_of m (Number issue)))) && negb isKR in
  classify m parents p st
  = Returns ((parents ++ if isObj then [p] else [])%list,
             mkState (if isKR then alter (with_Type IssueTypeKeyResult) p (heap st)
                      else if isObj then alter (with_Type IssueTypeObjective) p (heap st)
                      else heap st)
                     (world st)).
Proof.
  cbv zeta. unfold classify, deref, hasParentIssue, setType, modify.
  unfold mbind, M_bind, mret, M_ret.
  rewrite Z.gtb_ltb.
  destruct (extractParentIssueNumber (heap st !!! p) >? 0).
  - rewrite !andb_false_r. rewrite app_nil_r. reflexivity.
  - rewrite !andb_true_r.
    destruct (0 <? Z.of_nat (length (children_of m (Number (heap st !!! p))))).
    + reflexivity.
    + rewrite app_nil_r. destruct st; reflexivity.
Qed.

(** The loop of [IdentifyObjectivesAndKeyResults], from any heap that
    differs from [h0] in types only. *)
Lemma Identify_loop (m : gmap Z (list ptr)) (h0 : list Issue) :
  forall (l : list ptr) (parents : list ptr) (h : list Issue) (w : W),
  sameButType h0 h ->
  exists h',
    foldM (classify m) parents l (mkState h w)
    = Returns ((parents ++ List.filter
                  (fun p => (0 <? Z.of_nat (length (children_of m (Number (h0 !!! p)))))
                            && negb (extractParentIssueNumber (h0 !!! p) >? 0)) l)%list,
               mkState h' w) /\
    sameButType h0 h' /\
    forall p, (p < length h0)%nat ->
      Type_ (h' !!! p)
      = if bool_decide (p ∈ l)
        then if extractParentIssueNumber (h0 !!! p) >? 0 then IssueTypeKeyResult
             else if (0 <? Z.of_nat (length (children_of m (Number (h0 !!! p)))))
                     && negb (extractParentIssueNumber (h0 !!! p) >? 0)
                  then IssueTypeObjective
                  else Type_ (h !!! p)
        else Type_ (h !!! p).
Proof.
  induction l as [|q l IH]; intros parents h w Hsame.
  - exists h. rewrite app_nil_r. split; [reflexivity|]. split; [exact Hsame|].
    intros p _. rewrite bool_decide_eq_false_2 by (intros Hin; inversion Hin).
    reflexivity.
  - cbn [foldM]. unfold mbind, M_bind. rewrite classify_spec. cbv zeta. cbn [heap world].
    rewrite (sameButType_extractParent _ _ q Hsame), (sameButType_Number _ _ q Hsame).
    set (isKR := extractParentIssueNumber (h0 !!! q) >? 0).
    set (isObj := (0 <? Z.of_nat (length (children_of m (Number (h0 !!! q)))))
                  && negb isKR).
    set (h1 := if isKR then alter (with_Type IssueTypeKeyResult) q h
               else if isObj then alter (with_Type IssueTypeObjective) q h else h).
    assert (Hsame1 : sameButType h0 h1).
    { unfold h1. destruct isKR; [|destruct isObj]; try exact Hsame;
        (eapply sameButType_trans; [exact Hsame|apply sameButType_alter]). }
    destruct (IH (parents ++ (if isObj then [q] else []))%list h1 w Hsame1)
      as (h' & Hrun & Hsame' & Htypes).
    exists h'. rewrite Hrun. split.
    { cbn [List.filter]. fold isKR. fold isObj. rewrite <- app_assoc.
      destruct isObj; reflexivity. }
    split; [exact Hsame'|].
    intros p Hp. rewrite (Htypes p Hp).
    pose proof (sameButType_length _ _ Hsame) as Hlen.
    assert (Hh1 : Type_ (h1 !!! p)
                  = if decide (p = q)
                    then if isKR then IssueTypeKeyResult
                         else if isObj then IssueTypeObjective else Type_ (h !!! p)
                    else Type_ (h !!! p)).
    { unfold h1. destruct (decide (p = q)) as [->|Hne].
      - destruct isKR; [|destruct isObj]; try reflexivity;
          rewrite list_lookup_total_alter_eq by lia; reflexivity.
      - destruct isKR; [|destruct isObj]; try reflexivity;
          rewrite list_lookup_total_alter_ne by congruence; reflexivity. }
    destruct (decide (p ∈ l)) as [Hin|Hout].
    + rewrite bool_decide_eq_true_2 by exact Hin.
      rewrite bool_decide_eq_true_2 by (right; exact Hin).
      destruct (extractParentIssueNumber (h0 !!! p) >? 0) eqn:Hkr; [reflexivity|].
      cbn [negb]. rewrite andb_true_r.
      destruct (0 <? Z.of_nat (length (children_of m (Number (h0 !!! p))))) eqn:Hch;
        [reflexivity|].
      rewrite Hh1. destruct (decide (p = q)) as [->|_]; [|reflexivity].
      unfold isObj, isKR. rewrite Hkr, Hch. reflexivity.
    + rewrite (bool_decide_eq_false_2 _ Hout). rewrite Hh1.
      destruct (decide (p = q)) as [->|Hne].
      * rewrite bool_decide_eq_true_2 by left. reflexivity.
      * rewrite bool_decide_eq_false_2; [reflexivity|].
        intros Hin. apply elem_of_cons in Hin as [?|?]; contradiction.
Qed.

(** X20.  [IdentifyObjectivesAndKeyResults] returns, in their order, the issues
    that have children in the map and no parent reference of their own, and
    marks them as objectives; it marks every issue with a parent reference
    as a key result, whether or not the parent is among the issues, and
    leaves the type of the other issues as it was. *)
Theorem IdentifyObjectivesAndKeyResults_spec (issues : list ptr)
  (m : gmap Z (list ptr)) (st : State W) :
  let isKR := fun p => extractParentIssueNumber (heap st !!! p) >? 0 in
  let isObj := fun p =>
    (0 <? Z.of_nat (length (children_of m (Number (heap st !!! p))))) && negb (isKR p) in
  exists h',
    IdentifyObjectivesAndKeyResults issues m st
    = Returns (List.filter isObj issues, mkState h' (world st)) /\
    sameButType (heap st) h' /\
    forall p, (p < length (heap st))%nat ->
      Type_ (h' !!! p)
      = if bool_decide (p ∈ issues)
        then if isKR p then IssueTypeKeyResult
             else if isObj p then IssueTypeObjective
             else Type_ (heap st !!! p)
        else Type_ (heap st !!! p).
Proof.
  cbv zeta. unfold IdentifyObjectivesAndKeyResults. destruct st as [h w].
  destruct (Identify_loop m h issues [] h w (sameButType_refl h))
    as (h' & Hrun & Hsame & Htypes).
  exists h'. split; [exact Hrun|]. split; [exact Hsame|exact Htypes].
Qed.

End Classification.

(** ** The shape of what [ProcessOKRIssues] returns *)

Section Shape.
Context {W : Type} `{ports.GitHubRepository W}.

Lemma with_Type_Unset_eq (i j : Issue) :
  with_Type IssueTypeUnset i = with_Type IssueTypeUnset j ->
  Number i = Number j /\ extractParentIssueNumber i = extractParentIssueNumber j.
Proof.
  intros Heq. split.
  - change (Number (with_Type IssueTypeUnset i) = Number (with_Type IssueTypeUnset j)).
    rewrite Heq. reflexivity.
  - rewrite <- (extractParent_with_Type IssueTypeUnset i),
      <- (extractParent_with_Type IssueTypeUnset j), Heq. reflexivity.
Qed.

Lemma processChild_shape (acc acc' : list IssueWithUpdates) (c : ptr) (st st' : State W) :
  processChild acc c st = Returns (acc', st') ->
  (c < length (heap st))%nat ->
  sameButType (heap st) (heap st') /\
  exists new, acc' = (acc ++ new)%list /\
    forall kr, kr ∈ new ->
      Type_ (Issue_ kr) = IssueTypeKeyResult /\
      with_Type IssueTypeUnset (Issue_ kr) = with_Type IssueTypeUnset (heap st !!! c) /\
      ChildIssues kr = [] /\
      LatestUpdate kr = head (AllUpdates kr).
Proof.
  unfold processChild, setType, modify, deref, liftW.
  unfold mbind, M_bind, mret, M_ret. cbn [heap world].
  intros Hrun Hc.
  set (h1 := alter (with_Type IssueTypeKeyResult) c (heap st)) in *.
  assert (Hh1 : h1 !!! c = with_Type IssueTypeKeyResult (heap st !!! c))
    by (unfold h1; apply list_lookup_total_alter_eq; exact Hc).
  destruct (ports.ExtractOwnerRepoFromIssue (h1 !!! c)) as [owner repo].
  destruct (String.eqb owner "" || String.eqb repo "").
  - injection Hrun as Ha Hs; subst acc' st'. split; [apply sameButType_alter|].
    exists []. rewrite app_nil_r. split; [reflexivity|]. intros kr Hkr. inversion Hkr.
  - cbn [heap world] in Hrun.
    destruct (ports.FetchIssueComments owner repo (Number (h1 !!! c)) (world st))
      as [[[updates err] w']|]; [|discriminate].
    injection Hrun as Ha Hs; subst acc' st'. split; [apply sameButType_alter|].
    eexists. split; [reflexivity|]. intros kr Hkr.
    apply list_elem_of_singleton in Hkr as ->. cbn.
    rewrite Hh1. repeat split.
Qed.

Lemma children_loop_shape (h0 : list Issue) (l : list ptr) :
  forall (acc acc' : list IssueWithUpdates) (st st' : State W),
  foldM processChild acc l st = Returns (acc', st') ->
  sameButType h0 (heap st) ->
  (forall c, c ∈ l -> (c < length h0)%nat) ->
  sameButType h0 (heap st') /\
  exists new, acc' = (acc ++ new)%list /\
    forall kr, kr ∈ new ->
      exists c, c ∈ l /\
        Type_ (Issue_ kr) = IssueTypeKeyResult /\
        with_Type IssueTypeUnset (Issue_ kr) = with_Type IssueTypeUnset (h0 !!! c) /\
        ChildIssues kr = [] /\
        LatestUpdate kr = head (AllUpdates kr).
Proof.
  induction l as [|c l IH]; intros acc acc' st st' Hrun Hsame Hrange.
  - injection Hrun as Ha Hs; subst acc' st'. split; [exact Hsame|].
    exists []. rewrite app_nil_r. split; [reflexivity|]. intros kr Hkr. inversion Hkr.
  - cbn [foldM] in Hrun. unfold mbind, M_bind in Hrun.
    destruct (processChild acc c st) as [[acc1 st1]|] eqn:Hstep; [|discriminate].
    apply processChild_shape in Hstep as [Hsame1 (new1 & -> & Hnew1)];
      [|rewrite (sameButType_length _ _ Hsame); apply Hrange; left].
    assert (Hsame01 : sameButType h0 (heap st1))
      by (eapply sameButType_trans; eassumption).
    destruct (IH _ _ _ _ Hrun Hsame01) as [Hsame' (new & -> & Hnew)].
    { intros c' Hc'. apply Hrange. right. exact Hc'. }
    split; [exact Hsame'|]. exists (new1 ++ new)%list.
    rewrite app_assoc. split; [reflexivity|].
    intros kr Hkr. apply elem_of_app in Hkr as [Hkr|Hkr].
    + destruct (Hnew1 kr Hkr) as (Hty & Hissue & Hleaf & Hlatest).
      exists c. split; [left|]. split; [exact Hty|].
      split; [rewrite Hissue; apply sameButType_lookup; exact Hsame|].
      split; assumption.
    + destruct (Hnew kr Hkr) as (c' & Hc' & Hprops).
      exists c'. split; [right; exact Hc'|exact Hprops].
Qed.

Lemma processObjective_shape (h0 : list Issue) (p : ptr) (children : list ptr)
  (st st' : State W) (r : option IssueWithUpdates) :
  processObjectiveWithChildren p children st = Returns (r, st') ->
  sameButType h0 (heap st) ->
  (forall c, c ∈ children -> (c < length h0)%nat) ->
  sameButType h0 (heap st') /\
  forall o, r = Some o ->
    with_Type IssueTypeUnset (Issue_ o) = with_Type IssueTypeUnset (h0 !!! p) /\
    LatestUpdate o = head (AllUpdates o) /\
    forall kr, kr ∈ ChildIssues o ->
      exists c, c ∈ children /\
        Type_ (Issue_ kr) = IssueTypeKeyResult /\
        with_Type IssueTypeUnset (Issue_ kr) = with_Type IssueTypeUnset (h0 !!! c) /\
        ChildIssues kr = [] /\
        LatestUpdate kr = head (AllUpdates kr).
Proof.
  unfold processObjectiveWithChildren, deref, liftW.
  unfold mbind at 1, M_bind at 1. intros Hrun Hsame Hrange.
  destruct (ports.ExtractOwnerRepoFromIssue (heap st !!! p)) as [owner repo].
  destruct (String.eqb owner "" || String.eqb repo "").
  - injection Hrun as Ha Hs; subst r st'. split; [exact Hsame|]. discriminate.
  - unfold mbind at 1, M_bind at 1 in Hrun.
    destruct (ports.FetchIssueComments owner repo (Number (heap st !!! p)) (world st))
      as [[[updates err] w']|]; [|discriminate].
    unfold mbind at 1, M_bind at 1 in Hrun. cbn [heap] in Hrun.
    unfold mbind, M_bind in Hrun.
    destruct (foldM processChild [] children (mkState (heap st) w'))
      as [[kids st2]|] eqn:Hkids; [|discriminate].
    injection Hrun as Ha Hs; subst r st'.
    destruct (children_loop_shape h0 children [] kids _ _ Hkids Hsame Hrange)
      as [Hsame' (new & -> & Hnew)].
    split; [exact Hsame'|]. intros o [= <-]. cbn.
    split; [apply sameButType_lookup; exact Hsame|]. split; [reflexivity|exact Hnew].
Qed.

Lemma objectives_loop_shape (m : gmap Z (list ptr)) (h0 : list Issue) (l : list ptr) :
  (forall n c, c ∈ children_of m n -> (c < length h0)%nat) ->
  forall (acc acc' : list IssueWithUpdates) (st st' : State W),
  foldM (collectObjective m) acc l st = Returns (acc', st') ->
  sameButType h0 (heap st) ->
  sameButType h0 (heap st') /\
  exists out, acc' = (acc ++ out)%list /\
    forall o, o ∈ out ->
      exists p, p ∈ l /\
        with_Type IssueTypeUnset (Issue_ o) = with_Type IssueTypeUnset (h0 !!! p) /\
        LatestUpdate o = head (AllUpdates o) /\
        forall kr, kr ∈ ChildIssues o ->
          exists c, c ∈ children_of m (Number (h0 !!! p)) /\
            Type_ (Issue_ kr) = IssueTypeKeyResult /\
            with_Type IssueTypeUnset (Issue_ kr) = with_Type IssueTypeUnset (h0 !!! c) /\
            ChildIssues kr = [] /\
            LatestUpdate kr = head (AllUpdates kr).
Proof.
  intros Hrange. induction l as [|p l IH]; intros acc acc' st st' Hrun Hsame.
  - injection Hrun as Ha Hs; subst acc' st'. split; [exact Hsame|].
    exists []. rewrite app_nil_r. split; [reflexivity|]. intros o Ho. inversion Ho.
  - cbn [foldM] in Hrun. unfold mbind at 1, M_bind at 1 in Hrun.
    destruct (collectObjective m acc p st) as [[acc1 st1]|] eqn:Hstep; [|discriminate].
    unfold collectObjective, deref in Hstep.
    unfold mbind, M_bind, mret, M_ret in Hstep.
    destruct (processObjectiveWithChildren p (children_of m (Number (heap st !!! p))) st)
      as [[r st2]|] eqn:Hobj; [|discriminate].
    rewrite (sameButType_Number _ _ p Hsame) in Hobj.
    apply (processObjective_shape h0) in Hobj as [Hsame2 Hshape];
      [|exact Hsame|apply Hrange].
    assert (Hone : exists out1, acc1 = (acc ++ out1)%list /\ st1 = st2 /\
              forall o, o ∈ out1 -> r = Some o).
    { destruct r as [o|]; injection Hstep as <- <-.
      - exists [o]. split; [reflexivity|]. split; [reflexivity|].
        intros o' Ho'. apply list_elem_of_singleton in Ho' as ->. reflexivity.
      - exists []. rewrite app_nil_r. split; [reflexivity|]. split; [reflexivity|].
        intros o' Ho'. inversion Ho'. }
    destruct Hone as (out1 & -> & -> & Hout1).
    destruct (IH _ _ _ _ Hrun Hsame2) as [Hsame' (out & -> & Hout)].
    split; [exact Hsame'|]. exists (out1 ++ out)%list.
    rewrite app_assoc. split; [reflexivity|].
    intros o Ho. apply elem_of_app in Ho as [Ho|Ho].
    + exists p. split; [left|]. apply Hshape, Hout1, Ho.
    + destruct (Hout o Ho) as (p' & Hp' & Hprops).
      exists p'. split; [right; exact Hp'|exact Hprops].
Qed.

(** The port finds no parent: an error, or a number that is not
    positive. *)
Hypothesis FindParentIssue_none :
  forall owner repo n w, exists x w',
    ports.FindParentIssue owner repo n w = Returns (x, w') /\
    (snd x <> None \/ fst x <= 0).

(** X21.  Whatever [ProcessOKRIssues] returns has two levels and no more.  Every
    objective and every key result is one of the issues that passed the
    label filter, its latest update is the first of its updates, every key
    result is typed as such, has no children of its own, and refers in its
    text to the number of the objective it is listed under.  The issues
    themselves are changed in their type at most. *)
Theorem ProcessOKRIssues_hierarchy (issues : list ptr) (requiredLabels : list string)
  (st st' : State W) (objectives : list IssueWithUpdates) :
  (forall p, p ∈ issues -> (p < length (heap st))%nat) ->
  ProcessOKRIssues issues requiredLabels st = Returns (objectives, st') ->
  let filteredIssues := filterIssuesByLabels (heap st) issues requiredLabels in
  sameButType (heap st) (heap st') /\
  forall o, o ∈ objectives ->
    LatestUpdate o = head (AllUpdates o) /\
    (exists p, p ∈ filteredIssues /\
       with_Type IssueTypeUnset (Issue_ o) = with_Type IssueTypeUnset (heap st !!! p)) /\
    forall kr, kr ∈ ChildIssues o ->
      Type_ (Issue_ kr) = IssueTypeKeyResult /\
      extractParentIssueNumber (Issue_ kr) = Number (Issue_ o) /\
      ChildIssues kr = [] /\
      LatestUpdate kr = head (AllUpdates kr) /\
      exists q, q ∈ filteredIssues /\
        with_Type IssueTypeUnset (Issue_ kr) = with_Type IssueTypeUnset (heap st !!! q).
Proof.
  intros Hrange Hrun. cbv zeta.
  unfold ProcessOKRIssues, get in Hrun.
  unfold mbind at 1, M_bind at 1 in Hrun.
  set (filtered := filterIssuesByLabels (heap st) issues requiredLabels) in *.
  destruct (Z.of_nat (length filtered) =? 0).
  { injection Hrun as Ha Hs; subst objectives st'. split; [apply sameButType_refl|].
    intros o Ho. inversion Ho. }
  unfold mbind at 1, M_bind at 1 in Hrun.
  destruct (Build_groups FindParentIssue_none filtered ∅ st) as (m & w1 & Hbuild & Hm).
  unfold BuildParentChildRelationships in Hrun. rewrite Hbuild in Hrun.
  unfold mbind at 1, M_bind at 1 in Hrun.
  destruct (Identify_loop m (heap st) filtered [] (heap st) w1 (sameButType_refl _))
    as (h2 & Hident & Hsame2 & _).
  unfold IdentifyObjectivesAndKeyResults in Hrun. cbn [app] in Hident.
  rewrite Hident in Hrun.
  set (parents := List.filter _ filtered) in *.
  assert (Hparents : forall p, p ∈ parents -> p ∈ filtered).
  { intros p Hp. unfold parents in Hp.
    apply list_elem_of_In, List.filter_In in Hp as [Hp _]. apply list_elem_of_In, Hp. }
  unfold mbind at 1, M_bind at 1 in Hrun.
  assert (Hfall : exists parents3 h3,
            (if Z.of_nat (length parents) =? 0
             then foldM forceObjective parents filtered
             else mret parents) (mkState h2 w1)
            = Returns (parents3, mkState h3 w1) /\
            sameButType (heap st) h3 /\
            forall p, p ∈ parents3 -> p ∈ filtered).
  { destruct (Z.of_nat (length parents) =? 0).
    - destruct (forceObjective_loop filtered parents (mkState h2 w1))
        as (h3 & Hforce & Hsame3 & _).
      exists (parents ++ filtered)%list, h3. split; [exact Hforce|].
      split; [eapply sameButType_trans; eassumption|].
      intros p Hp. apply elem_of_app in Hp as [Hp|Hp]; [apply Hparents, Hp|exact Hp].
    - exists parents, h2. split; [reflexivity|]. split; [exact Hsame2|exact Hparents]. }
  destruct Hfall as (parents3 & h3 & Hfall & Hsame3 & Hparents3).
  rewrite Hfall in Hrun.
  assert (Hchildren : forall n c, c ∈ children_of m n ->
            c ∈ filtered /\ extractParentIssueNumber (heap st !!! c) = n).
  { intros n c Hc. rewrite Hm in Hc.
    unfold children_of at 1 in Hc. rewrite lookup_empty in Hc. cbn [default app] in Hc.
    destruct (n >? 0); [|inversion Hc].
    apply list_elem_of_In, List.filter_In in Hc as [Hc Hn].
    split; [apply list_elem_of_In, Hc|]. apply Z.eqb_eq, Hn. }
  assert (Hfiltered : forall p, p ∈ filtered -> (p < length (heap st))%nat).
  { intros p Hp. apply Hrange. eapply filterIssuesByLabels_subset. exact Hp. }
  apply (objectives_loop_shape m (heap st)) in Hrun as [Hsame' (out & Hout & Hshape)];
    [| |exact Hsame3].
  2:{ intros n c Hc. apply Hfiltered, (Hchildren n c Hc). }
  cbn [app] in Hout. subst out.
  split; [exact Hsame'|].
  intros o Ho. destruct (Hshape o Ho) as (p & Hp & Hissue & Hlatest & Hkrs).
  split; [exact Hlatest|]. split; [exists p; split; [apply Hparents3, Hp|exact Hissue]|].
  intros kr Hkr. destruct (Hkrs kr Hkr) as (c & Hc & Hty & Hkrissue & Hleaf & Hkrlatest).
  destruct (Hchildren _ _ Hc) as [Hcin Hcref].
  split; [exact Hty|].
  split.
  - destruct (with_Type_Unset_eq _ _ Hkrissue) as [_ ->].
    destruct (with_Type_Unset_eq _ _ Hissue) as [-> _]. exact Hcref.
  - split; [exact Hleaf|]. split; [exact Hkrlatest|].
    exists c. split; [exact Hcin|exact Hkrissue].
Qed.

End Shape.

(** ** The weekly updates of the service *)

Section Headings.
Import regexp regexp_spec calendar.
Local Open Scope string_scope.

(** Where a match starts, the beginning-of-line flag is the one that the
    text before it leaves. *)
Lemma findFrom_line (r : re) (s : string) :
  forall bol m, findFrom r bol s = Some m ->
  exists pre w post bol' cs,
    s = pre ++ w ++ post /\ matched r (bolAfter bol pre) w bol' cs /\ m = w :: cs.
Proof.
  induction s as [|c s IH]; intros bol m Hrun; cbn [findFrom] in Hrun.
  - destruct (matchRe r bol "" [] _) as [y|] eqn:Hm; [|discriminate].
    injection Hrun as <-.
    destruct (first_attempt_sound _ _ _ _ Hm) as (w & post & bol' & cs & Hs & Hw & ->).
    exists "", w, post, bol', cs. split; [exact Hs|]. split; [exact Hw|reflexivity].
  - destruct (matchRe r bol (String c s) [] _) as [y|] eqn:Hm.
    + injection Hrun as <-.
      destruct (first_attempt_sound _ _ _ _ Hm) as (w & post & bol' & cs & Hs & Hw & ->).
      exists "", w, post, bol', cs. split; [exact Hs|].
      split; [exact Hw|reflexivity].
    + destruct (IH _ _ Hrun) as (pre & w & post & bol' & cs & -> & Hw & ->).
      exists (String c pre), w, post, bol', cs.
      split; [reflexivity|]. split; [exact Hw|reflexivity].
Qed.

Lemma matched_BeginLine_inv bol w bol' cs :
  matched BeginLine bol w bol' cs -> bol = true /\ w = "" /\ bol' = true /\ cs = [].
Proof. intros Hm. inversion Hm; subst. repeat split. Qed.

(** X22.  Every update that [ExtractWeeklyUpdates] returns comes from one of the
    comments, which it keeps whole as the content: in that comment a line
    starts with the heading mark, and the date of the update, four digits,
    two and two with dashes between, follows on it.  The author is always
    "unknown".  The updates are in the order of the calendar, newest
    first. *)
Theorem ExtractWeeklyUpdates_entries (comments : list string) :
  let updates := service.ExtractWeeklyUpdates comments in
  (forall u, In u updates ->
     In (Content u) comments /\
     Author u = "unknown" /\
     isoShaped (Date u) = true /\
     exists pre heading post,
       Content u = pre ++ "#" ++ heading ++ Date u ++ post /\
       bolAfter true pre = true) /\
  (forall i j x y, (i < j)%nat -> updates !! i = Some x -> updates !! j = Some y ->
                   (dayNumber (Date y) <= dayNumber (Date x))%Z).
Proof.
  intros updates. unfold updates, service.ExtractWeeklyUpdates. cbv zeta.
  match goal with |- context [GoSort.Slice _ ?l] => set (parsed := l) end.
  destruct (Slice_sorts repository.newerFirst newerFirst_irrefl newerFirst_trans
              newerFirst_negtrans parsed) as [Hord Hperm].
  assert (Hentry : forall u, In u (GoSort.Slice repository.newerFirst parsed) ->
     In (Content u) comments /\
     Author u = "unknown" /\
     isoShaped (Date u) = true /\
     exists pre heading post,
       Content u = pre ++ "#" ++ heading ++ Date u ++ post /\
       bolAfter true pre = true).
  { intros u Hu. apply list_elem_of_In in Hu. rewrite Hperm in Hu.
    apply list_elem_of_omap in Hu as (comment & Hcomment & Hu).
    apply list_elem_of_In in Hcomment.
    destruct (FindStringSubmatch weeklyUpdateRegex comment) as [m|] eqn:Hfind;
      [|discriminate].
    destruct (findFrom_line _ _ _ _ Hfind) as (pre & w & post & bol' & cs & Htext & Hm & ->).
    unfold weeklyUpdateRegex in Hm. cbn [seq_re] in Hm.
    apply matched_Cat_inv in Hm as (w0 & x0 & b0 & c0 & z0 & -> & -> & H0 & Hm).
    apply matched_Cat_inv in Hm as (w1 & x1 & b1 & c1 & z1 & -> & -> & H1 & Hm).
    apply matched_Cat_inv in Hm as (w2 & x2 & b2 & c2 & z2 & -> & -> & H2 & Hm).
    apply matched_Cat_inv in Hm as (w3 & x3 & b3 & c3 & z3 & -> & -> & H3 & Hm).
    apply matched_Cat_inv in Hm as (w4 & x4 & b4 & c4 & z4 & -> & -> & H4 & Hm).
    apply matched_Cat_inv in Hm as (w5 & x5 & b5 & c5 & z5 & -> & -> & H5 & Hm).
    apply matched_Cat_inv in Hm as (w6 & x6 & b6 & c6 & z6 & -> & -> & H6 & Hm).
    apply matched_Cat_inv in Hm as (w7 & x7 & b7 & c7 & z7 & -> & -> & H7 & Hm).
    inversion Hm; subst.
    apply matched_BeginLine_inv in H0 as (Hline & -> & -> & ->).
    apply matched_lit in H1 as [-> ->].
    rewrite (matched_capfree _ _ _ _ _ H2 eq_refl), (matched_capfree _ _ _ _ _ H3 eq_refl),
      (matched_capfree _ _ _ _ _ H4 eq_refl), (matched_capfree _ _ _ _ _ H5 eq_refl),
      (matched_capfree _ _ _ _ _ H6 eq_refl) in Hu.
    apply matched_Cap_inv in H7 as (cs' & -> & H7).
    apply matched_datePattern in H7 as [Hshape ->]. cbn [app] in Hu.
    injection Hu as <-. cbn [Content Author Date].
    split; [exact Hcomment|]. split; [reflexivity|]. split; [exact Hshape|].
    exists pre, (w2 ++ w3 ++ w4 ++ w5 ++ w6), post. split; [|exact Hline].
    rewrite !append_assoc, !append_nil_l, ?append_nil_r. reflexivity. }
  split; [exact Hentry|].
  intros i j x y Hij Hx Hy.
  pose proof (Hord i j x y Hij Hx Hy) as Hle.
  unfold repository.newerFirst, gt in Hle.
  rewrite lt_dayNumber in Hle.
  - apply Z.ltb_ge in Hle. exact Hle.
  - apply Hentry. apply list_elem_of_In. eapply list_elem_of_lookup_2. exact Hx.
  - apply Hentry. apply list_elem_of_In. eapply list_elem_of_lookup_2. exact Hy.
Qed.

End Headings.

(** ** The theorems above at sample inputs *)

Lemma ExtractOwnerRepoFromIssue_canonical_witness :
  repository.ExtractOwnerRepoFromIssue sample.selfReferring
  = ("acme"%string, "okr"%string).
Proof.
  apply (ExtractOwnerRepoFromIssue_canonical sample.selfReferring
           "a" "o" "5" "cme" "kr" ""); reflexivity.
Defined.

Lemma parseProjectURL_org_view_witness :
  project.parseProjectURL "https://github.com/orgs/acme/projects/7/views/3"
  = project.Project
      (project.mkProjectInfo "acme" "" 7 3 project.ProjectTypeOrganization
         "https://github.com/orgs/acme/projects/7/views/3").
Proof.
  apply (parseProjectURL_org_view "a" "7" "3" "cme" "" "" "" 7 3);
    first [reflexivity | exact I].
Defined.

Lemma fetchIssueComments_accounting_witness :
  let b := testserver.newClient None
             (testserver.mkServer 0 ["timeout"%string] []
                [(7, [testserver.weekly "alice" "2025-07-01"])]) in
  match github.fetchIssueComments 5 "acme" "okr" 7 b with
  | Returns ((comments, err), b') =>
      github.ErrorsCount (github.stats b')
      = github.ErrorsCount (github.stats b) + match err with Some _ => 1 | None => 0 end /\
      github.RetryCount (github.stats b') <= github.RetryCount (github.stats b) + 2
  | Diverges => False
  end.
Proof.
  cbv zeta.
  destruct (github.fetchIssueComments 5 "acme" "okr" 7 _) as [[[comments err] b']|] eqn:Hrun;
    [|vm_compute in Hrun; discriminate Hrun].
  destruct (fetchIssueComments_accounting _ _ _ _ _ _ _ _ Hrun)
    as (_ & Herr & _ & [_ Hretry] & _).
  split; [exact Herr|exact Hretry].
Defined.

Lemma fetchIssuesBySearchQuery_accounting_witness :
  let b := testserver.newClient (Some testserver.limitTwo)
             (testserver.mkServer 0 [] testserver.sixIssues []) in
  match github.fetchIssuesBySearchQuery 10 "acme" "okr" "label:kind/okr" b with
  | Returns ((issues, err), b') =>
      github.ErrorsCount (github.stats b')
      = github.ErrorsCount (github.stats b) + match err with Some _ => 1 | None => 0 end /\
      github.config b' = github.config b
  | Diverges => False
  end.
Proof.
  cbv zeta.
  destruct (github.fetchIssuesBySearchQuery 10 "acme" "okr" "label:kind/okr" _)
    as [[[issues err] b']|] eqn:Hrun; [|vm_compute in Hrun; discriminate Hrun].
  destruct (fetchIssuesBySearchQuery_accounting _ _ _ _ _ _ _ _ Hrun)
    as (_ & Herr & _ & Hcfg & _).
  split; [apply Herr; discriminate|exact Hcfg].
Defined.



Lemma retryWithBackoff_schedule_witness :
  let b := testserver.newClient None (testserver.mkServer 0 [] [] []) in
  exists b',
    github.retryWithBackoff 3 testserver.scripted
      ([Some "timeout"; Some "timeout"; None]%string, b)
    = Returns (None, ([], b')) /\
    github.Now (github.remote b') = 5.
Proof.
  cbv zeta.
  set (b := testserver.newClient None (testserver.mkServer 0 [] [] [])).
  assert (Hsleep : forall d (r : testserver.Server),
            github.Now (github.Sleep d r) = github.Now r + d) by reflexivity.
  destruct (retryWithBackoff_schedule 3 ["timeout"; "timeout"]%string [] b Hsleep)
    as [Hwait _].
  destruct Hwait as (b' & Hrun & Hclock); [repeat constructor|reflexivity|].
  exists b'. split; [exact Hrun|]. rewrite Hclock. reflexivity.
Defined.

Lemma fetchIssueComments_repeats_pages_witness :
  let first := testserver.weekly "alice" "2025-07-01" in
  let second := testserver.weekly "alice" "2025-07-08" in
  let b := github.mkClient github.newStats None None
             (flaky.mkServer 0 0 [1%nat] [[first]; [second]]) in
  exists b',
    github.fetchIssueComments 5 "acme" "okr" 7 b
    = Returns (([first; first; second], None), b').
Proof.
  cbv zeta.
  apply (fetchIssueComments_repeats_pages 5 "acme" "okr" 7 _ 0 1
           [[testserver.weekly "alice" "2025-07-01"];
            [testserver.weekly "alice" "2025-07-08"]]);
    first [reflexivity | cbn; lia].
Defined.

Lemma status_follows_state_witness :
  GetKRStatus sample.quietObjective <> StatusCompleted.
Proof.
  destruct (status_follows_state sample.quietObjective eq_refl) as [_ Hopen].
  apply (Hopen eq_refl).
Defined.

Lemma GetObjectiveStatus_of_children_witness :
  GetObjectiveStatus sample.objectiveWithSilentKR <> StatusBlocked.
Proof.
  destruct (GetObjectiveStatus_of_children sample.objectiveWithSilentKR eq_refl)
    as [Hblocked _]; [discriminate|].
  intros Hb. apply Hblocked in Hb as (kr & Hkr & Hs).
  apply list_elem_of_singleton in Hkr as ->. discriminate Hs.
Defined.

Lemma BuildParentChildRelationships_groups_witness :
  let port := repository.Repository (R := testserver.Server) 10 in
  let st := mkState sample.danglingChain
              (testserver.newClient None (testserver.mkServer 0 [] [] [])) in
  exists m w',
    BuildParentChildRelationships [0; 1]%nat st = Returns (m, mkState (heap st) w') /\
    children_of m 5 = [1%nat] /\ children_of m 99 = [0%nat] /\ children_of m 6 = [].
Proof.
  cbv zeta.
  set (port := repository.Repository (R := testserver.Server) 10).
  set (st := mkState sample.danglingChain
               (testserver.newClient None (testserver.mkServer 0 [] [] []))).
  assert (Hnone : forall owner repo n w, exists x w',
            ports.FindParentIssue owner repo n w = Returns (x, w') /\
            (snd x <> None \/ fst x <= 0)).
  { intros owner repo n w. exists (0, None), w. split; [reflexivity|]. right. cbn. lia. }
  destruct (BuildParentChildRelationships_groups (H := port) Hnone [0; 1]%nat st)
    as (m & w' & Hrun & Hm).
  exists m, w'. split; [exact Hrun|].
  rewrite !Hm. repeat split; vm_compute; reflexivity.
Defined.

Lemma ProcessOKRIssues_hierarchy_witness :
  let port := repository.Repository (R := testserver.Server) 10 in
  let st := mkState sample.danglingChain
              (testserver.newClient None (testserver.mkServer 0 [] [] [])) in
  match ProcessOKRIssues [0; 1]%nat [] st with
  | Returns (objectives, st') =>
      forall o, o ∈ objectives ->
        forall kr, kr ∈ ChildIssues o ->
          Type_ (Issue_ kr) = IssueTypeKeyResult /\
          extractParentIssueNumber (Issue_ kr) = Number (Issue_ o) /\
          ChildIssues kr = []
  | Diverges => False
  end.
Proof.
  cbv zeta.
  set (port := repository.Repository (R := testserver.Server) 10).
  set (st := mkState sample.danglingChain
               (testserver.newClient None (testserver.mkServer 0 [] [] []))).
  assert (Hnone : forall owner repo n w, exists x w',
            ports.FindParentIssue owner repo n w = Returns (x, w') /\
            (snd x <> None \/ fst x <= 0)).
  { intros owner repo n w. exists (0, None), w. split; [reflexivity|]. right. cbn. lia. }
  destruct (ProcessOKRIssues [0; 1]%nat [] st) as [[objectives st']|] eqn:Hrun;
    [|vm_compute in Hrun; discriminate Hrun].
  assert (Hrange : forall p, p ∈ [0; 1]%nat -> (p < length (heap st))%nat).
  { intros p Hp. apply elem_of_cons in Hp as [->|Hp]; [cbn; lia|].
    apply list_elem_of_singleton in Hp as ->. cbn. lia. }
  destruct (ProcessOKRIssues_hierarchy (H := port) Hnone [0; 1]%nat [] st st' objectives
              Hrange Hrun) as [_ Hshape].
  intros o Ho kr Hkr.
  destruct (Hshape o Ho) as (_ & _ & Hkrs).
  destruct (Hkrs kr Hkr) as (Hty & Href & Hleaf & _).
  split; [exact Hty|]. split; [exact Href|exact Hleaf].
Defined.
